(** * LInQer.Slim: the lazy sequence wrapper [Enumerable]

    A shallow embedding of [src/LInQer.Slim.ts].  Enumerable objects live in
    a heap and are named by their position in it; the closures the source
    installs in [_generator], [_count] and [_tryGetAt] are defunctionalised,
    each constructor keeping the variables its closure captures.  Methods run
    in a state-and-exception monad over the heap. *)

From Stdlib Require Import ZArith String Ascii Lia.
From stdpp Require Import base list.

Local Open Scope Z_scope.

(** ** Values *)

(** The JavaScript values that flow through a sequence.  Numbers are the
    integers together with NaN, and arithmetic on them is exact: the
    source computes with doubles, which agree with it on the integers up
    to 2^53 in absolute value.  A string is the sequence of its UTF-16
    code units, each a character of [string]; none of these is a
    surrogate. *)
Inductive value :=
| VUndefined
| VNull
| VBool (b : bool)
| VNum (z : Z)
| VNaN
| VStr (s : string).

(** [Error] objects thrown by the library, told apart by their message, and
    the two engine errors the modelled code can meet. *)
Inductive error :=
| InvalidSourceError            (* 'the argument must be iterable!' *)
| InvalidOperationArgumentError (* 'the argument needs to be a function!' *)
| IndexOutOfRangeError          (* 'Index out of range' *)
| EmptySequenceError            (* 'The enumeration is empty' *)
| UnsupportedEagerAccessError   (* 'Calling length on this enumerable will iterate it. Use count()' *)
| TypeError                     (* calling null, iterating a non-iterable *)
| RangeError.                   (* new Array(n) with n < 0 *)

(** An Enumerable is referred to by its address in the heap. *)
Abbreviation ref := nat (only parsing).

(** [ISelector]: the second argument is the index, [VUndefined] when the
    caller passes one argument only. *)
Definition ISelector := value -> value -> value.
(** [IFilter]: the truthiness of what the condition returns. *)
Definition IFilter := value -> value -> bool.
(** [IComparer] *)
Definition IComparer := value -> value -> Z.

(** What a caller passes where the source expects a function: a function,
    or some other value ([undefined] when nothing is passed). *)
Inductive argument (F : Type) :=
| ArgFunction (f : F)
| ArgValue (v : value).
Arguments ArgFunction {F} f.
Arguments ArgValue {F} v.

(** ** Sources and generator functions *)

(** [IterableType], widened to every value a caller can pass.  [SrcPrim]
    is a primitive (a string is the only iterable one), [SrcArray] an
    array, [SrcSet] a [Set] (iterable, with [size], without [length]),
    [SrcObject] an object or ordinary function without [Symbol.iterator],
    [SrcGenFn] a generator function and [SrcEnum] an Enumerable.
    A generator function is one of the library's own ([gen] below) or a
    caller's, which yields the same finite list each time it is called. *)
Inductive source :=
| SrcPrim (v : value)
| SrcArray (a : list value)
| SrcSet (a : list value)
| SrcObject
| SrcGenFn (g : gen)
| SrcEnum (e : ref)
with gen :=
| GenUser (items : list value)
| GenRange (start count : Z)
| GenRepeat (item : value) (count : Z)
| GenConcat (self : ref) (iterable : source)
| GenSelect (self : ref) (selector : ISelector)
| GenSkip (self : ref) (nr : Z)
| GenTake (self : ref) (nr : Z)
| GenWhere (self : ref) (condition : IFilter).

(** What the constructor stores in [_generator]: the source's own iterator
    method bound to the source, or the source itself when it is a generator
    function. *)
Inductive generator :=
| IteratorOf (src : source)
| GeneratorFunction (g : gen).

(** The closures assigned to [_count]. *)
Inductive countfn :=
| CountConst (n : Z)                 (* () => 0, () => count *)
| CountConcat (self other : ref)     (* () => self.count() + other.count() *)
| CountSkip (self : ref) (nr : Z)    (* () => Math.max(0, self.count() - nr) *)
| CountTake (self : ref) (nr : Z)    (* () => Math.min(nr, self.count()) *)
| CountInner (inner : ref)           (* () => innerEnumerable._count!() *)
| CountLength (src : source)         (* () => src.length *)
| CountSize (src : source)           (* () => src.size *)
| CountScan (enumerable : ref).      (* for (const item of enumerable) x++ *)

(** The closures assigned to [_tryGetAt]; they return [{ value }] or null. *)
Inductive getfn :=
| GetNull                                   (* index => null *)
| GetRange (start count : Z)
| GetRepeat (item : value) (count : Z)
| GetConcat (self other : ref)
| GetSelect (self : ref) (selector : ISelector)
| GetSkip (self : ref) (nr : Z)
| GetTake (self : ref) (nr : Z)
| GetInner (inner : ref)
| GetString (enumerable : ref)
| GetArray (enumerable : ref)
| GetScan (enumerable : ref).

(** ** The Enumerable object and the heap *)

Record Enumerable := mkEnumerable {
  _src : source;
  _generator : generator;
  _useQuickSort : bool;
  _canSeek : bool;
  _count : option countfn;
  _tryGetAt : option getfn;
  _wasIterated : bool
}.

(** Calls that leave the library: [EvIterate e] when [e[Symbol.iterator]()]
    is invoked, [EvInspect e] when a resolver goes past its memo check and
    examines the shape of [e._src]. *)
Inductive event :=
| EvIterate (e : ref)
| EvInspect (e : ref).

Record state := mkState {
  heap : list Enumerable;
  log : list event
}.

Definition init : state := mkState [] [].

(** ** The monad: state, exceptions and fuel *)

Inductive res (A : Type) :=
| Ok (a : A) (st : state)
| Throw (e : error) (st : state)
| Unfinished.
Arguments Ok {A} a st.
Arguments Throw {A} e st.
Arguments Unfinished {A}.

Definition M (A : Type) := state -> res A.

Definition ret {A} (a : A) : M A := fun st => Ok a st.
Definition throw {A} (e : error) : M A := fun st => Throw e st.
Definition unfinished {A} : M A := fun _ => Unfinished.
Definition bind {A B} (m : M A) (k : A -> M B) : M B :=
  fun st => match m st with
            | Ok a st' => k a st'
            | Throw e st' => Throw e st'
            | Unfinished => Unfinished
            end.

Notation "'let!' x := m 'in' k" := (bind m (fun x => k))
  (at level 10, x name, m at level 100, k at level 200, only parsing).
Notation "'do!' m 'in' k" := (bind m (fun _ => k))
  (at level 10, m at level 100, k at level 200, only parsing).

(** Reading and writing a field of a live object; a dangling reference is
    a [TypeError]. *)
Definition get_enum (e : ref) : M Enumerable :=
  fun st => match heap st !! e with
            | Some o => Ok o st
            | None => Throw TypeError st
            end.

Definition update (e : ref) (f : Enumerable -> Enumerable) : M unit :=
  fun st => match heap st !! e with
            | Some o => Ok tt (mkState (<[e := f o]> (heap st)) (log st))
            | None => Throw TypeError st
            end.

Definition emit (ev : event) : M unit :=
  fun st => Ok tt (mkState (heap st) (log st ++ [ev])).

Definition alloc (o : Enumerable) : M ref :=
  fun st => Ok (length (heap st)) (mkState (heap st ++ [o]) (log st)).

Definition set_canSeek (b : bool) (o : Enumerable) : Enumerable :=
  mkEnumerable (_src o) (_generator o) (_useQuickSort o) b
    (_count o) (_tryGetAt o) (_wasIterated o).
Definition set_count (c : countfn) (o : Enumerable) : Enumerable :=
  mkEnumerable (_src o) (_generator o) (_useQuickSort o) (_canSeek o)
    (Some c) (_tryGetAt o) (_wasIterated o).
Definition set_tryGetAt (g : getfn) (o : Enumerable) : Enumerable :=
  mkEnumerable (_src o) (_generator o) (_useQuickSort o) (_canSeek o)
    (_count o) (Some g) (_wasIterated o).
Definition set_wasIterated (o : Enumerable) : Enumerable :=
  mkEnumerable (_src o) (_generator o) (_useQuickSort o) (_canSeek o)
    (_count o) (_tryGetAt o) true.

Fixpoint mapM {A B} (f : A -> M B) (l : list A) : M (list B) :=
  match l with
  | [] => ret []
  | x :: l' => let! y := f x in let! ys := mapM f l' in ret (y :: ys)
  end.

(** ** Native iteration and indexing of the raw sources *)

(** A string iterates to its characters, each a one-character string.
    The string iterator goes by code points and yields a pair of
    surrogates as one item; the strings here have no surrogates, so a
    code point is a code unit. *)
Fixpoint chars (s : string) : list value :=
  match s with
  | EmptyString => []
  | String c s' => VStr (String c EmptyString) :: chars s'
  end.

(** [String.prototype.charAt]: the empty string outside the string. *)
Definition charAt (s : string) (index : Z) : string :=
  if index <? 0 then EmptyString
  else match String.get (Z.to_nat index) s with
       | Some c => String c EmptyString
       | None => EmptyString
       end.

(** [arr[index]] for an integer index: undefined outside the array. *)
Definition array_get (a : list value) (index : Z) : value :=
  if index <? 0 then VUndefined
  else default VUndefined (a !! Z.to_nat index).

(** [if (src)]: the falsy values are primitives. *)
Definition truthy (v : value) : bool :=
  match v with
  | VUndefined | VNull | VNaN => false
  | VBool b => b
  | VNum z => negb (z =? 0)
  | VStr s => negb (String.length s =? 0)%nat
  end.

(** [src[Symbol.iterator]] is defined. *)
Definition has_iterator (src : source) : bool :=
  match src with
  | SrcPrim (VStr _) | SrcArray _ | SrcSet _ | SrcEnum _ => true
  | _ => false
  end.

(** [typeof src !== 'function' && typeof src.length === 'number'] *)
Definition has_length (src : source) : option Z :=
  match src with
  | SrcPrim (VStr s) => Some (Z.of_nat (String.length s))
  | SrcArray a => Some (Z.of_nat (length a))
  | _ => None
  end.

(** [typeof src.size === 'number'] *)
Definition has_size (src : source) : option Z :=
  match src with
  | SrcSet a => Some (Z.of_nat (length a))
  | _ => None
  end.

(** [typeof src === 'function' &&
    src.constructor.name === 'GeneratorFunction'] *)
Definition is_generator_function (src : source) : bool :=
  match src with SrcGenFn _ => true | _ => false end.

(** [if (f)] for an argument: a function is truthy. *)
Definition arg_truthy {F} (f : argument F) : bool :=
  match f with
  | ArgFunction _ => true
  | ArgValue v => truthy v
  end.

(** [_ensureFunction] *)
Definition _ensureFunction {F} (f : argument F) : M unit :=
  match f with
  | ArgFunction _ => ret tt
  | ArgValue _ => throw InvalidOperationArgumentError
  end.

(** [_ensureIterable] *)
Definition _ensureIterable (src : source) : M unit :=
  let is_truthy := match src with SrcPrim v => truthy v | _ => true end in
  if is_truthy && (has_iterator src || is_generator_function src)
  then ret tt
  else throw InvalidSourceError.

(** The [_generator] the constructor derives from a source. *)
Definition generator_of (src : source) : option generator :=
  if has_iterator src then Some (IteratorOf src)
  else match src with
       | SrcGenFn g => Some (GeneratorFunction g)
       | _ => None
       end.

(** [selector(item, index)] over a whole iteration. *)
Definition select_items (selector : ISelector) (l : list value) : list value :=
  imap (fun i x => selector x (VNum (Z.of_nat i))) l.

Fixpoint where_items (condition : IFilter) (index : nat) (l : list value) : list value :=
  match l with
  | [] => []
  | x :: l' =>
      if condition x (VNum (Z.of_nat index))
      then x :: where_items condition (S index) l'
      else where_items condition (S index) l'
  end.

(** ** Iteration *)

(** What the built-in iterator of a raw iterable yields. *)
Definition native_items (src : source) : M (list value) :=
  match src with
  | SrcArray a | SrcSet a => ret a
  | SrcPrim (VStr s) => ret (chars s)
  | _ => throw TypeError
  end.

(** [iterate e] is [for (const item of e)] run to its end: the method
    [[Symbol.iterator]()] sets [_wasIterated] and calls [_generator], whose
    items are collected.  [run_gen g] is the body of a generator function
    of the library run to its end.  The source's generators are lazy: a
    consumer that leaves its loop early iterates a part of what is
    iterated here, so the flags and the log of a complete run bound those
    of the source from above, and the items consumed are the same. *)
Fixpoint iterate (fuel : nat) (e : ref) : M (list value) :=
  match fuel with
  | O => unfinished
  | S fuel =>
      do! update e set_wasIterated in
      do! emit (EvIterate e) in
      let! o := get_enum e in
      match _generator o with
      | IteratorOf (SrcEnum inner) => iterate fuel inner
      | IteratorOf src => native_items src
      | GeneratorFunction g => run_gen fuel g
      end
  end
with run_gen (fuel : nat) (g : gen) : M (list value) :=
  match fuel with
  | O => unfinished
  | S fuel =>
      match g with
      | GenUser items => ret items
      | GenRange start count =>
          ret ((fun i => VNum (start + i)) <$> seqZ 0 count)
      | GenRepeat item count =>
          ret (replicate (Z.to_nat count) item)
      | GenConcat self iterable =>
          let! a := iterate fuel self in
          (* Enumerable.from(iterable): the Enumerable itself, or a wrapper
             that lives for this loop only *)
          let! b := match iterable with
                    | SrcEnum other => iterate fuel other
                    | SrcGenFn g' => run_gen fuel g'
                    | _ => do! _ensureIterable iterable in native_items iterable
                    end in
          ret (a ++ b)
      | GenSelect self selector =>
          let! a := iterate fuel self in
          ret (select_items selector a)
      | GenSkip self nr =>
          let! a := iterate fuel self in
          ret (skipn (Z.to_nat nr) a)
      | GenTake self nr =>
          let! a := iterate fuel self in
          ret (firstn (Z.to_nat nr) a)
      | GenWhere self condition =>
          let! a := iterate fuel self in
          ret (where_items condition 0 a)
      end
  end.

(** ** The capability resolvers *)

(** [_ensureInternalCount] *)
Fixpoint _ensureInternalCount (fuel : nat) (enumerable : ref) : M unit :=
  match fuel with
  | O => unfinished
  | S fuel =>
      let! o := get_enum enumerable in
      match _count o with
      | Some _ => ret tt
      | None =>
          do! emit (EvInspect enumerable) in
          match _src o with
          | SrcEnum innerEnumerable =>
              do! _ensureInternalCount fuel innerEnumerable in
              update enumerable (set_count (CountInner innerEnumerable))
          | src =>
              match has_length src, has_size src with
              | Some _, _ => update enumerable (set_count (CountLength src))
              | None, Some _ => update enumerable (set_count (CountSize src))
              | None, None => update enumerable (set_count (CountScan enumerable))
              end
          end
      end
  end.

(** [_ensureInternalTryGetAt].  The branch for objects with a numeric
    [length] that are neither strings nor arrays has no source to apply
    to here: no modelled source is of that shape. *)
Fixpoint _ensureInternalTryGetAt (fuel : nat) (enumerable : ref) : M unit :=
  match fuel with
  | O => unfinished
  | S fuel =>
      let! o := get_enum enumerable in
      match _tryGetAt o with
      | Some _ => ret tt
      | None =>
          do! emit (EvInspect enumerable) in
          do! update enumerable (set_canSeek true) in
          match _src o with
          | SrcEnum innerEnumerable =>
              do! _ensureInternalTryGetAt fuel innerEnumerable in
              do! update enumerable (set_tryGetAt (GetInner innerEnumerable)) in
              let! i := get_enum innerEnumerable in
              update enumerable (set_canSeek (_canSeek i))
          | SrcPrim (VStr _) =>
              update enumerable (set_tryGetAt (GetString enumerable))
          | SrcArray _ =>
              update enumerable (set_tryGetAt (GetArray enumerable))
          | _ =>
              do! update enumerable (set_canSeek false) in
              update enumerable (set_tryGetAt (GetScan enumerable))
          end
      end
  end.

(** ** Calling the installed closures *)

(** [call_count c] runs the closure [c]; [count e] is the method
    [Enumerable.prototype.count]. *)
Fixpoint call_count (fuel : nat) (c : countfn) : M Z :=
  match fuel with
  | O => unfinished
  | S fuel =>
      match c with
      | CountConst n => ret n
      | CountConcat self other =>
          let! a := count fuel self in
          let! b := count fuel other in
          ret (a + b)
      | CountSkip self nr =>
          let! a := count fuel self in
          ret (Z.max 0 (a - nr))
      | CountTake self nr =>
          let! a := count fuel self in
          ret (Z.min nr a)
      | CountInner inner =>
          let! i := get_enum inner in
          match _count i with
          | Some c' => call_count fuel c'
          | None => throw TypeError
          end
      | CountLength src =>
          match has_length src with
          | Some n => ret n
          | None => throw TypeError
          end
      | CountSize src =>
          match has_size src with
          | Some n => ret n
          | None => throw TypeError
          end
      | CountScan enumerable =>
          let! items := iterate fuel enumerable in
          ret (Z.of_nat (length items))
      end
  end
with count (fuel : nat) (this : ref) : M Z :=
  match fuel with
  | O => unfinished
  | S fuel =>
      do! _ensureInternalCount fuel this in
      let! o := get_enum this in
      match _count o with
      | Some c => call_count fuel c
      | None => throw TypeError
      end
  end.

(** [call_tryGetAt g index] runs the closure [g]; [tryGetAt e index] is the
    call [e._tryGetAt!(index)], a [TypeError] when the field is null. *)
Fixpoint call_tryGetAt (fuel : nat) (g : getfn) (index : Z) : M (option value) :=
  match fuel with
  | O => unfinished
  | S fuel =>
      match g with
      | GetNull => ret None
      | GetRange start count =>
          if (0 <=? index) && (index <? count)
          then ret (Some (VNum (start + index))) else ret None
      | GetRepeat item count =>
          if (0 <=? index) && (index <? count)
          then ret (Some item) else ret None
      | GetConcat self other =>
          let! r := tryGetAt fuel self index in
          match r with
          | Some v => ret (Some v)
          | None =>
              let! n := count fuel self in
              tryGetAt fuel other (index - n)
          end
      | GetSelect self selector =>
          let! r := tryGetAt fuel self index in
          match r with
          | None => ret None
          | Some v => ret (Some (selector v VUndefined))
          end
      | GetSkip self nr => tryGetAt fuel self (index + nr)
      | GetTake self nr =>
          if nr <=? index then ret None else tryGetAt fuel self index
      | GetInner inner => tryGetAt fuel inner index
      | GetString enumerable =>
          let! o := get_enum enumerable in
          match _src o with
          | SrcPrim (VStr s) =>
              if index <? Z.of_nat (String.length s)
              then ret (Some (VStr (charAt s index))) else ret None
          | _ => throw TypeError
          end
      | GetArray enumerable =>
          let! o := get_enum enumerable in
          match _src o with
          | SrcArray a =>
              if (0 <=? index) && (index <? Z.of_nat (length a))
              then ret (Some (array_get a index)) else ret None
          | _ => throw TypeError
          end
      | GetScan enumerable =>
          let! items := iterate fuel enumerable in
          if index <? 0 then ret None else ret (items !! Z.to_nat index)
      end
  end
with tryGetAt (fuel : nat) (e : ref) (index : Z) : M (option value) :=
  match fuel with
  | O => unfinished
  | S fuel =>
      let! o := get_enum e in
      match _tryGetAt o with
      | Some g => call_tryGetAt fuel g index
      | None => throw TypeError
      end
  end.

(** ** The class *)

Module Linqer.

(** [new Enumerable(src)] *)
Definition new (src : source) : M ref :=
  do! _ensureIterable src in
  match generator_of src with
  | None => throw InvalidSourceError
  | Some g =>
      let! q := match src with
                | SrcEnum e => let! o := get_enum e in ret (_useQuickSort o)
                | _ => ret true
                end in
      alloc (mkEnumerable src g q false None None false)
  end.

(** [Enumerable.from] *)
Definition from (iterable : source) : M ref :=
  match iterable with
  | SrcEnum e => ret e
  | _ => new iterable
  end.

(** [Enumerable.empty] *)
Definition empty : M ref :=
  let! result := new (SrcArray []) in
  do! update result (set_count (CountConst 0)) in
  do! update result (set_tryGetAt GetNull) in
  do! update result (set_canSeek true) in
  ret result.

(** [Enumerable.range] *)
Definition range (start count : Z) : M ref :=
  let! result := new (SrcGenFn (GenRange start count)) in
  do! update result (set_count (CountConst count)) in
  do! update result (set_tryGetAt (GetRange start count)) in
  do! update result (set_canSeek true) in
  ret result.

(** [Enumerable.repeat] *)
Definition repeat (item : value) (count : Z) : M ref :=
  let! result := new (SrcGenFn (GenRepeat item count)) in
  do! update result (set_count (CountConst count)) in
  do! update result (set_tryGetAt (GetRepeat item count)) in
  do! update result (set_canSeek true) in
  ret result.

(** [get length()] *)
Definition length (fuel : nat) (this : ref) : M Z :=
  do! _ensureInternalTryGetAt fuel this in
  let! o := get_enum this in
  if _canSeek o then count fuel this
  else throw UnsupportedEagerAccessError.

(** [concat].  The source creates [result] before [other]; the two
    allocations are swapped here so that a closure only captures objects
    older than its owner, which no method can tell apart. *)
Definition concat (fuel : nat) (this : ref) (iterable : source) : M ref :=
  do! _ensureIterable iterable in
  let! other := from iterable in
  let! result := new (SrcGenFn (GenConcat this iterable)) in
  do! update result (set_count (CountConcat this other)) in
  do! _ensureInternalTryGetAt fuel this in
  do! _ensureInternalTryGetAt fuel other in
  let! s := get_enum this in
  let! o := get_enum other in
  do! update result (set_canSeek (_canSeek s && _canSeek o)) in
  do! (if _canSeek s
       then update result (set_tryGetAt (GetConcat this other))
       else ret tt) in
  ret result.

(** [elementAt] *)
Definition elementAt (fuel : nat) (this : ref) (index : Z) : M value :=
  do! _ensureInternalTryGetAt fuel this in
  let! result := tryGetAt fuel this index in
  match result with
  | None => throw IndexOutOfRangeError
  | Some v => ret v
  end.

(** [elementAtOrDefault] *)
Definition elementAtOrDefault (fuel : nat) (this : ref) (index : Z) : M value :=
  do! _ensureInternalTryGetAt fuel this in
  let! result := tryGetAt fuel this index in
  match result with
  | None => ret VUndefined
  | Some v => ret v
  end.

(** [first], [firstOrDefault] *)
Definition first (fuel : nat) (this : ref) : M value :=
  elementAt fuel this 0.
Definition firstOrDefault (fuel : nat) (this : ref) : M value :=
  elementAtOrDefault fuel this 0.

(** [last] *)
Definition last (fuel : nat) (this : ref) : M value :=
  do! _ensureInternalTryGetAt fuel this in
  let! o := get_enum this in
  if _canSeek o then
    let! n := count fuel this in
    elementAt fuel this (n - 1)
  else
    let! items := iterate fuel this in
    match list.last items with
    | Some v => ret v
    | None => throw EmptySequenceError
    end.

(** [lastOrDefault] *)
Definition lastOrDefault (fuel : nat) (this : ref) : M value :=
  do! _ensureInternalTryGetAt fuel this in
  let! o := get_enum this in
  if _canSeek o then
    let! n := count fuel this in
    elementAtOrDefault fuel this (n - 1)
  else
    let! items := iterate fuel this in
    ret (default VUndefined (list.last items)).

(** [select].  The selector is a function by its type, so
    [_ensureFunction] has nothing to reject. *)
Definition select (fuel : nat) (this : ref) (selector : ISelector) : M ref :=
  let! result := new (SrcGenFn (GenSelect this selector)) in
  do! _ensureInternalCount fuel this in
  let! s := get_enum this in
  do! update result
        (fun o => mkEnumerable (_src o) (_generator o) (_useQuickSort o)
                    (_canSeek o) (_count s) (_tryGetAt o) (_wasIterated o)) in
  do! _ensureInternalTryGetAt fuel this in
  let! s := get_enum this in
  do! update result (set_canSeek (_canSeek s)) in
  do! update result (set_tryGetAt (GetSelect this selector)) in
  ret result.

(** [skip] *)
Definition skip (fuel : nat) (this : ref) (nr : Z) : M ref :=
  let! result := new (SrcGenFn (GenSkip this nr)) in
  do! update result (set_count (CountSkip this nr)) in
  do! _ensureInternalTryGetAt fuel this in
  let! s := get_enum this in
  do! update result (set_canSeek (_canSeek s)) in
  do! update result (set_tryGetAt (GetSkip this nr)) in
  ret result.

(** [take] *)
Definition take (fuel : nat) (this : ref) (nr : Z) : M ref :=
  let! result := new (SrcGenFn (GenTake this nr)) in
  do! update result (set_count (CountTake this nr)) in
  do! _ensureInternalTryGetAt fuel this in
  let! s := get_enum this in
  do! update result (set_canSeek (_canSeek s)) in
  do! (if _canSeek s
       then update result (set_tryGetAt (GetTake this nr))
       else ret tt) in
  ret result.

(** [splice] *)
Definition splice (fuel : nat) (this : ref) (start howmany : Z)
    (newItems : list value) : M ref :=
  let! t := take fuel this start in
  let! c := concat fuel t (SrcArray newItems) in
  let! s := skip fuel this (start + howmany) in
  concat fuel c (SrcEnum s).

(** [where] *)
Definition where_ (fuel : nat) (this : ref) (condition : IFilter) : M ref :=
  new (SrcGenFn (GenWhere this condition)).

(** [toArray].  [new Array(n)] throws for a negative [n]; it also throws
    from 2^32 on, which is not modelled: statements that give the array
    of a seekable Handle carry that bound. *)
Definition toArray (fuel : nat) (this : ref) : M (list value) :=
  do! _ensureInternalTryGetAt fuel this in
  let! o := get_enum this in
  if _canSeek o then
    let! n := count fuel this in
    if n <? 0 then throw RangeError
    else mapM (fun i => let! r := tryGetAt fuel this i in
                        ret (default VUndefined r)) (seqZ 0 n)
  else iterate fuel this.

(** [toList] *)
Definition toList (fuel : nat) (this : ref) : M ref :=
  do! _ensureInternalTryGetAt fuel this in
  let! o := get_enum this in
  if _canSeek o then ret this
  else let! arr := toArray fuel this in from (SrcArray arr).

(** *** Aggregates *)

(** [_toNumber]: [typeof NaN] is ['number'] too. *)
Definition _toNumber (obj : value) : value :=
  match obj with
  | VNum z => VNum z
  | _ => VNaN
  end.

(** [+] on two numbers. *)
Definition num_add (a b : value) : value :=
  match a, b with
  | VNum x, VNum y => VNum (x + y)
  | _, _ => VNaN
  end.

Record SumAndCount := mkSumAndCount { sc_sum : value; sc_count : Z }.
Record Stats := mkStats { st_count : Z; st_min : value; st_max : value }.

Definition sumAndCount_step (agg : SumAndCount) (item : value) : SumAndCount :=
  mkSumAndCount
    (if sc_count agg =? 0 then _toNumber item
     else num_add (sc_sum agg) (_toNumber item))
    (sc_count agg + 1).

(** [sumAndCount] *)
Definition sumAndCount (fuel : nat) (this : ref) : M SumAndCount :=
  let! items := iterate fuel this in
  ret (fold_left sumAndCount_step items (mkSumAndCount (VNum 0) 0)).

(** [sum] *)
Definition sum (fuel : nat) (this : ref) : M value :=
  let! stats := sumAndCount fuel this in
  ret (if sc_count stats =? 0 then VUndefined else sc_sum stats).

Section Comparing.

(** The engine's conversion of a string to a number (a number or NaN),
    which the relational operators apply to a string compared with a
    value that is not a string. *)
Variable StringToNumber : string -> value.

Definition ToNumber (v : value) : value :=
  match v with
  | VUndefined => VNaN
  | VNull => VNum 0
  | VBool b => VNum (if b then 1 else 0)
  | VNum z => VNum z
  | VNaN => VNaN
  | VStr s => StringToNumber s
  end.

(** [a < b]: two strings compare as strings, anything else as numbers,
    and a comparison with NaN is false. *)
Definition js_lt (a b : value) : bool :=
  match a, b with
  | VStr s, VStr t => String.ltb s t
  | _, _ =>
      match ToNumber a, ToNumber b with
      | VNum x, VNum y => x <? y
      | _, _ => false
      end
  end.

(** [_defaultComparer] *)
Definition _defaultComparer : IComparer :=
  fun item1 item2 =>
    if js_lt item2 item1 then 1
    else if js_lt item1 item2 then -1
    else 0.

Definition is_undefined (v : value) : bool :=
  match v with VUndefined => true | _ => false end.

Definition stats_step (comparer : IComparer) (agg : Stats) (item : value) : Stats :=
  let min' := if is_undefined (st_min agg) || (comparer item (st_min agg) <? 0)
              then item else st_min agg in
  let max' := if is_undefined (st_max agg) || (0 <? comparer item (st_max agg))
              then item else st_max agg in
  mkStats (st_count agg + 1) min' max'.

(** [stats]; [ArgValue VUndefined] is the call without a comparer. *)
Definition stats (fuel : nat) (this : ref) (comparer : argument IComparer) : M Stats :=
  do! (if arg_truthy comparer then _ensureFunction comparer else ret tt) in
  let comparer := match comparer with
                  | ArgFunction c => c
                  | ArgValue _ => _defaultComparer
                  end in
  let! items := iterate fuel this in
  ret (fold_left (stats_step comparer) items (mkStats 0 VUndefined VUndefined)).

(** [min] *)
Definition min (fuel : nat) (this : ref) (comparer : argument IComparer) : M value :=
  let! stats := stats fuel this comparer in
  ret (if st_count stats =? 0 then VUndefined else st_min stats).

(** [max] *)
Definition max (fuel : nat) (this : ref) (comparer : argument IComparer) : M value :=
  let! stats := stats fuel this comparer in
  ret (if st_count stats =? 0 then VUndefined else st_max stats).

End Comparing.

End Linqer.

(** ** Programs over the class *)

(** A reference of a source is live below [k], and the source is one that
    [_ensureIterable] accepts. *)
Fixpoint gen_wf (k : nat) (g : gen) : bool :=
  match g with
  | GenUser _ | GenRange _ _ | GenRepeat _ _ => true
  | GenConcat self iterable => (self <? k)%nat && src_wf k iterable
  | GenSelect self _ | GenSkip self _ | GenTake self _ | GenWhere self _ =>
      (self <? k)%nat
  end
with src_wf (k : nat) (src : source) : bool :=
  match src with
  | SrcPrim (VStr s) => negb (String.length s =? 0)%nat
  | SrcPrim _ => false
  | SrcArray _ | SrcSet _ => true
  | SrcObject => false
  | SrcGenFn g => gen_wf k g
  | SrcEnum e => (e <? k)%nat
  end.

(** A source a caller can pass: as [src_wf], and any value that
    [_ensureIterable] rejects. *)
Definition arg_wf (k : nat) (src : source) : bool :=
  match src with
  | SrcPrim _ | SrcObject => true
  | _ => src_wf k src
  end.

(** One call of a static or instance method by a client. *)
Inductive call :=
| CallNew (src : source)
| CallFrom (src : source)
| CallEmpty
| CallRange (start count : Z)
| CallRepeat (item : value) (count : Z)
| CallLength (this : ref)
| CallConcat (this : ref) (iterable : source)
| CallCount (this : ref)
| CallElementAt (this : ref) (index : Z)
| CallElementAtOrDefault (this : ref) (index : Z)
| CallFirst (this : ref)
| CallFirstOrDefault (this : ref)
| CallLast (this : ref)
| CallLastOrDefault (this : ref)
| CallSelect (this : ref) (selector : ISelector)
| CallSkip (this : ref) (nr : Z)
| CallTake (this : ref) (nr : Z)
| CallSplice (this : ref) (start howmany : Z) (newItems : list value)
| CallWhere (this : ref) (condition : IFilter)
| CallToArray (this : ref)
| CallToList (this : ref)
| CallSumAndCount (this : ref)
| CallSum (this : ref)
| CallStats (this : ref) (comparer : argument IComparer)
| CallMin (this : ref) (comparer : argument IComparer)
| CallMax (this : ref) (comparer : argument IComparer).

(** The receiver and the arguments of a call exist when it is made. *)
Definition call_wf (k : nat) (c : call) : bool :=
  match c with
  | CallNew src | CallFrom src => arg_wf k src
  | CallEmpty | CallRange _ _ | CallRepeat _ _ => true
  | CallConcat this iterable => (this <? k)%nat && arg_wf k iterable
  | CallLength this | CallCount this | CallElementAt this _
  | CallElementAtOrDefault this _ | CallFirst this | CallFirstOrDefault this
  | CallLast this | CallLastOrDefault this | CallSelect this _
  | CallSkip this _ | CallTake this _ | CallSplice this _ _ _
  | CallWhere this _ | CallToArray this | CallToList this
  | CallSumAndCount this | CallSum this | CallStats this _
  | CallMin this _ | CallMax this _ => (this <? k)%nat
  end.

Definition ignore {A} (m : M A) : M unit := do! m in ret tt.

Section Programs.

Variable StringToNumber : string -> value.

Definition exec (fuel : nat) (c : call) : M unit :=
  match c with
  | CallNew src => ignore (Linqer.new src)
  | CallFrom src => ignore (Linqer.from src)
  | CallEmpty => ignore Linqer.empty
  | CallRange start n => ignore (Linqer.range start n)
  | CallRepeat item n => ignore (Linqer.repeat item n)
  | CallLength this => ignore (Linqer.length fuel this)
  | CallConcat this iterable => ignore (Linqer.concat fuel this iterable)
  | CallCount this => ignore (count fuel this)
  | CallElementAt this index => ignore (Linqer.elementAt fuel this index)
  | CallElementAtOrDefault this index =>
      ignore (Linqer.elementAtOrDefault fuel this index)
  | CallFirst this => ignore (Linqer.first fuel this)
  | CallFirstOrDefault this => ignore (Linqer.firstOrDefault fuel this)
  | CallLast this => ignore (Linqer.last fuel this)
  | CallLastOrDefault this => ignore (Linqer.lastOrDefault fuel this)
  | CallSelect this selector => ignore (Linqer.select fuel this selector)
  | CallSkip this nr => ignore (Linqer.skip fuel this nr)
  | CallTake this nr => ignore (Linqer.take fuel this nr)
  | CallSplice this start howmany newItems =>
      ignore (Linqer.splice fuel this start howmany newItems)
  | CallWhere this condition => ignore (Linqer.where_ fuel this condition)
  | CallToArray this => ignore (Linqer.toArray fuel this)
  | CallToList this => ignore (Linqer.toList fuel this)
  | CallSumAndCount this => ignore (Linqer.sumAndCount fuel this)
  | CallSum this => ignore (Linqer.sum fuel this)
  | CallStats this comparer =>
      ignore (Linqer.stats StringToNumber fuel this comparer)
  | CallMin this comparer => ignore (Linqer.min StringToNumber fuel this comparer)
  | CallMax this comparer => ignore (Linqer.max StringToNumber fuel this comparer)
  end.

(** A client program is a list of calls; an exception ends the call that
    raised it (the client catches it) and the program goes on.  [None]:
    a call names an object that does not exist, or the fuel ran out. *)
Fixpoint run (fuel : nat) (p : list call) (st : state) : option state :=
  match p with
  | [] => Some st
  | c :: p' =>
      if call_wf (length (heap st)) c then
        match exec fuel c st with
        | Ok _ st' | Throw _ st' => run fuel p' st'
        | Unfinished => None
        end
      else None
  end.

End Programs.

(** The calls whose count arguments are natural numbers. *)
Definition in_contract (c : call) : bool :=
  match c with
  | CallRange _ n | CallRepeat _ n => 0 <=? n
  | CallSkip _ nr | CallTake _ nr => 0 <=? nr
  | CallSplice _ start howmany _ => (0 <=? start) && (0 <=? howmany)
  | _ => true
  end.

(** ** What an Enumerable denotes *)

(** The observable content of an Enumerable, independent of how much of it
    has been resolved so far: its source, the items an iteration yields,
    what [count()] returns, what the resolved [_tryGetAt] returns at each
    index, and the resolved [_canSeek]. *)
Record den := mkDen {
  d_src : source;
  d_items : list value;
  d_cnt : Z;
  d_get : Z -> option value;
  d_seek : bool
}.

Definition no_den : den := mkDen SrcObject [] 0 (fun _ => None) false.

Definition dlook (D : list den) (e : ref) : den := default no_den (D !! e).

Definition native_den (src : source) : list value :=
  match src with
  | SrcArray a | SrcSet a => a
  | SrcPrim (VStr s) => chars s
  | _ => []
  end.

(** The items of a generator function and of [Enumerable.from(src)]. *)
Fixpoint gen_den (D : list den) (g : gen) : list value :=
  match g with
  | GenUser items => items
  | GenRange start count => (fun i => VNum (start + i)) <$> seqZ 0 count
  | GenRepeat item count => replicate (Z.to_nat count) item
  | GenConcat self iterable => d_items (dlook D self) ++ src_den D iterable
  | GenSelect self selector => select_items selector (d_items (dlook D self))
  | GenSkip self nr => skipn (Z.to_nat nr) (d_items (dlook D self))
  | GenTake self nr => firstn (Z.to_nat nr) (d_items (dlook D self))
  | GenWhere self condition => where_items condition 0 (d_items (dlook D self))
  end
with src_den (D : list den) (src : source) : list value :=
  match src with
  | SrcEnum e => d_items (dlook D e)
  | SrcGenFn g => gen_den D g
  | _ => native_den src
  end.

Definition count_den (D : list den) (c : countfn) : Z :=
  match c with
  | CountConst n => n
  | CountConcat self other => d_cnt (dlook D self) + d_cnt (dlook D other)
  | CountSkip self nr => Z.max 0 (d_cnt (dlook D self) - nr)
  | CountTake self nr => Z.min nr (d_cnt (dlook D self))
  | CountInner inner => d_cnt (dlook D inner)
  | CountLength src => default 0 (has_length src)
  | CountSize src => default 0 (has_size src)
  | CountScan e => Z.of_nat (length (d_items (dlook D e)))
  end.

Definition get_den (D : list den) (g : getfn) (index : Z) : option value :=
  match g with
  | GetNull => None
  | GetRange start count =>
      if (0 <=? index) && (index <? count) then Some (VNum (start + index)) else None
  | GetRepeat item count =>
      if (0 <=? index) && (index <? count) then Some item else None
  | GetConcat self other =>
      match d_get (dlook D self) index with
      | Some v => Some v
      | None => d_get (dlook D other) (index - d_cnt (dlook D self))
      end
  | GetSelect self selector =>
      match d_get (dlook D self) index with
      | None => None
      | Some v => Some (selector v VUndefined)
      end
  | GetSkip self nr => d_get (dlook D self) (index + nr)
  | GetTake self nr => if nr <=? index then None else d_get (dlook D self) index
  | GetInner inner => d_get (dlook D inner) index
  | GetString e =>
      match d_src (dlook D e) with
      | SrcPrim (VStr s) =>
          if index <? Z.of_nat (String.length s)
          then Some (VStr (charAt s index)) else None
      | _ => None
      end
  | GetArray e =>
      match d_src (dlook D e) with
      | SrcArray a =>
          if (0 <=? index) && (index <? Z.of_nat (length a))
          then Some (array_get a index) else None
      | _ => None
      end
  | GetScan e =>
      if index <? 0 then None else d_items (dlook D e) !! Z.to_nat index
  end.

(** The closures the two resolvers install for a source, and the
    [_canSeek] the second one leaves. *)
Definition resolve_countfn (k : ref) (src : source) : countfn :=
  match src with
  | SrcEnum inner => CountInner inner
  | _ => match has_length src, has_size src with
         | Some _, _ => CountLength src
         | None, Some _ => CountSize src
         | None, None => CountScan k
         end
  end.

Definition resolve_getfn (k : ref) (src : source) : getfn :=
  match src with
  | SrcEnum inner => GetInner inner
  | SrcPrim (VStr _) => GetString k
  | SrcArray _ => GetArray k
  | _ => GetScan k
  end.

Definition resolve_seek (D : list den) (src : source) : bool :=
  match src with
  | SrcEnum inner => d_seek (dlook D inner)
  | SrcPrim (VStr _) | SrcArray _ => true
  | _ => false
  end.

(** The objects a closure calls are older than its owner [k], and those
    whose field it calls without resolving it first have it resolved. *)
Definition resolved_count (st : state) (e : ref) : Prop :=
  exists o c, heap st !! e = Some o /\ _count o = Some c.
Definition resolved_tryGetAt (st : state) (e : ref) : Prop :=
  exists o g, heap st !! e = Some o /\ _tryGetAt o = Some g.

Definition count_ok (st : state) (k : ref) (c : countfn) : Prop :=
  match c with
  | CountConst _ => True
  | CountConcat self other => (self < k)%nat /\ (other < k)%nat
  | CountSkip self _ | CountTake self _ => (self < k)%nat
  | CountInner inner => (inner < k)%nat /\ resolved_count st inner
  | CountLength src => is_Some (has_length src)
  | CountSize src => is_Some (has_size src)
  | CountScan e => (e <= k)%nat
  end.

Definition get_ok (D : list den) (st : state) (k : ref) (g : getfn) : Prop :=
  match g with
  | GetNull | GetRange _ _ | GetRepeat _ _ => True
  | GetConcat self other =>
      (self < k)%nat /\ (other < k)%nat /\
      resolved_tryGetAt st self /\ resolved_tryGetAt st other
  | GetSelect self _ | GetSkip self _ | GetTake self _ | GetInner self =>
      (self < k)%nat /\ resolved_tryGetAt st self
  | GetString e => (e <= k)%nat /\ exists s, d_src (dlook D e) = SrcPrim (VStr s)
  | GetArray e => (e <= k)%nat /\ exists a, d_src (dlook D e) = SrcArray a
  | GetScan e => (e <= k)%nat
  end.

(** The object [o] at address [k] is a state of resolution of [d]. *)
Record handle_ok (D : list den) (st : state) (k : ref) (o : Enumerable) (d : den) : Prop := {
  ok_src : _src o = d_src d;
  ok_wf : src_wf k (d_src d) = true;
  ok_generator : generator_of (d_src d) = Some (_generator o);
  ok_items : d_items d = src_den D (d_src d);
  ok_count :
    match _count o with
    | Some c => count_ok st k c /\ count_den D c = d_cnt d
    | None => count_den D (resolve_countfn k (d_src d)) = d_cnt d
    end;
  ok_tryGetAt :
    match _tryGetAt o with
    | Some g => get_ok D st k g /\ (forall i, get_den D g i = d_get d i) /\
                _canSeek o = d_seek d
    | None => (forall i, get_den D (resolve_getfn k (d_src d)) i = d_get d i) /\
              resolve_seek D (d_src d) = d_seek d
    end
}.

(** The heap invariant: the first [length D] objects denote [D]; younger
    objects are under construction. *)
Definition Inv (D : list den) (st : state) : Prop :=
  (length D <= length (heap st))%nat /\
  forall k o, (k < length D)%nat -> heap st !! k = Some o ->
              handle_ok D st k o (dlook D k).

(** What a method may do to an object that exists before it: nothing to
    the source and the generator, and nothing to a resolved capability. *)
Definition caps_kept (o o' : Enumerable) : Prop :=
  _src o' = _src o /\ _generator o' = _generator o /\
  _useQuickSort o' = _useQuickSort o /\
  (forall c, _count o = Some c -> _count o' = Some c) /\
  (forall g, _tryGetAt o = Some g ->
             _tryGetAt o' = Some g /\ _canSeek o' = _canSeek o).

Definition stable (st st' : state) : Prop :=
  forall k o, heap st !! k = Some o ->
    exists o', heap st' !! k = Some o' /\ caps_kept o o'.

(** The objects from address [b] on are left alone. *)
Definition keeps (b : nat) (st st' : state) : Prop :=
  forall j, (b <= j)%nat -> heap st' !! j = heap st !! j.

(** [m] returns [v] in state [st'] whenever it is given enough fuel. *)
Definition evals {A} (m : nat -> M A) (st : state) (v : A) (st' : state) : Prop :=
  exists n, forall fuel, (n <= fuel)%nat -> m fuel st = Ok v st'.

(** [m] throws [e] in state [st'] whenever it is given enough fuel. *)
Definition throws {A} (m : nat -> M A) (st : state) (e : error) (st' : state) : Prop :=
  exists n, forall fuel, (n <= fuel)%nat -> m fuel st = Throw e st'.

(** A total-correctness triple over the invariant: from [st], [m] returns
    a value and a state that satisfy [Q], keeps the invariant, changes the
    objects below [b] only by resolving them, and leaves the others. *)
Definition good (D : list den) (b : nat) (st : state) {A} (m : nat -> M A)
    (Q : A -> state -> Prop) : Prop :=
  exists v st', evals m st v st' /\ Inv D st' /\ stable st st' /\
                keeps b st st' /\ Q v st'.

(** * Denotations, object shapes and specifications *)

Definition refines {A} (m1 m2 : M A) : Prop :=
  forall st, m1 st <> Unfinished -> m2 st = m1 st.

Scheme gen_mut := Induction for gen Sort Prop
  with source_mut := Induction for source Sort Prop.

Definition iterate_spec (D : list den) (j : nat) : Prop :=
  forall st, Inv D st -> (j < length D)%nat ->
    good D (S j) st (fun f => iterate f j) (fun v _ => v = d_items (dlook D j)).

Definition call_count_spec (D : list den) (j : nat) : Prop :=
  forall c st, Inv D st -> (j < length D)%nat -> count_ok st j c ->
    good D (S j) st (fun f => call_count f c) (fun v _ => v = count_den D c).

Definition count_spec (D : list den) (j : nat) : Prop :=
  forall st, Inv D st -> (j < length D)%nat ->
    good D (S j) st (fun f => count f j) (fun v _ => v = d_cnt (dlook D j)).

(** The object [o] with its positional lookup resolved to [g] and its seek
    flag to [s]. *)
Definition resolved_obj (o : Enumerable) (g : getfn) (s : bool) : Enumerable :=
  mkEnumerable (_src o) (_generator o) (_useQuickSort o) s
    (_count o) (Some g) (_wasIterated o).

Definition call_get_spec (D : list den) (j : nat) : Prop :=
  forall g i st, Inv D st -> (j < length D)%nat -> get_ok D st j g ->
    good D (S j) st (fun f => call_tryGetAt f g i) (fun v _ => v = get_den D g i).

Definition get_spec (D : list den) (j : nat) : Prop :=
  forall i st, Inv D st -> (j < length D)%nat -> resolved_tryGetAt st j ->
    good D (S j) st (fun f => tryGetAt f j i)
      (fun v _ => v = d_get (dlook D j) i).

(** [D'] agrees with [D] on what an object at [k] can observe: the older
    objects, and its own source and items. *)
Definition agree (k : nat) (D D' : list den) : Prop :=
  (forall j, (j < k)%nat -> dlook D' j = dlook D j) /\
  d_items (dlook D' k) = d_items (dlook D k) /\
  d_src (dlook D' k) = d_src (dlook D k).

(** The denotation of the object [o] created at address [length D]. *)
Definition self_den (D : list den) (src : source) : den :=
  mkDen src (src_den D src) 0 (fun _ => None) false.

Definition new_den (D : list den) (o : Enumerable) : den :=
  let n := length D in
  let src := _src o in
  let D0 := D ++ [self_den D src] in
  mkDen src (src_den D src)
    (count_den D0 (match _count o with
                   | Some c => c
                   | None => resolve_countfn n src
                   end))
    (get_den D0 (match _tryGetAt o with
                 | Some g => g
                 | None => resolve_getfn n src
                 end))
    (match _tryGetAt o with
     | Some _ => _canSeek o
     | None => resolve_seek D src
     end).

Definition Full (D : list den) (st : state) : Prop :=
  Inv D st /\ length (heap st) = length D.

(** [new Enumerable(src)] for a source that [_ensureIterable] accepts. *)
Definition fresh (src : source) (g : generator) (q : bool) : Enumerable :=
  mkEnumerable src g q false None None false.

(** The object that [take] returns. *)
Definition take_obj (s : bool) (this : nat) (nr : Z) : Enumerable :=
  mkEnumerable (SrcGenFn (GenTake this nr)) (GeneratorFunction (GenTake this nr))
    true s (Some (CountTake this nr))
    (if s then Some (GetTake this nr) else None) false.

(** The object that [skip] returns. *)
Definition skip_obj (s : bool) (this : nat) (nr : Z) : Enumerable :=
  mkEnumerable (SrcGenFn (GenSkip this nr)) (GeneratorFunction (GenSkip this nr))
    true s (Some (CountSkip this nr)) (Some (GetSkip this nr)) false.

(** The object that [select] returns; [c] is the resolved [_count] of the
    receiver. *)
Definition select_obj (s : bool) (c : countfn) (this : nat) (f : ISelector) : Enumerable :=
  mkEnumerable (SrcGenFn (GenSelect this f)) (GeneratorFunction (GenSelect this f))
    true s (Some c) (Some (GetSelect this f)) false.

(** [m] creates the object [o], which extends the denotation by its own. *)
Definition creates (D : list den) (st : state) (m : nat -> M nat)
    (o : Enumerable) (st' : state) : Prop :=
  evals m st (length D) st' /\ Full (D ++ [new_den D o]) st' /\
  stable st st' /\ heap st' !! length D = Some o /\ Inv D st'.

(** The part of [concat] that follows [Enumerable.from(iterable)]. *)
Definition concat_body (fuel : nat) (this : nat) (iterable : source) (other : nat) : M nat :=
  bind (Linqer.new (SrcGenFn (GenConcat this iterable))) (fun result =>
  bind (update result (set_count (CountConcat this other))) (fun _ =>
  bind (_ensureInternalTryGetAt fuel this) (fun _ =>
  bind (_ensureInternalTryGetAt fuel other) (fun _ =>
  bind (get_enum this) (fun s =>
  bind (get_enum other) (fun o =>
  bind (update result (set_canSeek (_canSeek s && _canSeek o))) (fun _ =>
  bind (if _canSeek s
        then update result (set_tryGetAt (GetConcat this other))
        else ret tt) (fun _ =>
  ret result)))))))).

(** The object that [concat] returns. *)
Definition concat_obj (sa sb : bool) (this other : nat) (iterable : source) : Enumerable :=
  mkEnumerable (SrcGenFn (GenConcat this iterable))
    (GeneratorFunction (GenConcat this iterable))
    true (sa && sb) (Some (CountConcat this other))
    (if sa then Some (GetConcat this other) else None) false.

(** The objects that the static factories return. *)
Definition empty_obj : Enumerable :=
  mkEnumerable (SrcArray []) (IteratorOf (SrcArray [])) true true
    (Some (CountConst 0)) (Some GetNull) false.
Definition range_obj (start n : Z) : Enumerable :=
  mkEnumerable (SrcGenFn (GenRange start n)) (GeneratorFunction (GenRange start n))
    true true (Some (CountConst n)) (Some (GetRange start n)) false.
Definition repeat_obj (item : value) (n : Z) : Enumerable :=
  mkEnumerable (SrcGenFn (GenRepeat item n)) (GeneratorFunction (GenRepeat item n))
    true true (Some (CountConst n)) (Some (GetRepeat item n)) false.

(** [m] ends, by returning or by throwing, in a state that satisfies the
    invariant. *)
Definition lands (D : list den) (st : state) {A} (m : nat -> M A) : Prop :=
  exists r, (exists n, forall fuel, (n <= fuel)%nat -> m fuel st = r) /\
    match r with
    | Ok _ st' | Throw _ st' => Full D st' /\ stable st st'
    | Unfinished => False
    end.

(** The array that [toArray] builds. *)
Definition toArray_den (d : den) : list value :=
  if d_seek d
  then (fun i => default VUndefined (d_get d i)) <$> seqZ 0 (d_cnt d)
  else d_items d.

(** [m] ends with the result [r] whenever it is given enough fuel. *)
Definition ends {A} (m : nat -> M A) (st : state) (r : res A) : Prop :=
  exists n, forall fuel, (n <= fuel)%nat -> m fuel st = r.

(** As [good], for a method that may throw: its result satisfies [P]. *)
Definition result (D : list den) (b : nat) (st : state) {A} (m : nat -> M A)
    (P : res A -> Prop) : Prop :=
  exists r, ends m st r /\ P r /\
    match r with
    | Ok _ st' | Throw _ st' => Inv D st' /\ stable st st' /\ keeps b st st'
    | Unfinished => False
    end.

(** [elementAt]: the denoted lookup, or [IndexOutOfRangeError]. *)
Definition elementAt_res (d : den) (index : Z) (r : res value) : Prop :=
  match d_get d index with
  | Some v => exists st', r = Ok v st'
  | None => exists st', r = Throw IndexOutOfRangeError st'
  end.

(** [length]: the denoted count, or [UnsupportedEagerAccessError]. *)
Definition length_res (d : den) (r : res Z) : Prop :=
  if d_seek d then exists st', r = Ok (d_cnt d) st'
  else exists st', r = Throw UnsupportedEagerAccessError st'.

Definition ext (D : list den) (o : Enumerable) : list den := D ++ [new_den D o].

(** The denotation after [this.splice(start, howmany, ...newItems)]: the
    five objects it creates, in the order of their creation. *)
Definition splice_dens (D : list den) (this : nat) (start howmany : Z)
    (newItems : list value) : list den :=
  let n := length D in
  let D1 := ext D (take_obj (d_seek (dlook D this)) this start) in
  let D2 := ext D1 (fresh (SrcArray newItems) (IteratorOf (SrcArray newItems)) true) in
  let D3 := ext D2 (concat_obj (d_seek (dlook D2 n)) (d_seek (dlook D2 (S n)))
                      n (S n) (SrcArray newItems)) in
  let D4 := ext D3 (skip_obj (d_seek (dlook D3 this)) this (start + howmany)) in
  ext D4 (concat_obj (d_seek (dlook D4 (S (S n)))) (d_seek (dlook D4 (S (S (S n)))))
            (S (S n)) (S (S (S n))) (SrcEnum (S (S (S n))))).

Section Fitting.

Variable okn : Z -> Prop.
Variable okf : ISelector -> Prop.

Definition fits (c : call) : Prop :=
  match c with
  | CallRange _ n | CallRepeat _ n => okn n
  | CallSkip _ nr | CallTake _ nr => okn nr
  | CallSplice _ start howmany _ => okn start /\ okn (start + howmany)
  | CallSelect _ f => okf f
  | _ => True
  end.

End Fitting.

Section Sound.

Variable K : den -> Prop.

Definition sound (D : list den) (st : state) {A} (m : nat -> M A) : Prop :=
  exists D', lands D' st m /\ Forall K D' /\ (length D <= length D')%nat.

End Sound.

(** The count is the number of items; a seekable lookup is defined
    exactly on the indices below the count; and, when [strict], the lookup
    at a natural index is the item there. *)
Definition coh (strict : bool) (d : den) : Prop :=
  d_cnt d = Z.of_nat (length (d_items d)) /\
  (d_seek d = true -> forall i, 0 <= i ->
     (i < d_cnt d -> is_Some (d_get d i)) /\
     (d_cnt d <= i -> d_get d i = None)) /\
  (strict = true -> forall i, 0 <= i -> d_get d i = d_items d !! Z.to_nat i).

(** Programs whose counts are natural numbers and, when [strict], whose
    selectors ignore the index. *)
Definition index_free (f : ISelector) : Prop := forall v i j, f v i = f v j.

Definition polite (strict : bool) (c : call) : Prop :=
  fits (fun n => 0 <= n) (fun f => strict = true -> index_free f) c.

(** The seek flag of [t] is that of the resolved [h], before and after [t]
    itself is resolved. *)
Definition same_seek (st : state) (t h : nat) : Prop :=
  exists ot oh,
    heap st !! t = Some ot /\ heap st !! h = Some oh /\
    is_Some (_tryGetAt oh) /\ _canSeek ot = _canSeek oh /\
    exists st' ot', evals (fun f => _ensureInternalTryGetAt f t) st tt st' /\
                    heap st' !! t = Some ot' /\ _canSeek ot' = _canSeek oh.

(** A source that is no string and holds no string to iterate. *)
Fixpoint gen_stringless (g : gen) : bool :=
  match g with
  | GenConcat _ iterable => src_stringless iterable
  | _ => true
  end
with src_stringless (src : source) : bool :=
  match src with
  | SrcPrim (VStr _) => false
  | SrcGenFn g => gen_stringless g
  | _ => true
  end.

(** A call that passes no string as a source. *)
Definition stringless (c : call) : bool :=
  match c with
  | CallNew src | CallFrom src | CallConcat _ src => src_stringless src
  | _ => true
  end.

(** A Handle just made from a caller's generator function. *)
Definition generator_handle (items : list value) (q : bool) : Enumerable :=
  fresh (SrcGenFn (GenUser items)) (GeneratorFunction (GenUser items)) q.

Definition arr123 : list value := [VNum 1; VNum 2; VNum 3].

(** The program [Enumerable.from([1, 2, 3])], and a string-to-number
    conversion that finds no number in any string. *)
Definition prog_123 : list call := [CallFrom (SrcArray arr123)].

(** The program [Enumerable.from(function* () { yield 1; yield 2; })], and
    the state it leaves. *)
Definition prog_gen : list call :=
  [CallFrom (SrcGenFn (GenUser [VNum 1; VNum 2]))].
Definition st_gen : state :=
  Eval vm_compute in
    match Linqer.from (SrcGenFn (GenUser [VNum 1; VNum 2])) init with
    | Ok _ st => st
    | _ => init
    end.
Definition no_numbers : string -> value := fun _ => VNaN.

(** The state after [Enumerable.from("abc")], and after
    [Enumerable.from([1, 2, 3])]. *)
Definition st_abc : state :=
  Eval vm_compute in
    match Linqer.from (SrcPrim (VStr "abc")) init with
    | Ok _ st => st
    | _ => init
    end.
Definition st_123 : state :=
  Eval vm_compute in
    match Linqer.from (SrcArray arr123) init with
    | Ok _ st => st
    | _ => init
    end.

(** [Array.prototype.splice] applied to a copy of [arr]: the array that
    is left.  A negative start counts from the end, and the number of
    deleted elements is clamped to what follows the start. *)
Definition js_splice (arr : list value) (start howmany : Z) (items : list value)
    : list value :=
  let len := Z.of_nat (length arr) in
  let actualStart := if start <? 0 then Z.max (len + start) 0 else Z.min start len in
  let actualDeleteCount := Z.min (Z.max howmany 0) (len - actualStart) in
  firstn (Z.to_nat actualStart) arr ++ items ++
  skipn (Z.to_nat (actualStart + actualDeleteCount)) arr.

(** The sum of the coerced elements, as [sumAndCount] accumulates it. *)
Definition coerced_sum (items : list value) : value :=
  match items with
  | [] => VNum 0
  | x :: l => fold_left Linqer.num_add (Linqer._toNumber <$> l) (Linqer._toNumber x)
  end.

(** The state after [Enumerable.from(["a"])]. *)
Definition st_a : state :=
  Eval vm_compute in
    match Linqer.from (SrcArray [VStr "a"]) init with
    | Ok _ st => st
    | _ => init
    end.

Definition or_item (items : list value) (v : value) : Prop :=
  v = VUndefined \/ v ∈ items.

(** Up to this magnitude the integers are doubles, and [+] on doubles
    whose exact sum stays within it is the exact sum. *)
Definition max_safe : Z := 9007199254740992.

(** An array has fewer elements than this: [new Array(n)] throws from
    here on. *)
Definition max_array : Z := 4294967296.

Definition sum_abs (zs : list Z) : Z :=
  fold_right (fun z a => Z.abs z + a) 0 zs.

(** The comparer that [stats] uses when its argument passes the test. *)
Definition comparer_of (StringToNumber : string -> value)
    (comparer : argument IComparer) : IComparer :=
  match comparer with
  | ArgFunction c => c
  | ArgValue _ => Linqer._defaultComparer StringToNumber
  end.

(** [comparer] orders [items] as the integer [key] does: it is negative
    exactly where the key is less and positive exactly where it is
    greater. *)
Definition orders_by (comparer : IComparer) (key : value -> Z)
    (items : list value) : Prop :=
  forall a b, a ∈ items -> b ∈ items ->
    (comparer a b < 0 <-> key a < key b) /\
    (0 < comparer a b <-> key b < key a).

(** The state after [Enumerable.from([1, 2])]. *)
Definition st_12 : state :=
  Eval vm_compute in
    match Linqer.from (SrcArray [VNum 1; VNum 2]) init with
    | Ok _ st => st
    | _ => init
    end.

(** The seek flag of [c] is the conjunction of those of the resolved [a]
    and [b], before and after [c] itself is resolved. *)
Definition seek_of_both (st : state) (c a b : nat) : Prop :=
  exists oc oa ob,
    heap st !! c = Some oc /\ heap st !! a = Some oa /\ heap st !! b = Some ob /\
    is_Some (_tryGetAt oa) /\ is_Some (_tryGetAt ob) /\
    _canSeek oc = _canSeek oa && _canSeek ob /\
    exists st' oc', evals (fun f => _ensureInternalTryGetAt f c) st tt st' /\
                    heap st' !! c = Some oc' /\
                    _canSeek oc' = _canSeek oa && _canSeek ob.

(** The state in which [A] is made from a generator function that yields
    [1] and [B] is [Enumerable.from([10]).select((x, i) => i)]. *)
Definition st_gen_sel : state :=
  Eval vm_compute in
    match
      (let! a := Linqer.from (SrcGenFn (GenUser [VNum 1])) in
       let! x := Linqer.from (SrcArray [VNum 10]) in
       Linqer.select 9 x (fun _ i => i)) init
    with
    | Ok _ st => st
    | _ => init
    end.

(** ** What a client observes of a Handle *)

(** The results of the reading methods on the Handle [r] in the state
    [st], as its denotation [d] gives them. *)
Record behaves (st : state) (r : nat) (d : den) : Prop := {
  b_iterate :
    exists st', evals (fun f => iterate f r) st (d_items d) st';
  b_count :
    exists st', evals (fun f => count f r) st (d_cnt d) st';
  b_length :
    if d_seek d
    then exists st', evals (fun f => Linqer.length f r) st (d_cnt d) st'
    else exists st', throws (fun f => Linqer.length f r) st
                       UnsupportedEagerAccessError st';
  b_elementAt : forall i,
    match d_get d i with
    | Some v => exists st', evals (fun f => Linqer.elementAt f r i) st v st'
    | None => exists st', throws (fun f => Linqer.elementAt f r i) st
                            IndexOutOfRangeError st'
    end;
  b_elementAtOrDefault : forall i,
    exists st', evals (fun f => Linqer.elementAtOrDefault f r i) st
                  (default VUndefined (d_get d i)) st';
  b_toArray :
    if d_seek d && (d_cnt d <? 0)
    then exists st', throws (fun f => Linqer.toArray f r) st RangeError st'
    else exists st', evals (fun f => Linqer.toArray f r) st (toArray_den d) st';
  b_last :
    match (if d_seek d then d_get d (d_cnt d - 1) else last (d_items d)) with
    | Some v => exists st', evals (fun f => Linqer.last f r) st v st'
    | None => exists st', throws (fun f => Linqer.last f r) st
                (if d_seek d then IndexOutOfRangeError else EmptySequenceError) st'
    end;
  b_lastOrDefault :
    exists st', evals (fun f => Linqer.lastOrDefault f r) st
      (default VUndefined
         (if d_seek d then d_get d (d_cnt d - 1) else last (d_items d))) st'
}.

(** ** Deferred execution *)

Definition is_inspect (ev : event) : bool :=
  match ev with EvInspect _ => true | EvIterate _ => false end.

(** From [st] to [st'] nothing was iterated: the log has grown by
    inspections only, and no object has changed its [_wasIterated]. *)
Definition nothing_iterated (st st' : state) : Prop :=
  (exists evs, log st' = log st ++ evs /\ forallb is_inspect evs = true) /\
  forall k o, heap st !! k = Some o ->
    exists o', heap st' !! k = Some o' /\ _wasIterated o' = _wasIterated o.

(** [m] iterates nothing, whether it returns or throws. *)
Definition deferred {A} (m : M A) : Prop :=
  forall st, match m st with
             | Ok _ st' | Throw _ st' => nothing_iterated st st'
             | Unfinished => True
             end.

(** ** [distinct] *)

(** The equality of the elements of a [Set] (SameValueZero), and [===].
    They differ on NaN only. *)
Definition same_value_zero (a b : value) : bool :=
  match a, b with
  | VUndefined, VUndefined | VNull, VNull | VNaN, VNaN => true
  | VBool x, VBool y => Bool.eqb x y
  | VNum x, VNum y => x =? y
  | VStr s, VStr t => String.eqb s t
  | _, _ => false
  end.

Definition strict_equal (a b : value) : bool :=
  match a, b with
  | VNaN, VNaN => false
  | _, _ => same_value_zero a b
  end.

(** [IEqualityComparer]; the comparer that [distinct] is given is the
    function [EqualityComparer.default] itself (also when the argument is
    left out), the function [EqualityComparer.exact], or another function. *)
Definition IEqualityComparer := value -> value -> bool.

Inductive equality_argument :=
| EqualityComparer_default
| EqualityComparer_exact
| OtherComparer (equalityComparer : IEqualityComparer).

(** [distinctValues.add(item)] on a [Set] kept in insertion order. *)
Definition set_add (item : value) (distinctValues : list value) : list value :=
  if existsb (same_value_zero item) distinctValues then distinctValues
  else distinctValues ++ [item].

(** The first generator of [distinct], over the items of [self]. *)
Fixpoint distinct_by_set (distinctValues : list value) (items : list value)
    : list value :=
  match items with
  | [] => []
  | item :: rest =>
      let size := length distinctValues in
      let distinctValues := set_add item distinctValues in
      if (size <? length distinctValues)%nat
      then item :: distinct_by_set distinctValues rest
      else distinct_by_set distinctValues rest
  end.

(** The second generator of [distinct]: [values] holds every item met so
    far. *)
Fixpoint distinct_by_comparer (equalityComparer : IEqualityComparer)
    (values : list value) (items : list value) : list value :=
  match items with
  | [] => []
  | item :: rest =>
      let unique := negb (existsb (fun v => equalityComparer item v) values) in
      (if unique then [item] else []) ++
      distinct_by_comparer equalityComparer (values ++ [item]) rest
  end.

(** What the generator that [distinct] chooses yields over [items]. *)
Definition distinct_items (c : equality_argument) (items : list value)
    : list value :=
  match c with
  | EqualityComparer_default => distinct_by_set [] items
  | EqualityComparer_exact => distinct_by_comparer strict_equal [] items
  | OtherComparer f => distinct_by_comparer f [] items
  end.

(** The generator function of [self.distinct(c)] run to its end, as
    [run_gen] runs those of the other methods. *)
Definition run_distinct (fuel : nat) (self : nat) (c : equality_argument)
    : M (list value) :=
  let! a := iterate fuel self in
  ret (distinct_items c a).

(** ** Seekable Handles *)

(** The object at [e] has its positional lookup resolved and its
    [_canSeek] set. *)
Definition seekable (st : state) (e : nat) : Prop :=
  exists o g, heap st !! e = Some o /\ _tryGetAt o = Some g /\
              _canSeek o = true.

(** A closure that iterates nothing: it computes from constants, from the
    raw source, or from seekable objects. *)
Definition quiet_count (st : state) (c : countfn) : Prop :=
  match c with
  | CountConst _ | CountLength _ | CountSize _ => True
  | CountConcat a b => seekable st a /\ seekable st b
  | CountSkip a _ | CountTake a _ | CountInner a => seekable st a
  | CountScan _ => False
  end.

Definition quiet_get (st : state) (g : getfn) : Prop :=
  match g with
  | GetNull | GetRange _ _ | GetRepeat _ _ | GetString _ | GetArray _ => True
  | GetConcat a b => seekable st a /\ seekable st b
  | GetSelect a _ | GetSkip a _ | GetTake a _ | GetInner a => seekable st a
  | GetScan _ => False
  end.

(** The [_count] that the object at [k] has, or will be given by
    [_ensureInternalCount]. *)
Definition effective_count (k : nat) (o : Enumerable) : countfn :=
  match _count o with
  | Some c => c
  | None => resolve_countfn k (_src o)
  end.

(** The [_count] of a wrapper, and of an object over a string or an
    array, when it is set. *)
Definition count_shape (o : Enumerable) : Prop :=
  forall c, _count o = Some c ->
    match _src o with
    | SrcEnum inner => c = CountInner inner
    | SrcPrim (VStr _) | SrcArray _ =>
        c = CountLength (_src o) \/ exists n, c = CountConst n
    | _ => True
    end.

(** The invariant: a wrapper is younger than what it wraps, and the
    closures of a seekable object iterate nothing. *)
Definition seek_ok (st : state) : Prop :=
  forall k o, heap st !! k = Some o ->
    (forall inner, _src o = SrcEnum inner -> (inner < k)%nat) /\
    count_shape o /\
    (forall g, _tryGetAt o = Some g -> _canSeek o = true ->
       quiet_get st g /\ quiet_count st (effective_count k o)).

(** [m] keeps the invariant and changes existing objects by resolving
    them only; when it returns, [Q] relates the states and the result. *)
Definition sk {A} (m : M A) (Q : state -> A -> state -> Prop) : Prop :=
  forall st, seek_ok st ->
    match m st with
    | Ok a st' => seek_ok st' /\ stable st st' /\ Q st a st'
    | Throw _ st' => seek_ok st' /\ stable st st'
    | Unfinished => True
    end.

(** [m] keeps the invariant, whatever it returns. *)
Definition skT {A} (m : M A) : Prop := sk m (fun _ _ _ => True).

(** A run of [m] from [st] iterates nothing, whether it returns or
    throws. *)
Definition without_iterating {A} (st : state) (m : M A) : Prop :=
  match m st with
  | Ok _ st' | Throw _ st' => nothing_iterated st st'
  | Unfinished => True
  end.

(** From the states in which [P] holds, [m] keeps the invariant and
    iterates nothing. *)
Definition quietly {A} (P : state -> Prop) (m : M A)
    (Q : state -> A -> state -> Prop) : Prop :=
  forall st, seek_ok st -> P st ->
    match m st with
    | Ok a st' =>
        seek_ok st' /\ stable st st' /\ nothing_iterated st st' /\ Q st a st'
    | Throw _ st' => seek_ok st' /\ stable st st' /\ nothing_iterated st st'
    | Unfinished => True
    end.

(** [Enumerable.range(1, 3)] as a program, and the state it leaves. *)
Definition prog_range : list call := [CallRange 1 3].
Definition st_range : state :=
  Eval vm_compute in default init (run no_numbers 9 prog_range init).

(** The states after [length] on [Enumerable.from([1, 2, 3])], and after
    one more [Enumerable.from([1, 2, 3])]. *)
Definition st_123_length : state :=
  Eval vm_compute in
    match Linqer.length 9 0 st_123 with
    | Ok _ st => st
    | _ => init
    end.
Definition st_123_later : state :=
  Eval vm_compute in default init (run no_numbers 9 prog_123 st_123_length).

(** * Properties *)

(** ** More fuel does not change a result *)

Lemma refines_refl {A} (m : M A) : refines m m.
Proof. intros st _. reflexivity. Qed.

Lemma refines_bind {A B} (m1 m2 : M A) (k1 k2 : A -> M B) :
  refines m1 m2 -> (forall a, refines (k1 a) (k2 a)) ->
  refines (bind m1 k1) (bind m2 k2).
Proof.
  intros Hm Hk st. unfold bind. intros Hne.
  rewrite Hm; [|intros E; rewrite E in Hne; done].
  destruct (m1 st) as [a st'| |]; try reflexivity.
  apply Hk. exact Hne.
Qed.

Lemma refines_unfinished {A} (m : M A) : refines unfinished m.
Proof. intros st H. exfalso. apply H. reflexivity. Qed.

Ltac refines_step IH :=
  first
    [ apply refines_refl
    | apply refines_unfinished
    | apply IH; lia
    | apply refines_bind; [|intros ?]
    | match goal with
      | |- refines (match ?x with _ => _ end) _ => destruct x
      | |- refines (if ?x then _ else _) _ => destruct x
      end ].

Lemma iterate_run_gen_mono (fuel : nat) :
  forall fuel', (fuel <= fuel')%nat ->
    (forall e, refines (iterate fuel e) (iterate fuel' e)) /\
    (forall g, refines (run_gen fuel g) (run_gen fuel' g)).
Proof.
  induction fuel as [|fuel IH]; intros fuel' Hle.
  - split; intros; apply refines_unfinished.
  - destruct fuel' as [|fuel']; [lia|].
    destruct (IH fuel' ltac:(lia)) as [IHi IHg].
    split; intros; simpl; repeat refines_step IHi; try apply IHg.
Qed.

Lemma iterate_mono fuel fuel' e :
  (fuel <= fuel')%nat -> refines (iterate fuel e) (iterate fuel' e).
Proof. intros H. apply (iterate_run_gen_mono fuel fuel' H). Qed.

Lemma ensureInternalCount_mono (fuel : nat) :
  forall fuel' e, (fuel <= fuel')%nat ->
    refines (_ensureInternalCount fuel e) (_ensureInternalCount fuel' e).
Proof.
  induction fuel as [|fuel IH]; intros fuel' e Hle.
  - apply refines_unfinished.
  - destruct fuel' as [|fuel']; [lia|].
    simpl; repeat refines_step IH.
Qed.

Lemma ensureInternalTryGetAt_mono (fuel : nat) :
  forall fuel' e, (fuel <= fuel')%nat ->
    refines (_ensureInternalTryGetAt fuel e) (_ensureInternalTryGetAt fuel' e).
Proof.
  induction fuel as [|fuel IH]; intros fuel' e Hle.
  - apply refines_unfinished.
  - destruct fuel' as [|fuel']; [lia|].
    simpl; repeat refines_step IH.
Qed.

Lemma count_mono_both (fuel : nat) :
  forall fuel', (fuel <= fuel')%nat ->
    (forall c, refines (call_count fuel c) (call_count fuel' c)) /\
    (forall e, refines (count fuel e) (count fuel' e)).
Proof.
  induction fuel as [|fuel IH]; intros fuel' Hle.
  - split; intros; apply refines_unfinished.
  - destruct fuel' as [|fuel']; [lia|].
    destruct (IH fuel' ltac:(lia)) as [IHc IHn].
    split; intros; simpl;
      repeat first [ apply IHn | apply IHc | apply iterate_mono; lia
                   | apply ensureInternalCount_mono; lia
                   | refines_step IHc ].
Qed.

Lemma count_mono fuel fuel' e :
  (fuel <= fuel')%nat -> refines (count fuel e) (count fuel' e).
Proof. intros H. apply (count_mono_both fuel fuel' H). Qed.

Lemma tryGetAt_mono_both (fuel : nat) :
  forall fuel', (fuel <= fuel')%nat ->
    (forall g i, refines (call_tryGetAt fuel g i) (call_tryGetAt fuel' g i)) /\
    (forall e i, refines (tryGetAt fuel e i) (tryGetAt fuel' e i)).
Proof.
  induction fuel as [|fuel IH]; intros fuel' Hle.
  - split; intros; apply refines_unfinished.
  - destruct fuel' as [|fuel']; [lia|].
    destruct (IH fuel' ltac:(lia)) as [IHc IHn].
    split; intros; simpl;
      repeat first [ apply IHn | apply IHc | apply iterate_mono; lia
                   | apply count_mono; lia
                   | refines_step IHc ].
Qed.

Lemma tryGetAt_mono fuel fuel' e i :
  (fuel <= fuel')%nat -> refines (tryGetAt fuel e i) (tryGetAt fuel' e i).
Proof. intros H. apply (tryGetAt_mono_both fuel fuel' H). Qed.

Lemma refines_mapM {A B} (f1 f2 : A -> M B) (l : list A) :
  (forall a, refines (f1 a) (f2 a)) -> refines (mapM f1 l) (mapM f2 l).
Proof.
  intros Hf. induction l as [|x l IH]; simpl.
  - apply refines_refl.
  - apply refines_bind; [apply Hf|]. intros y.
    apply refines_bind; [apply IH|]. intros ys. apply refines_refl.
Qed.

Ltac refines_method Hle :=
  repeat first
    [ apply iterate_mono; exact Hle
    | apply count_mono; exact Hle
    | apply tryGetAt_mono; exact Hle
    | apply ensureInternalCount_mono; exact Hle
    | apply ensureInternalTryGetAt_mono; exact Hle
    | apply refines_refl
    | apply refines_mapM; intros ?
    | apply refines_bind; [|intros ?]
    | match goal with
      | |- refines (match ?x with _ => _ end) _ => destruct x
      | |- refines (if ?x then _ else _) _ => destruct x
      end ].

Lemma toArray_mono fuel fuel' e :
  (fuel <= fuel')%nat -> refines (Linqer.toArray fuel e) (Linqer.toArray fuel' e).
Proof. intros Hle. unfold Linqer.toArray. refines_method Hle. Qed.

Lemma take_mono fuel fuel' e nr :
  (fuel <= fuel')%nat -> refines (Linqer.take fuel e nr) (Linqer.take fuel' e nr).
Proof. intros Hle. unfold Linqer.take. refines_method Hle. Qed.

Lemma skip_mono fuel fuel' e nr :
  (fuel <= fuel')%nat -> refines (Linqer.skip fuel e nr) (Linqer.skip fuel' e nr).
Proof. intros Hle. unfold Linqer.skip. refines_method Hle. Qed.

Lemma concat_mono fuel fuel' e it :
  (fuel <= fuel')%nat -> refines (Linqer.concat fuel e it) (Linqer.concat fuel' e it).
Proof. intros Hle. unfold Linqer.concat. refines_method Hle. Qed.

Lemma select_mono fuel fuel' e f :
  (fuel <= fuel')%nat -> refines (Linqer.select fuel e f) (Linqer.select fuel' e f).
Proof. intros Hle. unfold Linqer.select. refines_method Hle. Qed.

Lemma elementAt_mono fuel fuel' e i :
  (fuel <= fuel')%nat ->
  refines (Linqer.elementAt fuel e i) (Linqer.elementAt fuel' e i).
Proof. intros Hle. unfold Linqer.elementAt. refines_method Hle. Qed.

Lemma elementAtOrDefault_mono fuel fuel' e i :
  (fuel <= fuel')%nat ->
  refines (Linqer.elementAtOrDefault fuel e i) (Linqer.elementAtOrDefault fuel' e i).
Proof. intros Hle. unfold Linqer.elementAtOrDefault. refines_method Hle. Qed.

Lemma length_mono fuel fuel' e :
  (fuel <= fuel')%nat -> refines (Linqer.length fuel e) (Linqer.length fuel' e).
Proof. intros Hle. unfold Linqer.length. refines_method Hle. Qed.

Lemma splice_mono fuel fuel' e start howmany items :
  (fuel <= fuel')%nat ->
  refines (Linqer.splice fuel e start howmany items)
          (Linqer.splice fuel' e start howmany items).
Proof.
  intros Hle. unfold Linqer.splice.
  repeat first [ apply take_mono; exact Hle | apply skip_mono; exact Hle
               | apply concat_mono; exact Hle
               | apply refines_bind; [|intros ?] ].
Qed.

Lemma exec_mono S fuel fuel' c :
  (fuel <= fuel')%nat -> refines (exec S fuel c) (exec S fuel' c).
Proof.
  intros Hle. destruct c; simpl; unfold ignore;
    (apply refines_bind; [|intros ?; apply refines_refl]);
    try apply refines_refl;
    try (apply take_mono; exact Hle); try (apply skip_mono; exact Hle);
    try (apply concat_mono; exact Hle); try (apply select_mono; exact Hle);
    try (apply splice_mono; exact Hle); try (apply toArray_mono; exact Hle);
    try (apply elementAt_mono; exact Hle);
    try (apply elementAtOrDefault_mono; exact Hle);
    try (apply length_mono; exact Hle); try (apply count_mono; exact Hle).
  all: unfold Linqer.first, Linqer.firstOrDefault, Linqer.last,
         Linqer.lastOrDefault, Linqer.toList, Linqer.sum, Linqer.sumAndCount,
         Linqer.min, Linqer.max, Linqer.stats, Linqer.where_.
  all: repeat first
         [ apply elementAt_mono; exact Hle
         | apply elementAtOrDefault_mono; exact Hle
         | apply toArray_mono; exact Hle
         | progress refines_method Hle ].
Qed.

(** ** The invariant under the primitive state changes *)

Lemma caps_kept_refl o : caps_kept o o.
Proof. unfold caps_kept; naive_solver. Qed.

Lemma caps_kept_trans o1 o2 o3 :
  caps_kept o1 o2 -> caps_kept o2 o3 -> caps_kept o1 o3.
Proof.
  intros (S1 & G1 & U1 & C1 & T1) (S2 & G2 & U2 & C2 & T2).
  repeat split; try congruence.
  - intros c Hc. apply C2, C1, Hc.
  - apply T2. apply (T1 g H).
  - destruct (T1 g H) as [E1 E2]. destruct (T2 g E1) as [_ E3]. congruence.
Qed.

Lemma stable_refl st : stable st st.
Proof. intros k o H. exists o. split; [done|apply caps_kept_refl]. Qed.

Lemma stable_trans st1 st2 st3 :
  stable st1 st2 -> stable st2 st3 -> stable st1 st3.
Proof.
  intros H12 H23 k o Hk.
  destruct (H12 k o Hk) as (o2 & Hk2 & C12).
  destruct (H23 k o2 Hk2) as (o3 & Hk3 & C23).
  exists o3. split; [done|]. eapply caps_kept_trans; eauto.
Qed.

Lemma stable_length st st' :
  stable st st' -> (length (heap st) <= length (heap st'))%nat.
Proof.
  intros H. destruct (decide (length (heap st) = 0)%nat) as [E|NE]; [lia|].
  destruct (lookup_lt_is_Some_2 (heap st) (length (heap st) - 1)) as [o Ho]; [lia|].
  destruct (H _ _ Ho) as (o' & Ho' & _).
  apply lookup_lt_Some in Ho'. lia.
Qed.

Lemma stable_update st k o o' l :
  heap st !! k = Some o -> caps_kept o o' ->
  stable st (mkState (<[k := o']> (heap st)) l).
Proof.
  intros Hk Hc j oj Hj. simpl.
  destruct (decide (j = k)) as [->|NE].
  - exists o'. rewrite list_lookup_insert_eq; [|by eapply lookup_lt_Some].
    split; [done|]. congruence.
  - exists oj. rewrite list_lookup_insert_ne; [|done].
    split; [done|apply caps_kept_refl].
Qed.

Lemma stable_log st l : stable st (mkState (heap st) l).
Proof. intros k o H. exists o. split; [done|apply caps_kept_refl]. Qed.

Lemma stable_alloc st o l : stable st (mkState (heap st ++ [o]) l).
Proof.
  intros k ok H. exists ok. simpl. rewrite lookup_app_l; [|by eapply lookup_lt_Some].
  split; [done|apply caps_kept_refl].
Qed.

Lemma keeps_refl b st : keeps b st st.
Proof. intros j _. reflexivity. Qed.

Lemma keeps_trans b st1 st2 st3 :
  keeps b st1 st2 -> keeps b st2 st3 -> keeps b st1 st3.
Proof. intros H1 H2 j Hj. rewrite H2, H1; done. Qed.

Lemma keeps_mono b b' st st' :
  (b <= b')%nat -> keeps b st st' -> keeps b' st st'.
Proof. intros Hle H j Hj. apply H. lia. Qed.

Lemma resolved_count_stable st st' e :
  stable st st' -> resolved_count st e -> resolved_count st' e.
Proof.
  intros Hs (o & c & Ho & Hc). destruct (Hs _ _ Ho) as (o' & Ho' & HC).
  exists o', c. split; [done|]. apply HC. exact Hc.
Qed.

Lemma resolved_tryGetAt_stable st st' e :
  stable st st' -> resolved_tryGetAt st e -> resolved_tryGetAt st' e.
Proof.
  intros Hs (o & g & Ho & Hg). destruct (Hs _ _ Ho) as (o' & Ho' & HC).
  exists o', g. split; [done|]. apply HC. exact Hg.
Qed.

Lemma count_ok_stable st st' k c :
  stable st st' -> count_ok st k c -> count_ok st' k c.
Proof.
  intros Hs. destruct c; simpl; try done.
  intros [? ?]. split; [done|]. eapply resolved_count_stable; eauto.
Qed.

Lemma get_ok_stable D st st' k g :
  stable st st' -> get_ok D st k g -> get_ok D st' k g.
Proof.
  intros Hs. destruct g; simpl; try done.
  - intros (? & ? & ? & ?). repeat split; try done;
      eapply resolved_tryGetAt_stable; eauto.
  - intros [? ?]. split; [done|]. eapply resolved_tryGetAt_stable; eauto.
  - intros [? ?]. split; [done|]. eapply resolved_tryGetAt_stable; eauto.
  - intros [? ?]. split; [done|]. eapply resolved_tryGetAt_stable; eauto.
  - intros [? ?]. split; [done|]. eapply resolved_tryGetAt_stable; eauto.
Qed.

Lemma handle_ok_stable D st st' k o d :
  stable st st' -> handle_ok D st k o d -> handle_ok D st' k o d.
Proof.
  intros Hs [H1 H2 H3 H4 H5 H6]. split; try done.
  - destruct (_count o); [|done]. destruct H5. split; [|done].
    eapply count_ok_stable; eauto.
  - destruct (_tryGetAt o); [|done]. destruct H6 as (? & ? & ?).
    repeat split; try done. eapply get_ok_stable; eauto.
Qed.

(** Replacing one object by a state of resolution of the same denotation
    keeps the invariant. *)
Lemma Inv_update D st k o o' l :
  Inv D st -> heap st !! k = Some o -> caps_kept o o' ->
  ((k < length D)%nat ->
   handle_ok D (mkState (<[k := o']> (heap st)) l) k o' (dlook D k)) ->
  Inv D (mkState (<[k := o']> (heap st)) l).
Proof.
  intros [HL HI] Hk Hc Hok. split; simpl.
  - rewrite length_insert. exact HL.
  - intros j oj Hj Hlook. destruct (decide (j = k)) as [->|NE].
    + rewrite list_lookup_insert_eq in Hlook; [|by eapply lookup_lt_Some].
      inversion Hlook; subst. apply Hok. exact Hj.
    + rewrite list_lookup_insert_ne in Hlook; [|done].
      eapply handle_ok_stable; [|apply HI; eauto].
      eapply stable_update; eauto.
Qed.

Lemma Inv_log D st l : Inv D st -> Inv D (mkState (heap st) l).
Proof.
  intros [HL HI]. split; [exact HL|]. simpl. intros k o Hk Ho.
  eapply handle_ok_stable; [|apply HI; eauto]. apply stable_log.
Qed.

Lemma Inv_lookup D st k :
  Inv D st -> (k < length D)%nat ->
  exists o, heap st !! k = Some o /\ handle_ok D st k o (dlook D k).
Proof.
  intros [HL HI] Hk.
  destruct (lookup_lt_is_Some_2 (heap st) k) as [o Ho]; [lia|].
  exists o. split; [done|]. apply HI; done.
Qed.

(** ** Rules for the triples *)

Lemma good_ret D b st {A} (v : A) (Q : A -> state -> Prop) :
  Inv D st -> Q v st -> good D b st (fun _ => ret v) Q.
Proof.
  intros HI HQ. exists v, st.
  split_and!; [by exists 0%nat|done|apply stable_refl|apply keeps_refl|done].
Qed.

Lemma good_bind D b st {A B} (m : nat -> M A) (k : A -> nat -> M B)
    (F : nat -> M B) (Q1 : A -> state -> Prop) (Q : B -> state -> Prop) :
  (forall f, F f st = bind (m f) (fun x => k x f) st) ->
  good D b st m Q1 ->
  (forall a st1, Inv D st1 -> stable st st1 -> keeps b st st1 -> Q1 a st1 ->
                 good D b st1 (k a) Q) ->
  good D b st F Q.
Proof.
  intros HF (a & st1 & [n1 H1] & HI1 & HS1 & HF1 & HQ1) Hk.
  destruct (Hk a st1 HI1 HS1 HF1 HQ1) as (vb & st2 & [n2 H2] & HI2 & HS2 & HF2 & HQ2).
  exists vb, st2. split_and!; try done.
  - exists (n1 `max` n2)%nat. intros fuel Hle. rewrite HF. unfold bind.
    rewrite H1 by lia. apply H2. lia.
  - eapply stable_trans; eauto.
  - eapply keeps_trans; eauto.
Qed.

Lemma good_fuel D b st {A} (F G : nat -> M A) (Q : A -> state -> Prop) :
  (forall f, F (S f) = G f) -> good D b st G Q -> good D b st F Q.
Proof.
  intros HF (v & st' & [n H] & ?). exists v, st'. split; [|done].
  exists (S n). intros fuel Hle. destruct fuel as [|fuel]; [lia|].
  rewrite HF. apply H. lia.
Qed.

Lemma good_conseq D b st {A} (m : nat -> M A) (Q Q' : A -> state -> Prop) :
  good D b st m Q ->
  (forall v st', Inv D st' -> stable st st' -> keeps b st st' -> Q v st' -> Q' v st') ->
  good D b st m Q'.
Proof.
  intros (v & st' & He & HI & HS & HF & HQ) H. exists v, st'.
  split_and!; try done. apply H; done.
Qed.

Lemma good_weaken D b b' st {A} (m : nat -> M A) (Q : A -> state -> Prop) :
  (b <= b')%nat -> good D b st m Q ->
  good D b' st m (fun v st' => Q v st' /\ keeps b st st').
Proof.
  intros Hle (v & st' & He & HI & HS & HF & HQ). exists v, st'.
  split_and!; try done. eapply keeps_mono; eauto.
Qed.

Lemma good_mono D b b' st {A} (m : nat -> M A) (Q : A -> state -> Prop) :
  (b <= b')%nat -> good D b st m Q -> good D b' st m Q.
Proof.
  intros Hle (v & st' & He & HI & HS & HF & HQ). exists v, st'.
  split_and!; try done. eapply keeps_mono; eauto.
Qed.

Lemma good_ext D b st {A} (F G : nat -> M A) (Q : A -> state -> Prop) :
  (forall f, F f st = G f st) -> good D b st G Q -> good D b st F Q.
Proof.
  intros HF (v & st' & [n H] & ?). exists v, st'. split; [|done].
  exists n. intros fuel Hle. rewrite HF. apply H. lia.
Qed.

Lemma good_get_enum D b st e o (Q : Enumerable -> state -> Prop) :
  Inv D st -> heap st !! e = Some o -> Q o st ->
  good D b st (fun _ => get_enum e) Q.
Proof.
  intros HI He HQ. exists o, st.
  split_and!; [|done|apply stable_refl|apply keeps_refl|done].
  exists 0%nat. intros fuel _. unfold get_enum. rewrite He. done.
Qed.

Lemma good_emit D b st ev (Q : unit -> state -> Prop) :
  Inv D st -> Q tt (mkState (heap st) (log st ++ [ev])) ->
  good D b st (fun _ => emit ev) Q.
Proof.
  intros HI HQ. exists tt, (mkState (heap st) (log st ++ [ev])).
  split_and!; [by exists 0%nat|apply Inv_log, HI|apply stable_log|done|done].
Qed.

Lemma good_update D b st k f o (Q : unit -> state -> Prop) :
  Inv D st -> heap st !! k = Some o -> (k < b)%nat ->
  caps_kept o (f o) ->
  handle_ok D (mkState (<[k := f o]> (heap st)) (log st)) k (f o) (dlook D k) ->
  Q tt (mkState (<[k := f o]> (heap st)) (log st)) ->
  good D b st (fun _ => update k f) Q.
Proof.
  intros HI Hk Hlt Hc Hok HQ.
  exists tt, (mkState (<[k := f o]> (heap st)) (log st)).
  split_and!; try done.
  - exists 0%nat. intros fuel _. unfold update. cbv beta. rewrite Hk. done.
  - eapply Inv_update; eauto.
  - eapply stable_update; eauto.
  - intros j Hj. simpl. rewrite list_lookup_insert_ne; [done|lia].
Qed.

(** ** Iteration yields the denoted items *)

Lemma iterate_at D b j st :
  iterate_spec D j -> Inv D st -> (j < length D)%nat -> (j < b)%nat ->
  good D b st (fun f => iterate f j) (fun v _ => v = d_items (dlook D j)).
Proof. intros H HI Hj Hb. eapply good_mono; [|by apply H]. lia. Qed.

Lemma run_gen_good D k :
  (k <= length D)%nat ->
  (forall j, (j < k)%nat -> iterate_spec D j) ->
  forall g st, gen_wf k g = true -> Inv D st ->
    good D k st (fun f => run_gen f g) (fun v _ => v = gen_den D g).
Proof.
  intros Hk IH g.
  induction g using gen_mut with
    (P0 := fun src => forall g', src = SrcGenFn g' ->
             forall st, gen_wf k g' = true -> Inv D st ->
               good D k st (fun f => run_gen f g') (fun v _ => v = gen_den D g'));
    try discriminate; intros st Hwf HI.
  - eapply good_fuel; [intros f; reflexivity|]. simpl. by apply good_ret.
  - eapply good_fuel; [intros f; reflexivity|]. simpl. by apply good_ret.
  - eapply good_fuel; [intros f; reflexivity|]. simpl. by apply good_ret.
  - (* GenConcat *)
    simpl in Hwf. apply andb_prop in Hwf as [Hs Hit]. apply Nat.ltb_lt in Hs.
    eapply good_fuel; [intros f; reflexivity|]. simpl.
    eapply good_bind; [intros f; reflexivity| apply iterate_at; [by apply IH|done|lia|lia] |].
    intros a st1 HI1 _ _ ->. simpl.
    eapply good_bind with (Q1 := fun v _ => v = src_den D iterable);
      [intros f; reflexivity| |].
    + destruct iterable as [v|a|a| |g'|other]; simpl in Hit |- *.
      * destruct v; try discriminate.
        unfold _ensureIterable. simpl. rewrite Hit. simpl.
        eapply good_bind with (Q1 := fun _ _ => True);
          [intros f; reflexivity|by apply good_ret|].
        intros [] st2 HI2 _ _ _. by apply good_ret.
      * eapply good_bind with (Q1 := fun _ _ => True);
          [intros f; reflexivity|by apply good_ret|].
        intros [] st2 HI2 _ _ _. by apply good_ret.
      * eapply good_bind with (Q1 := fun _ _ => True);
          [intros f; reflexivity|by apply good_ret|].
        intros [] st2 HI2 _ _ _. by apply good_ret.
      * discriminate.
      * apply (IHg g' eq_refl); done.
      * apply Nat.ltb_lt in Hit. apply iterate_at; [by apply IH|done|lia|lia].
    + intros b st2 HI2 _ _ ->. by apply good_ret.
  - simpl in Hwf. apply Nat.ltb_lt in Hwf.
    eapply good_fuel; [intros f; reflexivity|]. simpl.
    eapply good_bind; [intros f; reflexivity| apply iterate_at; [by apply IH|done|lia|lia] |].
    intros a st1 HI1 _ _ ->. by apply good_ret.
  - simpl in Hwf. apply Nat.ltb_lt in Hwf.
    eapply good_fuel; [intros f; reflexivity|]. simpl.
    eapply good_bind; [intros f; reflexivity| apply iterate_at; [by apply IH|done|lia|lia] |].
    intros a st1 HI1 _ _ ->. by apply good_ret.
  - simpl in Hwf. apply Nat.ltb_lt in Hwf.
    eapply good_fuel; [intros f; reflexivity|]. simpl.
    eapply good_bind; [intros f; reflexivity| apply iterate_at; [by apply IH|done|lia|lia] |].
    intros a st1 HI1 _ _ ->. by apply good_ret.
  - simpl in Hwf. apply Nat.ltb_lt in Hwf.
    eapply good_fuel; [intros f; reflexivity|]. simpl.
    eapply good_bind; [intros f; reflexivity| apply iterate_at; [by apply IH|done|lia|lia] |].
    intros a st1 HI1 _ _ ->. by apply good_ret.
  - inversion Hwf; subst. apply IHg.
Qed.

Lemma handle_ok_wasIterated D st k o d :
  handle_ok D st k o d -> handle_ok D st k (set_wasIterated o) d.
Proof. intros [H1 H2 H3 H4 H5 H6]. split; done. Qed.

Lemma caps_kept_wasIterated o : caps_kept o (set_wasIterated o).
Proof. unfold caps_kept; simpl; naive_solver. Qed.

Lemma iterate_good D : forall k, iterate_spec D k.
Proof.
  intros k. induction k as [k IH] using lt_wf_ind. intros st HI Hk.
  destruct (Inv_lookup D st k HI Hk) as (o & Ho & Hok).
  eapply good_fuel; [intros f; reflexivity|]. simpl.
  eapply good_bind with
    (Q1 := fun _ st1 => heap st1 !! k = Some (set_wasIterated o));
    [intros f; reflexivity| |].
  { eapply good_update; eauto.
    - apply caps_kept_wasIterated.
    - eapply handle_ok_stable;
        [eapply stable_update; [eauto|apply caps_kept_wasIterated]|].
      by apply handle_ok_wasIterated.
    - simpl. apply list_lookup_insert_eq. by eapply lookup_lt_Some. }
  intros [] st1 HI1 _ _ Ho1.
  eapply good_bind with
    (Q1 := fun _ st2 => heap st2 !! k = Some (set_wasIterated o));
    [intros f; reflexivity| by apply good_emit |].
  intros [] st2 HI2 _ _ Ho2.
  eapply good_bind with (Q1 := fun o' _ => o' = set_wasIterated o);
    [intros f; reflexivity| by eapply good_get_enum |].
  intros ? st3 HI3 _ _ ->. simpl.
  destruct Hok as [Hsrc Hwf Hgen Hitems _ _]. rewrite Hitems.
  destruct (d_src (dlook D k)) as [v|a|a| |g|inner] eqn:Esrc;
    simpl in Hwf; try discriminate.
  - destruct v; try discriminate. unfold generator_of in Hgen; simpl in Hgen. inversion Hgen as [Hg]. simpl. by apply good_ret.
  - unfold generator_of in Hgen; simpl in Hgen. inversion Hgen as [Hg]. simpl. by apply good_ret.
  - unfold generator_of in Hgen; simpl in Hgen. inversion Hgen as [Hg]. simpl. by apply good_ret.
  - unfold generator_of in Hgen; simpl in Hgen. inversion Hgen as [Hg]. simpl.
    eapply good_mono; [|apply (run_gen_good D k); [lia| |done|done]]; [lia|].
    intros j Hj. apply IH. exact Hj.
  - unfold generator_of in Hgen; simpl in Hgen. inversion Hgen as [Hg]. simpl.
    apply Nat.ltb_lt in Hwf. apply iterate_at; [by apply IH|done|lia|lia].
Qed.

(** ** The length resolver and [count] *)

Lemma caps_kept_set_count o c : _count o = None -> caps_kept o (set_count c o).
Proof. intros H. unfold caps_kept; simpl. rewrite H. naive_solver. Qed.

Lemma good_set_count D b st k o c :
  Inv D st -> heap st !! k = Some o -> (k < b)%nat -> (k < length D)%nat ->
  _count o = None -> c = resolve_countfn k (d_src (dlook D k)) ->
  count_ok st k c ->
  good D b st (fun _ => update k (set_count c))
    (fun _ st' => resolved_count st' k).
Proof.
  intros HI Ho Hb Hk Hc Ec Hok.
  pose proof (proj2 HI k o Hk Ho) as [H1 H2 H3 H4 H5 H6].
  assert (HS : stable st (mkState (<[k := set_count c o]> (heap st)) (log st))).
  { eapply stable_update; [eauto|by apply caps_kept_set_count]. }
  eapply good_update; eauto.
  - by apply caps_kept_set_count.
  - split; simpl; try done.
    + split; [by eapply count_ok_stable|].
      rewrite Hc in H5. by rewrite Ec.
    + destruct (_tryGetAt o); [|done]. destruct H6 as (? & ? & ?).
      split_and!; try done. by eapply get_ok_stable.
  - exists (set_count c o), c. simpl. split; [|done].
    apply list_lookup_insert_eq. by eapply lookup_lt_Some.
Qed.

Lemma ensureInternalCount_good D : forall k st,
  Inv D st -> (k < length D)%nat ->
  good D (S k) st (fun f => _ensureInternalCount f k)
    (fun _ st' => resolved_count st' k).
Proof.
  intros k. induction k as [k IH] using lt_wf_ind. intros st HI Hk.
  destruct (Inv_lookup D st k HI Hk) as (o & Ho & Hok).
  eapply good_fuel; [intros f; reflexivity|]. simpl.
  eapply good_bind with (Q1 := fun o' st1 => o' = o /\ st1 = st);
    [intros f; reflexivity| by eapply good_get_enum |].
  intros ? ? _ _ _ [-> ->].
  destruct (_count o) as [c|] eqn:Ec.
  { apply good_ret; [done|]. by exists o, c. }
  eapply good_bind with (Q1 := fun _ st1 => heap st1 !! k = Some o);
    [intros f; reflexivity| by apply good_emit |].
  intros [] st2 HI2 _ _ Ho2.
  pose proof (ok_src _ _ _ _ _ Hok) as Hsrc.
  pose proof (ok_wf _ _ _ _ _ Hok) as Hwf.
  rewrite Hsrc.
  destruct (d_src (dlook D k)) as [v|a|a| |g|inner] eqn:Esrc;
    simpl in Hwf; try discriminate.
  - destruct v; try discriminate. simpl.
    eapply good_set_count; eauto; rewrite ?Esrc; simpl; eauto.
  - simpl. eapply good_set_count; eauto; rewrite ?Esrc; simpl; eauto.
  - simpl. eapply good_set_count; eauto; rewrite ?Esrc; simpl; eauto.
  - simpl. eapply good_set_count; eauto; rewrite ?Esrc; simpl; eauto.
  - apply Nat.ltb_lt in Hwf.
    eapply good_bind; [intros f; reflexivity| |].
    { eapply good_weaken; [|apply (IH inner Hwf st2 HI2)]; lia. }
    intros [] st3 HI3 _ _ [Hres Hkeep]. simpl in Hres, Hkeep.
    eapply good_set_count; eauto.
    + rewrite Hkeep; [done|lia].
    + by rewrite Esrc.
    + simpl. done.
Qed.

Lemma count_of_call D j : call_count_spec D j -> count_spec D j.
Proof.
  intros Hcall st HI Hj.
  eapply good_fuel; [intros f; reflexivity|]. simpl.
  eapply good_bind; [intros f; reflexivity| by apply ensureInternalCount_good |].
  intros [] st1 HI1 _ _ (o & c & Ho & Hc). simpl.
  eapply good_bind with (Q1 := fun o' st2 => o' = o /\ st2 = st1);
    [intros f; reflexivity| by eapply good_get_enum |].
  intros ? ? _ _ _ [-> ->]. rewrite Hc.
  pose proof (ok_count _ _ _ _ _ (proj2 HI1 j o Hj Ho)) as H. rewrite Hc in H.
  destruct H as [Hok Hden].
  eapply good_conseq; [by apply Hcall|].
  intros v st' _ _ _ ->. exact Hden.
Qed.

Lemma count_at D b j st :
  count_spec D j -> Inv D st -> (j < length D)%nat -> (j < b)%nat ->
  good D b st (fun f => count f j) (fun v _ => v = d_cnt (dlook D j)).
Proof. intros H HI Hj Hb. eapply good_mono; [|by apply H]. lia. Qed.

Lemma call_count_good D : forall k, call_count_spec D k.
Proof.
  intros k. induction k as [k IH] using lt_wf_ind. intros c st HI Hk Hok.
  assert (IHc : forall j, (j < k)%nat -> count_spec D j).
  { intros j Hj. apply count_of_call, IH, Hj. }
  eapply good_fuel; [intros f; reflexivity|].
  destruct c as [n|self other|self nr|self nr|inner|src|src|e]; simpl in Hok |- *.
  - by apply good_ret.
  - destruct Hok as [Hs Ho].
    eapply good_bind; [intros f; reflexivity|
                       apply count_at; [by apply IHc|done|lia|lia] |].
    intros a st1 HI1 _ _ ->. simpl.
    eapply good_bind; [intros f; reflexivity|
                       apply count_at; [by apply IHc|done|lia|lia] |].
    intros a' st2 HI2 _ _ ->. by apply good_ret.
  - eapply good_bind; [intros f; reflexivity|
                       apply count_at; [by apply IHc|done|lia|lia] |].
    intros a st1 HI1 _ _ ->. by apply good_ret.
  - eapply good_bind; [intros f; reflexivity|
                       apply count_at; [by apply IHc|done|lia|lia] |].
    intros a st1 HI1 _ _ ->. by apply good_ret.
  - destruct Hok as [Hi (o & c' & Ho & Hc')].
    eapply good_bind with (Q1 := fun o' st2 => o' = o /\ st2 = st);
      [intros f; reflexivity| by eapply good_get_enum |].
    intros ? ? _ _ _ [-> ->]. rewrite Hc'.
    pose proof (ok_count _ _ _ _ _ (proj2 HI inner o ltac:(lia) Ho)) as H.
    rewrite Hc' in H. destruct H as [Hok' Hden].
    eapply good_mono; [|eapply good_conseq; [apply (IH inner Hi); [done|lia|done]|]];
      [lia|].
    intros v st' _ _ _ ->. exact Hden.
  - destruct Hok as [n Hn]. rewrite Hn. by apply good_ret.
  - destruct Hok as [n Hn]. rewrite Hn. by apply good_ret.
  - eapply good_bind; [intros f; reflexivity|
                       apply iterate_at; [apply iterate_good|done|lia|lia] |].
    intros a st1 HI1 _ _ ->. by apply good_ret.
Qed.

Lemma count_good D : forall k, count_spec D k.
Proof. intros k. apply count_of_call, call_count_good. Qed.

(** ** The seek resolver and [_tryGetAt] *)

Lemma good_direct D b st {A} (m : nat -> M A) (v : A) st' (Q : A -> state -> Prop) :
  (forall fuel, m fuel st = Ok v st') ->
  Inv D st' -> stable st st' -> keeps b st st' -> Q v st' ->
  good D b st m Q.
Proof.
  intros Hm HI HS HK HQ. exists v, st'. split_and!; try done.
  exists 0%nat. intros fuel _. apply Hm.
Qed.

Lemma caps_kept_resolved o g s :
  _tryGetAt o = None -> caps_kept o (resolved_obj o g s).
Proof. intros H. unfold caps_kept; simpl. rewrite H. naive_solver. Qed.

Lemma Inv_resolve D st k o l :
  Inv D st -> heap st !! k = Some o -> (k < length D)%nat ->
  _tryGetAt o = None ->
  get_ok D st k (resolve_getfn k (d_src (dlook D k))) ->
  let o' := resolved_obj o (resolve_getfn k (d_src (dlook D k)))
              (resolve_seek D (d_src (dlook D k))) in
  Inv D (mkState (<[k := o']> (heap st)) l) /\
  stable st (mkState (<[k := o']> (heap st)) l).
Proof.
  intros HI Ho Hk Hnone Hget o'.
  assert (HS : stable st (mkState (<[k := o']> (heap st)) l)).
  { eapply stable_update; [eauto|by apply caps_kept_resolved]. }
  split; [|done].
  eapply Inv_update; eauto; [by apply caps_kept_resolved|]. intros _.
  pose proof (proj2 HI k o Hk Ho) as [H1 H2 H3 H4 H5 H6].
  split; simpl; try done.
  - destruct (_count o); [|done]. destruct H5. split; [|done].
    by eapply count_ok_stable.
  - rewrite Hnone in H6. destruct H6 as [H6 H7].
    split_and!; try done. by eapply get_ok_stable.
Qed.

Lemma handle_ok_set_canSeek D st k o d s :
  _tryGetAt o = None -> handle_ok D st k o d ->
  handle_ok D st k (set_canSeek s o) d.
Proof.
  intros Hn [H1 H2 H3 H4 H5 H6]. split; simpl; try done.
  rewrite Hn in H6 |- *. done.
Qed.

Lemma caps_kept_set_canSeek o s :
  _tryGetAt o = None -> caps_kept o (set_canSeek s o).
Proof. intros H. unfold caps_kept; simpl. rewrite H. naive_solver. Qed.

Lemma ensureInternalTryGetAt_good D : forall k st,
  Inv D st -> (k < length D)%nat ->
  good D (S k) st (fun f => _ensureInternalTryGetAt f k)
    (fun _ st' => resolved_tryGetAt st' k).
Proof.
  intros k. induction k as [k IH] using lt_wf_ind. intros st HI Hk.
  destruct (Inv_lookup D st k HI Hk) as (o & Ho & Hok).
  eapply good_fuel; [intros f; reflexivity|]. simpl.
  eapply good_bind with (Q1 := fun o' st1 => o' = o /\ st1 = st);
    [intros f; reflexivity| by eapply good_get_enum |].
  intros ? ? _ _ _ [-> ->].
  destruct (_tryGetAt o) as [g|] eqn:Eg.
  { apply good_ret; [done|]. by exists o, g. }
  pose proof (ok_src _ _ _ _ _ Hok) as Hsrc.
  pose proof (ok_wf _ _ _ _ _ Hok) as Hwf.
  assert (Hlt : (k < length (heap st))%nat) by (by eapply lookup_lt_Some).
  rewrite Hsrc.
  destruct (d_src (dlook D k)) as [v|a|a| |g|inner] eqn:Esrc;
    simpl in Hwf; try discriminate.
  1: destruct v; try discriminate.
  1-4: match goal with
       | |- good _ _ _ _ _ =>
           pose proof (Inv_resolve D st k o (log st ++ [EvInspect k]) HI Ho Hk Eg)
             as Hres;
           rewrite Esrc in Hres; simpl in Hres;
           destruct Hres as [HI' HS']; [eauto|];
           eapply good_direct; [| exact HI' | exact HS' | |]
       end.
  all: try (intros fuel; unfold bind, emit, update; simpl; rewrite Ho; simpl;
            repeat (rewrite list_lookup_insert_eq
                      by (rewrite ?length_insert; lia); simpl);
            rewrite ?list_insert_insert_eq; reflexivity).
  all: try (intros j Hj; simpl; rewrite list_lookup_insert_ne; [done|lia]).
  all: try (simpl; eexists _, _; split;
            [apply list_lookup_insert_eq; lia|reflexivity]).
  (* the source is an Enumerable *)
  apply Nat.ltb_lt in Hwf.
  eapply good_bind with (Q1 := fun _ st1 => heap st1 !! k = Some o);
    [intros f; reflexivity| by apply good_emit |].
  intros [] st1 HI1 _ _ Ho1.
  eapply good_bind with
    (Q1 := fun _ st2 => heap st2 !! k = Some (set_canSeek true o));
    [intros f; reflexivity| |].
  { eapply good_update; eauto.
    - by apply caps_kept_set_canSeek.
    - apply handle_ok_set_canSeek; [done|].
      eapply handle_ok_stable; [|apply (proj2 HI1 k o Hk Ho1)].
      eapply stable_update; [eauto|by apply caps_kept_set_canSeek].
    - simpl. apply list_lookup_insert_eq. by eapply lookup_lt_Some. }
  intros [] st2 HI2 _ _ Ho2.
  eapply good_bind; [intros f; reflexivity| |].
  { eapply good_weaken; [|apply (IH inner Hwf st2 HI2)]; lia. }
  intros [] st3 HI3 _ _ [(i & gi & Hi & Hgi) Hkeep].
  assert (Ho3 : heap st3 !! k = Some (set_canSeek true o)).
  { rewrite Hkeep; [done|lia]. }
  assert (Hlt3 : (k < length (heap st3))%nat) by (by eapply lookup_lt_Some).
  assert (Hik : inner <> k) by lia.
  pose proof (Inv_resolve D st3 k (set_canSeek true o) (log st3) HI3 Ho3 Hk Eg)
    as Hres.
  rewrite Esrc in Hres; simpl in Hres.
  destruct Hres as [HI' HS'].
  { split; [done|]. by exists i, gi. }
  pose proof (ok_tryGetAt _ _ _ _ _ (proj2 HI3 inner i ltac:(lia) Hi)) as Hti.
  rewrite Hgi in Hti. destruct Hti as (_ & _ & Hseek).
  eapply good_direct; [| exact HI' | exact HS' | |].
  - intros fuel. unfold bind, update, get_enum; simpl. rewrite Ho3; simpl.
    rewrite list_lookup_insert_ne by done. rewrite Hi. simpl.
    rewrite list_lookup_insert_eq by done. simpl.
    rewrite list_insert_insert_eq. rewrite Hseek. reflexivity.
  - intros j Hj; simpl; rewrite list_lookup_insert_ne; [done|lia].
  - simpl; eexists _, _; split; [apply list_lookup_insert_eq; lia|reflexivity].
Qed.

Lemma get_of_call D j : call_get_spec D j -> get_spec D j.
Proof.
  intros Hcall i st HI Hj (o & g & Ho & Hg).
  eapply good_fuel; [intros f; reflexivity|]. simpl.
  eapply good_bind with (Q1 := fun o' st2 => o' = o /\ st2 = st);
    [intros f; reflexivity| by eapply good_get_enum |].
  intros ? ? _ _ _ [-> ->]. rewrite Hg.
  pose proof (ok_tryGetAt _ _ _ _ _ (proj2 HI j o Hj Ho)) as H. rewrite Hg in H.
  destruct H as (Hok & Hden & _).
  eapply good_conseq; [by apply Hcall|].
  intros v st' _ _ _ ->. apply Hden.
Qed.

Lemma get_at D b j i st :
  get_spec D j -> Inv D st -> (j < length D)%nat -> (j < b)%nat ->
  resolved_tryGetAt st j ->
  good D b st (fun f => tryGetAt f j i) (fun v _ => v = d_get (dlook D j) i).
Proof. intros H HI Hj Hb Hr. eapply good_mono; [|by apply H]. lia. Qed.

Lemma call_get_good D : forall k, call_get_spec D k.
Proof.
  intros k. induction k as [k IH] using lt_wf_ind. intros g i st HI Hk Hok.
  assert (IHg : forall j, (j < k)%nat -> get_spec D j).
  { intros j Hj. apply get_of_call, IH, Hj. }
  eapply good_fuel; [intros f; reflexivity|].
  destruct g as [|start n|item n|self other|self sel|self nr|self nr|inner|e|e|e];
    simpl in Hok |- *.
  - by apply good_ret.
  - destruct ((0 <=? i) && (i <? n)); by apply good_ret.
  - destruct ((0 <=? i) && (i <? n)); by apply good_ret.
  - destruct Hok as (Hs & Ho & Hrs & Hro).
    eapply good_bind with (m := fun f => tryGetAt f self i);
      [intros f; reflexivity|
       apply get_at; [by apply IHg|done|lia|lia|done] |].
    intros r st1 HI1 HS1 _ ->. simpl.
    destruct (d_get (dlook D self) i) as [v|]; [by apply good_ret|].
    eapply good_bind; [intros f; reflexivity|
                       apply count_at; [apply count_good|done|lia|lia] |].
    intros n st2 HI2 HS2 _ ->. simpl.
    apply get_at; [by apply IHg|done|lia|lia|].
    eapply resolved_tryGetAt_stable; [|eapply resolved_tryGetAt_stable]; eauto.
  - destruct Hok as [Hs Hrs].
    eapply good_bind with (m := fun f => tryGetAt f self i);
      [intros f; reflexivity|
       apply get_at; [by apply IHg|done|lia|lia|done] |].
    intros r st1 HI1 HS1 _ ->. simpl.
    destruct (d_get (dlook D self) i) as [v|]; by apply good_ret.
  - destruct Hok as [Hs Hrs].
    apply get_at; [by apply IHg|done|lia|lia|done].
  - destruct Hok as [Hs Hrs].
    destruct (nr <=? i); [by apply good_ret|].
    apply get_at; [by apply IHg|done|lia|lia|done].
  - destruct Hok as [Hs Hrs].
    apply get_at; [by apply IHg|done|lia|lia|done].
  - destruct Hok as [He [s Hs]].
    destruct (Inv_lookup D st e HI ltac:(lia)) as (o & Ho & Hoko).
    eapply good_bind with (Q1 := fun o' st2 => o' = o /\ st2 = st);
      [intros f; reflexivity| by eapply good_get_enum |].
    intros ? ? _ _ _ [-> ->].
    rewrite (ok_src _ _ _ _ _ Hoko), Hs.
    destruct (i <? Z.of_nat (String.length s)); by apply good_ret.
  - destruct Hok as [He [a Ha]].
    destruct (Inv_lookup D st e HI ltac:(lia)) as (o & Ho & Hoko).
    eapply good_bind with (Q1 := fun o' st2 => o' = o /\ st2 = st);
      [intros f; reflexivity| by eapply good_get_enum |].
    intros ? ? _ _ _ [-> ->].
    rewrite (ok_src _ _ _ _ _ Hoko), Ha.
    destruct ((0 <=? i) && (i <? Z.of_nat (length a))); by apply good_ret.
  - eapply good_bind; [intros f; reflexivity|
                       apply iterate_at; [apply iterate_good|done|lia|lia] |].
    intros a st1 HI1 _ _ ->. simpl.
    destruct (i <? 0); by apply good_ret.
Qed.

Lemma tryGetAt_good D : forall k, get_spec D k.
Proof. intros k. apply get_of_call, call_get_good. Qed.

(** ** Extending the denotation by a new object *)

Lemma dlook_app_l D d j : (j < length D)%nat -> dlook (D ++ [d]) j = dlook D j.
Proof. intros H. unfold dlook. by rewrite lookup_app_l. Qed.

Lemma dlook_app_r D d : dlook (D ++ [d]) (length D) = d.
Proof.
  unfold dlook. rewrite lookup_app_r by lia.
  by replace (length D - length D)%nat with 0%nat by lia.
Qed.

Lemma agree_app D d k : (k < length D)%nat -> agree k D (D ++ [d]).
Proof.
  intros H. split_and!.
  - intros j Hj. apply dlook_app_l. lia.
  - by rewrite dlook_app_l.
  - by rewrite dlook_app_l.
Qed.

Lemma src_den_agree D D' k :
  (forall j, (j < k)%nat -> dlook D' j = dlook D j) ->
  forall src, src_wf k src = true -> src_den D' src = src_den D src.
Proof.
  intros H src.
  induction src using source_mut with
    (P := fun g => gen_wf k g = true -> gen_den D' g = gen_den D g);
    simpl; intros Hwf; try done.
  - apply andb_prop in Hwf as [Hs Hi]. apply Nat.ltb_lt in Hs.
    rewrite H by done. f_equal. by apply IHsrc.
  - apply Nat.ltb_lt in Hwf. by rewrite H.
  - apply Nat.ltb_lt in Hwf. by rewrite H.
  - apply Nat.ltb_lt in Hwf. by rewrite H.
  - apply Nat.ltb_lt in Hwf. by rewrite H.
  - by apply IHsrc.
  - apply Nat.ltb_lt in Hwf. by rewrite H.
Qed.

Lemma count_den_agree D D' st k c :
  agree k D D' -> count_ok st k c -> count_den D' c = count_den D c.
Proof.
  intros (H1 & H2 & H3). destruct c; simpl; try done.
  - intros [? ?]. by rewrite !H1.
  - intros ?. by rewrite H1.
  - intros ?. by rewrite H1.
  - intros [? ?]. by rewrite H1.
  - intros Hle. destruct (decide (enumerable = k)) as [->|NE].
    + by rewrite H2.
    + rewrite H1; [done|lia].
Qed.

Lemma dlook_agree_le D D' k e :
  agree k D D' -> (e <= k)%nat ->
  d_items (dlook D' e) = d_items (dlook D e) /\
  d_src (dlook D' e) = d_src (dlook D e).
Proof.
  intros (H1 & H2 & H3) Hle. destruct (decide (e = k)) as [->|NE]; [done|].
  rewrite H1; [done|lia].
Qed.

Lemma get_den_agree D D' st k g i :
  agree k D D' -> get_ok D st k g -> get_den D' g i = get_den D g i.
Proof.
  intros Hag. pose proof Hag as (H1 & H2 & H3).
  destruct g; simpl; try done.
  - intros (? & ? & _). by rewrite !H1.
  - intros [? _]. by rewrite H1.
  - intros [? _]. by rewrite H1.
  - intros [? _]. by rewrite H1.
  - intros [? _]. by rewrite H1.
  - intros [Hle _]. by destruct (dlook_agree_le D D' k enumerable Hag Hle) as [_ ->].
  - intros [Hle _]. by destruct (dlook_agree_le D D' k enumerable Hag Hle) as [_ ->].
  - intros Hle. by destruct (dlook_agree_le D D' k enumerable Hag Hle) as [-> _].
Qed.

Lemma get_ok_agree D D' st k g :
  agree k D D' -> get_ok D st k g -> get_ok D' st k g.
Proof.
  intros Hag. destruct g; simpl; try done.
  - intros [Hle [s Hs]]. split; [done|]. exists s.
    by destruct (dlook_agree_le D D' k enumerable Hag Hle) as [_ ->].
  - intros [Hle [a Ha]]. split; [done|]. exists a.
    by destruct (dlook_agree_le D D' k enumerable Hag Hle) as [_ ->].
Qed.

Lemma resolve_count_agree D D' k src :
  agree k D D' -> src_wf k src = true ->
  count_den D' (resolve_countfn k src) = count_den D (resolve_countfn k src).
Proof.
  intros (H1 & H2 & H3) Hwf.
  destruct src as [v|a|a| |g|inner]; simpl in *; try done.
  - by destruct v.
  - by rewrite H2.
  - apply Nat.ltb_lt in Hwf. by rewrite H1.
Qed.

Lemma resolve_get_agree D D' k src i :
  agree k D D' -> src_wf k src = true ->
  get_den D' (resolve_getfn k src) i = get_den D (resolve_getfn k src) i.
Proof.
  intros (H1 & H2 & H3) Hwf.
  destruct src as [v|a|a| |g|inner]; simpl in *; try done.
  - destruct v; try done. simpl. by rewrite H3.
  - by rewrite H3.
  - by rewrite H2.
  - by rewrite H2.
  - apply Nat.ltb_lt in Hwf. by rewrite H1.
Qed.

Lemma resolve_seek_agree D D' k src :
  (forall j, (j < k)%nat -> dlook D' j = dlook D j) -> src_wf k src = true ->
  resolve_seek D' src = resolve_seek D src.
Proof.
  intros H1 Hwf.
  destruct src as [v|a|a| |g|inner]; simpl in *; try done.
  apply Nat.ltb_lt in Hwf. by rewrite H1.
Qed.

Lemma handle_ok_agree D D' st k o d :
  agree k D D' -> handle_ok D st k o d -> handle_ok D' st k o d.
Proof.
  intros Hag [H1 H2 H3 H4 H5 H6]. split; try done.
  - rewrite H4. symmetry. apply (src_den_agree D D' k); [apply Hag|done].
  - destruct (_count o).
    + destruct H5. split; [done|]. by erewrite count_den_agree.
    + by erewrite resolve_count_agree.
  - destruct (_tryGetAt o).
    + destruct H6 as (Hg & Hd & Hs). split_and!; try done.
      * by eapply get_ok_agree.
      * intros i. by erewrite get_den_agree.
    + destruct H6 as [Hd Hs]. split.
      * intros i. by erewrite resolve_get_agree.
      * erewrite resolve_seek_agree; [done|apply Hag|done].
Qed.

Lemma agree_self D d d' :
  d_items d' = d_items d -> d_src d' = d_src d ->
  agree (length D) (D ++ [d]) (D ++ [d']).
Proof.
  intros Hi Hs. split_and!.
  - intros j Hj. by rewrite !dlook_app_l.
  - by rewrite !dlook_app_r.
  - by rewrite !dlook_app_r.
Qed.

Lemma Inv_new D st o :
  Inv D st -> heap st !! length D = Some o ->
  src_wf (length D) (_src o) = true ->
  generator_of (_src o) = Some (_generator o) ->
  (forall c, _count o = Some c -> count_ok st (length D) c) ->
  (forall g, _tryGetAt o = Some g ->
             get_ok (D ++ [self_den D (_src o)]) st (length D) g) ->
  Inv (D ++ [new_den D o]) st.
Proof.
  intros [HL HI] Ho Hwf Hgen Hc Hg.
  split.
  - rewrite length_app. simpl. apply lookup_lt_Some in Ho. lia.
  - intros k ok Hk Hok. rewrite length_app in Hk. simpl in Hk.
    destruct (decide (k = length D)) as [->|NE].
    + rewrite Ho in Hok. inversion Hok; subst ok. rewrite dlook_app_r.
      set (D0 := D ++ [self_den D (_src o)]).
      assert (Hag0 : forall j, (j < length D)%nat -> dlook D0 j = dlook D j).
      { intros j Hj. by apply dlook_app_l. }
      eapply (handle_ok_agree D0); [by apply agree_self|].
      split; simpl; try done.
      * symmetry. by apply (src_den_agree D D0 (length D)).
      * destruct (_count o) as [c|]; [|done]. split; [|done]. by apply Hc.
      * destruct (_tryGetAt o) as [g|].
        -- split_and!; try done. by apply Hg.
        -- split; [done|]. by eapply resolve_seek_agree.
    + rewrite dlook_app_l by lia.
      eapply handle_ok_agree; [apply agree_app; lia|]. apply HI; [lia|done].
Qed.

(** ** Methods that create an object *)

Lemma good_alloc D b st o (Q : nat -> state -> Prop) :
  Inv D st -> (length (heap st) < b)%nat ->
  Q (length (heap st)) (mkState (heap st ++ [o]) (log st)) ->
  good D b st (fun _ => alloc o) Q.
Proof.
  intros HI Hb HQ.
  exists (length (heap st)), (mkState (heap st ++ [o]) (log st)).
  split_and!; try done.
  - by exists 0%nat.
  - destruct HI as [HL HI]. split; simpl.
    + rewrite length_app. lia.
    + intros k ok Hk Hok. rewrite lookup_app_l in Hok by lia.
      eapply handle_ok_stable; [apply stable_alloc|]. by apply HI.
  - apply stable_alloc.
  - intros j Hj. simpl. rewrite !lookup_ge_None_2; [done|lia|].
    rewrite length_app. simpl. lia.
Qed.

Lemma good_update_new D b st k f o (Q : unit -> state -> Prop) :
  Inv D st -> heap st !! k = Some o -> (length D <= k)%nat -> (k < b)%nat ->
  caps_kept o (f o) ->
  Q tt (mkState (<[k := f o]> (heap st)) (log st)) ->
  good D b st (fun _ => update k f) Q.
Proof.
  intros HI Hk Hle Hb Hc HQ.
  exists tt, (mkState (<[k := f o]> (heap st)) (log st)).
  split_and!; try done.
  - exists 0%nat. intros fuel _. unfold update. cbv beta. rewrite Hk. done.
  - eapply Inv_update; eauto. lia.
  - eapply stable_update; eauto.
  - intros j Hj. simpl. rewrite list_lookup_insert_ne; [done|lia].
Qed.

Lemma good_throw_never D b st {A} (m : nat -> M A) (Q : A -> state -> Prop) :
  good D b st m Q -> forall e st', ~ throws m st e st'.
Proof.
  intros (v & st1 & [n1 H1] & _) e st' [n2 H2].
  specialize (H1 (n1 `max` n2)%nat ltac:(lia)).
  specialize (H2 (n1 `max` n2)%nat ltac:(lia)). congruence.
Qed.

Lemma new_good D st src g :
  Full D st -> src_wf (length D) src = true -> generator_of src = Some g ->
  good D (S (length D)) st (fun _ => Linqer.new src)
    (fun v st' => v = length D /\
       exists q, heap st' !! length D = Some (fresh src g q) /\
                 match src with SrcEnum _ => True | _ => q = true end).
Proof.
  intros [HI HL] Hwf Hgen.
  assert (Hens : _ensureIterable src = ret tt).
  { unfold _ensureIterable. destruct src as [v|a|a| |g'|e]; simpl in *; try done.
    destruct v; try done. simpl. by rewrite Hwf. }
  assert (Hq : forall q, match src with SrcEnum _ => True | _ => q = true end ->
    good D (S (length D)) st (fun _ => alloc (fresh src g q))
      (fun v st' => v = length D /\
         exists q, heap st' !! length D = Some (fresh src g q) /\
                   match src with SrcEnum _ => True | _ => q = true end)).
  { intros q Hqq. apply good_alloc; [done|lia|]. simpl. split; [done|].
    exists q. split; [|done].
    rewrite lookup_app_r by lia. rewrite HL.
    by replace (length D - length D)%nat with 0%nat by lia. }
  unfold Linqer.new. rewrite Hens, Hgen.
  destruct src as [v|a|a| |g'|e]; simpl in Hwf |- *; try done;
    try (by apply Hq).
  apply Nat.ltb_lt in Hwf.
  destruct (Inv_lookup D st e HI Hwf) as (o & Ho & _).
  eapply good_ext; [|apply (Hq (_useQuickSort o) I)].
  intros f. unfold bind, ret, get_enum. cbv beta. rewrite Ho. reflexivity.
Qed.

Lemma Full_new D st st' o :
  Full D st -> Inv D st' -> keeps (S (length D)) st st' ->
  heap st' !! length D = Some o ->
  src_wf (length D) (_src o) = true ->
  generator_of (_src o) = Some (_generator o) ->
  (forall c, _count o = Some c -> count_ok st' (length D) c) ->
  (forall g, _tryGetAt o = Some g ->
             get_ok (D ++ [self_den D (_src o)]) st' (length D) g) ->
  Full (D ++ [new_den D o]) st'.
Proof.
  intros [HI HL] HI' HK Ho Hwf Hgen Hc Hg. split.
  - by apply Inv_new.
  - rewrite length_app. simpl.
    pose proof (lookup_lt_Some _ _ _ Ho) as H1.
    assert (H2 : heap st' !! (S (length D)) = None).
    { rewrite HK by lia. apply lookup_ge_None_2. lia. }
    apply lookup_ge_None_1 in H2. lia.
Qed.

Lemma caps_kept_set_tryGetAt o g :
  _tryGetAt o = None -> caps_kept o (set_tryGetAt g o).
Proof. intros H. unfold caps_kept; simpl. rewrite H. naive_solver. Qed.

Lemma resolved_canSeek D st k :
  Inv D st -> (k < length D)%nat -> resolved_tryGetAt st k ->
  exists o, heap st !! k = Some o /\ _canSeek o = d_seek (dlook D k).
Proof.
  intros HI Hk (o & g & Ho & Hg). exists o. split; [done|].
  pose proof (ok_tryGetAt _ _ _ _ _ (proj2 HI k o Hk Ho)) as H.
  rewrite Hg in H. by destruct H as (_ & _ & ?).
Qed.

Lemma good_tail D b st {A} (m : M A) n o o' (v : A) (Q : A -> state -> Prop) :
  Inv D st -> heap st !! n = Some o -> (length D <= n)%nat -> (n < b)%nat ->
  caps_kept o o' ->
  m st = Ok v (mkState (<[n := o']> (heap st)) (log st)) ->
  (stable st (mkState (<[n := o']> (heap st)) (log st)) ->
   Q v (mkState (<[n := o']> (heap st)) (log st))) ->
  good D b st (fun _ => m) Q.
Proof.
  intros HI Ho Hle Hb Hc Hm HQ.
  assert (HS : stable st (mkState (<[n := o']> (heap st)) (log st))).
  { eapply stable_update; eauto. }
  eapply good_direct; eauto.
  - eapply Inv_update; eauto. lia.
  - intros j Hj. simpl. rewrite list_lookup_insert_ne; [done|lia].
Qed.

Ltac run_tail Ho :=
  unfold bind, update, get_enum, ret; simpl; rewrite ?Ho; simpl;
  repeat (rewrite list_lookup_insert_eq
            by (rewrite ?length_insert; by eapply lookup_lt_Some); simpl);
  rewrite ?list_insert_insert_eq; reflexivity.

Lemma take_good D st this nr :
  Full D st -> (this < length D)%nat ->
  good D (S (length D)) st (fun f => Linqer.take f this nr)
    (fun v st' => v = length D /\ resolved_tryGetAt st' this /\
       heap st' !! length D = Some (take_obj (d_seek (dlook D this)) this nr)).
Proof.
  intros HF Hthis. unfold Linqer.take.
  eapply good_bind;
    [intros f; reflexivity
    |eapply new_good; [done|simpl; by apply Nat.ltb_lt|reflexivity] |].
  intros ? st1 HI1 _ _ (-> & q & Ho1 & ->). simpl.
  eapply good_bind with
    (Q1 := fun _ st2 => heap st2 !! length D =
       Some (set_count (CountTake this nr)
               (fresh (SrcGenFn (GenTake this nr))
                      (GeneratorFunction (GenTake this nr)) true)));
    [intros f; reflexivity| |].
  { eapply good_update_new; eauto; [by apply caps_kept_set_count|].
    simpl. apply list_lookup_insert_eq. by eapply lookup_lt_Some. }
  intros [] st2 HI2 _ _ Ho2.
  eapply good_bind; [intros f; reflexivity| |].
  { eapply good_weaken; [|by apply ensureInternalTryGetAt_good]. lia. }
  intros [] st3 HI3 _ _ [Hres Hkeep].
  assert (Ho3 := Ho2). rewrite <- Hkeep in Ho3 by lia.
  destruct (resolved_canSeek D st3 this HI3 Hthis Hres) as (s & Hs & Hseek).
  eapply good_bind with (Q1 := fun o' st4 => o' = s /\ st4 = st3);
    [intros f; reflexivity| by eapply good_get_enum |].
  intros ? ? _ _ _ [-> ->]. rewrite Hseek.
  assert (Hlt : (length D < length (heap st3))%nat) by (by eapply lookup_lt_Some).
  eapply good_tail with (o' := take_obj (d_seek (dlook D this)) this nr);
    [done|exact Ho3|lia|lia| | |].
  - unfold caps_kept; simpl. naive_solver.
  - destruct (d_seek (dlook D this)); run_tail Ho3.
  - intros HS. split; [done|]. split.
    + by eapply resolved_tryGetAt_stable.
    + simpl. by apply list_lookup_insert_eq.
Qed.

Lemma skip_good D st this nr :
  Full D st -> (this < length D)%nat ->
  good D (S (length D)) st (fun f => Linqer.skip f this nr)
    (fun v st' => v = length D /\ resolved_tryGetAt st' this /\
       heap st' !! length D = Some (skip_obj (d_seek (dlook D this)) this nr)).
Proof.
  intros HF Hthis. unfold Linqer.skip.
  eapply good_bind;
    [intros f; reflexivity
    |eapply new_good; [done|simpl; by apply Nat.ltb_lt|reflexivity] |].
  intros ? st1 HI1 _ _ (-> & q & Ho1 & ->). simpl.
  eapply good_bind with
    (Q1 := fun _ st2 => heap st2 !! length D =
       Some (set_count (CountSkip this nr)
               (fresh (SrcGenFn (GenSkip this nr))
                      (GeneratorFunction (GenSkip this nr)) true)));
    [intros f; reflexivity| |].
  { eapply good_update_new; eauto; [by apply caps_kept_set_count|].
    simpl. apply list_lookup_insert_eq. by eapply lookup_lt_Some. }
  intros [] st2 HI2 _ _ Ho2.
  eapply good_bind; [intros f; reflexivity| |].
  { eapply good_weaken; [|by apply ensureInternalTryGetAt_good]. lia. }
  intros [] st3 HI3 _ _ [Hres Hkeep].
  assert (Ho3 := Ho2). rewrite <- Hkeep in Ho3 by lia.
  destruct (resolved_canSeek D st3 this HI3 Hthis Hres) as (s & Hs & Hseek).
  eapply good_bind with (Q1 := fun o' st4 => o' = s /\ st4 = st3);
    [intros f; reflexivity| by eapply good_get_enum |].
  intros ? ? _ _ _ [-> ->]. rewrite Hseek.
  assert (Hlt : (length D < length (heap st3))%nat) by (by eapply lookup_lt_Some).
  eapply good_tail with (o' := skip_obj (d_seek (dlook D this)) this nr);
    [done|exact Ho3|lia|lia| | |].
  - unfold caps_kept; simpl. naive_solver.
  - run_tail Ho3.
  - intros HS. split; [done|]. split.
    + by eapply resolved_tryGetAt_stable.
    + simpl. by apply list_lookup_insert_eq.
Qed.

Lemma where_good D st this condition fuel :
  Full D st -> (this < length D)%nat ->
  good D (S (length D)) st (fun _ => Linqer.where_ fuel this condition)
    (fun v st' => v = length D /\
       heap st' !! length D =
         Some (fresh (SrcGenFn (GenWhere this condition))
                     (GeneratorFunction (GenWhere this condition)) true)).
Proof.
  intros HF Hthis. unfold Linqer.where_.
  eapply good_conseq;
    [eapply new_good; [done|simpl; by apply Nat.ltb_lt|reflexivity]|].
  intros v st' _ _ _ (-> & q & Ho & ->). done.
Qed.

Lemma select_good D st this f :
  Full D st -> (this < length D)%nat ->
  good D (S (length D)) st (fun fuel => Linqer.select fuel this f)
    (fun v st' => v = length D /\ resolved_tryGetAt st' this /\
       exists o c, heap st' !! this = Some o /\ _count o = Some c /\
       heap st' !! length D =
         Some (select_obj (d_seek (dlook D this)) c this f)).
Proof.
  intros HF Hthis. unfold Linqer.select.
  eapply good_bind;
    [intros fuel; reflexivity
    |eapply new_good; [done|simpl; by apply Nat.ltb_lt|reflexivity] |].
  intros ? st1 HI1 _ _ (-> & q & Ho1 & ->). simpl.
  eapply good_bind; [intros fuel; reflexivity| |].
  { eapply good_weaken; [|by apply ensureInternalCount_good]. lia. }
  intros [] st2 HI2 _ _ [(s & c & Hs & Hc) Hkeep].
  assert (Ho2 := Ho1). rewrite <- Hkeep in Ho2 by lia.
  eapply good_bind with (Q1 := fun o' st4 => o' = s /\ st4 = st2);
    [intros fuel; reflexivity| by eapply good_get_enum |].
  intros ? ? _ _ _ [-> ->]. rewrite Hc.
  eapply good_bind with
    (Q1 := fun _ st3 => heap st3 !! length D =
       Some (set_count c (fresh (SrcGenFn (GenSelect this f))
                                (GeneratorFunction (GenSelect this f)) true)));
    [intros fuel; reflexivity| |].
  { eapply good_update_new; eauto.
    - unfold caps_kept; simpl. naive_solver.
    - simpl. apply list_lookup_insert_eq. by eapply lookup_lt_Some. }
  intros [] st3 HI3 HS3 _ Ho3.
  eapply good_bind; [intros fuel; reflexivity| |].
  { eapply good_weaken; [|by apply ensureInternalTryGetAt_good]. lia. }
  intros [] st4 HI4 HS4 _ [Hres Hkeep4].
  assert (Ho4 := Ho3). rewrite <- Hkeep4 in Ho4 by lia.
  destruct (resolved_canSeek D st4 this HI4 Hthis Hres) as (s4 & Hs4 & Hseek).
  eapply good_bind with (Q1 := fun o' st5 => o' = s4 /\ st5 = st4);
    [intros fuel; reflexivity| by eapply good_get_enum |].
  intros ? ? _ _ _ [-> ->]. rewrite Hseek.
  assert (Hlt : (length D < length (heap st4))%nat) by (by eapply lookup_lt_Some).
  eapply good_tail with (o' := select_obj (d_seek (dlook D this)) c this f);
    [done|exact Ho4|lia|lia| | |].
  - unfold caps_kept; simpl. naive_solver.
  - run_tail Ho4.
  - intros HS. split; [done|]. split; [by eapply resolved_tryGetAt_stable|].
    assert (Hsc : stable st2 (mkState
      (<[length D := select_obj (d_seek (dlook D this)) c this f]> (heap st4))
      (log st4))).
    { eapply stable_trans; [exact HS3|]. eapply stable_trans; [exact HS4|done]. }
    destruct (Hsc _ _ Hs) as (o' & Ho' & HC).
    exists o', c. split_and!; [done| |].
    + apply HC. exact Hc.
    + simpl. by apply list_lookup_insert_eq.
Qed.

Lemma evals_bind {A B} (m : nat -> M A) (k : A -> nat -> M B) (F : nat -> M B)
    st a st1 b st2 :
  (forall f, F f st = bind (m f) (fun x => k x f) st) ->
  evals m st a st1 -> evals (k a) st1 b st2 -> evals F st b st2.
Proof.
  intros HF [n1 H1] [n2 H2]. exists (n1 `max` n2)%nat. intros fuel Hle.
  rewrite HF. unfold bind. rewrite H1 by lia. apply H2. lia.
Qed.

Lemma src_wf_mono k k' :
  (k <= k')%nat -> forall src, src_wf k src = true -> src_wf k' src = true.
Proof.
  intros Hle src.
  induction src using source_mut with
    (P := fun g => gen_wf k g = true -> gen_wf k' g = true);
    simpl; intros Hwf; try done;
    rewrite ?andb_true_iff, ?Nat.ltb_lt in *; try lia.
  - destruct Hwf as [H1 H2]. split; [lia|]. by apply IHsrc.
  - by apply IHsrc.
Qed.

Lemma good_creates D st (m : nat -> M nat) o (side : state -> Prop) :
  Full D st ->
  good D (S (length D)) st m
    (fun v st' => v = length D /\ side st' /\ heap st' !! length D = Some o) ->
  src_wf (length D) (_src o) = true ->
  generator_of (_src o) = Some (_generator o) ->
  (forall st', side st' ->
     (forall c, _count o = Some c -> count_ok st' (length D) c) /\
     (forall g, _tryGetAt o = Some g ->
                get_ok (D ++ [self_den D (_src o)]) st' (length D) g)) ->
  exists st', creates D st m o st' /\ side st'.
Proof.
  intros HF (v & st' & He & HI & HS & HK & -> & Hside & Ho) Hwf Hgen Hok.
  exists st'. split; [|done]. unfold creates. split_and!; try done.
  destruct (Hok st' Hside) as [Hc Hg].
  eapply Full_new; eauto.
Qed.

Lemma take_creates D st this nr :
  Full D st -> (this < length D)%nat ->
  exists st', creates D st (fun f => Linqer.take f this nr)
                (take_obj (d_seek (dlook D this)) this nr) st' /\
              resolved_tryGetAt st' this.
Proof.
  intros HF Hthis.
  eapply (good_creates D st _ _ (fun st' => resolved_tryGetAt st' this));
    [done|by apply take_good|simpl; by apply Nat.ltb_lt|done|].
  intros st' Hres. split.
  - simpl. intros c [= <-]. simpl. done.
  - simpl. destruct (d_seek (dlook D this)); [|done].
    intros g [= <-]. simpl. done.
Qed.

Lemma skip_creates D st this nr :
  Full D st -> (this < length D)%nat ->
  exists st', creates D st (fun f => Linqer.skip f this nr)
                (skip_obj (d_seek (dlook D this)) this nr) st' /\
              resolved_tryGetAt st' this.
Proof.
  intros HF Hthis.
  eapply (good_creates D st _ _ (fun st' => resolved_tryGetAt st' this));
    [done|by apply skip_good|simpl; by apply Nat.ltb_lt|done|].
  intros st' Hres. split.
  - simpl. intros c [= <-]. simpl. done.
  - simpl. intros g [= <-]. simpl. done.
Qed.

Lemma where_creates D st this condition fuel :
  Full D st -> (this < length D)%nat ->
  exists st', creates D st (fun _ => Linqer.where_ fuel this condition)
                (fresh (SrcGenFn (GenWhere this condition))
                       (GeneratorFunction (GenWhere this condition)) true) st'.
Proof.
  intros HF Hthis.
  destruct (good_creates D st (fun _ => Linqer.where_ fuel this condition)
              (fresh (SrcGenFn (GenWhere this condition))
                     (GeneratorFunction (GenWhere this condition)) true)
              (fun _ => True)) as (st' & H & _);
    [done| |simpl; by apply Nat.ltb_lt|done| |by exists st'].
  - eapply good_conseq; [by apply where_good|]. intros v st' _ _ _ [-> ?]. done.
  - intros st' _. split; simpl; intros ? [=].
Qed.

Lemma count_ok_mono st k k' c :
  (k <= k')%nat -> count_ok st k c -> count_ok st k' c.
Proof. intros Hle. destruct c; simpl; intuition lia. Qed.

Lemma select_creates D st this f :
  Full D st -> (this < length D)%nat ->
  exists st' c,
    creates D st (fun fuel => Linqer.select fuel this f)
      (select_obj (d_seek (dlook D this)) c this f) st' /\
    resolved_tryGetAt st' this /\ count_ok st' this c /\
    count_den D c = d_cnt (dlook D this).
Proof.
  intros HF Hthis.
  destruct (select_good D st this f HF Hthis)
    as (v & st' & He & HI & HS & HK & -> & Hres & o & c & Ho & Hc & Hn).
  pose proof (ok_count _ _ _ _ _ (proj2 HI this o Hthis Ho)) as Hok.
  rewrite Hc in Hok. destruct Hok as [Hok Hden].
  exists st', c. split_and!; try done.
  unfold creates. split_and!; try done.
  eapply Full_new; eauto.
  - simpl. by apply Nat.ltb_lt.
  - simpl. intros c' [= <-]. eapply count_ok_mono; [|exact Hok]. lia.
  - simpl. intros g [= <-]. simpl. done.
Qed.

Lemma concat_unfold fuel this iterable :
  Linqer.concat fuel this iterable =
  bind (_ensureIterable iterable) (fun _ =>
  bind (Linqer.from iterable) (fun other =>
  concat_body fuel this iterable other)).
Proof. reflexivity. Qed.

Lemma concat_body_good D st this iterable other :
  Full D st -> (this < length D)%nat -> (other < length D)%nat ->
  src_wf (length D) iterable = true ->
  good D (S (length D)) st (fun f => concat_body f this iterable other)
    (fun v st' => v = length D /\
       (resolved_tryGetAt st' this /\ resolved_tryGetAt st' other) /\
       heap st' !! length D =
         Some (concat_obj (d_seek (dlook D this)) (d_seek (dlook D other))
                 this other iterable)).
Proof.
  intros HF Hthis Hother Hwf. unfold concat_body.
  eapply good_bind;
    [intros f; reflexivity
    |eapply new_good; [done| |reflexivity] |].
  { simpl. rewrite Hwf. rewrite andb_true_r. by apply Nat.ltb_lt. }
  intros ? st1 HI1 _ _ (-> & q & Ho1 & ->). simpl.
  eapply good_bind with
    (Q1 := fun _ st2 => heap st2 !! length D =
       Some (set_count (CountConcat this other)
               (fresh (SrcGenFn (GenConcat this iterable))
                      (GeneratorFunction (GenConcat this iterable)) true)));
    [intros f; reflexivity| |].
  { eapply good_update_new; eauto; [by apply caps_kept_set_count|].
    simpl. apply list_lookup_insert_eq. by eapply lookup_lt_Some. }
  intros [] st2 HI2 _ _ Ho2.
  eapply good_bind; [intros f; reflexivity| |].
  { eapply good_weaken; [|by apply ensureInternalTryGetAt_good]. lia. }
  intros [] st3 HI3 _ _ [Hres Hkeep].
  assert (Ho3 := Ho2). rewrite <- Hkeep in Ho3 by lia.
  eapply good_bind; [intros f; reflexivity| |].
  { eapply good_weaken; [|by apply ensureInternalTryGetAt_good]. lia. }
  intros [] st4 HI4 HS4 _ [Hres' Hkeep'].
  assert (Ho4 := Ho3). rewrite <- Hkeep' in Ho4 by lia.
  assert (Hres4 : resolved_tryGetAt st4 this)
    by (by eapply resolved_tryGetAt_stable).
  destruct (resolved_canSeek D st4 this HI4 Hthis Hres4) as (s & Hs & Hseek).
  destruct (resolved_canSeek D st4 other HI4 Hother Hres') as (o & Hoo & Hseeko).
  eapply good_bind with (Q1 := fun o' st5 => o' = s /\ st5 = st4);
    [intros f; reflexivity| by eapply good_get_enum |].
  intros ? ? _ _ _ [-> ->].
  eapply good_bind with (Q1 := fun o' st5 => o' = o /\ st5 = st4);
    [intros f; reflexivity| by eapply good_get_enum |].
  intros ? ? _ _ _ [-> ->]. rewrite Hseek, Hseeko.
  assert (Hlt : (length D < length (heap st4))%nat) by (by eapply lookup_lt_Some).
  eapply good_tail with
    (o' := concat_obj (d_seek (dlook D this)) (d_seek (dlook D other))
             this other iterable);
    [done|exact Ho4|lia|lia| | |].
  - unfold caps_kept; simpl. naive_solver.
  - destruct (d_seek (dlook D this)); run_tail Ho4.
  - intros HS. split; [done|]. split.
    + split; by eapply resolved_tryGetAt_stable.
    + simpl. by apply list_lookup_insert_eq.
Qed.

Lemma concat_body_creates D st this iterable other :
  Full D st -> (this < length D)%nat -> (other < length D)%nat ->
  src_wf (length D) iterable = true ->
  exists st', creates D st (fun f => concat_body f this iterable other)
                (concat_obj (d_seek (dlook D this)) (d_seek (dlook D other))
                   this other iterable) st' /\
              (resolved_tryGetAt st' this /\ resolved_tryGetAt st' other).
Proof.
  intros HF Hthis Hother Hwf.
  eapply (good_creates D st _ _
            (fun st' => resolved_tryGetAt st' this /\ resolved_tryGetAt st' other));
    [done|by apply concat_body_good| |done|].
  - simpl. rewrite Hwf, andb_true_r. by apply Nat.ltb_lt.
  - intros st' [Hr1 Hr2]. split.
    + simpl. intros c [= <-]. simpl. done.
    + simpl. destruct (d_seek (dlook D this)); [|done].
      intros g [= <-]. simpl. done.
Qed.

Lemma new_creates D st src g :
  Full D st -> src_wf (length D) src = true -> generator_of src = Some g ->
  exists st' q, creates D st (fun _ => Linqer.new src) (fresh src g q) st' /\
                match src with SrcEnum _ => True | _ => q = true end.
Proof.
  intros HF Hwf Hgen.
  destruct (new_good D st src g HF Hwf Hgen)
    as (v & st' & He & HI & HS & HK & -> & q & Ho & Hq).
  exists st', q. split; [|done]. unfold creates. split_and!; try done.
  eapply Full_new; eauto; simpl; intros ? [=].
Qed.

Lemma generator_of_wf k src :
  src_wf k src = true -> exists g, generator_of src = Some g.
Proof.
  destruct src as [v|a|a| |g|e]; simpl; try done; eauto.
  destruct v; try done. eauto.
Qed.

Lemma ensureIterable_wf k src :
  src_wf k src = true -> _ensureIterable src = ret tt.
Proof.
  unfold _ensureIterable. destruct src as [v|a|a| |g'|e]; simpl; try done.
  destruct v; try done. simpl. by intros ->.
Qed.

Lemma ensureIterable_rejects k src :
  arg_wf k src = true -> src_wf k src = false ->
  _ensureIterable src = throw InvalidSourceError.
Proof.
  unfold _ensureIterable.
  destruct src as [v|a|a| |g'|e]; simpl; try congruence.
  destruct v; simpl; try done; intros _ H;
    rewrite ?andb_false_r; try done.
  by rewrite H.
Qed.

(** What [concat] does for each kind of argument: it rejects it, or uses
    the Enumerable it is given, or wraps it first. *)
Lemma concat_rejects k fuel this iterable st :
  arg_wf k iterable = true -> src_wf k iterable = false ->
  Linqer.concat fuel this iterable st = Throw InvalidSourceError st.
Proof.
  intros H1 H2. rewrite concat_unfold.
  by rewrite (ensureIterable_rejects k).
Qed.

Lemma concat_enum_creates D st this e :
  Full D st -> (this < length D)%nat -> (e < length D)%nat ->
  exists st', creates D st (fun f => Linqer.concat f this (SrcEnum e))
                (concat_obj (d_seek (dlook D this)) (d_seek (dlook D e))
                   this e (SrcEnum e)) st' /\
              (resolved_tryGetAt st' this /\ resolved_tryGetAt st' e).
Proof.
  intros HF Hthis He.
  apply concat_body_creates; try done. simpl. by apply Nat.ltb_lt.
Qed.

Lemma concat_raw_creates D st this iterable g :
  Full D st -> (this < length D)%nat ->
  src_wf (length D) iterable = true ->
  match iterable with SrcEnum _ => False | _ => True end ->
  generator_of iterable = Some g ->
  let D1 := D ++ [new_den D (fresh iterable g true)] in
  exists st1 st',
    creates D st (fun _ => Linqer.new iterable) (fresh iterable g true) st1 /\
    creates D1 st1 (fun f => concat_body f this iterable (length D))
      (concat_obj (d_seek (dlook D1 this)) (d_seek (dlook D1 (length D)))
         this (length D) iterable) st' /\
    evals (fun f => Linqer.concat f this iterable) st (length D1) st' /\
    (resolved_tryGetAt st' this /\ resolved_tryGetAt st' (length D)).
Proof.
  intros HF Hthis Hwf Hraw Hgen D1.
  destruct (new_creates D st iterable g HF Hwf Hgen) as (st1 & q & Hc1 & Hq).
  assert (q = true) as -> by (by destruct iterable).
  pose proof Hc1 as (He1 & HF1 & HS1 & Ho1 & HI1).
  assert (HL1 : length D1 = S (length D)).
  { unfold D1. rewrite length_app. simpl. lia. }
  destruct (concat_body_creates D1 st1 this iterable (length D) HF1)
    as (st' & Hc2 & Hres); [lia|lia| |].
  { eapply src_wf_mono; [|exact Hwf]. lia. }
  exists st1, st'. split_and!; try done; try apply Hres.
  eapply evals_bind with (m := fun _ => Linqer.new iterable)
    (k := fun other f => concat_body f this iterable other);
    [|exact He1|apply Hc2].
  intros f. cbv beta. unfold Linqer.concat.
  rewrite (ensureIterable_wf (length D)) by done.
  by destruct iterable.
Qed.

Lemma factory_creates D st src g (tail : nat -> M nat) (m : M nat) o :
  Full D st -> src_wf (length D) src = true ->
  match src with SrcEnum _ => False | _ => True end ->
  generator_of src = Some g ->
  m = bind (Linqer.new src) tail ->
  _src o = src -> _generator o = g -> _useQuickSort o = true ->
  (forall st1, heap st1 !! length D = Some (fresh src g true) ->
     tail (length D) st1 =
       Ok (length D) (mkState (<[length D := o]> (heap st1)) (log st1))) ->
  (forall st' c, _count o = Some c -> count_ok st' (length D) c) ->
  (forall st' g', _tryGetAt o = Some g' ->
                  get_ok (D ++ [self_den D src]) st' (length D) g') ->
  exists st', creates D st (fun _ => m) o st'.
Proof.
  intros HF Hwf Hraw Hgen -> Hs Hg Hq Htail Hc Hget.
  destruct (good_creates D st (fun _ => bind (Linqer.new src) tail) o
              (fun _ => True)) as (st' & H & _);
    [done| |by rewrite Hs|by rewrite Hs, Hg| |by exists st'].
  - eapply good_bind; [intros f; reflexivity|by eapply new_good|].
    intros ? st1 HI1 _ _ (-> & q & Ho1 & Hqq).
    assert (q = true) as -> by (by destruct src).
    eapply good_tail with (o' := o); [done|exact Ho1|lia|lia| |by apply Htail|].
    + unfold caps_kept; simpl. naive_solver.
    + intros _. split_and!; try done. simpl. apply list_lookup_insert_eq.
      by eapply lookup_lt_Some.
  - intros st' _. rewrite <- Hs in Hget. split; eauto.
Qed.

Lemma range_creates D st start n :
  Full D st -> exists st',
    creates D st (fun _ => Linqer.range start n) (range_obj start n) st'.
Proof.
  intros HF.
  eapply factory_creates with (src := SrcGenFn (GenRange start n)); try done.
  - intros st1 Ho. run_tail Ho.
  - simpl. intros ? ? [= <-]. done.
  - simpl. intros ? ? [= <-]. done.
Qed.

Lemma repeat_creates D st item n :
  Full D st -> exists st',
    creates D st (fun _ => Linqer.repeat item n) (repeat_obj item n) st'.
Proof.
  intros HF.
  eapply factory_creates with (src := SrcGenFn (GenRepeat item n)); try done.
  - intros st1 Ho. run_tail Ho.
  - simpl. intros ? ? [= <-]. done.
  - simpl. intros ? ? [= <-]. done.
Qed.

Lemma empty_creates D st :
  Full D st -> exists st', creates D st (fun _ => Linqer.empty) empty_obj st'.
Proof.
  intros HF.
  eapply factory_creates with (src := SrcArray []); try done.
  - intros st1 Ho. run_tail Ho.
  - simpl. intros ? ? [= <-]. done.
  - simpl. intros ? ? [= <-]. done.
Qed.

(** ** Methods that only read *)

Lemma Full_keeps D st st' :
  Full D st -> Inv D st' -> keeps (length D) st st' -> Full D st'.
Proof.
  intros [HI HL] HI' HK. split; [done|].
  destruct HI' as [HL' _].
  assert (H : heap st' !! length D = None).
  { rewrite HK by lia. apply lookup_ge_None_2. lia. }
  apply lookup_ge_None_1 in H. lia.
Qed.

Lemma lands_good D b st {A} (m : nat -> M A) (Q : A -> state -> Prop) :
  Full D st -> (b <= length D)%nat -> good D b st m Q -> lands D st m.
Proof.
  intros HF Hb (v & st' & He & HI & HS & HK & _). exists (Ok v st').
  split; [exact He|]. split; [|done].
  eapply Full_keeps; eauto. eapply keeps_mono; eauto.
Qed.

Lemma lands_bind D b st {A B} (m : nat -> M A) (k : A -> nat -> M B)
    (F : nat -> M B) (Q1 : A -> state -> Prop) :
  (forall f, F f st = bind (m f) (fun x => k x f) st) ->
  Full D st -> (b <= length D)%nat ->
  good D b st m Q1 ->
  (forall a st1, Full D st1 -> stable st st1 -> Q1 a st1 -> lands D st1 (k a)) ->
  lands D st F.
Proof.
  intros HF HFull Hb (a & st1 & [n1 H1] & HI1 & HS1 & HK1 & HQ1) Hk.
  assert (HF1 : Full D st1).
  { eapply Full_keeps; eauto. eapply keeps_mono; eauto. }
  destruct (Hk a st1 HF1 HS1 HQ1) as (r & [n2 H2] & Hr).
  exists r. split.
  - exists (n1 `max` n2)%nat. intros fuel Hle. rewrite HF. unfold bind.
    rewrite H1 by lia. apply H2. lia.
  - destruct r as [v st2|e st2|]; try done; destruct Hr as [? ?];
      (split; [done|by eapply stable_trans]).
Qed.

Lemma lands_ret D st {A} (v : A) : Full D st -> lands D st (fun _ => ret v).
Proof.
  intros HF. exists (Ok v st). split; [by exists 0%nat|].
  split; [done|apply stable_refl].
Qed.

Lemma lands_throw D st {A} e : Full D st -> lands D st (fun _ => @throw A e).
Proof.
  intros HF. exists (Throw e st). split; [by exists 0%nat|].
  split; [done|apply stable_refl].
Qed.

Lemma lands_ext D st {A} (F G : nat -> M A) :
  (forall f, F f st = G f st) -> lands D st G -> lands D st F.
Proof.
  intros HF (r & [n H] & Hr). exists r. split; [|done].
  exists n. intros fuel Hle. rewrite HF. by apply H.
Qed.

Lemma bind_assoc_at {A B C} (a : M A) (b : A -> M B) (k : B -> M C) st :
  bind a (fun x => bind (b x) k) st = bind (bind a b) k st.
Proof. unfold bind. by destruct (a st). Qed.

(** [ensure; read the object]: the prefix common to most methods. *)
Lemma ensure_get_good D st this :
  Full D st -> (this < length D)%nat ->
  good D (length D) st
    (fun f => bind (_ensureInternalTryGetAt f this) (fun _ => get_enum this))
    (fun o st' => resolved_tryGetAt st' this /\
                  _canSeek o = d_seek (dlook D this)).
Proof.
  intros [HI HL] Hthis.
  eapply good_bind; [intros f; reflexivity| |].
  { eapply good_mono; [|by apply ensureInternalTryGetAt_good]. lia. }
  intros [] st1 HI1 _ _ Hres. simpl in Hres.
  destruct (resolved_canSeek D st1 this HI1 Hthis Hres) as (s & Hs & Hseek).
  eapply good_get_enum; eauto.
Qed.

Lemma mapM_tryGetAt_good D st this (l : list Z) :
  Inv D st -> (this < length D)%nat -> resolved_tryGetAt st this ->
  good D (S this) st
    (fun f => mapM (fun i => bind (tryGetAt f this i)
                               (fun r => ret (default VUndefined r))) l)
    (fun v _ => v = (fun i => default VUndefined (d_get (dlook D this) i)) <$> l).
Proof.
  revert st. induction l as [|i l IH]; intros st HI Hthis Hres; simpl.
  - by apply good_ret.
  - eapply good_bind with
      (Q1 := fun v _ => v = default VUndefined (d_get (dlook D this) i));
      [intros f; reflexivity| |].
    { eapply good_bind; [intros f; reflexivity|by apply tryGetAt_good|].
      intros r st1 HI1 _ _ ->. by apply good_ret. }
    intros y st1 HI1 HS1 _ ->. simpl.
    eapply good_bind; [intros f; reflexivity| |].
    { apply IH; [done|done|]. by eapply resolved_tryGetAt_stable. }
    intros ys st2 HI2 _ _ ->. by apply good_ret.
Qed.

Lemma toArray_good D st this :
  Full D st -> (this < length D)%nat ->
  (d_seek (dlook D this) = true -> 0 <= d_cnt (dlook D this)) ->
  good D (length D) st (fun f => Linqer.toArray f this)
    (fun v _ => v = toArray_den (dlook D this)).
Proof.
  intros HF Hthis Hcnt. unfold Linqer.toArray, toArray_den.
  eapply good_bind with
    (m := fun f => bind (_ensureInternalTryGetAt f this) (fun _ => get_enum this));
    [intros f; apply bind_assoc_at|by apply ensure_get_good|].
  intros o st1 HI1 _ _ [Hres ->]. simpl.
  destruct (d_seek (dlook D this)).
  - eapply good_bind; [intros f; reflexivity| |].
    { eapply good_mono; [|by apply count_good]. lia. }
    intros n st2 HI2 HS2 _ ->. simpl. specialize (Hcnt eq_refl).
    destruct (d_cnt (dlook D this) <? 0) eqn:E; [apply Z.ltb_lt in E; lia|].
    eapply good_mono;
      [|apply mapM_tryGetAt_good;
        [done|done|by eapply resolved_tryGetAt_stable]].
    lia.
  - eapply good_mono; [|by apply iterate_good]. lia.
Qed.

Lemma toArray_lands D st this :
  Full D st -> (this < length D)%nat ->
  lands D st (fun f => Linqer.toArray f this).
Proof.
  intros HF Hthis.
  destruct (decide (d_seek (dlook D this) = true -> 0 <= d_cnt (dlook D this)))
    as [H|H].
  { eapply lands_good; [done| |by apply toArray_good]. lia. }
  assert (Hs : d_seek (dlook D this) = true).
  { destruct (d_seek (dlook D this)); [done|]. exfalso. apply H. discriminate. }
  assert (Hc : d_cnt (dlook D this) < 0).
  { destruct (decide (0 <= d_cnt (dlook D this))); [|lia]. exfalso. by apply H. }
  unfold Linqer.toArray.
  eapply lands_bind with
    (m := fun f => bind (_ensureInternalTryGetAt f this) (fun _ => get_enum this));
    [intros f; apply bind_assoc_at|done|reflexivity|by apply ensure_get_good|].
  intros o st1 HF1 _ [Hres Ho]. simpl. rewrite Ho, Hs.
  eapply lands_bind; [intros f; reflexivity|done| |by apply count_good; [apply HF1|]|];
    [lia|].
  intros n st2 HF2 _ ->. simpl.
  apply Z.ltb_lt in Hc. rewrite Hc. by apply lands_throw.
Qed.

Lemma result_good D b st {A} (m : nat -> M A) (Q : A -> state -> Prop)
    (P : res A -> Prop) :
  good D b st m Q -> (forall v st', Q v st' -> P (Ok v st')) ->
  result D b st m P.
Proof.
  intros (v & st' & He & HI & HS & HK & HQ) HP. exists (Ok v st').
  split_and!; try done. by apply HP.
Qed.

Lemma result_bind D b st {A B} (m : nat -> M A) (k : A -> nat -> M B)
    (F : nat -> M B) (Q1 : A -> state -> Prop) (P : res B -> Prop) :
  (forall f, F f st = bind (m f) (fun x => k x f) st) ->
  good D b st m Q1 ->
  (forall a st1, Inv D st1 -> stable st st1 -> keeps b st st1 -> Q1 a st1 ->
                 result D b st1 (k a) P) ->
  result D b st F P.
Proof.
  intros HF (a & st1 & [n1 H1] & HI1 & HS1 & HK1 & HQ1) Hk.
  destruct (Hk a st1 HI1 HS1 HK1 HQ1) as (r & [n2 H2] & HP & Hr).
  exists r. split_and!; try done.
  - exists (n1 `max` n2)%nat. intros fuel Hle. rewrite HF. unfold bind.
    rewrite H1 by lia. apply H2. lia.
  - destruct r as [v st2|e st2|]; try done; destruct Hr as (? & ? & ?);
      (split_and!; [done|by eapply stable_trans|by eapply keeps_trans]).
Qed.

Lemma result_throw D b st {A} e (P : res A -> Prop) :
  Inv D st -> P (Throw e st) -> result D b st (fun _ => throw e) P.
Proof.
  intros HI HP. exists (Throw e st). split_and!; try done.
  - by exists 0%nat.
  - apply stable_refl.
Qed.

Lemma lands_result D b st {A} (m : nat -> M A) (P : res A -> Prop) :
  Full D st -> (b <= length D)%nat -> result D b st m P -> lands D st m.
Proof.
  intros HF Hb (r & He & _ & Hr). exists r. split; [exact He|].
  destruct r as [v st2|e st2|]; try done; destruct Hr as (? & ? & ?);
    (split; [|done]); eapply Full_keeps; eauto; eapply keeps_mono; eauto.
Qed.

Lemma elementAt_result D st this index :
  Full D st -> (this < length D)%nat ->
  result D (length D) st (fun f => Linqer.elementAt f this index)
    (elementAt_res (dlook D this) index).
Proof.
  intros HF Hthis. unfold Linqer.elementAt.
  eapply result_bind; [intros f; reflexivity| |].
  { eapply good_mono; [|apply ensureInternalTryGetAt_good; [apply HF|done]]. lia. }
  intros [] st1 HI1 _ _ Hres. simpl in Hres |- *.
  eapply result_bind with (m := fun f => tryGetAt f this index);
    [intros f; reflexivity| |].
  { eapply good_mono; [|by apply tryGetAt_good]. lia. }
  intros r st2 HI2 _ _ ->. simpl. unfold elementAt_res.
  destruct (d_get (dlook D this) index) as [v|].
  - eapply result_good with (Q := fun x _ => x = v); [by apply good_ret|].
    intros ? st' ->. by exists st'.
  - apply result_throw; [done|]. by exists st2.
Qed.

Lemma elementAtOrDefault_good D st this index :
  Full D st -> (this < length D)%nat ->
  good D (length D) st (fun f => Linqer.elementAtOrDefault f this index)
    (fun v _ => v = default VUndefined (d_get (dlook D this) index)).
Proof.
  intros HF Hthis. unfold Linqer.elementAtOrDefault.
  eapply good_bind; [intros f; reflexivity| |].
  { eapply good_mono; [|apply ensureInternalTryGetAt_good; [apply HF|done]]. lia. }
  intros [] st1 HI1 _ _ Hres. simpl in Hres |- *.
  eapply good_bind with (m := fun f => tryGetAt f this index);
    [intros f; reflexivity| |].
  { eapply good_mono; [|by apply tryGetAt_good]. lia. }
  intros r st2 HI2 _ _ ->. simpl.
  destruct (d_get (dlook D this) index) as [v|]; by apply good_ret.
Qed.

Lemma length_result D st this :
  Full D st -> (this < length D)%nat ->
  result D (length D) st (fun f => Linqer.length f this)
    (length_res (dlook D this)).
Proof.
  intros HF Hthis. unfold Linqer.length.
  eapply result_bind with
    (m := fun f => bind (_ensureInternalTryGetAt f this) (fun _ => get_enum this));
    [intros f; apply bind_assoc_at|by apply ensure_get_good|].
  intros o st1 HI1 _ _ [Hres ->]. simpl. unfold length_res.
  destruct (d_seek (dlook D this)).
  - eapply result_good.
    + eapply good_mono; [|by apply count_good]. lia.
    + intros v st' ->. by exists st'.
  - apply result_throw; [done|]. by exists st1.
Qed.

Lemma count_good_at D st this :
  Full D st -> (this < length D)%nat ->
  good D (length D) st (fun f => count f this)
    (fun v _ => v = d_cnt (dlook D this)).
Proof.
  intros [HI HL] Hthis. eapply good_mono; [|by apply count_good]. lia.
Qed.

Lemma iterate_good_at D st this :
  Full D st -> (this < length D)%nat ->
  good D (length D) st (fun f => iterate f this)
    (fun v _ => v = d_items (dlook D this)).
Proof.
  intros [HI HL] Hthis. eapply good_mono; [|by apply iterate_good]. lia.
Qed.

Lemma last_lands D st this :
  Full D st -> (this < length D)%nat -> lands D st (fun f => Linqer.last f this).
Proof.
  intros HF Hthis. unfold Linqer.last.
  eapply lands_bind with
    (m := fun f => bind (_ensureInternalTryGetAt f this) (fun _ => get_enum this));
    [intros f; apply bind_assoc_at|done|reflexivity|by apply ensure_get_good|].
  intros o st1 HF1 _ _. simpl. destruct (_canSeek o).
  - eapply lands_bind; [intros f; reflexivity|done|reflexivity
                       |by apply count_good_at|].
    intros n st2 HF2 _ _. simpl.
    eapply lands_result; [done|reflexivity|by apply elementAt_result].
  - eapply lands_bind; [intros f; reflexivity|done|reflexivity
                       |by apply iterate_good_at|].
    intros items st2 HF2 _ _. simpl.
    destruct (list.last items); [by apply lands_ret|by apply lands_throw].
Qed.

Lemma lastOrDefault_lands D st this :
  Full D st -> (this < length D)%nat ->
  lands D st (fun f => Linqer.lastOrDefault f this).
Proof.
  intros HF Hthis. unfold Linqer.lastOrDefault.
  eapply lands_bind with
    (m := fun f => bind (_ensureInternalTryGetAt f this) (fun _ => get_enum this));
    [intros f; apply bind_assoc_at|done|reflexivity|by apply ensure_get_good|].
  intros o st1 HF1 _ _. simpl. destruct (_canSeek o).
  - eapply lands_bind; [intros f; reflexivity|done|reflexivity
                       |by apply count_good_at|].
    intros n st2 HF2 _ _. simpl.
    eapply lands_good; [done|reflexivity|by apply elementAtOrDefault_good].
  - eapply lands_bind; [intros f; reflexivity|done|reflexivity
                       |by apply iterate_good_at|].
    intros items st2 HF2 _ _. simpl. by apply lands_ret.
Qed.

Lemma after_iterate_lands D st this {A} (k : list value -> M A) :
  Full D st -> (this < length D)%nat ->
  (forall l st1, exists v, k l st1 = Ok v st1) ->
  lands D st (fun f => bind (iterate f this) k).
Proof.
  intros HF Hthis Hk.
  eapply lands_bind; [intros f; reflexivity|done|reflexivity
                     |by apply iterate_good_at|].
  intros items st1 HF1 _ _.
  destruct (Hk items st1) as [v Hv]. exists (Ok v st1).
  split; [by exists 0%nat|]. split; [done|apply stable_refl].
Qed.

Lemma after_iterate_lands2 D st this {A B} (k1 : list value -> M A) (k2 : A -> M B) :
  Full D st -> (this < length D)%nat ->
  (forall l st1, exists v, k1 l st1 = Ok v st1) ->
  (forall a st1, exists v, k2 a st1 = Ok v st1) ->
  lands D st (fun f => bind (bind (iterate f this) k1) k2).
Proof.
  intros HF Hthis H1 H2.
  eapply lands_ext with
    (G := fun f => bind (iterate f this) (fun l => bind (k1 l) k2)).
  { intros f. symmetry. apply bind_assoc_at. }
  apply after_iterate_lands; try done.
  intros l st1. destruct (H1 l st1) as [a Ha]. destruct (H2 a st1) as [b Hb].
  exists b. unfold bind. by rewrite Ha.
Qed.

(** The test of an argument that is to be a function: a value that is
    truthy and no function ends the call. *)
Lemma guarded_lands D st {A F} (c : argument F) (m : nat -> M A)
    (G : nat -> M A) :
  Full D st ->
  (forall f, G f st =
             bind (if arg_truthy c then _ensureFunction c else ret tt)
                  (fun _ => m f) st) ->
  lands D st m -> lands D st G.
Proof.
  intros HF HG Hm.
  destruct c as [f|v]; simpl in HG.
  - eapply lands_ext; [exact HG|]. exact Hm.
  - destruct (truthy v).
    + exists (Throw InvalidOperationArgumentError st). split.
      * exists 0%nat. intros fuel _. by rewrite HG.
      * split; [done|apply stable_refl].
    + eapply lands_ext; [exact HG|]. exact Hm.
Qed.

Lemma guarded_lands2 D st {A B F} (c : argument F) (m : nat -> M A)
    (k : A -> M B) (G : nat -> M B) :
  Full D st ->
  (forall f, G f st =
             bind (bind (if arg_truthy c then _ensureFunction c else ret tt)
                        (fun _ => m f)) k st) ->
  lands D st (fun f => bind (m f) k) -> lands D st G.
Proof.
  intros HF HG Hm.
  apply (guarded_lands D st c (fun f => bind (m f) k)); [done| |done].
  intros f. rewrite HG. symmetry. apply bind_assoc_at.
Qed.


Lemma ignore_lands D st {A} (m : nat -> M A) :
  lands D st m -> lands D st (fun f => ignore (m f)).
Proof.
  intros (r & [n H] & Hr).
  exists (match r with Ok _ st' => Ok tt st' | Throw e st' => Throw e st'
                  | Unfinished => Unfinished end).
  split.
  - exists n. intros fuel Hle. unfold ignore, bind. rewrite H by done.
    by destruct r.
  - by destruct r.
Qed.

(** ** [splice] and [toList] *)

Lemma length_ext D o : length (ext D o) = S (length D).
Proof. unfold ext. rewrite length_app. simpl. lia. Qed.

Lemma splice_creates D st this start howmany newItems :
  Full D st -> (this < length D)%nat ->
  exists st',
    evals (fun f => Linqer.splice f this start howmany newItems) st
      (S (S (S (S (length D))))) st' /\
    Full (splice_dens D this start howmany newItems) st' /\
    stable st st'.
Proof.
  intros HF Hthis. unfold splice_dens.
  set (n := length D).
  destruct (take_creates D st this start HF Hthis) as (st1 & Hc1 & _).
  destruct Hc1 as (He1 & HF1 & HS1 & _ & _). fold (ext D (take_obj (d_seek (dlook D this)) this start)) in HF1.
  set (D1 := ext D (take_obj (d_seek (dlook D this)) this start)) in *.
  assert (HL1 : length D1 = S n) by apply length_ext.
  destruct (concat_raw_creates D1 st1 n (SrcArray newItems)
              (IteratorOf (SrcArray newItems)) HF1) as (st2 & st3 & Hc2 & Hc3 & He3 & _);
    [lia|done|done|done|].
  destruct Hc2 as (_ & HF2 & HS2 & _ & _).
  destruct Hc3 as (_ & HF3 & HS3 & _ & _).
  rewrite HL1 in HF3.
  fold (ext D1 (fresh (SrcArray newItems) (IteratorOf (SrcArray newItems)) true))
    in HF2, HF3, He3.
  set (D2 := ext D1 (fresh (SrcArray newItems) (IteratorOf (SrcArray newItems)) true)) in *.
  assert (HL2 : length D2 = S (S n)) by (unfold D2; rewrite length_ext; lia).
  match type of HF3 with Full (D2 ++ [new_den D2 ?o]) _ =>
    fold (ext D2 o) in HF3; set (D3 := ext D2 o) in * end.
  assert (HL3 : length D3 = S (S (S n))) by (unfold D3; rewrite length_ext; lia).
  destruct (skip_creates D3 st3 this (start + howmany) HF3) as (st4 & Hc4 & _);
    [lia|].
  destruct Hc4 as (He4 & HF4 & HS4 & _ & _).
  match type of HF4 with Full (D3 ++ [new_den D3 ?o]) _ =>
    fold (ext D3 o) in HF4; set (D4 := ext D3 o) in * end.
  assert (HL4 : length D4 = S (S (S (S n)))) by (unfold D4; rewrite length_ext; lia).
  destruct (concat_enum_creates D4 st4 (S (S n)) (S (S (S n))) HF4) as (st5 & Hc5 & _);
    [lia|lia|].
  destruct Hc5 as (He5 & HF5 & HS5 & _ & _).
  exists st5. split_and!.
  - unfold Linqer.splice.
    eapply evals_bind with (m := fun f => Linqer.take f this start);
      [intros f; reflexivity|exact He1|]. simpl.
    eapply evals_bind with
      (m := fun f => Linqer.concat f (length D) (SrcArray newItems));
      [intros f; reflexivity| |].
    { rewrite HL2 in He3. exact He3. }
    simpl.
    eapply evals_bind with
      (m := fun f => Linqer.skip f this (start + howmany));
      [intros f; reflexivity| |].
    { rewrite HL3 in He4. exact He4. }
    simpl. rewrite HL4 in He5. exact He5.
  - exact HF5.
  - eapply stable_trans; [exact HS1|]. eapply stable_trans; [exact HS2|].
    eapply stable_trans; [exact HS3|]. eapply stable_trans; [exact HS4|exact HS5].
Qed.

(** ** Every program keeps the invariant *)

Lemma dlook_ext_new D o : dlook (ext D o) (length D) = new_den D o.
Proof. apply dlook_app_r. Qed.

Lemma dlook_ext_old D o j : (j < length D)%nat -> dlook (ext D o) j = dlook D j.
Proof. apply dlook_app_l. Qed.

Section Soundness.

Variable StringToNumber : string -> value.

(** A property [K] of denotations, and the arguments for which the
    objects that the methods create have it. *)
Variable K : den -> Prop.
Variable okn : Z -> Prop.
Variable okf : ISelector -> Prop.

Hypothesis K_fresh : forall D src g q,
  Forall K D -> src_wf (length D) src = true -> generator_of src = Some g ->
  K (new_den D (fresh src g q)).
Hypothesis K_empty : forall D, Forall K D -> K (new_den D empty_obj).
Hypothesis K_range : forall D start n,
  Forall K D -> okn n -> K (new_den D (range_obj start n)).
Hypothesis K_repeat : forall D item n,
  Forall K D -> okn n -> K (new_den D (repeat_obj item n)).
Hypothesis K_take : forall D this nr,
  Forall K D -> (this < length D)%nat -> okn nr ->
  K (new_den D (take_obj (d_seek (dlook D this)) this nr)).
Hypothesis K_skip : forall D this nr,
  Forall K D -> (this < length D)%nat -> okn nr ->
  K (new_den D (skip_obj (d_seek (dlook D this)) this nr)).
Hypothesis K_select : forall D st this f c,
  Forall K D -> (this < length D)%nat -> okf f ->
  count_ok st this c -> count_den D c = d_cnt (dlook D this) ->
  K (new_den D (select_obj (d_seek (dlook D this)) c this f)).
Hypothesis K_concat : forall D this other iterable,
  Forall K D -> (this < length D)%nat -> (other < length D)%nat ->
  src_wf (length D) iterable = true ->
  src_den D iterable = d_items (dlook D other) ->
  K (new_den D (concat_obj (d_seek (dlook D this)) (d_seek (dlook D other))
                  this other iterable)).

Lemma sound_lands D st {A} (m : nat -> M A) :
  Forall K D -> lands D st m -> sound K D st m.
Proof. intros HK H. exists D. done. Qed.

Lemma Forall_ext D o : Forall K D -> K (new_den D o) -> Forall K (ext D o).
Proof. intros H1 H2. apply Forall_app. split; [done|]. by constructor. Qed.

Lemma lands_creates D st (m : nat -> M nat) o st' :
  creates D st m o st' -> lands (ext D o) st m.
Proof.
  intros (He & HF & HS & _ & _). exists (Ok (length D) st').
  split; [exact He|]. done.
Qed.

Lemma sound_creates D st (m : nat -> M nat) o st' :
  Forall K D -> creates D st m o st' -> K (new_den D o) -> sound K D st m.
Proof.
  intros HK Hc Hk. exists (ext D o). split_and!.
  - by eapply lands_creates.
  - by apply Forall_ext.
  - rewrite length_ext. lia.
Qed.

Lemma sound_ignore D st {A} (m : nat -> M A) :
  sound K D st m -> sound K D st (fun f => ignore (m f)).
Proof.
  intros (D' & H & ?). exists D'. split; [|done]. by apply ignore_lands.
Qed.

Lemma new_sound D st src :
  Full D st -> Forall K D -> arg_wf (length D) src = true ->
  sound K D st (fun _ => Linqer.new src).
Proof.
  intros HF HK Harg.
  destruct (src_wf (length D) src) eqn:Hwf.
  - destruct (generator_of_wf _ _ Hwf) as [g Hg].
    destruct (new_creates D st src g HF Hwf Hg) as (st' & q & Hc & _).
    eapply sound_creates; [done|exact Hc|]. by apply K_fresh.
  - apply sound_lands; [done|]. exists (Throw InvalidSourceError st).
    split; [|split; [done|apply stable_refl]].
    exists 0%nat. intros fuel _. unfold Linqer.new.
    by rewrite (ensureIterable_rejects (length D)).
Qed.

Lemma from_sound D st src :
  Full D st -> Forall K D -> arg_wf (length D) src = true ->
  sound K D st (fun _ => Linqer.from src).
Proof.
  intros HF HK Harg.
  destruct src as [v|a|a| |g|e]; try (by apply new_sound).
  apply sound_lands; [done|]. by apply lands_ret.
Qed.

Lemma src_den_new_array D o items :
  src_den (ext D o) (SrcArray items) = items.
Proof. reflexivity. Qed.

Lemma concat_sound D st this iterable :
  Full D st -> Forall K D -> (this < length D)%nat ->
  arg_wf (length D) iterable = true ->
  sound K D st (fun f => Linqer.concat f this iterable).
Proof.
  intros HF HK Hthis Harg.
  destruct (src_wf (length D) iterable) eqn:Hwf.
  - assert (Hcase : (exists e, iterable = SrcEnum e) \/
                    match iterable with SrcEnum _ => False | _ => True end)
      by (destruct iterable; eauto).
    destruct Hcase as [[e ->]|Hr].
    + simpl in Hwf. apply Nat.ltb_lt in Hwf.
      destruct (concat_enum_creates D st this e HF Hthis Hwf) as (st' & Hc & _).
      eapply sound_creates; [done|exact Hc|].
      apply K_concat; try done; simpl; by apply Nat.ltb_lt.
    + destruct (generator_of_wf _ _ Hwf) as [g Hg].
      destruct (concat_raw_creates D st this iterable g HF Hthis Hwf Hr Hg)
        as (st1 & st' & Hc1 & Hc2 & He & _).
      fold (ext D (fresh iterable g true)) in Hc2, He.
      set (D1 := ext D (fresh iterable g true)) in *.
      assert (HK1 : Forall K D1) by (apply Forall_ext; [done|by apply K_fresh]).
      assert (HL1 : length D1 = S (length D)) by apply length_ext.
      destruct Hc1 as (_ & _ & HS1 & _ & _).
      destruct Hc2 as (_ & HF2 & HS2 & _ & _).
      match type of HF2 with Full (D1 ++ [new_den D1 ?o]) _ =>
        fold (ext D1 o) in HF2; exists (ext D1 o) end.
      split_and!.
      * exists (Ok (length D1) st'). split; [exact He|].
        split; [done|by eapply stable_trans].
      * apply Forall_ext; [done|]. apply K_concat; try done; try lia.
        -- eapply src_wf_mono; [|exact Hwf]. lia.
        -- unfold D1. rewrite dlook_ext_new. simpl.
           apply (src_den_agree D (ext D (fresh iterable g true)) (length D));
             [|done].
           intros j Hj. by apply dlook_ext_old.
      * rewrite length_ext. lia.
  - apply sound_lands; [done|]. exists (Throw InvalidSourceError st).
    split; [|split; [done|apply stable_refl]].
    exists 0%nat. intros fuel _. by apply (concat_rejects (length D)).
Qed.

Lemma splice_sound D st this start howmany newItems :
  Full D st -> Forall K D -> (this < length D)%nat ->
  okn start -> okn (start + howmany) ->
  sound K D st (fun f => Linqer.splice f this start howmany newItems).
Proof.
  intros HF HK Hthis Hs Hh.
  destruct (splice_creates D st this start howmany newItems HF Hthis)
    as (st' & He & HF' & HS).
  exists (splice_dens D this start howmany newItems). split_and!.
  - exists (Ok (S (S (S (S (length D))))) st'). done.
  - unfold splice_dens.
    set (D1 := ext D (take_obj (d_seek (dlook D this)) this start)).
    assert (HK1 : Forall K D1) by (apply Forall_ext; [done|by apply K_take]).
    assert (HL1 : length D1 = S (length D)) by apply length_ext.
    set (D2 := ext D1 (fresh (SrcArray newItems) (IteratorOf (SrcArray newItems)) true)).
    assert (HK2 : Forall K D2) by (apply Forall_ext; [done|by apply K_fresh]).
    assert (HL2 : length D2 = S (S (length D)))
      by (unfold D2; rewrite length_ext; lia).
    match goal with |- Forall K (ext (ext (ext D2 ?o) _) _) =>
      set (D3 := ext D2 o) end.
    assert (HK3 : Forall K D3).
    { apply Forall_ext; [done|]. apply K_concat; try done; try lia.
      unfold D2. rewrite <- HL1, dlook_ext_new. reflexivity. }
    assert (HL3 : length D3 = S (S (S (length D))))
      by (unfold D3; rewrite length_ext; lia).
    match goal with |- Forall K (ext (ext D3 ?o) _) => set (D4 := ext D3 o) end.
    assert (HK4 : Forall K D4).
    { apply Forall_ext; [done|]. apply K_skip; try done. lia. }
    assert (HL4 : length D4 = S (S (S (S (length D)))))
      by (unfold D4; rewrite length_ext; lia).
    apply Forall_ext; [done|]. apply K_concat; try done; try lia.
    simpl. apply Nat.ltb_lt. lia.
  - unfold splice_dens. rewrite !length_ext. lia.
Qed.

Lemma toList_sound D st this :
  Full D st -> Forall K D -> (this < length D)%nat ->
  sound K D st (fun f => Linqer.toList f this).
Proof.
  intros HF HK Hthis. unfold Linqer.toList.
  destruct (d_seek (dlook D this)) eqn:Hseek.
  - apply sound_lands; [done|].
    eapply lands_bind with
      (m := fun f => bind (_ensureInternalTryGetAt f this) (fun _ => get_enum this));
      [intros f; apply bind_assoc_at|done|reflexivity|by apply ensure_get_good|].
    intros o st1 HF1 _ [_ Ho]. simpl. rewrite Ho, Hseek. by apply lands_ret.
  - destruct (ensure_get_good D st this HF Hthis)
      as (o & st1 & He1 & HI1 & HS1 & HK1 & _ & Ho).
    assert (HF1 : Full D st1) by (by eapply Full_keeps).
    destruct (toArray_good D st1 this HF1 Hthis)
      as (arr & st2 & He2 & HI2 & HS2 & HK2 & _); [by rewrite Hseek|].
    assert (HF2 : Full D st2) by (by eapply Full_keeps).
    destruct (new_creates D st2 (SrcArray arr) (IteratorOf (SrcArray arr)) HF2)
      as (st3 & q & Hc & ->); [done|done|].
    eapply sound_creates with (st' := st3)
      (o := fresh (SrcArray arr) (IteratorOf (SrcArray arr)) true);
      [done| |by apply K_fresh].
    destruct Hc as (He3 & HF3 & HS3 & Hl3 & HI3).
    unfold creates. split_and!; try done.
    + eapply evals_bind with
        (m := fun f => bind (_ensureInternalTryGetAt f this) (fun _ => get_enum this));
        [intros f; apply bind_assoc_at|exact He1|]. simpl.
      rewrite Ho, Hseek.
      eapply evals_bind with (m := fun f => Linqer.toArray f this);
        [intros f; reflexivity|exact He2|]. simpl. exact He3.
    + eapply stable_trans; [exact HS1|]. by eapply stable_trans.
Qed.

Lemma first_lands D st this :
  Full D st -> (this < length D)%nat ->
  lands D st (fun f => Linqer.first f this).
Proof.
  intros HF Hthis. unfold Linqer.first.
  eapply lands_result; [done|reflexivity|by apply elementAt_result].
Qed.

Lemma exec_sound D st c :
  Full D st -> Forall K D -> call_wf (length D) c = true -> fits okn okf c ->
  sound K D st (fun f => exec StringToNumber f c).
Proof.
  intros HF HK Hwf Hfit.
  destruct c as [src|src| |start n|item n|this|this iterable|this|this index
                |this index|this|this|this|this|this selector|this nr|this nr
                |this start howmany newItems|this condition|this|this|this|this
                |this comparer|this comparer|this comparer];
    simpl in Hwf, Hfit |- *; apply sound_ignore;
    rewrite ?andb_true_iff, ?Nat.ltb_lt in Hwf.
  - by apply new_sound.
  - by apply from_sound.
  - destruct (empty_creates D st HF) as (st' & Hc).
    eapply sound_creates; [done|exact Hc|by apply K_empty].
  - destruct (range_creates D st start n HF) as (st' & Hc).
    eapply sound_creates; [done|exact Hc|by apply K_range].
  - destruct (repeat_creates D st item n HF) as (st' & Hc).
    eapply sound_creates; [done|exact Hc|by apply K_repeat].
  - apply sound_lands; [done|].
    eapply lands_result; [done|reflexivity|by apply length_result].
  - destruct Hwf. by apply concat_sound.
  - apply sound_lands; [done|].
    eapply lands_good; [done|reflexivity|by apply count_good_at].
  - apply sound_lands; [done|].
    eapply lands_result; [done|reflexivity|by apply elementAt_result].
  - apply sound_lands; [done|].
    eapply lands_good; [done|reflexivity|by apply elementAtOrDefault_good].
  - apply sound_lands; [done|]. by apply first_lands.
  - apply sound_lands; [done|].
    eapply lands_good; [done|reflexivity|by apply elementAtOrDefault_good].
  - apply sound_lands; [done|]. by apply last_lands.
  - apply sound_lands; [done|]. by apply lastOrDefault_lands.
  - destruct (select_creates D st this selector HF Hwf)
      as (st' & c & Hc & _ & Hok & Hden).
    eapply sound_creates; [done|exact Hc|by eapply K_select].
  - destruct (skip_creates D st this nr HF Hwf) as (st' & Hc & _).
    eapply sound_creates; [done|exact Hc|by apply K_skip].
  - destruct (take_creates D st this nr HF Hwf) as (st' & Hc & _).
    eapply sound_creates; [done|exact Hc|by apply K_take].
  - destruct Hfit. by apply splice_sound.
  - destruct (where_creates D st this condition 0%nat HF Hwf) as (st' & Hc).
    eapply sound_creates with
      (o := fresh (SrcGenFn (GenWhere this condition))
                  (GeneratorFunction (GenWhere this condition)) true);
      [done|exact Hc|].
    apply K_fresh; [done|simpl; by apply Nat.ltb_lt|done].
  - apply sound_lands; [done|]. by apply toArray_lands.
  - by apply toList_sound.
  - apply sound_lands; [done|]. unfold Linqer.sumAndCount.
    apply after_iterate_lands; try done. intros; by eexists.
  - apply sound_lands; [done|]. unfold Linqer.sum, Linqer.sumAndCount.
    apply after_iterate_lands2; try done; intros; by eexists.
  - apply sound_lands; [done|]. unfold Linqer.stats.
    eapply (guarded_lands D st comparer); [done|intros f; reflexivity|].
    apply after_iterate_lands; try done. intros; by eexists.
  - apply sound_lands; [done|]. unfold Linqer.min, Linqer.stats.
    eapply (guarded_lands2 D st comparer); [done|intros f; reflexivity|].
    apply after_iterate_lands2; try done; intros; by eexists.
  - apply sound_lands; [done|]. unfold Linqer.max, Linqer.stats.
    eapply (guarded_lands2 D st comparer); [done|intros f; reflexivity|].
    apply after_iterate_lands2; try done; intros; by eexists.
Qed.

Lemma ends_unique {A} (m : nat -> M A) st r0 fuel r :
  (forall f f', (f <= f')%nat -> refines (m f) (m f')) ->
  ends m st r0 -> m fuel st = r -> r <> Unfinished -> r = r0.
Proof.
  intros Hmono [n Hn] Hr Hne.
  rewrite <- (Hn (fuel `max` n)%nat ltac:(lia)).
  rewrite <- Hr. symmetry. apply Hmono; [lia|]. by rewrite Hr.
Qed.

Lemma run_sound fuel p : forall D st st',
  Full D st -> Forall K D -> Forall (fits okn okf) p ->
  run StringToNumber fuel p st = Some st' ->
  exists D', Full D' st' /\ Forall K D' /\ stable st st' /\
             (length D <= length D')%nat.
Proof.
  induction p as [|c p IH]; intros D st st' HF HK Hfits Hrun; simpl in Hrun.
  - inversion Hrun; subst. exists D. split_and!; try done. apply stable_refl.
  - inversion Hfits as [|? ? Hfit Hfits']; subst.
    destruct (call_wf (length (heap st)) c) eqn:Hwf; [|done].
    rewrite (proj2 HF) in Hwf.
    destruct (exec_sound D st c HF HK Hwf Hfit) as (D1 & (r0 & He & Hr0) & HK1 & HL1).
    assert (Hr : exec StringToNumber fuel c st = r0).
    { destruct (exec StringToNumber fuel c st) eqn:E; [| |done];
        (eapply (ends_unique (fun f => exec StringToNumber f c));
           [|exact He|exact E|done]);
        intros f f' Hle; by apply exec_mono. }
    rewrite Hr in Hrun.
    destruct r0 as [v st1|e st1|]; [| |done]; destruct Hr0 as [HF1 HS1];
      destruct (IH D1 st1 st' HF1 HK1 Hfits' Hrun) as (D' & ? & ? & ? & ?);
      exists D'; (split_and!; [done|done|by eapply stable_trans|lia]).
Qed.

End Soundness.

Lemma Full_init : Full [] init.
Proof.
  split; [|done]. split; [done|]. intros k o Hk. simpl in Hk. lia.
Qed.

(** Every state that a program reaches denotes. *)
Lemma run_Full S fuel p st :
  run S fuel p init = Some st -> exists D, Full D st.
Proof.
  intros Hrun.
  pose proof (run_sound S (fun _ => True) (fun _ => True) (fun _ => True)
                ltac:(done) ltac:(done) ltac:(done) ltac:(done) ltac:(done)
                ltac:(done) ltac:(done) ltac:(done)
                fuel p [] init st Full_init) as H.
  destruct H as (D & HF & _); [done| |done|by exists D].
  apply Forall_forall. intros c _. destruct c; simpl; done.
Qed.

(** ** Coherent denotations *)

Lemma coh_strict_bounds d :
  d_cnt d = Z.of_nat (length (d_items d)) ->
  (forall i, 0 <= i -> d_get d i = d_items d !! Z.to_nat i) ->
  forall i, 0 <= i ->
    (i < d_cnt d -> is_Some (d_get d i)) /\ (d_cnt d <= i -> d_get d i = None).
Proof.
  intros Hc Hg i Hi. rewrite Hg by done. split; intros H.
  - apply lookup_lt_is_Some_2. lia.
  - apply lookup_ge_None_2. lia.
Qed.

(** [scan] is always coherent. *)
Lemma coh_scan strict src items cnt (get : Z -> option value) :
  cnt = Z.of_nat (length items) ->
  (forall i, get i = if i <? 0 then None else items !! Z.to_nat i) ->
  coh strict (mkDen src items cnt get false).
Proof.
  intros Hc Hg. split_and!; simpl; try done.
  intros _ i Hi. rewrite Hg.
  destruct (i <? 0) eqn:E; [apply Z.ltb_lt in E; lia|done].
Qed.

Lemma length_chars s : length (chars s) = String.length s.
Proof. induction s; simpl; congruence. Qed.

Lemma chars_lookup s n :
  chars s !! n = (fun c => VStr (String c EmptyString)) <$> String.get n s.
Proof.
  revert n. induction s as [|c s IH]; intros n; simpl; [by destruct n|].
  destruct n; simpl; [done|apply IH].
Qed.

Lemma get_is_Some s n : (n < String.length s)%nat -> is_Some (String.get n s).
Proof.
  revert n. induction s as [|c s IH]; intros n; simpl; [lia|].
  destruct n; simpl; [by eexists|]. intros H. apply IH. lia.
Qed.

Lemma coh_string strict s (get : Z -> option value) :
  (forall i, get i = if i <? Z.of_nat (String.length s)
                     then Some (VStr (charAt s i)) else None) ->
  coh strict (mkDen (SrcPrim (VStr s)) (chars s) (Z.of_nat (String.length s)) get true).
Proof.
  intros Hg.
  assert (Hs : forall i, 0 <= i -> get i = chars s !! Z.to_nat i).
  { intros i Hi. rewrite Hg, chars_lookup.
    destruct (i <? Z.of_nat (String.length s)) eqn:E.
    - apply Z.ltb_lt in E.
      destruct (get_is_Some s (Z.to_nat i) ltac:(lia)) as [c Hc].
      rewrite Hc. simpl. unfold charAt.
      destruct (i <? 0) eqn:E0; [apply Z.ltb_lt in E0; lia|]. by rewrite Hc.
    - apply Z.ltb_ge in E.
      destruct (String.get (Z.to_nat i) s) eqn:Hc; [|done].
      exfalso. pose proof (chars_lookup s (Z.to_nat i)) as H. rewrite Hc in H.
      apply lookup_lt_Some in H. rewrite length_chars in H. lia. }
  split_and!.
  - simpl. by rewrite length_chars.
  - intros _. apply coh_strict_bounds; simpl; [by rewrite length_chars|done].
  - intros _. exact Hs.
Qed.

Lemma coh_array strict a (get : Z -> option value) src :
  (forall i, get i = if (0 <=? i) && (i <? Z.of_nat (length a))
                     then Some (array_get a i) else None) ->
  coh strict (mkDen src a (Z.of_nat (length a)) get true).
Proof.
  intros Hg.
  assert (Hs : forall i, 0 <= i -> get i = a !! Z.to_nat i).
  { intros i Hi. rewrite Hg. unfold array_get.
    destruct (0 <=? i) eqn:E0; [|apply Z.leb_gt in E0; lia]. simpl.
    destruct (i <? 0) eqn:E1; [apply Z.ltb_lt in E1; lia|].
    destruct (i <? Z.of_nat (length a)) eqn:E.
    - apply Z.ltb_lt in E.
      destruct (lookup_lt_is_Some_2 a (Z.to_nat i) ltac:(lia)) as [x Hx].
      by rewrite Hx.
    - apply Z.ltb_ge in E. symmetry. apply lookup_ge_None_2. lia. }
  split_and!; [done| |by intros _].
  intros _. by apply coh_strict_bounds.
Qed.

Lemma Forall_dlook (P : den -> Prop) D j :
  Forall P D -> (j < length D)%nat -> P (dlook D j).
Proof.
  intros HF Hj. destruct (lookup_lt_is_Some_2 D j Hj) as [d Hd].
  unfold dlook. rewrite Hd. simpl. by eapply Forall_lookup_1.
Qed.

Ltac den_simpl :=
  unfold new_den; simpl;
  rewrite ?dlook_app_l by lia; rewrite ?dlook_app_r; simpl.

Lemma coh_fresh strict D src g q :
  Forall (coh strict) D -> src_wf (length D) src = true ->
  generator_of src = Some g -> coh strict (new_den D (fresh src g q)).
Proof.
  intros HK Hwf Hg.
  destruct src as [v|a|a| |gn|e]; simpl in Hwf; try done.
  - destruct v; try done. unfold new_den. simpl. apply coh_string.
    intros i. simpl. by rewrite dlook_app_r.
  - unfold new_den. simpl. apply coh_array. intros i. simpl.
    by rewrite dlook_app_r.
  - unfold new_den. simpl. apply coh_scan; [done|]. intros i. simpl.
    by rewrite dlook_app_r.
  - unfold new_den. simpl. apply coh_scan.
    + simpl. by rewrite dlook_app_r.
    + intros i. simpl. by rewrite dlook_app_r.
  - apply Nat.ltb_lt in Hwf.
    pose proof (Forall_dlook _ D e HK Hwf) as (H1 & H2 & H3).
    unfold new_den. simpl. rewrite !dlook_app_l by lia.
    split_and!; simpl.
    + done.
    + intros Hs i Hi. rewrite dlook_app_l by lia. by apply H2.
    + intros Hs i Hi. rewrite dlook_app_l by lia. by apply H3.
Qed.

Lemma coh_of_lookup strict d :
  d_cnt d = Z.of_nat (length (d_items d)) ->
  (forall i, 0 <= i -> d_get d i = d_items d !! Z.to_nat i) ->
  coh strict d.
Proof.
  intros Hc Hg. split_and!; [done| |by intros _].
  intros _. by apply coh_strict_bounds.
Qed.

Lemma coh_empty strict D : coh strict (new_den D empty_obj).
Proof. apply coh_of_lookup; simpl; done. Qed.

Lemma coh_range strict D start n :
  0 <= n -> coh strict (new_den D (range_obj start n)).
Proof.
  intros Hn. apply coh_of_lookup; simpl.
  - rewrite length_fmap, length_seqZ. lia.
  - intros i Hi. rewrite list_lookup_fmap.
    destruct (0 <=? i) eqn:E0; [|apply Z.leb_gt in E0; lia]. simpl.
    destruct (i <? n) eqn:E.
    + apply Z.ltb_lt in E. rewrite lookup_seqZ_lt by lia. simpl.
      do 2 f_equal. lia.
    + apply Z.ltb_ge in E. by rewrite lookup_seqZ_ge by lia.
Qed.

Lemma coh_repeat strict D item n :
  0 <= n -> coh strict (new_den D (repeat_obj item n)).
Proof.
  intros Hn. apply coh_of_lookup; simpl.
  - rewrite length_replicate. lia.
  - intros i Hi.
    destruct (0 <=? i) eqn:E0; [|apply Z.leb_gt in E0; lia]. simpl.
    destruct (i <? n) eqn:E.
    + apply Z.ltb_lt in E. by rewrite lookup_replicate_2 by lia.
    + apply Z.ltb_ge in E. symmetry. apply lookup_replicate_None. lia.
Qed.

Lemma coh_take strict D this nr :
  Forall (coh strict) D -> (this < length D)%nat -> 0 <= nr ->
  coh strict (new_den D (take_obj (d_seek (dlook D this)) this nr)).
Proof.
  intros HK Hthis Hnr.
  pose proof (Forall_dlook _ D this HK Hthis) as (H1 & H2 & H3).
  destruct (d_seek (dlook D this)) eqn:Hseek.
  - unfold new_den. simpl. rewrite !dlook_app_l by lia.
    split_and!; simpl.
    + rewrite H1, length_take. lia.
    + intros _ i Hi. rewrite dlook_app_l by lia.
      destruct (H2 eq_refl i Hi) as [Ha Hb].
      destruct (nr <=? i) eqn:E.
      * apply Z.leb_le in E. split; [lia|done].
      * apply Z.leb_gt in E. split; intros; [apply Ha|apply Hb]; lia.
    + intros Hs i Hi. rewrite dlook_app_l by lia.
      destruct (nr <=? i) eqn:E.
      * apply Z.leb_le in E. by rewrite lookup_take_ge by lia.
      * apply Z.leb_gt in E. rewrite lookup_take_lt by lia. by apply H3.
  - unfold new_den. simpl. rewrite !dlook_app_l by lia.
    apply coh_scan.
    + rewrite H1, length_take. lia.
    + intros i. simpl. by rewrite dlook_app_r.
Qed.

Lemma coh_skip strict D this nr :
  Forall (coh strict) D -> (this < length D)%nat -> 0 <= nr ->
  coh strict (new_den D (skip_obj (d_seek (dlook D this)) this nr)).
Proof.
  intros HK Hthis Hnr.
  pose proof (Forall_dlook _ D this HK Hthis) as (H1 & H2 & H3).
  unfold new_den. simpl. rewrite !dlook_app_l by lia.
  split_and!; simpl.
  - rewrite H1, length_drop. lia.
  - intros Hs i Hi. rewrite dlook_app_l by lia.
    destruct (H2 Hs (i + nr) ltac:(lia)) as [Ha Hb].
    split; intros; [apply Ha|apply Hb]; lia.
  - intros Hs i Hi. rewrite dlook_app_l by lia.
    rewrite lookup_drop, (H3 Hs) by lia. f_equal. lia.
Qed.

Lemma coh_select strict D st this f c :
  Forall (coh strict) D -> (this < length D)%nat ->
  (strict = true -> forall v i j, f v i = f v j) ->
  count_ok st this c -> count_den D c = d_cnt (dlook D this) ->
  coh strict (new_den D (select_obj (d_seek (dlook D this)) c this f)).
Proof.
  intros HK Hthis Hf Hok Hden.
  pose proof (Forall_dlook _ D this HK Hthis) as (H1 & H2 & H3).
  unfold new_den. simpl. rewrite ?dlook_app_l by lia.
  split_and!; simpl.
  - erewrite count_den_agree; [|by apply agree_app|exact Hok].
    unfold select_items. rewrite Hden, H1, length_imap. done.
  - intros Hs i Hi. rewrite dlook_app_l by lia.
    erewrite count_den_agree; [|by apply agree_app|exact Hok]. rewrite Hden.
    destruct (H2 Hs i Hi) as [Ha Hb]. split; intros H.
    + destruct (Ha H) as [v Hv]. rewrite Hv. by eexists.
    + by rewrite (Hb H).
  - intros Hs i Hi. rewrite dlook_app_l by lia.
    unfold select_items. rewrite list_lookup_imap, (H3 Hs) by done.
    destruct (d_items (dlook D this) !! Z.to_nat i); simpl; [|done].
    f_equal. by apply Hf.
Qed.

Lemma coh_concat strict D this other iterable :
  Forall (coh strict) D -> (this < length D)%nat -> (other < length D)%nat ->
  src_wf (length D) iterable = true ->
  src_den D iterable = d_items (dlook D other) ->
  coh strict (new_den D (concat_obj (d_seek (dlook D this))
                           (d_seek (dlook D other)) this other iterable)).
Proof.
  intros HK Hthis Hother Hwf Hsrc.
  pose proof (Forall_dlook _ D this HK Hthis) as (A1 & A2 & A3).
  pose proof (Forall_dlook _ D other HK Hother) as (B1 & B2 & B3).
  assert (Hlen : d_cnt (dlook D this) + d_cnt (dlook D other) =
                 Z.of_nat (length (d_items (dlook D this) ++ src_den D iterable))).
  { rewrite length_app, Hsrc. lia. }
  destruct (d_seek (dlook D this)) eqn:Hsa.
  - unfold new_den. simpl. rewrite !dlook_app_l by lia.
    split_and!; simpl.
    + done.
    + intros Hsb i Hi. rewrite !dlook_app_l by lia.
      destruct (A2 eq_refl i Hi) as [Aa Ab].
      destruct (decide (i < d_cnt (dlook D this))) as [Hlt|Hge].
      * destruct (Aa Hlt) as [v Hv]. rewrite Hv. split; [by eexists|lia].
      * rewrite Ab by lia.
        destruct (B2 Hsb (i - d_cnt (dlook D this)) ltac:(lia)) as [Ba Bb].
        split; intros; [apply Ba|apply Bb]; lia.
    + intros Hs i Hi. rewrite !dlook_app_l by lia.
      rewrite (A3 Hs) by done. rewrite Hsrc.
      destruct (decide (i < d_cnt (dlook D this))) as [Hlt|Hge].
      * destruct (lookup_lt_is_Some_2 (d_items (dlook D this)) (Z.to_nat i)
                    ltac:(lia)) as [v Hv].
        rewrite Hv. symmetry. by apply lookup_app_l_Some.
      * rewrite (lookup_ge_None_2 (d_items (dlook D this))) by lia.
        rewrite (B3 Hs) by lia. rewrite lookup_app_r by lia. f_equal. lia.
  - unfold new_den. simpl. rewrite !dlook_app_l by lia.
    apply coh_scan; [done|].
    intros i. simpl. by rewrite dlook_app_r.
Qed.

Lemma polite_in_contract strict c :
  in_contract c = true ->
  (strict = true -> match c with CallSelect _ f => index_free f | _ => True end) ->
  polite strict c.
Proof.
  unfold polite. destruct c; simpl; try done; rewrite ?andb_true_iff, ?Z.leb_le;
    try done. lia.
Qed.

(** Every state that a polite program reaches denotes coherently. *)
Lemma run_coherent S strict fuel p st :
  Forall (polite strict) p -> run S fuel p init = Some st ->
  exists D, Full D st /\ Forall (coh strict) D.
Proof.
  intros Hp Hrun.
  edestruct (run_sound S (coh strict) (fun n => 0 <= n)
               (fun f => strict = true -> index_free f))
    with (fuel := fuel) (p := p) (D := @nil den) (st := init) (st' := st)
    as (D & HF & HK & _); eauto using Full_init.
  - intros. by apply coh_fresh.
  - intros. apply coh_empty.
  - intros. by apply coh_range.
  - intros. by apply coh_repeat.
  - intros. by apply coh_take.
  - intros. by apply coh_skip.
  - intros. by eapply coh_select.
  - intros. by apply coh_concat.
Qed.

(** * The documented behaviour, statement by statement *)

Lemma good_returns D st {A} (m : nat -> M A) (x : A) :
  Full D st -> good D (length D) st m (fun v _ => v = x) ->
  exists st', evals m st x st' /\ Full D st' /\ stable st st'.
Proof.
  intros HF (v & st' & He & HI & HS & HK & ->). exists st'.
  split_and!; try done. by eapply Full_keeps.
Qed.

Lemma evals_unique {A} (m : nat -> M A) st v1 st1 v2 st2 :
  evals m st v1 st1 -> evals m st v2 st2 -> v1 = v2 /\ st1 = st2.
Proof.
  intros [n1 H1] [n2 H2].
  specialize (H1 (n1 `max` n2)%nat ltac:(lia)).
  specialize (H2 (n1 `max` n2)%nat ltac:(lia)).
  rewrite H1 in H2. by inversion H2.
Qed.

Lemma same_seek_new D st o h :
  Full (ext D o) st -> Inv D st -> heap st !! length D = Some o ->
  (h < length D)%nat -> resolved_tryGetAt st h ->
  _canSeek o = d_seek (dlook D h) ->
  d_seek (new_den D o) = d_seek (dlook D h) ->
  same_seek st (length D) h.
Proof.
  intros HF HI Ho Hh Hres Hseek Hden.
  destruct Hres as (oh & g & Hoh & Hg).
  assert (Hsk : _canSeek oh = d_seek (dlook D h)).
  { pose proof (ok_tryGetAt _ _ _ _ _ (proj2 HI h oh Hh Hoh)) as H.
    rewrite Hg in H. by destruct H as (_ & _ & ?). }
  exists o, oh. split; [done|]. split; [done|]. split; [by eexists|].
  split; [congruence|].
  destruct (ensureInternalTryGetAt_good (ext D o) (length D) st (proj1 HF))
    as ([] & st' & He & HI' & HS' & _ & Hres').
  { rewrite length_ext. lia. }
  destruct (resolved_canSeek (ext D o) st' (length D) HI') as (ot' & Hot' & Hs');
    [rewrite length_ext; lia|done|].
  exists st', ot'. split; [done|]. split; [done|].
  rewrite Hs', dlook_ext_new. congruence.
Qed.

(** C6. For every Handle [H] and every integer [n >= 0],
    [H.take(n).count()] is [min(n, H.count())], [H.skip(n).count()] is
    [max(0, H.count() - n)], and both derived Handles have the seek flag of
    [H]. *)
Theorem take_skip_count_and_seek S p fuel st H n :
  run S fuel p init = Some st -> (H < length (heap st))%nat -> 0 <= n ->
  exists cH,
    (exists st', evals (fun f => count f H) st cH st') /\
    (exists t st1,
       evals (fun f => Linqer.take f H n) st t st1 /\
       (exists st2, evals (fun f => count f t) st1 (Z.min n cH) st2) /\
       same_seek st1 t H) /\
    (exists s st1,
       evals (fun f => Linqer.skip f H n) st s st1 /\
       (exists st2, evals (fun f => count f s) st1 (Z.max 0 (cH - n)) st2) /\
       same_seek st1 s H).
Proof.
  intros Hrun HH Hn.
  destruct (run_Full S fuel p st Hrun) as [D HF].
  rewrite (proj2 HF) in HH.
  exists (d_cnt (dlook D H)). split_and!.
  - destruct (good_returns D st _ _ HF (count_good_at D st H HF HH))
      as (st' & He & _). by exists st'.
  - destruct (take_creates D st H n HF HH) as (st1 & Hc & Hres).
    destruct Hc as (He & HF1 & HS1 & Ho & HI1).
    exists (length D), st1. split_and!; [done| |].
    + destruct (good_returns _ st1 _ _ HF1
                  (count_good_at _ st1 (length D) HF1
                     ltac:(rewrite length_app; simpl; lia)))
        as (st2 & He2 & _).
      exists st2. rewrite dlook_app_r in He2. simpl in He2.
      by rewrite dlook_app_l in He2 by lia.
    + eapply same_seek_new; eauto; simpl; by destruct (d_seek (dlook D H)).
  - destruct (skip_creates D st H n HF HH) as (st1 & Hc & Hres).
    destruct Hc as (He & HF1 & HS1 & Ho & HI1).
    exists (length D), st1. split_and!; [done| |].
    + destruct (good_returns _ st1 _ _ HF1
                  (count_good_at _ st1 (length D) HF1
                     ltac:(rewrite length_app; simpl; lia)))
        as (st2 & He2 & _).
      exists st2. rewrite dlook_app_r in He2. simpl in He2.
      by rewrite dlook_app_l in He2 by lia.
    + eapply same_seek_new; eauto.
Qed.

Lemma result_ends D b st {A} (m : nat -> M A) (P : res A -> Prop) :
  result D b st m P -> exists r, ends m st r /\ P r.
Proof. intros (r & He & HP & _). by exists r. Qed.

Lemma bind_Ok {A B} (m : M A) (k : A -> M B) st a st1 :
  m st = Ok a st1 -> bind m k st = k a st1.
Proof. intros H. unfold bind. by rewrite H. Qed.

Lemma get_enum_Ok st e o : heap st !! e = Some o -> get_enum e st = Ok o st.
Proof. intros H. unfold get_enum. by rewrite H. Qed.

Lemma update_Ok st e o f :
  heap st !! e = Some o ->
  update e f st = Ok tt (mkState (<[e := f o]> (heap st)) (log st)).
Proof. intros H. unfold update. by rewrite H. Qed.

Lemma ensureInternalCount_generator st H items q f :
  heap st !! H = Some (generator_handle items q) ->
  _ensureInternalCount (S f) H st =
    Ok tt (mkState (<[H := set_count (CountScan H) (generator_handle items q)]> (heap st))
                   (log st ++ [EvInspect H])).
Proof.
  intros Ho. cbn [_ensureInternalCount].
  rewrite (bind_Ok _ _ _ _ _ (get_enum_Ok _ _ _ Ho)). simpl.
  erewrite bind_Ok; [|reflexivity].
  by rewrite (update_Ok _ _ (generator_handle items q)).
Qed.

Lemma iterate_generator st H o items f :
  heap st !! H = Some o -> _generator o = GeneratorFunction (GenUser items) ->
  iterate (S (S f)) H st =
    Ok items (mkState (<[H := set_wasIterated o]> (heap st))
                      (log st ++ [EvIterate H])).
Proof.
  intros Ho Hg. cbn [iterate].
  rewrite (bind_Ok _ _ _ _ _ (update_Ok _ _ _ _ Ho)).
  erewrite bind_Ok; [|reflexivity].
  erewrite bind_Ok; [|apply get_enum_Ok; simpl; apply list_lookup_insert_eq;
                      by eapply lookup_lt_Some].
  simpl. rewrite Hg. reflexivity.
Qed.

Lemma count_generator st H items q f :
  heap st !! H = Some (generator_handle items q) ->
  exists st',
    count (S (S (S (S f)))) H st = Ok (Z.of_nat (length items)) st' /\
    log st' = log st ++ [EvInspect H; EvIterate H].
Proof.
  intros Ho. eexists. split.
  - cbn [count].
    rewrite (bind_Ok _ _ _ _ _ (ensureInternalCount_generator _ _ _ _ _ Ho)).
    erewrite bind_Ok; [|apply get_enum_Ok; simpl; apply list_lookup_insert_eq;
                        by eapply lookup_lt_Some].
    cbn [_count set_count call_count].
    erewrite bind_Ok; [reflexivity|].
    eapply iterate_generator;
      [simpl; apply list_lookup_insert_eq; by eapply lookup_lt_Some
      |reflexivity].
  - simpl. by rewrite <- app_assoc.
Qed.


Lemma run_stable S fuel p D st st' :
  Full D st -> run S fuel p st = Some st' ->
  stable st st' /\ exists D', Full D' st'.
Proof.
  intros HF Hrun.
  pose proof (run_sound S (fun _ => True) (fun _ => True) (fun _ => True)
                ltac:(done) ltac:(done) ltac:(done) ltac:(done) ltac:(done)
                ltac:(done) ltac:(done) ltac:(done)
                fuel p D st st' HF) as H.
  destruct H as (D' & HF' & _ & HS & _); [| |done|].
  - apply Forall_forall. done.
  - apply Forall_forall. intros c _. destruct c; simpl; done.
  - split; [done|by exists D'].
Qed.

Lemma ensureInternalTryGetAt_memo st H o g f :
  heap st !! H = Some o -> _tryGetAt o = Some g ->
  _ensureInternalTryGetAt (S f) H st = Ok tt st.
Proof.
  intros Ho Hg. cbn [_ensureInternalTryGetAt].
  rewrite (bind_Ok _ _ _ _ _ (get_enum_Ok _ _ _ Ho)). by rewrite Hg.
Qed.

Lemma ensureInternalCount_memo st H o c f :
  heap st !! H = Some o -> _count o = Some c ->
  _ensureInternalCount (S f) H st = Ok tt st.
Proof.
  intros Ho Hc. cbn [_ensureInternalCount].
  rewrite (bind_Ok _ _ _ _ _ (get_enum_Ok _ _ _ Ho)). by rewrite Hc.
Qed.

(** C1. Capability resolution is idempotent and memoized: once a resolver
    has run on a Handle, running it again returns at once in the same
    state (nothing is changed, nothing is logged, so the source is not
    inspected again), and whatever is called afterwards, the resolved
    [_tryGetAt], [_canSeek] and [_count] of the Handle stay what they are. *)
Theorem resolution_is_memoized N p fuel st H :
  run N fuel p init = Some st -> (H < length (heap st))%nat ->
  (exists st1 o1 g,
     evals (fun f => _ensureInternalTryGetAt f H) st tt st1 /\
     heap st1 !! H = Some o1 /\ _tryGetAt o1 = Some g /\
     (forall f, _ensureInternalTryGetAt (S f) H st1 = Ok tt st1) /\
     (forall p' fuel' st', run N fuel' p' st1 = Some st' ->
        exists o', heap st' !! H = Some o' /\
                   _tryGetAt o' = Some g /\ _canSeek o' = _canSeek o1 /\
                   forall f, _ensureInternalTryGetAt (S f) H st' = Ok tt st')) /\
  (exists st1 o1 c,
     evals (fun f => _ensureInternalCount f H) st tt st1 /\
     heap st1 !! H = Some o1 /\ _count o1 = Some c /\
     (forall f, _ensureInternalCount (S f) H st1 = Ok tt st1) /\
     (forall p' fuel' st', run N fuel' p' st1 = Some st' ->
        exists o', heap st' !! H = Some o' /\ _count o' = Some c /\
                   forall f, _ensureInternalCount (S f) H st' = Ok tt st')).
Proof.
  intros Hrun HH.
  destruct (run_Full N fuel p st Hrun) as [D HF].
  rewrite (proj2 HF) in HH.
  split.
  - destruct (ensureInternalTryGetAt_good D H st (proj1 HF) HH)
      as ([] & st1 & He & HI1 & _ & HK1 & (o1 & g & Ho1 & Hg)).
    assert (HF1 : Full D st1).
    { eapply Full_keeps; eauto. eapply keeps_mono; [|exact HK1]. lia. }
    exists st1, o1, g. split_and!; try done.
    + intros f. by eapply ensureInternalTryGetAt_memo.
    + intros p' fuel' st' Hrun'.
      destruct (run_stable N fuel' p' D st1 st' HF1 Hrun') as [HS _].
      destruct (HS H o1 Ho1) as (o' & Ho' & _ & _ & _ & _ & Ht).
      destruct (Ht g Hg) as [Hg' Hs'].
      exists o'. split_and!; try done.
      intros f. by eapply ensureInternalTryGetAt_memo.
  - destruct (ensureInternalCount_good D H st (proj1 HF) HH)
      as ([] & st1 & He & HI1 & _ & HK1 & (o1 & c & Ho1 & Hc)).
    assert (HF1 : Full D st1).
    { eapply Full_keeps; eauto. eapply keeps_mono; [|exact HK1]. lia. }
    exists st1, o1, c. split_and!; try done.
    + intros f. by eapply ensureInternalCount_memo.
    + intros p' fuel' st' Hrun'.
      destruct (run_stable N fuel' p' D st1 st' HF1 Hrun') as [HS _].
      destruct (HS H o1 Ho1) as (o' & Ho' & _ & _ & _ & Hcc & _).
      exists o'. split_and!; try done; [by apply Hcc|].
      intros f. eapply ensureInternalCount_memo; [done|by apply Hcc].
Qed.

(** ** Construction *)

(** C9. Constructing from a value that is neither iterable nor a
    generator function throws [InvalidSourceError] at once; a construction
    that succeeds only appends the new, unresolved and never iterated
    object, logging no iteration; and [from] gives back the Handle it is
    given, in the same state. *)
Theorem construction_contract src st :
  (has_iterator src = false -> is_generator_function src = false ->
   Linqer.new src st = Throw InvalidSourceError st /\
   Linqer.from src st = Throw InvalidSourceError st) /\
  (forall r st', Linqer.new src st = Ok r st' ->
     log st' = log st /\ r = length (heap st) /\
     exists o, heap st' = heap st ++ [o] /\ _src o = src /\
               _wasIterated o = false /\ _count o = None /\
               _tryGetAt o = None) /\
  (forall e, Linqer.from (SrcEnum e) st = Ok e st).
Proof.
  split_and!.
  - intros Hi Hg.
    assert (Hnew : Linqer.new src st = Throw InvalidSourceError st).
    { unfold Linqer.new, _ensureIterable. rewrite Hi, Hg.
      rewrite andb_false_r. reflexivity. }
    split; [done|]. destruct src; try done.
  - intros r st' Hnew. unfold Linqer.new in Hnew.
    unfold bind in Hnew.
    destruct (_ensureIterable src st) as [[] st0|e st0|] eqn:E; try done.
    assert (st0 = st) as ->.
    { unfold _ensureIterable in E.
      destruct (_ && _) in E; by inversion E. }
    destruct (generator_of src) as [g|]; [|done].
    assert (Hal : forall q, alloc (mkEnumerable src g q false None None false) st
                            = Ok r st' ->
      log st' = log st /\ r = length (heap st) /\
      exists o, heap st' = heap st ++ [o] /\ _src o = src /\
                _wasIterated o = false /\ _count o = None /\ _tryGetAt o = None).
    { intros q Ha. unfold alloc in Ha. inversion Ha; subst. simpl.
      split_and!; try done. by eexists. }
    destruct src as [v|a|a| |gn|e]; simpl in Hnew; try (by eapply Hal).
    unfold get_enum in Hnew. destruct (heap st !! e) as [o|]; [|done].
    simpl in Hnew. by eapply Hal.
  - done.
Qed.

(** ** Positional lookup at a negative index *)

(** C2, at the inputs where the code departs from it.  Over the string
    ["abc"] the lookup at [-1] finds the empty string, so that [elementAt]
    returns it instead of throwing and [elementAtOrDefault] returns it
    instead of undefined; after [skip(2)] over [[1, 2, 3]] the lookup at
    [-1] finds the element [2] of the parent. *)
Theorem negative_index_is_served :
  (exists st', Linqer.elementAt 3 0 (-1) st_abc = Ok (VStr EmptyString) st') /\
  (exists st', Linqer.elementAtOrDefault 3 0 (-1) st_abc = Ok (VStr EmptyString) st') /\
  (exists h st st', Linqer.skip 3 0 2 st_123 = Ok h st /\
                    Linqer.elementAt 4 h (-1) st = Ok (VNum 2) st') /\
  (exists st', Linqer.elementAt 3 0 (-1) st_123 = Throw IndexOutOfRangeError st').
Proof.
  split_and!.
  - eexists. vm_compute. reflexivity.
  - eexists. vm_compute. reflexivity.
  - eexists _, _, _. split; vm_compute; reflexivity.
  - eexists. vm_compute. reflexivity.
Qed.

(** Where the lookup does return no value: at every index from the count
    on, for the Handles of a program whose count arguments are natural
    numbers and whose selectors ignore the index.  There [elementAt] throws
    [IndexOutOfRangeError] and [elementAtOrDefault] returns undefined. *)
Lemma lookup_past_the_end N p fuel st H i :
  Forall (polite true) p -> run N fuel p init = Some st ->
  (H < length (heap st))%nat ->
  exists c,
    (exists st', evals (fun f => count f H) st c st') /\
    (c <= i ->
     (exists st', throws (fun f => Linqer.elementAt f H i) st
                    IndexOutOfRangeError st') /\
     (exists st', evals (fun f => Linqer.elementAtOrDefault f H i) st
                    VUndefined st')).
Proof.
  intros Hp Hrun HH.
  destruct (run_coherent N true fuel p st Hp Hrun) as (D & HF & HK).
  rewrite (proj2 HF) in HH.
  pose proof (Forall_dlook _ D H HK HH) as (K1 & _ & K3).
  exists (d_cnt (dlook D H)). split.
  { destruct (good_returns D st _ _ HF (count_good_at D st H HF HH))
      as (st' & He & _). by exists st'. }
  intros Hi.
  assert (Hg : d_get (dlook D H) i = None).
  { rewrite K3 by lia. apply lookup_ge_None_2. lia. }
  split.
  - destruct (elementAt_result D st H i HF HH) as (r & Hr & HP & _).
    unfold elementAt_res in HP. rewrite Hg in HP. destruct HP as [st' ->].
    by exists st'.
  - destruct (good_returns D st _ _ HF (elementAtOrDefault_good D st H i HF HH))
      as (st' & He & _).
    exists st'. by rewrite Hg in He.
Qed.

(** ** [splice] against the native operation *)

(** C3, at an input where the code departs from it: [splice(-1, 1)] over
    [[1, 2, 3]] gives [[2, 3]], the native operation [[1, 2]]. *)
Theorem splice_negative_start :
  (exists h st st', Linqer.splice 9 0 (-1) 1 [] st_123 = Ok h st /\
                    Linqer.toArray 9 h st = Ok [VNum 2; VNum 3] st') /\
  js_splice arr123 (-1) 1 [] = [VNum 1; VNum 2].
Proof.
  split.
  - eexists _, _, _. split; vm_compute; reflexivity.
  - reflexivity.
Qed.

(** ** Aggregates *)

Lemma sumAndCount_fold_from l s c :
  0 < c ->
  fold_left Linqer.sumAndCount_step l (Linqer.mkSumAndCount s c) =
  Linqer.mkSumAndCount (fold_left Linqer.num_add (Linqer._toNumber <$> l) s)
    (c + Z.of_nat (length l)).
Proof.
  revert s c. induction l as [|x l IH]; intros s c Hc; simpl.
  - f_equal. lia.
  - unfold Linqer.sumAndCount_step at 2. simpl.
    destruct (c =? 0) eqn:E; [apply Z.eqb_eq in E; lia|].
    rewrite IH by lia. f_equal. lia.
Qed.

Lemma sumAndCount_fold items :
  fold_left Linqer.sumAndCount_step items (Linqer.mkSumAndCount (VNum 0) 0) =
  Linqer.mkSumAndCount (coerced_sum items) (Z.of_nat (length items)).
Proof.
  destruct items as [|x l]; [done|]. simpl.
  unfold Linqer.sumAndCount_step at 2. simpl.
  rewrite sumAndCount_fold_from by lia. f_equal. lia.
Qed.

Lemma num_add_NaN_l l : fold_left Linqer.num_add l VNaN = VNaN.
Proof. induction l as [|x l IH]; simpl; [done|]. exact IH. Qed.

Lemma fold_num_add_NaN l s :
  Exists (fun v => v = VNaN) l -> fold_left Linqer.num_add l s = VNaN.
Proof.
  intros H. revert s. induction H as [x l Hx|x l H IH]; intros s; simpl.
  - subst x. replace (Linqer.num_add s VNaN) with VNaN by (by destruct s).
    apply num_add_NaN_l.
  - apply IH.
Qed.

Lemma coerced_sum_NaN items :
  Exists (fun v => Linqer._toNumber v = VNaN) items -> coerced_sum items = VNaN.
Proof.
  destruct items as [|x l]; intros H; [by inversion H|]. simpl.
  inversion H as [? ? Hx|? ? Hl]; subst.
  - rewrite Hx. apply num_add_NaN_l.
  - apply fold_num_add_NaN. by apply Exists_fmap.
Qed.

Lemma stats_fold_from cmp l acc :
  Linqer.st_count (fold_left (Linqer.stats_step cmp) l acc) =
    Linqer.st_count acc + Z.of_nat (length l) /\
  (forall P : value -> Prop, P VUndefined -> Forall P l ->
     P (Linqer.st_min acc) -> P (Linqer.st_max acc) ->
     P (Linqer.st_min (fold_left (Linqer.stats_step cmp) l acc)) /\
     P (Linqer.st_max (fold_left (Linqer.stats_step cmp) l acc))).
Proof.
  revert acc. induction l as [|x l IH]; intros acc; simpl.
  - split; [lia|]. done.
  - destruct (IH (Linqer.stats_step cmp acc x)) as [Hc HP]. split.
    + rewrite Hc. simpl. lia.
    + intros P Hu Hl Hmin Hmax. inversion Hl; subst.
      apply HP; try done; simpl.
      * by destruct (_ || _).
      * by destruct (_ || _).
Qed.

(** C8 as stated fails: over [["a"]], [min], [max] and [stats] return the
    string itself, which is not what [_toNumber] makes of it. *)
Lemma stats_do_not_coerce :
  (exists st', Linqer.min (fun _ => VNaN) 3 0 (ArgValue VUndefined) st_a
               = Ok (VStr "a") st') /\
  (exists st', Linqer.max (fun _ => VNaN) 3 0 (ArgValue VUndefined) st_a
               = Ok (VStr "a") st') /\
  (exists st', Linqer.stats (fun _ => VNaN) 3 0 (ArgValue VUndefined) st_a
               = Ok (Linqer.mkStats 1 (VStr "a") (VStr "a")) st') /\
  Linqer._toNumber (VStr "a") = VNaN /\ VStr "a" <> VNaN.
Proof.
  split_and!; try (eexists; vm_compute; reflexivity); done.
Qed.

Lemma evals_bind_ret {A B} (m : nat -> M A) (g : A -> B) st a st' :
  evals m st a st' ->
  evals (fun f => bind (m f) (fun x => ret (g x))) st (g a) st'.
Proof.
  intros [n H]. exists n. intros fuel Hle. unfold bind. by rewrite H.
Qed.

Lemma sum_of_numbers l a :
  fold_left Linqer.num_add (Linqer._toNumber <$> (VNum <$> l)) (VNum a) =
  VNum (a + fold_right Z.add 0 l).
Proof.
  revert a. induction l as [|x l IH]; intros a; simpl.
  - by rewrite Z.add_0_r.
  - rewrite IH. f_equal. lia.
Qed.

Lemma coerced_sum_numbers zs :
  zs <> [] -> coerced_sum (VNum <$> zs) = VNum (fold_right Z.add 0 zs).
Proof. destruct zs as [|x l]; [done|]. intros _. simpl. apply sum_of_numbers. Qed.

Lemma is_undefined_false v : v <> VUndefined -> Linqer.is_undefined v = false.
Proof. by destruct v. Qed.

(** The fold of [stats] from a minimum and a maximum that are set, over
    items none of which is [undefined]. *)
Lemma stats_fold_ordered cmp all l : forall acc,
  (forall x, x ∈ l -> x ∈ all /\ x <> VUndefined) ->
  Linqer.st_min acc ∈ all -> Linqer.st_max acc ∈ all ->
  Linqer.st_min acc <> VUndefined -> Linqer.st_max acc <> VUndefined ->
  let r := fold_left (Linqer.stats_step cmp) l acc in
  Linqer.st_min r ∈ all /\ Linqer.st_max r ∈ all /\
  forall key, orders_by cmp key all ->
    key (Linqer.st_min r) <= key (Linqer.st_min acc) /\
    key (Linqer.st_max acc) <= key (Linqer.st_max r) /\
    forall x, x ∈ l -> key (Linqer.st_min r) <= key x <= key (Linqer.st_max r).
Proof.
  induction l as [|y l IH]; intros acc Hl Hmin Hmax Umin Umax; cbn zeta.
  - simpl. split_and!; try done. intros key _. split_and!; try lia.
    intros x Hx. by apply elem_of_nil in Hx.
  - cbn [fold_left].
    destruct (Hl y ltac:(by left)) as [Hy Uy].
    set (acc' := Linqer.stats_step cmp acc y).
    assert (Emin : Linqer.st_min acc' =
              if cmp y (Linqer.st_min acc) <? 0 then y else Linqer.st_min acc).
    { unfold acc', Linqer.stats_step. simpl.
      by rewrite (is_undefined_false _ Umin). }
    assert (Emax : Linqer.st_max acc' =
              if 0 <? cmp y (Linqer.st_max acc) then y else Linqer.st_max acc).
    { unfold acc', Linqer.stats_step. simpl.
      by rewrite (is_undefined_false _ Umax). }
    destruct (IH acc') as (Rmin & Rmax & Hkey).
    + intros x Hx. apply Hl. by right.
    + rewrite Emin. by destruct (cmp y (Linqer.st_min acc) <? 0).
    + rewrite Emax. by destruct (0 <? cmp y (Linqer.st_max acc)).
    + rewrite Emin. by destruct (cmp y (Linqer.st_min acc) <? 0).
    + rewrite Emax. by destruct (0 <? cmp y (Linqer.st_max acc)).
    + split_and!; try done. intros key Hord.
      destruct (Hkey key Hord) as (K1 & K2 & K3).
      destruct (Hord y (Linqer.st_min acc) Hy Hmin) as [Lt1 _].
      destruct (Hord y (Linqer.st_max acc) Hy Hmax) as [_ Gt2].
      assert (B1 : key (Linqer.st_min acc') <= key (Linqer.st_min acc) /\
                   key (Linqer.st_min acc') <= key y).
      { rewrite Emin. destruct (cmp y (Linqer.st_min acc) <? 0) eqn:E.
        - apply Z.ltb_lt in E. apply Lt1 in E. lia.
        - apply Z.ltb_ge in E. split; [lia|].
          destruct (Z_lt_le_dec (key y) (key (Linqer.st_min acc))) as [C|C];
            [apply Lt1 in C; lia|lia]. }
      assert (B2 : key (Linqer.st_max acc) <= key (Linqer.st_max acc') /\
                   key y <= key (Linqer.st_max acc')).
      { rewrite Emax. destruct (0 <? cmp y (Linqer.st_max acc)) eqn:E.
        - apply Z.ltb_lt in E. apply Gt2 in E. lia.
        - apply Z.ltb_ge in E. split; [lia|].
          destruct (Z_lt_le_dec (key (Linqer.st_max acc)) (key y)) as [C|C];
            [apply Gt2 in C; lia|lia]. }
      split_and!; try lia.
      intros x Hx. apply elem_of_cons in Hx as [->|Hx]; [lia|by apply K3].
Qed.

(** [stats], [min] and [max] with a comparer that passes the test. *)
Lemma stats_returns N H comparer st items st' :
  evals (fun f => iterate f H) st items st' ->
  (forall v, comparer = ArgValue v -> truthy v = false) ->
  let s := fold_left (Linqer.stats_step (comparer_of N comparer)) items
             (Linqer.mkStats 0 VUndefined VUndefined) in
  evals (fun f => Linqer.stats N f H comparer) st s st' /\
  evals (fun f => Linqer.min N f H comparer) st
    (if Linqer.st_count s =? 0 then VUndefined else Linqer.st_min s) st' /\
  evals (fun f => Linqer.max N f H comparer) st
    (if Linqer.st_count s =? 0 then VUndefined else Linqer.st_max s) st'.
Proof.
  intros [n Hit] Harg s.
  assert (Hg : (if arg_truthy comparer then _ensureFunction comparer
                else ret tt) = ret tt).
  { destruct comparer as [c|v]; [done|]. simpl. by rewrite (Harg v). }
  assert (Hs : forall f, (n <= f)%nat ->
            Linqer.stats N f H comparer st = Ok s st').
  { intros f Hf. unfold Linqer.stats. rewrite Hg. unfold bind at 1. simpl.
    unfold bind. rewrite (Hit f Hf). by destruct comparer. }
  split_and!; exists n; intros f Hf.
  - by apply Hs.
  - unfold Linqer.min, bind. by rewrite (Hs f Hf).
  - unfold Linqer.max, bind. by rewrite (Hs f Hf).
Qed.

(** C8, amended.  Over the items that iterating the Handle yields:
    [sumAndCount] and [sum] add the elements coerced by [_toNumber], so
    that one element that is not a number makes the sum NaN, and a sum of
    integers whose absolute values add up to at most 2^53 is exact.
    [stats], [min] and [max] do not coerce.  An argument that is truthy
    and not a function makes them throw before anything is iterated.  With
    a comparer function, or without one, they return; the count is the
    number of items and the minimum and the maximum are elements of the
    sequence as they are, or undefined; when there are items, none of them
    undefined, the two are items, and a least and a greatest one whenever
    the comparer orders the items as an integer key does.  Over the empty
    sequence [stats] is [{count: 0, min: undefined, max: undefined}] and
    [sum], [min], [max] are undefined. *)
Theorem aggregates_over_items N p fuel st H :
  run N fuel p init = Some st -> (H < length (heap st))%nat ->
  exists items,
    (exists st', evals (fun f => iterate f H) st items st') /\
    (exists s st', evals (fun f => Linqer.sumAndCount f H) st s st' /\
       Linqer.sc_count s = Z.of_nat (length items) /\
       (Exists (fun v => Linqer._toNumber v = VNaN) items ->
        Linqer.sc_sum s = VNaN) /\
       (forall zs, items = VNum <$> zs -> sum_abs zs <= max_safe ->
        Linqer.sc_sum s = VNum (fold_right Z.add 0 zs))) /\
    (exists v st', evals (fun f => Linqer.sum f H) st v st' /\
       (items = [] -> v = VUndefined) /\
       (Exists (fun v => Linqer._toNumber v = VNaN) items -> v = VNaN) /\
       (forall zs, items = VNum <$> zs -> zs <> [] -> sum_abs zs <= max_safe ->
        v = VNum (fold_right Z.add 0 zs))) /\
    (forall v, truthy v = true ->
       throws (fun f => Linqer.stats N f H (ArgValue v)) st
         InvalidOperationArgumentError st /\
       throws (fun f => Linqer.min N f H (ArgValue v)) st
         InvalidOperationArgumentError st /\
       throws (fun f => Linqer.max N f H (ArgValue v)) st
         InvalidOperationArgumentError st) /\
    (forall comparer,
       (forall v, comparer = ArgValue v -> truthy v = false) ->
       exists s st',
         evals (fun f => Linqer.stats N f H comparer) st s st' /\
         evals (fun f => Linqer.min N f H comparer) st
           (match items with [] => VUndefined | _ => Linqer.st_min s end) st' /\
         evals (fun f => Linqer.max N f H comparer) st
           (match items with [] => VUndefined | _ => Linqer.st_max s end) st' /\
         Linqer.st_count s = Z.of_nat (length items) /\
         or_item items (Linqer.st_min s) /\ or_item items (Linqer.st_max s) /\
         (items = [] -> s = Linqer.mkStats 0 VUndefined VUndefined) /\
         (items <> [] -> VUndefined ∉ items ->
          Linqer.st_min s ∈ items /\ Linqer.st_max s ∈ items /\
          forall key, orders_by (comparer_of N comparer) key items ->
            forall x, x ∈ items ->
              key (Linqer.st_min s) <= key x <= key (Linqer.st_max s))).
Proof.
  intros Hrun HH.
  destruct (run_Full N fuel p st Hrun) as [D HF].
  rewrite (proj2 HF) in HH.
  destruct (good_returns D st _ _ HF (iterate_good_at D st H HF HH))
    as (st' & Hit & _).
  set (items := d_items (dlook D H)) in *.
  pose proof (evals_bind_ret _
    (fun l => fold_left Linqer.sumAndCount_step l (Linqer.mkSumAndCount (VNum 0) 0))
    _ _ _ Hit) as Hsc.
  pose proof (evals_bind_ret _
    (fun s => if Linqer.sc_count s =? 0 then VUndefined else Linqer.sc_sum s)
    _ _ _ Hsc) as Hsum.
  cbv beta in Hsc, Hsum.
  rewrite sumAndCount_fold in Hsc, Hsum. simpl in Hsum.
  exists items. split_and!.
  - by exists st'.
  - eexists _, st'. split; [exact Hsc|]. simpl. split_and!; [done| |].
    + apply coerced_sum_NaN.
    + intros zs -> _. destruct zs as [|z zs]; [done|].
      by apply coerced_sum_numbers.
  - eexists _, st'. split; [exact Hsum|]. split_and!.
    + intros ->. done.
    + intros Hex. destruct items as [|x l]; [by inversion Hex|].
      simpl length.
      destruct (Z.of_nat (S (length l)) =? 0) eqn:E; [apply Z.eqb_eq in E; lia|].
      by apply coerced_sum_NaN.
    + intros zs -> Hne _. destruct zs as [|z zs]; [done|].
      rewrite length_fmap. simpl length.
      destruct (Z.of_nat (S (length zs)) =? 0) eqn:E; [apply Z.eqb_eq in E; lia|].
      by apply coerced_sum_numbers.
  - intros v Hv. split_and!; exists 0%nat; intros f _;
      unfold Linqer.min, Linqer.max, Linqer.stats, bind; simpl; by rewrite Hv.
  - intros comparer Harg.
    destruct (stats_returns N H comparer st items st' Hit Harg)
      as (Hstats & Hmin & Hmax).
    set (cmp := comparer_of N comparer) in *.
    set (s := fold_left (Linqer.stats_step cmp) items
                (Linqer.mkStats 0 VUndefined VUndefined)) in *.
    destruct (stats_fold_from cmp items (Linqer.mkStats 0 VUndefined VUndefined))
      as [Hcnt HP]. simpl in Hcnt. fold s in Hcnt.
    destruct (HP (or_item items)) as [Pmin Pmax]; try (left; reflexivity).
    { apply Forall_forall. intros x Hx. by right. }
    fold s in Pmin, Pmax.
    assert (Hc0 : (Linqer.st_count s =? 0) =
                  match items with [] => true | _ => false end).
    { rewrite Hcnt. destruct items; [done|]. apply Z.eqb_neq. simpl length. lia. }
    rewrite Hc0 in Hmin, Hmax.
    exists s, st'. split_and!; try done.
    + by destruct items.
    + by destruct items.
    + intros E. subst s. by rewrite E.
    + intros Hne Hund. subst s. destruct items as [|x l] eqn:Eit; [done|].
      cbn [fold_left].
      assert (Ux : x <> VUndefined).
      { intros ->. apply Hund. by left. }
      change (Linqer.stats_step cmp (Linqer.mkStats 0 VUndefined VUndefined) x)
        with (Linqer.mkStats (0 + 1) x x).
      destruct (stats_fold_ordered cmp (x :: l) l (Linqer.mkStats (0 + 1) x x))
        as (Rmin & Rmax & Hkey); simpl; try done; try (by left).
      { intros y Hy. split; [by right|]. intros ->. apply Hund. by right. }
      split_and!; try done. intros key Hord y Hy.
      destruct (Hkey key Hord) as (K1 & K2 & K3). simpl in K1, K2.
      apply elem_of_cons in Hy as [->|Hy]; [lia|by apply K3].
Qed.

(** ** The denotations of the derived Handles *)

Lemma den_take D this nr :
  (this < length D)%nat ->
  let p := dlook D this in
  let d := new_den D (take_obj (d_seek p) this nr) in
  d_items d = firstn (Z.to_nat nr) (d_items p) /\
  d_cnt d = Z.min nr (d_cnt p) /\
  d_seek d = d_seek p /\
  (d_seek p = true ->
   forall i, d_get d i = if nr <=? i then None else d_get p i).
Proof.
  intros Hthis p d. unfold d, p.
  destruct (d_seek (dlook D this)) eqn:Hs;
    unfold new_den; simpl; rewrite !dlook_app_l by lia; split_and!; done.
Qed.

Lemma den_skip D this nr :
  (this < length D)%nat ->
  let p := dlook D this in
  let d := new_den D (skip_obj (d_seek p) this nr) in
  d_items d = skipn (Z.to_nat nr) (d_items p) /\
  d_cnt d = Z.max 0 (d_cnt p - nr) /\
  d_seek d = d_seek p /\
  (forall i, d_get d i = d_get p (i + nr)).
Proof.
  intros Hthis p d. unfold d, p.
  unfold new_den; simpl; rewrite !dlook_app_l by lia; split_and!; done.
Qed.

Lemma den_concat D a b iterable :
  (a < length D)%nat -> (b < length D)%nat ->
  let da := dlook D a in
  let db := dlook D b in
  let d := new_den D (concat_obj (d_seek da) (d_seek db) a b iterable) in
  d_items d = d_items da ++ src_den D iterable /\
  d_cnt d = d_cnt da + d_cnt db /\
  d_seek d = d_seek da && d_seek db /\
  (d_seek da = true ->
   forall i, d_get d i = match d_get da i with
                         | Some v => Some v
                         | None => d_get db (i - d_cnt da)
                         end) /\
  (d_seek da = false ->
   forall i, d_get d i = if i <? 0 then None
                         else (d_items da ++ src_den D iterable) !! Z.to_nat i).
Proof.
  intros Ha Hb da db d. unfold d, da, db.
  destruct (d_seek (dlook D a)) eqn:Hs;
    unfold new_den; simpl; rewrite !dlook_app_l by lia;
    rewrite ?dlook_app_r; split_and!; done.
Qed.

Lemma den_select D st this f c :
  (this < length D)%nat -> count_ok st this c ->
  count_den D c = d_cnt (dlook D this) ->
  let p := dlook D this in
  let d := new_den D (select_obj (d_seek p) c this f) in
  d_items d = select_items f (d_items p) /\
  d_cnt d = d_cnt p /\
  d_seek d = d_seek p /\
  (forall i, d_get d i = match d_get p i with
                         | None => None
                         | Some v => Some (f v VUndefined)
                         end).
Proof.
  intros Hthis Hok Hden p d. unfold d, p.
  unfold new_den; simpl; rewrite ?dlook_app_l by lia; split_and!; try done.
  erewrite count_den_agree; [exact Hden|by apply agree_app|exact Hok].
Qed.

(** ** Splitting a sequence and joining the parts *)

Lemma in_contract_polite p :
  forallb in_contract p = true -> Forall (polite false) p.
Proof.
  intros H. apply Forall_forall. intros c Hc.
  apply polite_in_contract; [|done].
  rewrite forallb_forall in H. apply H. by apply list_elem_of_In.
Qed.

Lemma coh_cnt_nonneg strict d : coh strict d -> 0 <= d_cnt d.
Proof. intros [H _]. lia. Qed.

Lemma toArray_returns D st this :
  Full D st -> (this < length D)%nat -> Forall (coh false) D ->
  exists st', evals (fun f => Linqer.toArray f this) st
                (toArray_den (dlook D this)) st'.
Proof.
  intros HF Hthis HK.
  destruct (good_returns D st _ _ HF (toArray_good D st this HF Hthis
              (fun _ => coh_cnt_nonneg _ _ (Forall_dlook _ D this HK Hthis))))
    as (st' & He & _).
  by exists st'.
Qed.

Lemma tabulate_ext (f g : Z -> value) n :
  (forall i, 0 <= i < n -> f i = g i) -> f <$> seqZ 0 n = g <$> seqZ 0 n.
Proof.
  intros H. apply list_eq. intros k. rewrite !list_lookup_fmap.
  destruct (seqZ 0 n !! k) as [i|] eqn:E; [|done]. simpl.
  apply lookup_seqZ in E as [-> Hk]. f_equal. apply H. lia.
Qed.

(** The array of [H.take(n).concat(H.skip(n))] is the array of [H], for a
    coherent [H]. *)
Lemma split_join_den D H n :
  (H < length D)%nat -> 0 <= n -> coh false (dlook D H) ->
  let D1 := ext D (take_obj (d_seek (dlook D H)) H n) in
  let D2 := ext D1 (skip_obj (d_seek (dlook D1 H)) H n) in
  let c := concat_obj (d_seek (dlook D2 (length D)))
             (d_seek (dlook D2 (S (length D)))) (length D) (S (length D))
             (SrcEnum (S (length D))) in
  toArray_den (new_den D2 c) = toArray_den (dlook D H).
Proof.
  intros HH Hn (C1 & C2 & _) D1 D2 c.
  assert (HL1 : length D1 = S (length D)) by apply length_ext.
  assert (HL2 : length D2 = S (S (length D)))
    by (unfold D2; rewrite length_ext; lia).
  assert (E1 : dlook D1 H = dlook D H) by (by apply dlook_ext_old).
  assert (Et : dlook D2 (length D) = new_den D (take_obj (d_seek (dlook D H)) H n)).
  { unfold D2. rewrite dlook_ext_old by lia. apply dlook_ext_new. }
  assert (Es : dlook D2 (S (length D)) =
               new_den D1 (skip_obj (d_seek (dlook D1 H)) H n)).
  { unfold D2. rewrite <- HL1. apply dlook_ext_new. }
  destruct (den_take D H n HH) as (T1 & T2 & T3 & T4).
  destruct (den_skip D1 H n ltac:(lia)) as (S1 & S2 & S3 & S4).
  destruct (den_concat D2 (length D) (S (length D)) (SrcEnum (S (length D)))
              ltac:(lia) ltac:(lia)) as (K1 & K2 & K3 & K4 & K5).
  fold c in K1, K2, K3, K4, K5.
  simpl src_den in K1, K5.
  rewrite ?Et, ?Es in K1, K2, K3, K4, K5.
  rewrite ?E1 in S1, S2, S3, S4, K1, K2, K3, K4, K5.
  rewrite T1, S1 in K1. rewrite T2, S2 in K2. rewrite T3, S3 in K3.
  rewrite T3, T2 in K4. clear K5.
  unfold toArray_den. rewrite K3.
  destruct (d_seek (dlook D H)) eqn:Hseek; cbn [andb].
  - assert (Hc : d_cnt (new_den D2 c) = d_cnt (dlook D H)) by lia.
    rewrite Hc. apply tabulate_ext. intros i Hi.
    rewrite (K4 eq_refl), (T4 eq_refl), S4.
    destruct (C2 eq_refl i ltac:(lia)) as [Ha _].
    destruct (decide (n <= i)) as [Hle|Hgt].
    + destruct (n <=? i) eqn:E; [|apply Z.leb_gt in E; lia].
      do 2 f_equal. lia.
    + destruct (n <=? i) eqn:E; [apply Z.leb_le in E; lia|].
      destruct (Ha ltac:(lia)) as [v Hv]. by rewrite Hv.
  - by rewrite K1, take_drop.
Qed.



(** ** [splice] within the natural numbers *)

Lemma tabulate_lookup (f : Z -> value) c k :
  (f <$> seqZ 0 c) !! k =
    if decide (Z.of_nat k < c) then Some (f (Z.of_nat k)) else None.
Proof.
  rewrite list_lookup_fmap. case_decide.
  - by rewrite lookup_seqZ_lt.
  - by rewrite lookup_seqZ_ge by lia.
Qed.

Lemma coh_array_den D a q :
  coh true (new_den D (fresh (SrcArray a) (IteratorOf (SrcArray a)) q)).
Proof.
  unfold new_den. simpl. apply coh_array. intros i. simpl.
  by rewrite dlook_app_r.
Qed.

(** The array of a Handle whose lookup follows its items is its items. *)
Lemma toArray_den_strict d : coh true d -> toArray_den d = d_items d.
Proof.
  intros (C1 & _ & C3). unfold toArray_den. destruct (d_seek d); [|done].
  apply list_eq. intros k. rewrite tabulate_lookup. case_decide.
  - rewrite C3 by lia. rewrite Nat2Z.id.
    destruct (lookup_lt_is_Some_2 (d_items d) k ltac:(lia)) as [x Hx].
    by rewrite Hx.
  - symmetry. apply lookup_ge_None_2. lia.
Qed.

Lemma toArray_den_take D H n :
  (H < length D)%nat -> 0 <= n -> coh false (dlook D H) ->
  toArray_den (new_den D (take_obj (d_seek (dlook D H)) H n)) =
  take (Z.to_nat n) (toArray_den (dlook D H)).
Proof.
  intros HH Hn (C1 & C2 & _).
  destruct (den_take D H n HH) as (T1 & T2 & T3 & T4).
  unfold toArray_den. rewrite T3.
  destruct (d_seek (dlook D H)) eqn:Hseek; [|done].
  apply list_eq. intros k. rewrite lookup_take, !tabulate_lookup, T2.
  rewrite (T4 eq_refl).
  repeat case_decide; try done; try lia.
  destruct (n <=? Z.of_nat k) eqn:E; [apply Z.leb_le in E; lia|done].
Qed.

Lemma toArray_den_skip D H n :
  (H < length D)%nat -> 0 <= n -> coh false (dlook D H) ->
  toArray_den (new_den D (skip_obj (d_seek (dlook D H)) H n)) =
  drop (Z.to_nat n) (toArray_den (dlook D H)).
Proof.
  intros HH Hn (C1 & C2 & _).
  destruct (den_skip D H n HH) as (T1 & T2 & T3 & T4).
  unfold toArray_den. rewrite T3.
  destruct (d_seek (dlook D H)) eqn:Hseek; [|done].
  apply list_eq. intros k. rewrite lookup_drop, !tabulate_lookup, T2, T4.
  repeat case_decide; try done; try lia.
  do 3 f_equal. lia.
Qed.

Lemma toArray_den_length d :
  coh false d -> length (toArray_den d) = Z.to_nat (d_cnt d).
Proof.
  intros (C1 & _). unfold toArray_den. destruct (d_seek d).
  - by rewrite length_fmap, length_seqZ.
  - lia.
Qed.

Lemma toArray_den_concat D a b iterable :
  (a < length D)%nat -> (b < length D)%nat ->
  coh false (dlook D a) -> coh false (dlook D b) ->
  src_den D iterable = d_items (dlook D b) ->
  (d_seek (dlook D a) = true -> d_seek (dlook D b) = true) ->
  (d_seek (dlook D a) = false -> toArray_den (dlook D b) = d_items (dlook D b)) ->
  toArray_den (new_den D (concat_obj (d_seek (dlook D a)) (d_seek (dlook D b))
                            a b iterable)) =
  toArray_den (dlook D a) ++ toArray_den (dlook D b).
Proof.
  intros Ha Hb (A1 & A2 & _) (B1 & B2 & _) Hsrc Hs1 Hs2.
  pose proof (den_concat D a b iterable Ha Hb) as K. cbv zeta in K.
  unfold toArray_den at 2.
  destruct (d_seek (dlook D a)) eqn:Hsa.
  - specialize (Hs1 eq_refl). unfold toArray_den at 2.
    rewrite Hs1 in K |- *.
    destruct K as (K1 & K2 & K3 & K4 & _).
    unfold toArray_den. rewrite K3. cbn [andb].
    apply list_eq. intros k.
    rewrite lookup_app, !tabulate_lookup, length_fmap, length_seqZ, K2.
    rewrite (K4 eq_refl).
    destruct (A2 eq_refl (Z.of_nat k) ltac:(lia)) as [Hin Hout].
    repeat case_decide; try lia; try done.
    + by destruct (Hin ltac:(lia)) as [v ->].
    + rewrite Hout by lia. do 3 f_equal. lia.
  - destruct K as (K1 & K2 & K3 & _).
    unfold toArray_den at 1. rewrite K3. cbn [andb].
    by rewrite K1, Hsrc, (Hs2 eq_refl).
Qed.

(** The native operation for natural numbers. *)
Lemma js_splice_nat (A : list value) start howmany items :
  0 <= start -> 0 <= howmany ->
  js_splice A start howmany items =
  take (Z.to_nat start) A ++ items ++ drop (Z.to_nat (start + howmany)) A.
Proof.
  intros Hs Hh. unfold js_splice.
  destruct (start <? 0) eqn:E; [apply Z.ltb_lt in E; lia|].
  f_equal.
  - destruct (decide (start <= Z.of_nat (length A))).
    + by rewrite Z.min_l by lia.
    + rewrite Z.min_r by lia. rewrite Nat2Z.id.
      rewrite !firstn_all2; [done|lia|lia].
  - f_equal.
    destruct (decide (start + howmany <= Z.of_nat (length A))).
    + f_equal. lia.
    + rewrite !skipn_all2; [done|lia|lia].
Qed.

Lemma splice_den D H start howmany newItems :
  (H < length D)%nat -> 0 <= start -> 0 <= howmany -> Forall (coh false) D ->
  let D' := splice_dens D H start howmany newItems in
  Forall (coh false) D' /\
  toArray_den (dlook D' (S (S (S (S (length D)))))) =
  js_splice (toArray_den (dlook D H)) start howmany newItems.
Proof.
  intros HH Hs Hh HK. unfold splice_dens. cbv zeta.
  set (n := length D) in *.
  set (D1 := ext D (take_obj (d_seek (dlook D H)) H start)).
  set (arr := fresh (SrcArray newItems) (IteratorOf (SrcArray newItems)) true).
  set (D2 := ext D1 arr).
  set (D3 := ext D2 (concat_obj (d_seek (dlook D2 n)) (d_seek (dlook D2 (S n)))
                       n (S n) (SrcArray newItems))).
  set (D4 := ext D3 (skip_obj (d_seek (dlook D3 H)) H (start + howmany))).
  assert (HL1 : length D1 = S n) by apply length_ext.
  assert (HL2 : length D2 = S (S n)) by (unfold D2; rewrite length_ext; lia).
  assert (HL3 : length D3 = S (S (S n))) by (unfold D3; rewrite length_ext; lia).
  assert (HL4 : length D4 = S (S (S (S n)))) by (unfold D4; rewrite length_ext; lia).
  assert (HK1 : Forall (coh false) D1).
  { apply Forall_app. split; [done|]. constructor; [|done]. by apply coh_take. }
  assert (Et : dlook D2 n = new_den D (take_obj (d_seek (dlook D H)) H start)).
  { unfold D2. rewrite dlook_ext_old by lia. apply dlook_ext_new. }
  assert (Ea : dlook D2 (S n) = new_den D1 arr).
  { unfold D2. rewrite <- HL1. apply dlook_ext_new. }
  assert (HK2 : Forall (coh false) D2).
  { apply Forall_app. split; [done|]. constructor; [|done]. by apply coh_fresh. }
  assert (HK3 : Forall (coh false) D3).
  { apply Forall_app. split; [done|]. constructor; [|done].
    apply coh_concat; try done; try lia. by rewrite Ea. }
  assert (EH : dlook D3 H = dlook D H).
  { unfold D3, D2, D1. rewrite !dlook_ext_old; rewrite ?length_ext; try done; lia. }
  assert (HK4 : Forall (coh false) D4).
  { apply Forall_app. split; [done|]. constructor; [|done].
    apply coh_skip; [done|lia|lia]. }
  assert (Ec : dlook D4 (S (S n)) =
               new_den D2 (concat_obj (d_seek (dlook D2 n)) (d_seek (dlook D2 (S n)))
                             n (S n) (SrcArray newItems))).
  { unfold D4. rewrite dlook_ext_old by lia. unfold D3. rewrite <- HL2.
    apply dlook_ext_new. }
  assert (Es : dlook D4 (S (S (S n))) =
               new_den D3 (skip_obj (d_seek (dlook D3 H)) H (start + howmany))).
  { unfold D4. rewrite <- HL3. apply dlook_ext_new. }
  assert (HcH : coh false (dlook D H)) by (by apply Forall_dlook).
  assert (Sa : d_seek (new_den D1 arr) = true) by done.
  assert (Ia : toArray_den (new_den D1 arr) = newItems).
  { by rewrite toArray_den_strict by apply coh_array_den. }
  assert (Sc : d_seek (dlook D4 (S (S n))) = d_seek (dlook D H)).
  { rewrite Ec.
    destruct (den_concat D2 n (S n) (SrcArray newItems) ltac:(lia) ltac:(lia))
      as (_ & _ & Sc & _).
    destruct (den_take D H start HH) as (_ & _ & St & _).
    rewrite Sc, Et, Ea, St, Sa. apply andb_true_r. }
  assert (Ss : d_seek (dlook D4 (S (S (S n)))) = d_seek (dlook D H)).
  { rewrite Es.
    destruct (den_skip D3 H (start + howmany) ltac:(lia)) as (_ & _ & Ss & _).
    by rewrite Ss, EH. }
  split.
  { apply Forall_app. split; [done|]. constructor; [|done].
    apply coh_concat; try done; try lia. simpl. apply Nat.ltb_lt. lia. }
  match goal with |- toArray_den (dlook (ext D4 ?o) _) = _ =>
    rewrite <- HL4, (dlook_ext_new D4 o) end.
  rewrite toArray_den_concat; try lia; try (apply Forall_dlook; [done|lia]);
    try done.
  - rewrite Ec, Es.
    rewrite toArray_den_concat; try lia; try (apply Forall_dlook; [done|lia]).
    + rewrite Et, Ea, Ia, toArray_den_take by done.
      rewrite toArray_den_skip, EH by (rewrite ?EH; done || lia).
      rewrite js_splice_nat by done. by rewrite <- app_assoc.
    + by rewrite Ea.
    + intros _. by rewrite Ea.
    + intros _. rewrite Ea, Ia. done.
  - by rewrite Sc, Ss.
  - intros Hf. unfold toArray_den. by rewrite Ss, <- Sc, Hf.
Qed.


(** ** Concatenation *)

Lemma elementAt_returns D st this index v :
  Full D st -> (this < length D)%nat -> d_get (dlook D this) index = Some v ->
  exists st', evals (fun f => Linqer.elementAt f this index) st v st'.
Proof.
  intros HF Hthis Hv.
  destruct (elementAt_result D st this index HF Hthis) as (r & He & HP & _).
  unfold elementAt_res in HP. rewrite Hv in HP. destruct HP as [st' ->].
  by exists st'.
Qed.

Lemma seek_of_both_new D st a b iterable :
  let o := concat_obj (d_seek (dlook D a)) (d_seek (dlook D b)) a b iterable in
  Full (ext D o) st -> Inv D st -> heap st !! length D = Some o ->
  (a < length D)%nat -> (b < length D)%nat ->
  resolved_tryGetAt st a -> resolved_tryGetAt st b ->
  seek_of_both st (length D) a b.
Proof.
  intros o HF HI Ho Ha Hb Hra Hrb.
  destruct (resolved_canSeek D st a HI Ha Hra) as (oa & Hoa & Hsa).
  destruct (resolved_canSeek D st b HI Hb Hrb) as (ob & Hob & Hsb).
  destruct Hra as (oa' & ga & Hoa' & Hga).
  destruct Hrb as (ob' & gb & Hob' & Hgb).
  assert (oa' = oa) as -> by congruence.
  assert (ob' = ob) as -> by congruence.
  pose proof (den_concat D a b iterable Ha Hb) as (_ & _ & Hseek & _).
  exists o, oa, ob. split_and!; try done; try by eexists.
  { rewrite Hsa, Hsb. unfold o. simpl.
    by destruct (d_seek (dlook D a)), (d_seek (dlook D b)). }
  destruct (ensureInternalTryGetAt_good (ext D o) (length D) st (proj1 HF))
    as ([] & st' & He & HI' & HS' & _ & Hres').
  { rewrite length_ext. lia. }
  destruct (resolved_canSeek (ext D o) st' (length D) HI') as (ot' & Hot' & Hs');
    [rewrite length_ext; lia|done|].
  exists st', ot'. split; [done|]. split; [done|].
  rewrite Hs', dlook_ext_new. unfold o. rewrite Hseek. congruence.
Qed.



(** ** Projection *)

Lemma evals_ends {A} (m : nat -> M A) st v st' r :
  evals m st v st' -> ends m st r -> r = Ok v st'.
Proof.
  intros [n1 H1] [n2 H2].
  rewrite <- (H1 (n1 `max` n2)%nat ltac:(lia)).
  by rewrite <- (H2 (n1 `max` n2)%nat ltac:(lia)).
Qed.

Lemma elementAt_den D st this index v st' :
  Full D st -> (this < length D)%nat ->
  evals (fun f => Linqer.elementAt f this index) st v st' ->
  d_get (dlook D this) index = Some v.
Proof.
  intros HF Hthis He.
  destruct (elementAt_result D st this index HF Hthis) as (r & Hr & HP & _).
  rewrite (evals_ends _ _ _ _ _ He Hr) in HP. unfold elementAt_res in HP.
  destruct (d_get (dlook D this) index) as [w|]; destruct HP as [? HP];
    by inversion HP.
Qed.

Lemma iterate_returns D st this :
  Full D st -> (this < length D)%nat ->
  exists st', evals (fun f => iterate f this) st (d_items (dlook D this)) st'.
Proof.
  intros HF Hthis.
  destruct (good_returns D st _ _ HF (iterate_good_at D st this HF Hthis))
    as (st' & He & _).
  by exists st'.
Qed.



Lemma evals_of_run {A} (m : nat -> M A) n st v st' :
  (forall f f', (f <= f')%nat -> refines (m f) (m f')) ->
  m n st = Ok v st' -> evals m st v st'.
Proof.
  intros Hmono Hn. exists n. intros fuel Hle.
  rewrite (Hmono n fuel Hle st); [done|]. by rewrite Hn.
Qed.


(** * Further properties of the class *)

(** ** What the methods return, read off the denotation *)

Lemma count_returns D st this :
  Full D st -> (this < length D)%nat ->
  exists st', evals (fun f => count f this) st (d_cnt (dlook D this)) st'.
Proof.
  intros HF Hthis.
  destruct (good_returns D st _ _ HF (count_good_at D st this HF Hthis))
    as (st' & He & _).
  by exists st'.
Qed.

Lemma length_returns D st this :
  Full D st -> (this < length D)%nat -> d_seek (dlook D this) = true ->
  exists st', evals (fun f => Linqer.length f this) st (d_cnt (dlook D this)) st'.
Proof.
  intros HF Hthis Hs.
  destruct (length_result D st this HF Hthis) as (r & Hr & HP & _).
  unfold length_res in HP. rewrite Hs in HP. destruct HP as [st' ->].
  by exists st'.
Qed.

Lemma length_throws D st this :
  Full D st -> (this < length D)%nat -> d_seek (dlook D this) = false ->
  exists st', throws (fun f => Linqer.length f this) st
                UnsupportedEagerAccessError st'.
Proof.
  intros HF Hthis Hs.
  destruct (length_result D st this HF Hthis) as (r & Hr & HP & _).
  unfold length_res in HP. rewrite Hs in HP. destruct HP as [st' ->].
  by exists st'.
Qed.

Lemma elementAt_throws D st this index :
  Full D st -> (this < length D)%nat -> d_get (dlook D this) index = None ->
  exists st', throws (fun f => Linqer.elementAt f this index) st
                IndexOutOfRangeError st'.
Proof.
  intros HF Hthis Hg.
  destruct (elementAt_result D st this index HF Hthis) as (r & Hr & HP & _).
  unfold elementAt_res in HP. rewrite Hg in HP. destruct HP as [st' ->].
  by exists st'.
Qed.

Lemma elementAtOrDefault_returns D st this index :
  Full D st -> (this < length D)%nat ->
  exists st', evals (fun f => Linqer.elementAtOrDefault f this index) st
                (default VUndefined (d_get (dlook D this) index)) st'.
Proof.
  intros HF Hthis.
  destruct (good_returns D st _ _ HF
              (elementAtOrDefault_good D st this index HF Hthis))
    as (st' & He & _).
  by exists st'.
Qed.

(** [toArray] on a seekable Handle whose [count()] is negative: the
    [new Array(n)] it starts with is a [RangeError]. *)
Lemma toArray_throws D st this :
  Full D st -> (this < length D)%nat ->
  d_seek (dlook D this) = true -> d_cnt (dlook D this) < 0 ->
  exists st', throws (fun f => Linqer.toArray f this) st RangeError st'.
Proof.
  intros HF Hthis Hs Hc.
  destruct (ensure_get_good D st this HF Hthis)
    as (o & st1 & [n1 He1] & HI1 & HS1 & HK1 & _ & Ho).
  assert (HF1 : Full D st1) by (by eapply Full_keeps).
  destruct (count_returns D st1 this HF1 Hthis) as (st2 & [n2 He2]).
  exists st2, (n1 `max` n2)%nat. intros fuel Hle.
  unfold Linqer.toArray. rewrite bind_assoc_at. unfold bind at 1.
  rewrite He1 by lia. rewrite Ho, Hs. unfold bind. rewrite He2 by lia.
  destruct (d_cnt (dlook D this) <? 0) eqn:E; [done|].
  apply Z.ltb_ge in E. lia.
Qed.

Lemma toArray_returns_at D st this :
  Full D st -> (this < length D)%nat ->
  (d_seek (dlook D this) = true -> 0 <= d_cnt (dlook D this)) ->
  exists st', evals (fun f => Linqer.toArray f this) st
                (toArray_den (dlook D this)) st'.
Proof.
  intros HF Hthis Hc.
  destruct (good_returns D st _ _ HF (toArray_good D st this HF Hthis Hc))
    as (st' & He & _).
  by exists st'.
Qed.

Lemma last_returns D st this :
  Full D st -> (this < length D)%nat ->
  let d := dlook D this in
  match (if d_seek d then d_get d (d_cnt d - 1) else last (d_items d)) with
  | Some v => exists st', evals (fun f => Linqer.last f this) st v st'
  | None => exists st', throws (fun f => Linqer.last f this) st
              (if d_seek d then IndexOutOfRangeError else EmptySequenceError) st'
  end.
Proof.
  intros HF Hthis d.
  destruct (ensure_get_good D st this HF Hthis)
    as (o & st1 & [n1 He1] & HI1 & HS1 & HK1 & _ & Ho).
  assert (HF1 : Full D st1) by (by eapply Full_keeps).
  fold d in Ho.
  assert (Hstep : forall fuel r, (n1 <= fuel)%nat ->
    (if d_seek d
     then bind (count fuel this) (fun n => Linqer.elementAt fuel this (n - 1)) st1
     else bind (iterate fuel this)
            (fun items => match last items with
                          | Some v => ret v
                          | None => throw EmptySequenceError
                          end) st1) = r ->
    Linqer.last fuel this st = r).
  { intros fuel r Hle <-. unfold Linqer.last. rewrite bind_assoc_at.
    unfold bind at 1. rewrite He1 by lia. rewrite Ho.
    by destruct (d_seek d). }
  destruct (d_seek d) eqn:Hs.
  - destruct (count_returns D st1 this HF1 Hthis) as (st2 & [n2 He2]).
    destruct (good_returns D st1 _ _ HF1 (count_good_at D st1 this HF1 Hthis))
      as (st2' & He2' & HF2 & _).
    destruct (evals_unique _ _ _ _ _ _ (ex_intro _ n2 He2) He2') as [_ <-].
    fold d in He2.
    destruct (d_get d (d_cnt d - 1)) as [v|] eqn:Hg.
    + destruct (elementAt_returns D st2 this _ v HF2 Hthis Hg) as (st3 & [n3 He3]).
      exists st3, ((n1 `max` n2) `max` n3)%nat. intros fuel Hle.
      apply Hstep; [lia|]. unfold bind. rewrite He2 by lia. apply He3. lia.
    + destruct (elementAt_throws D st2 this _ HF2 Hthis Hg) as (st3 & [n3 He3]).
      exists st3, ((n1 `max` n2) `max` n3)%nat. intros fuel Hle.
      apply Hstep; [lia|]. unfold bind. rewrite He2 by lia. apply He3. lia.
  - destruct (iterate_returns D st1 this HF1 Hthis) as (st2 & [n2 He2]).
    fold d in He2.
    destruct (last (d_items d)) as [v|] eqn:Hl.
    + exists st2, (n1 `max` n2)%nat. intros fuel Hle.
      apply Hstep; [lia|]. unfold bind. rewrite He2 by lia. by rewrite Hl.
    + exists st2, (n1 `max` n2)%nat. intros fuel Hle.
      apply Hstep; [lia|]. unfold bind. rewrite He2 by lia. by rewrite Hl.
Qed.

Lemma lastOrDefault_returns D st this :
  Full D st -> (this < length D)%nat ->
  let d := dlook D this in
  exists st', evals (fun f => Linqer.lastOrDefault f this) st
    (default VUndefined
       (if d_seek d then d_get d (d_cnt d - 1) else last (d_items d))) st'.
Proof.
  intros HF Hthis d.
  destruct (ensure_get_good D st this HF Hthis)
    as (o & st1 & [n1 He1] & HI1 & HS1 & HK1 & _ & Ho).
  assert (HF1 : Full D st1) by (by eapply Full_keeps).
  fold d in Ho.
  assert (Hstep : forall fuel r, (n1 <= fuel)%nat ->
    (if d_seek d
     then bind (count fuel this)
            (fun n => Linqer.elementAtOrDefault fuel this (n - 1)) st1
     else bind (iterate fuel this)
            (fun items => ret (default VUndefined (last items))) st1) = r ->
    Linqer.lastOrDefault fuel this st = r).
  { intros fuel r Hle <-. unfold Linqer.lastOrDefault. rewrite bind_assoc_at.
    unfold bind at 1. rewrite He1 by lia. rewrite Ho.
    by destruct (d_seek d). }
  destruct (d_seek d) eqn:Hs.
  - destruct (good_returns D st1 _ _ HF1 (count_good_at D st1 this HF1 Hthis))
      as (st2 & [n2 He2] & HF2 & _).
    fold d in He2.
    destruct (elementAtOrDefault_returns D st2 this (d_cnt d - 1) HF2 Hthis)
      as (st3 & [n3 He3]).
    exists st3, ((n1 `max` n2) `max` n3)%nat. intros fuel Hle.
    apply Hstep; [lia|]. unfold bind. rewrite He2 by lia. apply He3. lia.
  - destruct (iterate_returns D st1 this HF1 Hthis) as (st2 & [n2 He2]).
    fold d in He2.
    exists st2, (n1 `max` n2)%nat. intros fuel Hle.
    apply Hstep; [lia|]. unfold bind. by rewrite He2 by lia.
Qed.

(** Every Handle of a state that denotes behaves as its denotation. *)
Lemma Full_behaves D st r :
  Full D st -> (r < length D)%nat -> behaves st r (dlook D r).
Proof.
  intros HF Hr. split.
  - by apply (iterate_returns D).
  - by apply (count_returns D).
  - destruct (d_seek (dlook D r)) eqn:Hs;
      [by apply (length_returns D)|by apply (length_throws D)].
  - intros i. destruct (d_get (dlook D r) i) as [v|] eqn:Hg;
      [by apply (elementAt_returns D)|by apply (elementAt_throws D)].
  - intros i. by apply (elementAtOrDefault_returns D).
  - destruct (d_seek (dlook D r)) eqn:Hs; cbn [andb].
    + destruct (d_cnt (dlook D r) <? 0) eqn:E.
      * apply Z.ltb_lt in E. by apply (toArray_throws D).
      * apply Z.ltb_ge in E. by apply (toArray_returns_at D).
    + apply (toArray_returns_at D); [done|done|by rewrite Hs].
  - by apply (last_returns D).
  - by apply (lastOrDefault_returns D).
Qed.

(** A Handle that a method has just made behaves as the denotation of the
    object made. *)
Lemma creates_behaves D st (m : nat -> M nat) o st' :
  creates D st m o st' -> behaves st' (length D) (new_den D o).
Proof.
  intros (_ & HF & _). rewrite <- (dlook_app_r D (new_den D o)).
  apply Full_behaves; [done|]. rewrite length_app. simpl. lia.
Qed.

(** ** The static factories *)

Lemma den_range D start n :
  let d := new_den D (range_obj start n) in
  d_items d = (fun i => VNum (start + i)) <$> seqZ 0 n /\
  d_cnt d = n /\ d_seek d = true /\
  (forall i, d_get d i = if (0 <=? i) && (i <? n)
                         then Some (VNum (start + i)) else None).
Proof. done. Qed.

Lemma den_repeat D item n :
  let d := new_den D (repeat_obj item n) in
  d_items d = replicate (Z.to_nat n) item /\
  d_cnt d = n /\ d_seek d = true /\
  (forall i, d_get d i = if (0 <=? i) && (i <? n) then Some item else None).
Proof. done. Qed.

Lemma den_empty D :
  let d := new_den D empty_obj in
  d_items d = [] /\ d_cnt d = 0 /\ d_seek d = true /\
  (forall i, d_get d i = None).
Proof. done. Qed.

Lemma toArray_den_tabulate d (f : Z -> value) :
  d_seek d = true ->
  (forall i, 0 <= i < d_cnt d -> d_get d i = Some (f i)) ->
  toArray_den d = f <$> seqZ 0 (d_cnt d).
Proof.
  intros Hs Hg. unfold toArray_den. rewrite Hs. apply tabulate_ext.
  intros i Hi. by rewrite Hg.
Qed.

Lemma between_true i n : 0 <= i < n -> (0 <=? i) && (i <? n) = true.
Proof.
  intros [H1 H2]. apply andb_true_iff. split; [by apply Z.leb_le|by apply Z.ltb_lt].
Qed.

Lemma between_false i n : i < 0 \/ n <= i -> (0 <=? i) && (i <? n) = false.
Proof.
  intros H. apply andb_false_iff.
  destruct H; [left; by apply Z.leb_gt|right; by apply Z.ltb_ge].
Qed.

(** [Enumerable.range(start, n)] for [0 <= n < 2^32], with [start] and
    [start + n] within 2^53 in absolute value: a seekable Handle over
    [start, ..., start + n - 1]. *)
Theorem range_sequence N p fuel st start n :
  run N fuel p init = Some st -> 0 <= n < max_array ->
  - max_safe <= start -> start + n <= max_safe ->
  let numbers := (fun i => VNum (start + i)) <$> seqZ 0 n in
  exists r st1,
    evals (fun _ => Linqer.range start n) st r st1 /\
    (exists st2, evals (fun f => iterate f r) st1 numbers st2) /\
    (exists st2, evals (fun f => Linqer.toArray f r) st1 numbers st2) /\
    (exists st2, evals (fun f => count f r) st1 n st2) /\
    (exists st2, evals (fun f => Linqer.length f r) st1 n st2) /\
    (forall i, 0 <= i < n ->
       exists st2, evals (fun f => Linqer.elementAt f r i) st1
                     (VNum (start + i)) st2) /\
    (forall i, i < 0 \/ n <= i ->
       (exists st2, throws (fun f => Linqer.elementAt f r i) st1
                      IndexOutOfRangeError st2) /\
       (exists st2, evals (fun f => Linqer.elementAtOrDefault f r i) st1
                      VUndefined st2)) /\
    (0 < n ->
       (exists st2, evals (fun f => Linqer.first f r) st1 (VNum start) st2) /\
       (exists st2, evals (fun f => Linqer.last f r) st1
                      (VNum (start + (n - 1))) st2)).
Proof.
  intros Hrun [Hn _] _ _ numbers.
  destruct (run_Full N fuel p st Hrun) as [D HF].
  destruct (range_creates D st start n HF) as (st1 & Hc).
  pose proof (creates_behaves _ _ _ _ _ Hc) as B.
  destruct (den_range D start n) as (Hit & Hcnt & Hs & Hg).
  exists (length D), st1. split_and!; [apply Hc|..].
  - pose proof (b_iterate _ _ _ B) as H. by rewrite Hit in H.
  - pose proof (b_toArray _ _ _ B) as H. rewrite Hs, Hcnt in H. cbn [andb] in H.
    destruct (n <? 0) eqn:E; [apply Z.ltb_lt in E; lia|].
    rewrite (toArray_den_tabulate _ (fun i => VNum (start + i))) in H;
      [by rewrite Hcnt in H|done|].
    intros i Hi. rewrite Hg, between_true; [done|lia].
  - pose proof (b_count _ _ _ B) as H. by rewrite Hcnt in H.
  - pose proof (b_length _ _ _ B) as H. by rewrite Hs, Hcnt in H.
  - intros i Hi. pose proof (b_elementAt _ _ _ B i) as H.
    by rewrite Hg, between_true in H.
  - intros i Hi. split.
    + pose proof (b_elementAt _ _ _ B i) as H.
      by rewrite Hg, between_false in H.
    + pose proof (b_elementAtOrDefault _ _ _ B i) as H.
      by rewrite Hg, between_false in H.
  - intros Hpos. split.
    + pose proof (b_elementAt _ _ _ B 0) as H.
      rewrite Hg, between_true in H by lia. by rewrite Z.add_0_r in H.
    + pose proof (b_last _ _ _ B) as H.
      rewrite Hs, Hcnt, Hg, between_true in H by lia. exact H.
Qed.

(** [Enumerable.repeat(item, n)] for [0 <= n < 2^32]: a seekable Handle
    over [n] copies of [item]. *)
Theorem repeat_sequence N p fuel st item n :
  run N fuel p init = Some st -> 0 <= n < max_array ->
  let copies := replicate (Z.to_nat n) item in
  exists r st1,
    evals (fun _ => Linqer.repeat item n) st r st1 /\
    (exists st2, evals (fun f => iterate f r) st1 copies st2) /\
    (exists st2, evals (fun f => Linqer.toArray f r) st1 copies st2) /\
    (exists st2, evals (fun f => count f r) st1 n st2) /\
    (exists st2, evals (fun f => Linqer.length f r) st1 n st2) /\
    (forall i, 0 <= i < n ->
       exists st2, evals (fun f => Linqer.elementAt f r i) st1 item st2) /\
    (forall i, i < 0 \/ n <= i ->
       (exists st2, throws (fun f => Linqer.elementAt f r i) st1
                      IndexOutOfRangeError st2) /\
       (exists st2, evals (fun f => Linqer.elementAtOrDefault f r i) st1
                      VUndefined st2)).
Proof.
  intros Hrun [Hn _] copies.
  destruct (run_Full N fuel p st Hrun) as [D HF].
  destruct (repeat_creates D st item n HF) as (st1 & Hc).
  pose proof (creates_behaves _ _ _ _ _ Hc) as B.
  destruct (den_repeat D item n) as (Hit & Hcnt & Hs & Hg).
  exists (length D), st1. split_and!; [apply Hc|..].
  - pose proof (b_iterate _ _ _ B) as H. by rewrite Hit in H.
  - pose proof (b_toArray _ _ _ B) as H. rewrite Hs, Hcnt in H. cbn [andb] in H.
    destruct (n <? 0) eqn:E; [apply Z.ltb_lt in E; lia|].
    rewrite (toArray_den_tabulate _ (fun _ => item)) in H; [|done|].
    + rewrite Hcnt in H. replace copies with ((fun _ => item) <$> seqZ 0 n);
        [done|].
      unfold copies. apply list_eq. intros k. rewrite tabulate_lookup.
      case_decide.
      * symmetry. apply lookup_replicate. split; [done|lia].
      * symmetry. apply lookup_ge_None_2. rewrite length_replicate. lia.
    + intros i Hi. rewrite Hg, between_true; [done|lia].
  - pose proof (b_count _ _ _ B) as H. by rewrite Hcnt in H.
  - pose proof (b_length _ _ _ B) as H. by rewrite Hs, Hcnt in H.
  - intros i Hi. pose proof (b_elementAt _ _ _ B i) as H.
    by rewrite Hg, between_true in H.
  - intros i Hi. split.
    + pose proof (b_elementAt _ _ _ B i) as H.
      by rewrite Hg, between_false in H.
    + pose proof (b_elementAtOrDefault _ _ _ B i) as H.
      by rewrite Hg, between_false in H.
Qed.

(** A negative count: [range] and [repeat] yield nothing when iterated but
    report the negative count, and [toArray] throws a [RangeError]. *)
Theorem negative_count N p fuel st start item n :
  run N fuel p init = Some st -> n < 0 ->
  (exists r st1,
     evals (fun _ => Linqer.range start n) st r st1 /\
     (exists st2, evals (fun f => iterate f r) st1 [] st2) /\
     (exists st2, evals (fun f => count f r) st1 n st2) /\
     (exists st2, evals (fun f => Linqer.length f r) st1 n st2) /\
     (exists st2, throws (fun f => Linqer.toArray f r) st1 RangeError st2)) /\
  (exists r st1,
     evals (fun _ => Linqer.repeat item n) st r st1 /\
     (exists st2, evals (fun f => iterate f r) st1 [] st2) /\
     (exists st2, evals (fun f => count f r) st1 n st2) /\
     (exists st2, evals (fun f => Linqer.length f r) st1 n st2) /\
     (exists st2, throws (fun f => Linqer.toArray f r) st1 RangeError st2)).
Proof.
  intros Hrun Hn.
  destruct (run_Full N fuel p st Hrun) as [D HF].
  assert (E : (n <? 0) = true) by (by apply Z.ltb_lt).
  split.
  - destruct (range_creates D st start n HF) as (st1 & Hc).
    pose proof (creates_behaves _ _ _ _ _ Hc) as B.
    destruct (den_range D start n) as (Hit & Hcnt & Hs & Hg).
    exists (length D), st1. split_and!; [apply Hc|..].
    + pose proof (b_iterate _ _ _ B) as H.
      by rewrite Hit, seqZ_nil in H by lia.
    + pose proof (b_count _ _ _ B) as H. by rewrite Hcnt in H.
    + pose proof (b_length _ _ _ B) as H. by rewrite Hs, Hcnt in H.
    + pose proof (b_toArray _ _ _ B) as H. by rewrite Hs, Hcnt, E in H.
  - destruct (repeat_creates D st item n HF) as (st1 & Hc).
    pose proof (creates_behaves _ _ _ _ _ Hc) as B.
    destruct (den_repeat D item n) as (Hit & Hcnt & Hs & Hg).
    exists (length D), st1. split_and!; [apply Hc|..].
    + pose proof (b_iterate _ _ _ B) as H.
      rewrite Hit in H. by replace (Z.to_nat n) with 0%nat in H by lia.
    + pose proof (b_count _ _ _ B) as H. by rewrite Hcnt in H.
    + pose proof (b_length _ _ _ B) as H. by rewrite Hs, Hcnt in H.
    + pose proof (b_toArray _ _ _ B) as H. by rewrite Hs, Hcnt, E in H.
Qed.

(** [Enumerable.empty()]: a seekable Handle without elements; [first] and
    [last] throw the error of [elementAt]. *)
Theorem empty_sequence N p fuel st :
  run N fuel p init = Some st ->
  exists r st1,
    evals (fun _ => Linqer.empty) st r st1 /\
    (exists st2, evals (fun f => iterate f r) st1 [] st2) /\
    (exists st2, evals (fun f => Linqer.toArray f r) st1 [] st2) /\
    (exists st2, evals (fun f => count f r) st1 0 st2) /\
    (exists st2, evals (fun f => Linqer.length f r) st1 0 st2) /\
    (forall i,
       (exists st2, throws (fun f => Linqer.elementAt f r i) st1
                      IndexOutOfRangeError st2) /\
       (exists st2, evals (fun f => Linqer.elementAtOrDefault f r i) st1
                      VUndefined st2)) /\
    (exists st2, throws (fun f => Linqer.first f r) st1
                   IndexOutOfRangeError st2) /\
    (exists st2, throws (fun f => Linqer.last f r) st1
                   IndexOutOfRangeError st2) /\
    (exists st2, evals (fun f => Linqer.firstOrDefault f r) st1 VUndefined st2) /\
    (exists st2, evals (fun f => Linqer.lastOrDefault f r) st1 VUndefined st2).
Proof.
  intros Hrun.
  destruct (run_Full N fuel p st Hrun) as [D HF].
  destruct (empty_creates D st HF) as (st1 & Hc).
  pose proof (creates_behaves _ _ _ _ _ Hc) as B.
  exists (length D), st1. split_and!; [apply Hc|..].
  - exact (b_iterate _ _ _ B).
  - exact (b_toArray _ _ _ B).
  - exact (b_count _ _ _ B).
  - exact (b_length _ _ _ B).
  - intros i. split.
    + exact (b_elementAt _ _ _ B i).
    + exact (b_elementAtOrDefault _ _ _ B i).
  - exact (b_elementAt _ _ _ B 0).
  - exact (b_last _ _ _ B).
  - exact (b_elementAtOrDefault _ _ _ B 0).
  - exact (b_lastOrDefault _ _ _ B).
Qed.

(** ** The ends of a sequence *)

Lemma evals_throws {A} (m : nat -> M A) st v st1 e st2 :
  evals m st v st1 -> throws m st e st2 -> False.
Proof.
  intros [n1 H1] [n2 H2].
  specialize (H1 (n1 `max` n2)%nat ltac:(lia)).
  specialize (H2 (n1 `max` n2)%nat ltac:(lia)).
  by rewrite H1 in H2.
Qed.

(** What [length] tells about the seek flag of the denotation. *)
Lemma length_throws_seek st r d e :
  behaves st r d ->
  (exists st', throws (fun f => Linqer.length f r) st e st') ->
  d_seek d = false.
Proof.
  intros B [st' Ht]. pose proof (b_length _ _ _ B) as H.
  destruct (d_seek d); [|done].
  destruct H as [st2 He]. destruct (evals_throws _ _ _ _ _ _ He Ht).
Qed.

Lemma length_returns_seek st r d c :
  behaves st r d ->
  (exists st', evals (fun f => Linqer.length f r) st c st') ->
  d_seek d = true /\ c = d_cnt d.
Proof.
  intros B [st' He]. pose proof (b_length _ _ _ B) as H.
  destruct (d_seek d).
  - destruct H as [st2 He2]. by destruct (evals_unique _ _ _ _ _ _ He He2).
  - destruct H as [st2 Ht]. destruct (evals_throws _ _ _ _ _ _ He Ht).
Qed.

Lemma last_lookup {A} (l : list A) : last l = l !! (length l - 1)%nat.
Proof.
  induction l as [|x [|y l] IH]; [done|done|].
  change (last (x :: y :: l)) with (last (y :: l)). rewrite IH. simpl.
  by rewrite Nat.sub_0_r.
Qed.



(** ** Filtering *)

Lemma where_items_sublist condition k l : sublist (where_items condition k l) l.
Proof.
  revert k. induction l as [|x l IH]; intros k; simpl; [constructor|].
  destruct (condition x _); [by apply sublist_skip|by apply sublist_cons].
Qed.

Lemma where_items_filter condition (c : value -> bool) k l :
  (forall v i, condition v i = c v) ->
  where_items condition k l = List.filter c l.
Proof.
  intros Hc. revert k. induction l as [|x l IH]; intros k; simpl; [done|].
  rewrite Hc. destruct (c x); by rewrite IH.
Qed.

Lemma den_where D this condition :
  let d := new_den D (fresh (SrcGenFn (GenWhere this condition))
                        (GeneratorFunction (GenWhere this condition)) true) in
  let kept := where_items condition 0 (d_items (dlook D this)) in
  d_items d = kept /\ d_cnt d = Z.of_nat (length kept) /\ d_seek d = false /\
  (forall i, d_get d i = if i <? 0 then None else kept !! Z.to_nat i).
Proof.
  unfold new_den. simpl. rewrite dlook_app_r. simpl. done.
Qed.

(** [where]: making the Handle touches no other object and iterates
    nothing; the Handle is never seekable, and what it yields are the items
    of the receiver that satisfy the condition, in their order. *)
Theorem where_filters N p fuel st H condition :
  run N fuel p init = Some st -> (H < length (heap st))%nat ->
  exists items w st1 o,
    (exists st', evals (fun f => iterate f H) st items st') /\
    (forall f, Linqer.where_ f H condition st = Ok w st1) /\
    heap st1 = heap st ++ [o] /\ log st1 = log st /\
    let kept := where_items condition 0 items in
    sublist kept items /\
    (forall c : value -> bool,
       (forall v i, condition v i = c v) -> kept = List.filter c items) /\
    (exists st2, evals (fun f => iterate f w) st1 kept st2) /\
    (exists st2, evals (fun f => Linqer.toArray f w) st1 kept st2) /\
    (exists st2, evals (fun f => count f w) st1
                   (Z.of_nat (length kept)) st2) /\
    (exists st2, throws (fun f => Linqer.length f w) st1
                   UnsupportedEagerAccessError st2) /\
    (forall i v, 0 <= i -> kept !! Z.to_nat i = Some v ->
       exists st2, evals (fun f => Linqer.elementAt f w i) st1 v st2) /\
    (forall i, i < 0 \/ Z.of_nat (length kept) <= i ->
       exists st2, throws (fun f => Linqer.elementAt f w i) st1
                     IndexOutOfRangeError st2).
Proof.
  intros Hrun HH.
  destruct (run_Full N fuel p st Hrun) as [D HF].
  pose proof (proj2 HF) as HL. rewrite HL in HH.
  pose proof (Full_behaves D st H HF HH) as B.
  destruct (where_creates D st H condition 0%nat HF HH) as (st1 & Hcr).
  pose proof (creates_behaves _ _ _ _ _ Hcr) as B1.
  destruct (den_where D H condition) as (W1 & W2 & W3 & W4).
  cbv zeta in W1, W2, W4.
  set (items := d_items (dlook D H)) in *.
  set (o := fresh (SrcGenFn (GenWhere H condition))
              (GeneratorFunction (GenWhere H condition)) true) in *.
  exists items, (length (heap st)), (mkState (heap st ++ [o]) (log st)), o.
  assert (Est : st1 = mkState (heap st ++ [o]) (log st)).
  { destruct Hcr as ([n Hn] & _). specialize (Hn n ltac:(lia)).
    cbv in Hn. by inversion Hn. }
  rewrite <- Est.
  split_and!; try done.
  - exact (b_iterate _ _ _ B).
  - intros f. rewrite Est. reflexivity.
  - by rewrite Est.
  - by rewrite Est.
  - rewrite HL. split_and!.
    + apply where_items_sublist.
    + intros c Hc. by apply where_items_filter.
    + pose proof (b_iterate _ _ _ B1) as H1. by rewrite W1 in H1.
    + pose proof (b_toArray _ _ _ B1) as H1. rewrite W3 in H1.
      cbn [andb] in H1. unfold toArray_den in H1. by rewrite W3, W1 in H1.
    + pose proof (b_count _ _ _ B1) as H1. by rewrite W2 in H1.
    + pose proof (b_length _ _ _ B1) as H1. by rewrite W3 in H1.
    + intros i v Hi Hv. pose proof (b_elementAt _ _ _ B1 i) as H1.
      rewrite W4 in H1.
      destruct (i <? 0) eqn:E; [apply Z.ltb_lt in E; lia|]. by rewrite Hv in H1.
    + intros i Hi. pose proof (b_elementAt _ _ _ B1 i) as H1.
      rewrite W4 in H1.
      destruct (i <? 0) eqn:E; [done|]. apply Z.ltb_ge in E.
      by rewrite lookup_ge_None_2 in H1 by lia.
Qed.

(** ** Materialising *)

Lemma toList_returns D st this :
  Full D st -> (this < length D)%nat ->
  if d_seek (dlook D this)
  then exists st1, evals (fun f => Linqer.toList f this) st this st1 /\
                   Full D st1
  else exists st1,
         creates D st (fun f => Linqer.toList f this)
           (fresh (SrcArray (d_items (dlook D this)))
                  (IteratorOf (SrcArray (d_items (dlook D this)))) true) st1.
Proof.
  intros HF Hthis.
  destruct (ensure_get_good D st this HF Hthis)
    as (o & st1 & He1 & HI1 & HS1 & HK1 & _ & Ho).
  assert (HF1 : Full D st1) by (by eapply Full_keeps).
  destruct (d_seek (dlook D this)) eqn:Hseek.
  - exists st1. split; [|done]. unfold Linqer.toList.
    eapply evals_bind with
      (m := fun f => bind (_ensureInternalTryGetAt f this) (fun _ => get_enum this));
      [intros f; apply bind_assoc_at|exact He1|]. simpl. rewrite Ho.
    by exists 0%nat.
  - destruct (toArray_good D st1 this HF1 Hthis)
      as (arr & st2 & He2 & HI2 & HS2 & HK2 & ->); [by rewrite Hseek|].
    assert (HF2 : Full D st2) by (by eapply Full_keeps).
    unfold toArray_den in *. rewrite Hseek in *.
    set (arr := d_items (dlook D this)) in *.
    destruct (new_creates D st2 (SrcArray arr) (IteratorOf (SrcArray arr)) HF2)
      as (st3 & q & Hc & ->); [done|done|].
    exists st3. destruct Hc as (He3 & HF3 & HS3 & Hl3 & HI3).
    unfold creates. split_and!; try done.
    + unfold Linqer.toList.
      eapply evals_bind with
        (m := fun f => bind (_ensureInternalTryGetAt f this) (fun _ => get_enum this));
        [intros f; apply bind_assoc_at|exact He1|]. simpl.
      rewrite Ho.
      eapply evals_bind with (m := fun f => Linqer.toArray f this);
        [intros f; reflexivity|exact He2|]. simpl. exact He3.
    + eapply stable_trans; [exact HS1|]. by eapply stable_trans.
Qed.

Lemma toArray_den_lookup d k v :
  coh false d -> toArray_den d !! k = Some v ->
  (d_seek d = true -> d_get d (Z.of_nat k) = Some v) /\
  (Z.of_nat k < d_cnt d).
Proof.
  intros (C1 & C2 & _) Hv. unfold toArray_den in Hv.
  destruct (d_seek d) eqn:Hs.
  - rewrite tabulate_lookup in Hv. case_decide; [|done].
    split; [|done]. intros _.
    destruct (C2 eq_refl (Z.of_nat k) ltac:(lia)) as [Hin _].
    destruct (Hin ltac:(lia)) as [w Hw]. rewrite Hw in Hv |- *. by inversion Hv.
  - split; [done|]. apply lookup_lt_Some in Hv. lia.
Qed.


(** ** Arrays of derived Handles *)

Lemma coh_not_negative strict d :
  coh strict d -> d_seek d && (d_cnt d <? 0) = false.
Proof.
  intros (C1 & _). apply andb_false_iff. right. apply Z.ltb_ge. lia.
Qed.






(** ** Aggregates of numbers *)

Lemma stats_step_numbers N c lo hi x :
  Linqer.stats_step (Linqer._defaultComparer N)
    (Linqer.mkStats c (VNum lo) (VNum hi)) (VNum x) =
  Linqer.mkStats (c + 1) (VNum (Z.min x lo)) (VNum (Z.max x hi)).
Proof.
  unfold Linqer.stats_step, Linqer._defaultComparer. simpl.
  f_equal.
  - destruct (lo <? x) eqn:E1; simpl.
    + apply Z.ltb_lt in E1. f_equal. lia.
    + destruct (x <? lo) eqn:E2; simpl.
      * apply Z.ltb_lt in E2. f_equal. lia.
      * apply Z.ltb_ge in E1, E2. f_equal. lia.
  - destruct (hi <? x) eqn:E1; simpl.
    + apply Z.ltb_lt in E1. f_equal. lia.
    + destruct (x <? hi) eqn:E2; simpl.
      * apply Z.ltb_lt in E2. f_equal. lia.
      * apply Z.ltb_ge in E1, E2. f_equal. lia.
Qed.

Lemma stats_of_numbers N l c lo hi :
  exists lo' hi',
    fold_left (Linqer.stats_step (Linqer._defaultComparer N)) (VNum <$> l)
      (Linqer.mkStats c (VNum lo) (VNum hi)) =
    Linqer.mkStats (c + Z.of_nat (length l)) (VNum lo') (VNum hi') /\
    (lo' = lo \/ lo' ∈ l) /\ (hi' = hi \/ hi' ∈ l) /\
    lo' <= lo /\ hi <= hi' /\
    (forall z, z ∈ l -> lo' <= z <= hi').
Proof.
  revert c lo hi. induction l as [|x l IH]; intros c lo hi.
  - exists lo, hi. simpl. rewrite Z.add_0_r.
    split_and!; [done|by left|by left|lia|lia|].
    intros z Hz. by apply elem_of_nil in Hz.
  - rewrite fmap_cons. cbn [fold_left]. rewrite stats_step_numbers.
    destruct (IH (c + 1) (Z.min x lo) (Z.max x hi))
      as (lo' & hi' & Heq & Hlo & Hhi & Hle1 & Hle2 & Hall).
    exists lo', hi'. rewrite Heq. split_and!.
    + f_equal. simpl length. lia.
    + destruct Hlo as [->|Hin]; [|right; by apply elem_of_cons; right].
      destruct (Z.min_spec x lo) as [[_ ->]|[_ ->]];
        [right; apply elem_of_cons; by left|by left].
    + destruct Hhi as [->|Hin]; [|right; by apply elem_of_cons; right].
      destruct (Z.max_spec x hi) as [[_ ->]|[_ ->]];
        [by left|right; apply elem_of_cons; by left].
    + lia.
    + lia.
    + intros z Hz. apply elem_of_cons in Hz as [->|Hz]; [lia|by apply Hall].
Qed.

(** Over a Handle that yields integers whose absolute values add up to
    at most 2^53: [sumAndCount] is their sum and their number, [sum] their
    sum, and [min] and [max] without a comparer are the least and the
    greatest of them. *)
Theorem aggregates_of_numbers N st H (zs : list Z) :
  (exists st', evals (fun f => iterate f H) st (VNum <$> zs) st') ->
  sum_abs zs <= max_safe ->
  (exists st', evals (fun f => Linqer.sumAndCount f H) st
     (Linqer.mkSumAndCount (VNum (fold_right Z.add 0 zs))
        (Z.of_nat (length zs))) st') /\
  (zs <> [] ->
   (exists st', evals (fun f => Linqer.sum f H) st
                  (VNum (fold_right Z.add 0 zs)) st') /\
   exists lo hi,
     lo ∈ zs /\ hi ∈ zs /\ (forall z, z ∈ zs -> lo <= z <= hi) /\
     (exists st', evals (fun f => Linqer.min N f H (ArgValue VUndefined)) st (VNum lo) st') /\
     (exists st', evals (fun f => Linqer.max N f H (ArgValue VUndefined)) st (VNum hi) st') /\
     (exists st', evals (fun f => Linqer.stats N f H (ArgValue VUndefined)) st
        (Linqer.mkStats (Z.of_nat (length zs)) (VNum lo) (VNum hi)) st')).
Proof.
  intros [st' Hit] _.
  pose proof (evals_bind_ret _
    (fun l => fold_left Linqer.sumAndCount_step l (Linqer.mkSumAndCount (VNum 0) 0))
    _ _ _ Hit) as Hsc.
  pose proof (evals_bind_ret _
    (fun s => if Linqer.sc_count s =? 0 then VUndefined else Linqer.sc_sum s)
    _ _ _ Hsc) as Hsum.
  destruct (stats_returns N H (ArgValue VUndefined) st _ st' Hit)
    as (Hstats & Hmin & Hmax); [by intros v [= <-]|].
  cbv beta in Hsc, Hsum. cbn [comparer_of] in Hstats, Hmin, Hmax.
  rewrite sumAndCount_fold in Hsc, Hsum. rewrite length_fmap in Hsc, Hsum.
  assert (Hcs : coerced_sum (VNum <$> zs) = VNum (fold_right Z.add 0 zs)).
  { destruct zs as [|x l]; [done|]. simpl. apply sum_of_numbers. }
  rewrite Hcs in Hsc, Hsum. split; [by exists st'|].
  intros Hne. destruct zs as [|x l]; [done|]. clear Hne Hcs.
  split.
  { exists st'. simpl Linqer.sc_count in Hsum. simpl Linqer.sc_sum in Hsum.
    destruct (Z.of_nat (length (x :: l)) =? 0) eqn:E;
      [apply Z.eqb_eq in E; simpl in E; lia|exact Hsum]. }
  rewrite fmap_cons in Hstats, Hmin, Hmax. cbn [fold_left] in Hstats, Hmin, Hmax.
  change (Linqer.stats_step (Linqer._defaultComparer N)
            (Linqer.mkStats 0 VUndefined VUndefined) (VNum x))
    with (Linqer.mkStats (0 + 1) (VNum x) (VNum x)) in Hstats, Hmin, Hmax.
  destruct (stats_of_numbers N l (0 + 1) x x)
    as (lo & hi & Heq & Hlo & Hhi & Hle1 & Hle2 & Hall).
  rewrite Heq in Hstats, Hmin, Hmax.
  simpl Linqer.st_count in Hmin, Hmax. simpl Linqer.st_min in Hmin.
  simpl Linqer.st_max in Hmax.
  assert (E : (0 + 1 + Z.of_nat (length l) =? 0) = false)
    by (apply Z.eqb_neq; lia).
  rewrite E in Hmin, Hmax.
  exists lo, hi. split_and!.
  - destruct Hlo as [->|Hin]; apply elem_of_cons; [by left|by right].
  - destruct Hhi as [->|Hin]; apply elem_of_cons; [by left|by right].
  - intros z Hz. apply elem_of_cons in Hz as [->|Hz]; [lia|by apply Hall].
  - by exists st'.
  - by exists st'.
  - exists st'. replace (Z.of_nat (length (x :: l)))
      with (0 + 1 + Z.of_nat (length l)) by (simpl length; lia). exact Hstats.
Qed.

(** ** Strings *)

Lemma den_string D s :
  let d := new_den D (fresh (SrcPrim (VStr s)) (IteratorOf (SrcPrim (VStr s))) true) in
  d_items d = chars s /\ d_cnt d = Z.of_nat (String.length s) /\
  d_seek d = true /\
  (forall i, d_get d i = if i <? Z.of_nat (String.length s)
                         then Some (VStr (charAt s i)) else None).
Proof.
  unfold new_den. simpl. rewrite dlook_app_r. simpl. done.
Qed.

(** A string as a source.  The empty string is rejected, by the
    constructor, by [from] and by [concat], although it is iterable; over
    any other string the Handle is seekable by code units: its count and
    its length are the length of the string, [elementAt(i)] is
    [charAt(i)] at every [i] below the length, the negative ones included,
    and throws from the length on, and [toArray()] is the array of the
    [charAt(k)]. *)
Theorem string_source N p fuel st s :
  run N fuel p init = Some st ->
  let len := Z.of_nat (String.length s) in
  (s = EmptyString ->
   Linqer.new (SrcPrim (VStr s)) st = Throw InvalidSourceError st /\
   Linqer.from (SrcPrim (VStr s)) st = Throw InvalidSourceError st /\
   forall f this, Linqer.concat f this (SrcPrim (VStr s)) st =
               Throw InvalidSourceError st) /\
  (s <> EmptyString ->
   exists r st1,
     evals (fun _ => Linqer.from (SrcPrim (VStr s))) st r st1 /\
     (exists st2, evals (fun f => count f r) st1 len st2) /\
     (exists st2, evals (fun f => Linqer.length f r) st1 len st2) /\
     (forall i, i < len ->
        exists st2, evals (fun f => Linqer.elementAt f r i) st1
                      (VStr (charAt s i)) st2) /\
     (forall i, len <= i ->
        (exists st2, throws (fun f => Linqer.elementAt f r i) st1
                       IndexOutOfRangeError st2) /\
        (exists st2, evals (fun f => Linqer.elementAtOrDefault f r i) st1
                       VUndefined st2)) /\
     (len < max_array ->
      exists st2, evals (fun f => Linqer.toArray f r) st1
                    ((fun k => VStr (charAt s k)) <$> seqZ 0 len) st2)).
Proof.
  intros Hrun len. split.
  - intros ->. split_and!; try reflexivity.
  - intros Hne.
    destruct (run_Full N fuel p st Hrun) as [D HF].
    destruct (new_creates D st (SrcPrim (VStr s)) (IteratorOf (SrcPrim (VStr s)))
                HF) as (st1 & q & Hcr & ->); [by destruct s|done|].
    pose proof (creates_behaves _ _ _ _ _ Hcr) as B.
    destruct (den_string D s) as (S1 & S2 & S3 & S4).
    exists (length D), st1. split_and!.
    + apply Hcr.
    + pose proof (b_count _ _ _ B) as H1. by rewrite S2 in H1.
    + pose proof (b_length _ _ _ B) as H1. by rewrite S3, S2 in H1.
    + intros i Hi. pose proof (b_elementAt _ _ _ B i) as H1. rewrite S4 in H1.
      destruct (i <? _) eqn:E in H1; [done|]. apply Z.ltb_ge in E. unfold len in Hi. lia.
    + intros i Hi. split.
      * pose proof (b_elementAt _ _ _ B i) as H1. rewrite S4 in H1.
        destruct (i <? _) eqn:E in H1; [|done]. apply Z.ltb_lt in E.
        unfold len in Hi. lia.
      * pose proof (b_elementAtOrDefault _ _ _ B i) as H1. rewrite S4 in H1.
        destruct (i <? _) eqn:E in H1; [|done]. apply Z.ltb_lt in E.
        unfold len in Hi. lia.
    + intros _. pose proof (b_toArray _ _ _ B) as H1. rewrite S3, S2 in H1.
      cbn [andb] in H1.
      destruct (Z.of_nat (String.length s) <? 0) eqn:E;
        [apply Z.ltb_lt in E; lia|].
      rewrite (toArray_den_tabulate _ (fun k => VStr (charAt s k))) in H1;
        [by rewrite S2 in H1|done|].
      intros i Hi. rewrite S4. rewrite S2 in Hi.
      destruct (i <? _) eqn:E'; [done|]. apply Z.ltb_ge in E'. lia.
Qed.

(** ** Deferred execution *)

Lemma nothing_iterated_refl st : nothing_iterated st st.
Proof.
  split.
  - exists []. by rewrite app_nil_r.
  - intros k o Ho. by exists o.
Qed.

Lemma nothing_iterated_trans st1 st2 st3 :
  nothing_iterated st1 st2 -> nothing_iterated st2 st3 ->
  nothing_iterated st1 st3.
Proof.
  intros [(e1 & L1 & F1) H1] [(e2 & L2 & F2) H2]. split.
  - exists (e1 ++ e2). split.
    + by rewrite L2, L1, app_assoc.
    + rewrite forallb_app. by rewrite F1, F2.
  - intros k o Ho. destruct (H1 k o Ho) as (o1 & Ho1 & E1).
    destruct (H2 k o1 Ho1) as (o2 & Ho2 & E2). exists o2. split; congruence.
Qed.

Lemma deferred_ret {A} (a : A) : deferred (ret a).
Proof. intros st. apply nothing_iterated_refl. Qed.

Lemma deferred_throw {A} e : deferred (@throw A e).
Proof. intros st. apply nothing_iterated_refl. Qed.

Lemma deferred_bind {A B} (m : M A) (k : A -> M B) :
  deferred m -> (forall a, deferred (k a)) -> deferred (bind m k).
Proof.
  intros Hm Hk st. unfold bind. specialize (Hm st).
  destruct (m st) as [a st1|e st1|]; [|done|done].
  specialize (Hk a st1).
  destruct (k a st1) as [b st2|e st2|]; [| |done];
    by eapply nothing_iterated_trans.
Qed.

Lemma deferred_get_enum e : deferred (get_enum e).
Proof.
  intros st. unfold get_enum.
  destruct (heap st !! e); apply nothing_iterated_refl.
Qed.

Lemma deferred_update e f :
  (forall o, _wasIterated (f o) = _wasIterated o) -> deferred (update e f).
Proof.
  intros Hf st. unfold update.
  destruct (heap st !! e) as [o|] eqn:Ho; [|apply nothing_iterated_refl].
  split; simpl.
  - exists []. by rewrite app_nil_r.
  - intros k o' Ho'. destruct (decide (k = e)) as [->|Hne].
    + exists (f o). rewrite list_lookup_insert_eq
        by (by eapply lookup_lt_Some). split; [done|]. rewrite Hf. congruence.
    + exists o'. by rewrite list_lookup_insert_ne.
Qed.

Lemma deferred_inspect e : deferred (emit (EvInspect e)).
Proof.
  intros st. split; simpl.
  - by exists [EvInspect e].
  - intros k o Ho. by exists o.
Qed.

Lemma deferred_alloc o : deferred (alloc o).
Proof.
  intros st. split; simpl.
  - exists []. by rewrite app_nil_r.
  - intros k o' Ho'. exists o'. split; [|done]. by apply lookup_app_l_Some.
Qed.

Lemma deferred_ensureIterable src : deferred (_ensureIterable src).
Proof.
  unfold _ensureIterable. destruct (_ && _);
    [apply deferred_ret|apply deferred_throw].
Qed.

Lemma deferred_ensureInternalCount fuel :
  forall e, deferred (_ensureInternalCount fuel e).
Proof.
  induction fuel as [|fuel IH]; intros e; [done|]. simpl.
  apply deferred_bind; [apply deferred_get_enum|]. intros o.
  destruct (_count o); [apply deferred_ret|].
  apply deferred_bind; [apply deferred_inspect|]. intros _.
  destruct (_src o) as [[]| | | | |inner]; simpl;
    try (by apply deferred_update).
  apply deferred_bind; [apply IH|intros _; by apply deferred_update].
Qed.

Lemma deferred_ensureInternalTryGetAt fuel :
  forall e, deferred (_ensureInternalTryGetAt fuel e).
Proof.
  induction fuel as [|fuel IH]; intros e; [done|]. simpl.
  apply deferred_bind; [apply deferred_get_enum|]. intros o.
  destruct (_tryGetAt o); [apply deferred_ret|].
  apply deferred_bind; [apply deferred_inspect|]. intros _.
  apply deferred_bind; [by apply deferred_update|]. intros _.
  destruct (_src o) as [[]| | | | |inner];
    try (by apply deferred_update);
    try (apply deferred_bind; [by apply deferred_update|intros _;
                               by apply deferred_update]).
  apply deferred_bind; [apply IH|]. intros _.
  apply deferred_bind; [by apply deferred_update|]. intros _.
  apply deferred_bind; [apply deferred_get_enum|]. intros i.
  by apply deferred_update.
Qed.

Lemma deferred_new src : deferred (Linqer.new src).
Proof.
  unfold Linqer.new.
  apply deferred_bind; [apply deferred_ensureIterable|]. intros _.
  destruct (generator_of src); [|apply deferred_throw].
  apply deferred_bind; [|intros q; apply deferred_alloc].
  destruct src; try apply deferred_ret.
  apply deferred_bind; [apply deferred_get_enum|intros o; apply deferred_ret].
Qed.

Lemma deferred_from src : deferred (Linqer.from src).
Proof.
  destruct src; try apply deferred_new. apply deferred_ret.
Qed.

Ltac deferred_steps :=
  repeat first
    [ apply deferred_ret
    | apply deferred_new
    | apply deferred_from
    | apply deferred_get_enum
    | apply deferred_ensureIterable
    | apply deferred_ensureInternalCount
    | apply deferred_ensureInternalTryGetAt
    | apply deferred_update; intros ?; reflexivity
    | apply deferred_bind; [|intros ?]
    | match goal with |- deferred (if ?b then _ else _) => destruct b end ].

Lemma deferred_take fuel this nr : deferred (Linqer.take fuel this nr).
Proof. unfold Linqer.take. deferred_steps. Qed.

Lemma deferred_skip fuel this nr : deferred (Linqer.skip fuel this nr).
Proof. unfold Linqer.skip. deferred_steps. Qed.

Lemma deferred_concat fuel this iterable :
  deferred (Linqer.concat fuel this iterable).
Proof. unfold Linqer.concat. deferred_steps. Qed.

Lemma deferred_select fuel this selector :
  deferred (Linqer.select fuel this selector).
Proof. unfold Linqer.select. deferred_steps. Qed.

(** Building a query iterates nothing: the factories and the methods that
    derive a Handle from another inspect sources at most, whatever the
    state and whether they return or throw. *)
Theorem building_is_deferred fuel this :
  (forall src, deferred (Linqer.new src)) /\
  (forall src, deferred (Linqer.from src)) /\
  deferred Linqer.empty /\
  (forall start n, deferred (Linqer.range start n)) /\
  (forall item n, deferred (Linqer.repeat item n)) /\
  (forall iterable, deferred (Linqer.concat fuel this iterable)) /\
  (forall selector, deferred (Linqer.select fuel this selector)) /\
  (forall nr, deferred (Linqer.skip fuel this nr)) /\
  (forall nr, deferred (Linqer.take fuel this nr)) /\
  (forall start howmany newItems,
     deferred (Linqer.splice fuel this start howmany newItems)) /\
  (forall condition, deferred (Linqer.where_ fuel this condition)).
Proof.
  split_and!; intros.
  - apply deferred_new.
  - apply deferred_from.
  - unfold Linqer.empty. deferred_steps.
  - unfold Linqer.range. deferred_steps.
  - unfold Linqer.repeat. deferred_steps.
  - apply deferred_concat.
  - apply deferred_select.
  - apply deferred_skip.
  - apply deferred_take.
  - unfold Linqer.splice.
    apply deferred_bind; [apply deferred_take|]. intros t.
    apply deferred_bind; [apply deferred_concat|]. intros c.
    apply deferred_bind; [apply deferred_skip|]. intros s.
    apply deferred_concat.
  - unfold Linqer.where_. apply deferred_new.
Qed.

(** ** Arrays, generator functions, Sets and wrappers as sources *)

Lemma den_array D a :
  let d := new_den D (fresh (SrcArray a) (IteratorOf (SrcArray a)) true) in
  d_items d = a /\ d_cnt d = Z.of_nat (length a) /\ d_seek d = true /\
  (forall i, d_get d i = if (0 <=? i) && (i <? Z.of_nat (length a))
                         then Some (array_get a i) else None).
Proof.
  unfold new_den. simpl. rewrite dlook_app_r. simpl. done.
Qed.

(** An array as a source, the empty one included: a seekable Handle over
    the elements of the array; here a negative index is out of range. *)
Theorem array_source N p fuel st a :
  run N fuel p init = Some st ->
  exists r st1,
    evals (fun _ => Linqer.from (SrcArray a)) st r st1 /\
    (exists st2, evals (fun f => iterate f r) st1 a st2) /\
    (exists st2, evals (fun f => Linqer.toArray f r) st1 a st2) /\
    (exists st2, evals (fun f => count f r) st1 (Z.of_nat (length a)) st2) /\
    (exists st2, evals (fun f => Linqer.length f r) st1
                   (Z.of_nat (length a)) st2) /\
    (forall k v, a !! k = Some v ->
       exists st2, evals (fun f => Linqer.elementAt f r (Z.of_nat k)) st1 v st2) /\
    (forall i, i < 0 \/ Z.of_nat (length a) <= i ->
       (exists st2, throws (fun f => Linqer.elementAt f r i) st1
                      IndexOutOfRangeError st2) /\
       (exists st2, evals (fun f => Linqer.elementAtOrDefault f r i) st1
                      VUndefined st2)).
Proof.
  intros Hrun.
  destruct (run_Full N fuel p st Hrun) as [D HF].
  destruct (new_creates D st (SrcArray a) (IteratorOf (SrcArray a)) HF)
    as (st1 & q & Hcr & ->); [done|done|].
  pose proof (creates_behaves _ _ _ _ _ Hcr) as B.
  destruct (den_array D a) as (S1 & S2 & S3 & S4).
  pose proof (coh_array_den D a true) as Hc.
  exists (length D), st1. split_and!.
  - apply Hcr.
  - pose proof (b_iterate _ _ _ B) as H1. by rewrite S1 in H1.
  - pose proof (b_toArray _ _ _ B) as H1.
    by rewrite (coh_not_negative _ _ Hc), (toArray_den_strict _ Hc), S1 in H1.
  - pose proof (b_count _ _ _ B) as H1. by rewrite S2 in H1.
  - pose proof (b_length _ _ _ B) as H1. by rewrite S3, S2 in H1.
  - intros k v Hv. pose proof (b_elementAt _ _ _ B (Z.of_nat k)) as H1.
    rewrite S4, between_true in H1.
    + unfold array_get in H1.
      destruct (Z.of_nat k <? 0) eqn:E; [apply Z.ltb_lt in E; lia|].
      by rewrite Nat2Z.id, Hv in H1.
    + apply lookup_lt_Some in Hv. lia.
  - intros i Hi. split.
    + pose proof (b_elementAt _ _ _ B i) as H1.
      by rewrite S4, between_false in H1.
    + pose proof (b_elementAtOrDefault _ _ _ B i) as H1.
      by rewrite S4, between_false in H1.
Qed.

(** A generator function and a [Set] as sources: the Handle is not
    seekable, [length] throws, and the positional lookup finds the items in
    the order of the iteration. *)
Theorem unseekable_sources N p fuel st items src :
  run N fuel p init = Some st ->
  src = SrcGenFn (GenUser items) \/ src = SrcSet items ->
  exists r st1,
    evals (fun _ => Linqer.from src) st r st1 /\
    (exists st2, throws (fun f => Linqer.length f r) st1
                   UnsupportedEagerAccessError st2) /\
    (exists st2, evals (fun f => count f r) st1 (Z.of_nat (length items)) st2) /\
    (exists st2, evals (fun f => iterate f r) st1 items st2) /\
    (exists st2, evals (fun f => Linqer.toArray f r) st1 items st2) /\
    (forall k v, items !! k = Some v ->
       exists st2, evals (fun f => Linqer.elementAt f r (Z.of_nat k)) st1 v st2) /\
    (forall i, i < 0 \/ Z.of_nat (length items) <= i ->
       exists st2, throws (fun f => Linqer.elementAt f r i) st1
                     IndexOutOfRangeError st2) /\
    (items = [] ->
       exists st2, throws (fun f => Linqer.last f r) st1
                     EmptySequenceError st2).
Proof.
  intros Hrun Hsrc.
  destruct (run_Full N fuel p st Hrun) as [D HF].
  assert (exists g, generator_of src = Some g /\ src_wf (length D) src = true /\
            Linqer.from src = Linqer.new src /\
            let d := new_den D (fresh src g true) in
            d_items d = items /\ d_cnt d = Z.of_nat (length items) /\
            d_seek d = false /\
            (forall i, d_get d i = if i <? 0 then None else items !! Z.to_nat i))
    as (g & Hg & Hwf & Hfrom & Hden).
  { destruct Hsrc as [-> | ->]; eexists; (split_and!; [reflexivity..|]);
      unfold new_den; simpl; rewrite dlook_app_r; simpl; done. }
  cbv zeta in Hden. destruct Hden as (S1 & S2 & S3 & S4).
  destruct (new_creates D st src g HF Hwf Hg) as (st1 & q & Hcr & Hq).
  assert (q = true) as -> by (by destruct Hsrc as [-> | ->]).
  pose proof (creates_behaves _ _ _ _ _ Hcr) as B.
  exists (length D), st1. split_and!.
  - rewrite Hfrom. apply Hcr.
  - pose proof (b_length _ _ _ B) as H1. by rewrite S3 in H1.
  - pose proof (b_count _ _ _ B) as H1. by rewrite S2 in H1.
  - pose proof (b_iterate _ _ _ B) as H1. by rewrite S1 in H1.
  - pose proof (b_toArray _ _ _ B) as H1. rewrite S3 in H1. cbn [andb] in H1.
    unfold toArray_den in H1. by rewrite S3, S1 in H1.
  - intros k v Hv. pose proof (b_elementAt _ _ _ B (Z.of_nat k)) as H1.
    rewrite S4 in H1.
    destruct (Z.of_nat k <? 0) eqn:E; [apply Z.ltb_lt in E; lia|].
    by rewrite Nat2Z.id, Hv in H1.
  - intros i Hi. pose proof (b_elementAt _ _ _ B i) as H1. rewrite S4 in H1.
    destruct (i <? 0) eqn:E; [done|]. apply Z.ltb_ge in E.
    by rewrite lookup_ge_None_2 in H1 by lia.
  - intros ->. pose proof (b_last _ _ _ B) as H1. by rewrite S3, S1 in H1.
Qed.

Lemma den_wrapper D H q :
  (H < length D)%nat ->
  let d := new_den D (fresh (SrcEnum H) (IteratorOf (SrcEnum H)) q) in
  d_items d = d_items (dlook D H) /\ d_cnt d = d_cnt (dlook D H) /\
  d_seek d = d_seek (dlook D H) /\
  (forall i, d_get d i = d_get (dlook D H) i).
Proof.
  intros HH. unfold new_den. simpl. rewrite !dlook_app_l by lia. done.
Qed.

(** [new Enumerable(H)] for a Handle [H]: a new Handle on which every
    reading method gives what it gives on [H]. *)
Theorem wrapper_is_transparent N p fuel st H :
  run N fuel p init = Some st -> (H < length (heap st))%nat ->
  exists w st1,
    evals (fun _ => Linqer.new (SrcEnum H)) st w st1 /\ w = length (heap st) /\
    (exists items,
       (exists st2, evals (fun f => iterate f H) st1 items st2) /\
       (exists st2, evals (fun f => iterate f w) st1 items st2)) /\
    (exists c,
       (exists st2, evals (fun f => count f H) st1 c st2) /\
       (exists st2, evals (fun f => count f w) st1 c st2) /\
       (((exists st2, evals (fun f => Linqer.length f H) st1 c st2) /\
         (exists st2, evals (fun f => Linqer.length f w) st1 c st2)) \/
        ((exists st2, throws (fun f => Linqer.length f H) st1
                        UnsupportedEagerAccessError st2) /\
         (exists st2, throws (fun f => Linqer.length f w) st1
                        UnsupportedEagerAccessError st2)))) /\
    (forall i,
       (exists v,
          (exists st2, evals (fun f => Linqer.elementAt f H i) st1 v st2) /\
          (exists st2, evals (fun f => Linqer.elementAt f w i) st1 v st2)) \/
       ((exists st2, throws (fun f => Linqer.elementAt f H i) st1
                       IndexOutOfRangeError st2) /\
        (exists st2, throws (fun f => Linqer.elementAt f w i) st1
                       IndexOutOfRangeError st2))) /\
    ((exists arr,
        (exists st2, evals (fun f => Linqer.toArray f H) st1 arr st2) /\
        (exists st2, evals (fun f => Linqer.toArray f w) st1 arr st2)) \/
     ((exists st2, throws (fun f => Linqer.toArray f H) st1 RangeError st2) /\
      (exists st2, throws (fun f => Linqer.toArray f w) st1 RangeError st2))).
Proof.
  intros Hrun HH.
  destruct (run_Full N fuel p st Hrun) as [D HF].
  pose proof (proj2 HF) as HL. rewrite HL in HH.
  destruct (new_creates D st (SrcEnum H) (IteratorOf (SrcEnum H)) HF)
    as (st1 & q & Hcr & _); [by apply Nat.ltb_lt|done|].
  pose proof (creates_behaves _ _ _ _ _ Hcr) as Bw.
  assert (BH : behaves st1 H (dlook D H)).
  { destruct Hcr as (_ & HF1 & _).
    rewrite <- (dlook_app_l D (new_den D (fresh (SrcEnum H) (IteratorOf (SrcEnum H)) q)) H)
      by done.
    apply Full_behaves; [done|]. rewrite length_app. simpl. lia. }
  destruct (den_wrapper D H q HH) as (S1 & S2 & S3 & S4).
  set (d := dlook D H) in *.
  set (dw := new_den D (fresh (SrcEnum H) (IteratorOf (SrcEnum H)) q)) in *.
  exists (length D), st1. split_and!.
  - apply Hcr.
  - done.
  - exists (d_items d). split; [exact (b_iterate _ _ _ BH)|].
    pose proof (b_iterate _ _ _ Bw) as H1. by rewrite S1 in H1.
  - exists (d_cnt d). split_and!.
    + exact (b_count _ _ _ BH).
    + pose proof (b_count _ _ _ Bw) as H1. by rewrite S2 in H1.
    + pose proof (b_length _ _ _ BH) as H1. pose proof (b_length _ _ _ Bw) as H2.
      rewrite S3, S2 in H2. destruct (d_seek d); [by left|by right].
  - intros i. pose proof (b_elementAt _ _ _ BH i) as H1.
    pose proof (b_elementAt _ _ _ Bw i) as H2. rewrite S4 in H2.
    destruct (d_get d i) as [v|]; [left; by exists v|by right].
  - pose proof (b_toArray _ _ _ BH) as H1. pose proof (b_toArray _ _ _ Bw) as H2.
    rewrite S3, S2 in H2.
    assert (Ha : toArray_den dw = toArray_den d).
    { unfold toArray_den. rewrite S3, S2, S1.
      destruct (d_seek d); [|done]. apply tabulate_ext. intros i _.
      by rewrite S4. }
    rewrite Ha in H2.
    destruct (d_seek d && (d_cnt d <? 0)); [by right|left; by eexists].
Qed.

(** ** [distinct] *)

Lemma same_value_zero_eq a b : same_value_zero a b = true <-> a = b.
Proof.
  destruct a, b; simpl; split; try done; try (by intros [= ->]).
  - intros H. apply Bool.eqb_prop in H. by subst.
  - intros [= ->]. apply Bool.eqb_reflx.
  - intros H. apply Z.eqb_eq in H. by subst.
  - intros [= ->]. apply Z.eqb_refl.
  - intros H. apply String.eqb_eq in H. by subst.
  - intros [= ->]. apply String.eqb_refl.
Qed.

Lemma existsb_same_value_zero x l :
  existsb (same_value_zero x) l = true <-> x ∈ l.
Proof.
  rewrite existsb_exists. split.
  - intros (y & Hy & He). apply same_value_zero_eq in He as ->.
    by apply list_elem_of_In.
  - intros Hx. exists x. split; [by apply list_elem_of_In|].
    by apply same_value_zero_eq.
Qed.

Lemma distinct_by_set_step seen x rest :
  distinct_by_set seen (x :: rest) =
    if existsb (same_value_zero x) seen then distinct_by_set seen rest
    else x :: distinct_by_set (seen ++ [x]) rest.
Proof.
  simpl. unfold set_add. destruct (existsb (same_value_zero x) seen).
  - by rewrite Nat.ltb_irrefl.
  - rewrite length_app. simpl.
    destruct (length seen <? length seen + 1)%nat eqn:E; [done|].
    apply Nat.ltb_ge in E. lia.
Qed.

Lemma distinct_by_set_spec seen items :
  let r := distinct_by_set seen items in
  sublist r items /\ NoDup r /\
  (forall x, x ∈ r <-> x ∈ items /\ x ∉ seen).
Proof.
  revert seen. induction items as [|x rest IH]; intros seen.
  - simpl. split_and!; [constructor|constructor|].
    intros x. split; [by intros ?%elem_of_nil|by intros [?%elem_of_nil _]].
  - cbv zeta. rewrite distinct_by_set_step.
    destruct (existsb (same_value_zero x) seen) eqn:E.
    + apply existsb_same_value_zero in E.
      destruct (IH seen) as (H1 & H2 & H3). split_and!.
      * by apply sublist_cons.
      * done.
      * intros y. rewrite H3, elem_of_cons. split.
        -- intros [Hy Hn]. split; [by right|done].
        -- intros [[->|Hy] Hn]; [done|done].
    + assert (Hx : x ∉ seen).
      { intros Hx. apply existsb_same_value_zero in Hx. congruence. }
      destruct (IH (seen ++ [x])) as (H1 & H2 & H3). split_and!.
      * by apply sublist_skip.
      * constructor; [|done]. rewrite H3. intros [_ Hn]. apply Hn.
        apply elem_of_app. right. by apply list_elem_of_singleton.
      * intros y. rewrite !elem_of_cons, H3, elem_of_app, list_elem_of_singleton.
        split.
        -- intros [->|[Hy Hn]]; [split; [by left|done]|].
           split; [by right|]. intros Hs. apply Hn. by left.
        -- intros [[->|Hy] Hn]; [by left|].
           destruct (same_value_zero y x) eqn:Ey.
           ++ apply same_value_zero_eq in Ey. by left.
           ++ right. split; [done|]. intros [Hs| ->]; [done|].
              assert (same_value_zero x x = true) by (by apply same_value_zero_eq).
              congruence.
Qed.

Lemma distinct_by_set_ext s1 s2 items :
  (forall y, y ∈ s1 <-> y ∈ s2) ->
  distinct_by_set s1 items = distinct_by_set s2 items.
Proof.
  revert s1 s2. induction items as [|x rest IH]; intros s1 s2 Hs; [done|].
  rewrite !distinct_by_set_step.
  assert (E : existsb (same_value_zero x) s1 = existsb (same_value_zero x) s2).
  { apply eq_true_iff_eq. rewrite !existsb_same_value_zero. apply Hs. }
  rewrite E. destruct (existsb (same_value_zero x) s2); [by apply IH|].
  f_equal. apply IH. intros y. rewrite !elem_of_app, Hs. done.
Qed.

Lemma distinct_by_comparer_sublist eq values items :
  sublist (distinct_by_comparer eq values items) items.
Proof.
  revert values. induction items as [|x rest IH]; intros values; simpl.
  - constructor.
  - destruct (negb _); simpl; [by apply sublist_skip|by apply sublist_cons].
Qed.

Lemma distinct_by_comparer_later eq values items l1 y l2 :
  distinct_by_comparer eq values items = l1 ++ y :: l2 ->
  (forall v, v ∈ values -> eq y v = false) /\
  (forall x, x ∈ l1 -> eq y x = false).
Proof.
  revert values l1. induction items as [|x rest IH]; intros values l1 Heq.
  - simpl in Heq. by destruct l1.
  - simpl in Heq.
    destruct (existsb (fun v => eq x v) values) eqn:E; simpl in Heq.
    + destruct (IH _ _ Heq) as [H1 H2]. split; [|done].
      intros v Hv. apply H1. apply elem_of_app. by left.
    + destruct l1 as [|z l1]; simpl in Heq.
      * injection Heq as -> _. split; [|by intros ? ?%elem_of_nil].
        intros v Hv. destruct (eq y v) eqn:Ev; [|done].
        assert (existsb (fun v => eq y v) values = true); [|congruence].
        apply existsb_exists. exists v. split; [by apply list_elem_of_In|done].
      * injection Heq as -> Heq. destruct (IH _ _ Heq) as [H1 H2]. split.
        -- intros v Hv. apply H1. apply elem_of_app. by left.
        -- intros w Hw. apply elem_of_cons in Hw as [->|Hw]; [|by apply H2].
           apply H1. apply elem_of_app. right. by apply list_elem_of_singleton.
Qed.

Lemma distinct_exact_is_set values items :
  VNaN ∉ items ->
  distinct_by_comparer strict_equal values items = distinct_by_set values items.
Proof.
  revert values. induction items as [|x rest IH]; intros values Hn; [done|].
  rewrite distinct_by_set_step. simpl.
  assert (Hx : x <> VNaN) by (intros ->; apply Hn; by left).
  assert (Hr : VNaN ∉ rest) by (intros H; apply Hn; by right).
  assert (E : existsb (fun v => strict_equal x v) values =
              existsb (same_value_zero x) values).
  { clear -Hx. induction values as [|v l IH]; [done|]. cbn [existsb].
    rewrite IH. f_equal. by destruct x, v. }
  rewrite E. destruct (existsb (same_value_zero x) values) eqn:Ex; simpl.
  - rewrite IH by done. apply distinct_by_set_ext. intros y.
    rewrite elem_of_app, list_elem_of_singleton. split; [|by left].
    intros [Hy| ->]; [done|]. by apply existsb_same_value_zero.
  - by rewrite IH.
Qed.

(** [===] keeps every NaN: it never finds NaN equal to anything. *)
Lemma distinct_exact_keeps_NaN values items :
  forall k, items !! k = Some VNaN ->
  exists j, distinct_by_comparer strict_equal values items !! j = Some VNaN.
Proof.
  revert values. induction items as [|x rest IH]; intros values k Hk; [done|].
  simpl. destruct k as [|k]; simpl in Hk.
  - injection Hk as ->.
    assert (E : existsb (fun v => strict_equal VNaN v) values = false).
    { clear. induction values as [|v l IH]; [done|]. cbn [existsb].
      rewrite IH. by destruct v. }
    rewrite E. by exists 0%nat.
  - destruct (IH (values ++ [x]) k Hk) as [j Hj].
    destruct (negb _); simpl; [by exists (S j)|by exists j].
Qed.

(** [distinct]: the comparer left out (or [EqualityComparer.default]
    itself) selects the generator that uses a [Set]; it yields the first
    occurrence of every item and nothing twice.  With another comparer no
    yielded item is found equal to one yielded before it.  Either way the
    result is a part of the items of the receiver, in their order, and
    [EqualityComparer.exact] differs from the [Set] only by keeping every
    NaN. *)
Theorem distinct_yields N p fuel st H c :
  run N fuel p init = Some st -> (H < length (heap st))%nat ->
  exists items,
    (exists st', evals (fun f => iterate f H) st items st') /\
    (exists st', evals (fun f => run_distinct f H c) st
                   (distinct_items c items) st') /\
    sublist (distinct_items c items) items /\
    (c = EqualityComparer_default ->
       NoDup (distinct_items c items) /\
       forall x, x ∈ distinct_items c items <-> x ∈ items) /\
    (forall f l1 y l2,
       c = OtherComparer f \/ (c = EqualityComparer_exact /\ f = strict_equal) ->
       distinct_items c items = l1 ++ y :: l2 ->
       forall x, x ∈ l1 -> f y x = false) /\
    (c = EqualityComparer_exact ->
       (VNaN ∉ items ->
        distinct_items c items = distinct_items EqualityComparer_default items) /\
       (forall k, items !! k = Some VNaN ->
          exists j, distinct_items c items !! j = Some VNaN)).
Proof.
  intros Hrun HH.
  destruct (run_Full N fuel p st Hrun) as [D HF].
  rewrite (proj2 HF) in HH.
  destruct (iterate_returns D st H HF HH) as [st' Hit].
  set (items := d_items (dlook D H)) in *.
  exists items. split_and!.
  - by exists st'.
  - exists st'. unfold run_distinct.
    exact (evals_bind_ret _ (distinct_items c) _ _ _ Hit).
  - destruct c; simpl.
    + apply (distinct_by_set_spec [] items).
    + apply distinct_by_comparer_sublist.
    + apply distinct_by_comparer_sublist.
  - intros ->. simpl.
    destruct (distinct_by_set_spec [] items) as (_ & H2 & H3). split; [done|].
    intros x. rewrite H3. split; [by intros [? _]|].
    intros Hx. split; [done|]. by intros ?%elem_of_nil.
  - intros f l1 y l2 [-> | [-> ->]] Heq; simpl in Heq;
      by destruct (distinct_by_comparer_later _ _ _ _ _ _ Heq).
  - intros ->. simpl. split.
    + by apply distinct_exact_is_set.
    + apply distinct_exact_keeps_NaN.
Qed.

(** ** Seekable Handles are never iterated *)

Lemma seekable_stable st st' e :
  stable st st' -> seekable st e -> seekable st' e.
Proof.
  intros HS (o & g & Ho & Hg & Hs).
  destruct (HS e o Ho) as (o' & Ho' & _ & _ & _ & _ & Ht).
  destruct (Ht g Hg) as [Hg' Hs']. exists o', g. split_and!; congruence.
Qed.

Lemma quiet_count_grows st st' c :
  (forall a, seekable st a -> seekable st' a) ->
  quiet_count st c -> quiet_count st' c.
Proof. intros HS. destruct c; simpl; try done; intuition eauto. Qed.

Lemma quiet_get_grows st st' g :
  (forall a, seekable st a -> seekable st' a) ->
  quiet_get st g -> quiet_get st' g.
Proof. intros HS. destruct g; simpl; try done; intuition eauto. Qed.

Lemma quiet_count_stable st st' c :
  stable st st' -> quiet_count st c -> quiet_count st' c.
Proof. intros HS. apply quiet_count_grows. intros a. by apply seekable_stable. Qed.

Lemma quiet_get_stable st st' g :
  stable st st' -> quiet_get st g -> quiet_get st' g.
Proof. intros HS. apply quiet_get_grows. intros a. by apply seekable_stable. Qed.

(** The invariant after one object has changed, when a seekable object
    stays seekable. *)
Lemma seek_ok_insert st e o o' l :
  seek_ok st -> heap st !! e = Some o -> _src o' = _src o ->
  (forall g, _tryGetAt o = Some g -> _canSeek o = true ->
     exists g', _tryGetAt o' = Some g' /\ _canSeek o' = true) ->
  count_shape o' ->
  (forall g, _tryGetAt o' = Some g -> _canSeek o' = true ->
     quiet_get st g /\ quiet_count st (effective_count e o')) ->
  seek_ok (mkState (<[e := o']> (heap st)) l).
Proof.
  intros Hok Ho Hsrc Hmono Hshape Hq.
  assert (He : (e < length (heap st))%nat) by (by eapply lookup_lt_Some).
  assert (HS : forall a, seekable st a ->
                 seekable (mkState (<[e := o']> (heap st)) l) a).
  { intros a (oa & g & Ha & Hg & Hs). unfold seekable. simpl.
    destruct (decide (a = e)) as [->|Hne].
    - rewrite list_lookup_insert_eq by done.
      assert (oa = o) as -> by congruence.
      destruct (Hmono g Hg Hs) as (g' & Hg' & Hs'). by exists o', g'.
    - rewrite list_lookup_insert_ne by done. by exists oa, g. }
  intros k ok Hk. simpl in Hk.
  destruct (decide (k = e)) as [->|Hne].
  - rewrite list_lookup_insert_eq in Hk by done. injection Hk as <-.
    destruct (Hok e o Ho) as (H1 & _ & _). split; [|split].
    + intros inner Hi. apply H1. congruence.
    + done.
    + intros g Hg Hs. destruct (Hq g Hg Hs) as [Q1 Q2].
      split; [by eapply quiet_get_grows|by eapply quiet_count_grows].
  - rewrite list_lookup_insert_ne in Hk by done.
    destruct (Hok k ok Hk) as (H1 & H2 & H3). split; [|split]; [done|done|].
    intros g Hg Hs. destruct (H3 g Hg Hs) as [Q1 Q2].
    split; [by eapply quiet_get_grows|by eapply quiet_count_grows].
Qed.

Lemma seek_ok_update st e o o' l :
  seek_ok st -> heap st !! e = Some o -> caps_kept o o' ->
  count_shape o' ->
  (forall g, _tryGetAt o' = Some g -> _canSeek o' = true ->
     quiet_get st g /\ quiet_count st (effective_count e o')) ->
  seek_ok (mkState (<[e := o']> (heap st)) l).
Proof.
  intros Hok Ho (Hsrc & _ & _ & _ & Ht) Hshape Hq.
  eapply seek_ok_insert; try done.
  intros g Hg Hs. destruct (Ht g Hg) as [Hg' Hs']. exists g.
  split; congruence.
Qed.

(** The invariant after a change of a young object, which no older state
    has seen. *)
Lemma seek_ok_alloc st o l :
  seek_ok st ->
  (forall inner, _src o = SrcEnum inner -> (inner < length (heap st))%nat) ->
  _count o = None -> _tryGetAt o = None ->
  seek_ok (mkState (heap st ++ [o]) l).
Proof.
  intros Hok Hsrc Hc Hg.
  assert (HS : stable st (mkState (heap st ++ [o]) l)) by apply stable_alloc.
  intros k ok Hk. simpl in Hk.
  destruct (decide (k < length (heap st))%nat) as [Hlt|Hge].
  - rewrite lookup_app_l in Hk by done.
    destruct (Hok k ok Hk) as (H1 & H2 & H3). split_and!; [done|done|].
    intros g Hg' Hs. destruct (H3 g Hg' Hs) as [Q1 Q2].
    split; [by eapply quiet_get_stable|by eapply quiet_count_stable].
  - rewrite lookup_app_r in Hk by lia.
    destruct (k - length (heap st))%nat eqn:E; [|by destruct n].
    injection Hk as <-. split_and!.
    + intros inner Hi. specialize (Hsrc inner Hi). lia.
    + intros c Hc'. congruence.
    + intros g Hg'. congruence.
Qed.

Lemma seek_ok_log st l : seek_ok st -> seek_ok (mkState (heap st) l).
Proof.
  intros Hok k o Hk. destruct (Hok k o Hk) as (H1 & H2 & H3).
  split_and!; [done|done|]. intros g Hg Hs. destruct (H3 g Hg Hs) as [Q1 Q2].
  split.
  - eapply quiet_get_stable; [|exact Q1]. apply stable_log.
  - eapply quiet_count_stable; [|exact Q2]. apply stable_log.
Qed.

(** *** Rules *)

Lemma sk_ret {A} (a : A) : sk (ret a) (fun st x st' => x = a /\ st' = st).
Proof. intros st Hok. simpl. split_and!; try done. apply stable_refl. Qed.

Lemma sk_throw {A} e (Q : state -> A -> state -> Prop) : sk (throw e) Q.
Proof. intros st Hok. simpl. split; [done|apply stable_refl]. Qed.

Lemma sk_weaken {A} (m : M A) (Q Q' : state -> A -> state -> Prop) :
  sk m Q -> (forall st a st', Q st a st' -> Q' st a st') -> sk m Q'.
Proof.
  intros Hm HQ st Hok. specialize (Hm st Hok).
  destruct (m st) as [a st'|e st'|]; [|done|done].
  destruct Hm as (? & ? & ?). split_and!; try done. by apply HQ.
Qed.

Lemma sk_bind {A B} (m : M A) (k : A -> M B) Q1 Q2 :
  sk m Q1 -> (forall a, sk (k a) Q2) -> sk (bind m k) (fun _ _ _ => True).
Proof.
  intros Hm Hk st Hok. unfold bind. specialize (Hm st Hok).
  destruct (m st) as [a st1|e st1|]; [|done|done].
  destruct Hm as (Hok1 & HS1 & _). specialize (Hk a st1 Hok1).
  destruct (k a st1) as [b st2|e st2|]; [| |done].
  - destruct Hk as (? & ? & _). split_and!; try done. by eapply stable_trans.
  - destruct Hk as (? & ?). split; [done|]. by eapply stable_trans.
Qed.

Lemma sk_get_enum e :
  sk (get_enum e) (fun st o st' => st' = st /\ heap st !! e = Some o).
Proof.
  intros st Hok. unfold get_enum.
  destruct (heap st !! e) as [o|] eqn:Ho; (split_and!; try done);
    apply stable_refl.
Qed.

Lemma sk_emit ev : sk (emit ev) (fun st _ st' => heap st' = heap st).
Proof.
  intros st Hok. unfold emit. split; [|split]; [|apply stable_log|done].
  by apply (seek_ok_log st).
Qed.

(** An update that touches neither the source nor a capability. *)
Lemma sk_update_flag e :
  sk (update e set_wasIterated) (fun _ _ _ => True).
Proof.
  intros st Hok. unfold update.
  destruct (heap st !! e) as [o|] eqn:Ho;
    [|split; [done|apply stable_refl]].
  destruct (Hok e o Ho) as (H1 & H2 & H3).
  split; [|split]; [| |done].
  - apply (seek_ok_update st e o (set_wasIterated o) (log st) Hok Ho
             (caps_kept_wasIterated o)); [exact H2|].
    intros g Hg Hs. by apply H3.
  - eapply stable_update; [done|apply caps_kept_wasIterated].
Qed.

Lemma sk_ensureIterable src : sk (_ensureIterable src) (fun _ _ _ => True).
Proof.
  unfold _ensureIterable. destruct (_ && _).
  - eapply sk_weaken; [apply sk_ret|done].
  - apply sk_throw.
Qed.

Lemma sk_native_items src : sk (native_items src) (fun _ _ _ => True).
Proof.
  destruct src as [[]| | | | |]; simpl;
    first [eapply sk_weaken; [apply sk_ret|done]|apply sk_throw].
Qed.

Lemma sk_true {A} (m : M A) Q : sk m Q -> skT m.
Proof. intros H. by eapply sk_weaken. Qed.

(** *** The resolvers *)

Lemma update_runs st e o f :
  heap st !! e = Some o ->
  update e f st = Ok tt (mkState (<[e := f o]> (heap st)) (log st)).
Proof. intros Ho. unfold update. by rewrite Ho. Qed.

Lemma keeps_insert b e o st l :
  (e < b)%nat -> keeps b st (mkState (<[e := o]> (heap st)) l).
Proof.
  intros He j Hj. simpl. rewrite list_lookup_insert_ne; [done|lia].
Qed.

Lemma effective_count_set o k :
  _count o = None ->
  effective_count k (set_count (resolve_countfn k (_src o)) o) =
  effective_count k o.
Proof. intros Hc. unfold effective_count. simpl. by rewrite Hc. Qed.

(** [_ensureInternalCount] installs the closure [resolve_countfn] names. *)
Lemma sk_set_resolved_count st e o l :
  seek_ok st -> heap st !! e = Some o -> _count o = None ->
  let o' := set_count (resolve_countfn e (_src o)) o in
  let st' := mkState (<[e := o']> (heap st)) l in
  seek_ok st' /\ stable st st'.
Proof.
  intros Hok Ho Hc o' st'.
  assert (Hcaps : caps_kept o o') by (by apply caps_kept_set_count).
  destruct (Hok e o Ho) as (H1 & H2 & H3). split.
  - apply (seek_ok_update st e o o' l Hok Ho Hcaps).
    + intros c Hc'. injection Hc' as <-. simpl.
      destruct (_src o) as [[]| | | | |inner]; simpl; auto.
    + intros g Hg Hs. subst o'. rewrite effective_count_set by done.
      by apply H3.
  - by eapply stable_update.
Qed.

Lemma sk_ensureInternalCount fuel :
  forall e, sk (_ensureInternalCount fuel e)
              (fun st _ st' => keeps (S e) st st' /\ resolved_count st' e).
Proof.
  induction fuel as [|fuel IH]; intros e st Hok; [done|]. simpl.
  unfold bind at 1, get_enum at 1.
  destruct (heap st !! e) as [o|] eqn:Ho; [|split; [done|apply stable_refl]].
  destruct (_count o) as [c|] eqn:Hc.
  { simpl. split; [done|]. split; [apply stable_refl|].
    split; [apply keeps_refl|by exists o, c]. }
  unfold bind at 1, emit at 1.
  set (st1 := mkState (heap st) (log st ++ [EvInspect e])).
  assert (Hok1 : seek_ok st1) by (by apply (seek_ok_log st)).
  assert (HS1 : stable st st1) by apply stable_log.
  assert (Ho1 : heap st1 !! e = Some o) by done.
  destruct (Hok e o Ho) as (Hlt & _ & _).
  assert (Hfin : forall st2,
    seek_ok st2 -> stable st1 st2 -> keeps (S e) st1 st2 ->
    heap st2 !! e = Some o ->
    match update e (set_count (resolve_countfn e (_src o))) st2 with
    | Ok _ st' =>
        seek_ok st' /\ stable st st' /\ keeps (S e) st st' /\
        resolved_count st' e
    | Throw _ st' => seek_ok st' /\ stable st st'
    | Unfinished => True
    end).
  { intros st2 Hok2 HS2 HK2 Ho2. rewrite (update_runs st2 e o) by done.
    destruct (sk_set_resolved_count st2 e o (log st2) Hok2 Ho2 Hc) as [A B].
    split; [exact A|]. split.
    - eapply stable_trans; [exact HS1|]. eapply stable_trans; [exact HS2|exact B].
    - split.
      + intros j Hj. simpl. rewrite list_lookup_insert_ne by lia.
        rewrite (HK2 j Hj). done.
      + eexists _, _. simpl. split.
        * apply list_lookup_insert_eq. by eapply lookup_lt_Some.
        * done. }
  destruct (_src o) as [v| | | | |inner] eqn:Hsrc.
  6: {
    unfold bind at 1. specialize (IH inner st1 Hok1).
    destruct (_ensureInternalCount fuel inner st1) as [[] st2|err st2|];
      [| |done].
    - destruct IH as (Hok2 & HS2 & HK2 & _).
      assert (inner < e)%nat by (by apply Hlt).
      apply (Hfin st2); try done.
      + intros j Hj. apply HK2. lia.
      + rewrite HK2 by lia. done.
    - destruct IH as (Hok2 & HS2). split; [done|]. by eapply stable_trans. }
  all: specialize (Hfin st1 Hok1 (stable_refl _) (keeps_refl _ _) Ho1).
  all: try (destruct v); simpl in *; exact Hfin.
Qed.

Lemma count_shape_same o o' :
  _src o' = _src o -> _count o' = _count o -> count_shape o -> count_shape o'.
Proof. intros Hs Hc H c. rewrite Hs, Hc. apply H. Qed.

Lemma sk_ensureInternalTryGetAt fuel :
  forall e, sk (_ensureInternalTryGetAt fuel e)
              (fun st _ st' => keeps (S e) st st' /\ resolved_tryGetAt st' e).
Proof.
  induction fuel as [|fuel IH]; intros e st Hok; [done|]. simpl.
  unfold bind at 1, get_enum at 1.
  destruct (heap st !! e) as [o|] eqn:Ho; [|split; [done|apply stable_refl]].
  destruct (_tryGetAt o) as [g|] eqn:Hg.
  { simpl. split; [done|]. split; [apply stable_refl|].
    split; [apply keeps_refl|by exists o, g]. }
  destruct (Hok e o Ho) as (Hlt & Hshape & _).
  assert (He : (e < length (heap st))%nat) by (by eapply lookup_lt_Some).
  unfold bind at 1, emit at 1.
  set (st1 := mkState (heap st) (log st ++ [EvInspect e])).
  assert (Hok1 : seek_ok st1) by (by apply (seek_ok_log st)).
  unfold bind at 1. rewrite (update_runs st1 e o) by done.
  set (o2 := set_canSeek true o).
  set (st2 := mkState (<[e := o2]> (heap st1)) (log st1)).
  assert (Hcaps2 : caps_kept o o2) by (by apply caps_kept_set_canSeek).
  assert (Hok2 : seek_ok st2).
  { apply (seek_ok_update st1 e o o2 _ Hok1 Ho Hcaps2).
    - by apply (count_shape_same o).
    - intros g Hg'. simpl in Hg'. congruence. }
  assert (HS2 : stable st st2).
  { eapply stable_trans; [apply stable_log|].
    by apply (stable_update st1 e o o2). }
  assert (Ho2 : heap st2 !! e = Some o2)
    by (by apply list_lookup_insert_eq).
  assert (HK2 : keeps (S e) st st2).
  { intros j Hj. simpl. rewrite list_lookup_insert_ne by lia. done. }
  (* the object at [e] is given its closure and its final [_canSeek] *)
  assert (Hfin : forall st3 g b,
    seek_ok st3 -> stable st2 st3 -> keeps (S e) st2 st3 ->
    heap st3 !! e = Some o2 ->
    (b = true -> quiet_get st3 g /\
                 quiet_count st3 (effective_count e o)) ->
    let o' := set_canSeek b (set_tryGetAt g o2) in
    let st' := mkState (<[e := o']> (heap st3)) (log st3) in
    seek_ok st' /\ stable st st' /\ keeps (S e) st st' /\
    resolved_tryGetAt st' e).
  { intros st3 g b Hok3 HS3 HK3 Ho3 Hq o' st'.
    assert (Hcaps : caps_kept o2 o').
    { unfold caps_kept, o', o2; simpl. split_and!; try done.
      intros g'. congruence. }
    split; [|split; [|split]].
    - apply (seek_ok_update st3 e o2 o' _ Hok3 Ho3 Hcaps).
      + by apply (count_shape_same o).
      + intros g' Hg' Hs'. simpl in Hg', Hs'. injection Hg' as <-.
        by apply Hq.
    - eapply stable_trans; [exact HS2|]. eapply stable_trans; [exact HS3|].
      by apply (stable_update st3 e o2 o').
    - intros j Hj. simpl. rewrite list_lookup_insert_ne by lia.
      rewrite (HK3 j Hj). by apply HK2.
    - exists o', g. split; [|done]. simpl.
      apply list_lookup_insert_eq. by eapply lookup_lt_Some. }
  assert (Hquiet_len : forall n, has_length (_src o) = Some n ->
            quiet_count st2 (effective_count e o)).
  { intros n Hn. unfold effective_count.
    destruct (_count o) as [c|] eqn:Hc.
    - specialize (Hshape c Hc).
      destruct (_src o) as [[]| | | | |]; try done;
        destruct Hshape as [->|[m ->]]; done.
    - unfold resolve_countfn.
      destruct (_src o) as [[]| | | | |]; try done. }
  destruct (_src o) as [v| | | | |inner] eqn:Hsrc.
  6: {
    unfold bind at 1. specialize (IH inner st2 Hok2).
    destruct (_ensureInternalTryGetAt fuel inner st2) as [[] st3|err st3|];
      [| |done].
    2: { destruct IH as (Hok3 & HS3). split; [done|]. by eapply stable_trans. }
    destruct IH as (Hok3 & HS3 & HK3 & (i & gi & Hi & Hgi)).
    assert (Hin : (inner < e)%nat) by (by apply Hlt).
    assert (Ho3 : heap st3 !! e = Some o2) by (rewrite HK3 by lia; done).
    unfold bind at 1. rewrite (update_runs st3 e o2) by done.
    unfold bind at 1, get_enum at 1. cbn [heap].
    rewrite list_lookup_insert_ne by lia. rewrite Hi.
    erewrite update_runs
      by (cbn [heap]; apply list_lookup_insert_eq; by eapply lookup_lt_Some).
    cbn [heap log]. rewrite list_insert_insert_eq.
    apply (Hfin st3 (GetInner inner) (_canSeek i)); try done.
    + intros j Hj. apply HK3. lia.
    + intros Hb.
      assert (Hsk : seekable st3 inner) by (by exists i, gi).
      split; [exact Hsk|]. unfold effective_count.
      destruct (_count o) as [c|] eqn:Hc.
      * specialize (Hshape c Hc). rewrite Hsrc in Hshape. by subst c.
      * by rewrite Hsrc. }
  all: try (destruct v).
  all: try (rewrite (update_runs st2 e o2) by done;
            apply (Hfin st2 _ true Hok2 (stable_refl _) (keeps_refl _ _) Ho2);
            intros _; split; [done|]; by eapply Hquiet_len).
  all: unfold bind at 1; rewrite (update_runs st2 e o2) by done.
  all: erewrite update_runs
      by (cbn [heap]; apply list_lookup_insert_eq; by eapply lookup_lt_Some).
  all: cbn [heap log]; rewrite list_insert_insert_eq.
  all: by apply (Hfin st2 _ false Hok2 (stable_refl _) (keeps_refl _ _) Ho2).
Qed.

(** *** Iteration, the closures and the readers keep the invariant *)

Lemma skT_throw {A} e : skT (@throw A e).
Proof. apply sk_throw. Qed.

Lemma skT_bind {A B} (m : M A) (k : A -> M B) :
  skT m -> (forall a, skT (k a)) -> skT (bind m k).
Proof. intros Hm Hk. by eapply sk_bind. Qed.

Lemma skT_guard {F} (c : argument F) :
  skT (if arg_truthy c then _ensureFunction c else ret tt).
Proof.
  destruct c as [f|v]; simpl; [apply (sk_true _ _ (sk_ret tt))|].
  destruct (truthy v); [apply skT_throw|apply (sk_true _ _ (sk_ret tt))].
Qed.

Ltac skT_steps :=
  repeat first
    [ assumption
    | apply skT_guard
    | apply (sk_true _ _ (sk_ret _))
    | apply skT_throw
    | apply (sk_true _ _ (sk_get_enum _))
    | apply (sk_true _ _ (sk_emit _))
    | apply sk_update_flag
    | apply sk_ensureIterable
    | apply sk_native_items
    | apply skT_bind; [|intros ?]
    | match goal with
      | |- skT (if ?b then _ else _) => destruct b
      | |- skT (match ?x with _ => _ end) => destruct x
      end ].

Lemma sk_iterate fuel :
  (forall e, skT (iterate fuel e)) /\ (forall g, skT (run_gen fuel g)).
Proof.
  induction fuel as [|fuel [IH1 IH2]]; [by split|]. split.
  - intros e. cbn [iterate].
    apply skT_bind; [apply sk_update_flag|]. intros _.
    apply skT_bind; [apply (sk_true _ _ (sk_emit _))|]. intros _.
    apply skT_bind; [apply (sk_true _ _ (sk_get_enum _))|]. intros o.
    destruct (_generator o) as [[]|];
      first [apply IH1|apply IH2|apply sk_native_items].
  - intros g. cbn [run_gen].
    destruct g; skT_steps; first [apply IH1|apply IH2].
Qed.

Lemma sk_count fuel :
  (forall c, skT (call_count fuel c)) /\ (forall e, skT (count fuel e)).
Proof.
  induction fuel as [|fuel [IH1 IH2]]; [by split|]. split.
  - intros c. cbn [call_count].
    destruct c; skT_steps; first [apply IH1|apply IH2|apply sk_iterate].
  - intros e. cbn [count].
    apply skT_bind; [apply (sk_true _ _ (sk_ensureInternalCount _ _))|].
    intros _.
    apply skT_bind; [apply (sk_true _ _ (sk_get_enum _))|]. intros o.
    destruct (_count o); [apply IH1|apply skT_throw].
Qed.

Lemma sk_tryGetAt fuel :
  (forall g i, skT (call_tryGetAt fuel g i)) /\
  (forall e i, skT (tryGetAt fuel e i)).
Proof.
  induction fuel as [|fuel [IH1 IH2]]; [by split|]. split.
  - intros g i. cbn [call_tryGetAt].
    destruct g; skT_steps;
      first [apply IH1|apply IH2|apply sk_iterate|apply sk_count].
  - intros e i. cbn [tryGetAt].
    apply skT_bind; [apply (sk_true _ _ (sk_get_enum _))|]. intros o.
    destruct (_tryGetAt o); [apply IH1|apply skT_throw].
Qed.

Lemma sk_mapM {A B} (f : A -> M B) l :
  (forall x, skT (f x)) -> skT (mapM f l).
Proof.
  intros Hf. induction l as [|x l IH]; simpl; [skT_steps|].
  apply skT_bind; [apply Hf|]. intros y.
  apply skT_bind; [apply IH|]. intros ys. skT_steps.
Qed.

Ltac skT_method :=
  repeat first
    [ apply (sk_true _ _ (sk_ensureInternalCount _ _))
    | apply (sk_true _ _ (sk_ensureInternalTryGetAt _ _))
    | apply sk_iterate
    | apply sk_count
    | apply sk_tryGetAt
    | apply sk_mapM; intros ?
    | progress skT_steps ].

Lemma sk_elementAt fuel this i : skT (Linqer.elementAt fuel this i).
Proof. unfold Linqer.elementAt. skT_method. Qed.

Lemma sk_elementAtOrDefault fuel this i :
  skT (Linqer.elementAtOrDefault fuel this i).
Proof. unfold Linqer.elementAtOrDefault. skT_method. Qed.

Lemma sk_toArray fuel this : skT (Linqer.toArray fuel this).
Proof. unfold Linqer.toArray. skT_method. Qed.

Lemma sk_length fuel this : skT (Linqer.length fuel this).
Proof. unfold Linqer.length. skT_method. Qed.

Lemma sk_last fuel this : skT (Linqer.last fuel this).
Proof.
  unfold Linqer.last. skT_method; apply sk_elementAt.
Qed.

Lemma sk_lastOrDefault fuel this : skT (Linqer.lastOrDefault fuel this).
Proof.
  unfold Linqer.lastOrDefault. skT_method; apply sk_elementAtOrDefault.
Qed.

(** *** The builders keep the invariant *)

(** What the constructor leaves: one more object, with nothing resolved. *)
Lemma new_runs src st :
  seek_ok st ->
  match Linqer.new src st with
  | Ok n st' =>
      n = length (heap st) /\ seek_ok st' /\ stable st st' /\
      exists g q,
        st' = mkState
                (heap st ++ [mkEnumerable src g q false None None false])
                (log st)
  | Throw _ st' => st' = st
  | Unfinished => False
  end.
Proof.
  intros Hok. unfold Linqer.new, bind, _ensureIterable.
  destruct (_ && _); [|done]. simpl.
  destruct (generator_of src) as [g|]; [|done].
  assert (Hgo : forall q,
    match alloc (mkEnumerable src g q false None None false) st with
    | Ok n st' =>
        (forall inner, src = SrcEnum inner ->
           (inner < length (heap st))%nat) ->
        n = length (heap st) /\ seek_ok st' /\ stable st st' /\
        exists g q,
          st' = mkState
                  (heap st ++ [mkEnumerable src g q false None None false])
                  (log st)
    | Throw _ st' => st' = st
    | Unfinished => False
    end).
  { intros q. unfold alloc. intros Hsrc. split; [done|]. split; [|split].
    - by apply seek_ok_alloc.
    - apply stable_alloc.
    - by exists g, q. }
  destruct src as [v| | | | |e]; try (by apply (Hgo true)).
  unfold get_enum. destruct (heap st !! e) as [o|] eqn:Ho; [|done].
  simpl. apply (Hgo (_useQuickSort o)). intros inner [= <-].
  by eapply lookup_lt_Some.
Qed.

Lemma sk_new src :
  sk (Linqer.new src) (fun st n st' => (n < length (heap st'))%nat).
Proof.
  intros st Hok. pose proof (new_runs src st Hok) as H.
  destruct (Linqer.new src st) as [n st'|err st'|]; [| |done].
  - destruct H as (-> & Hok' & HS & g & q & ->). split_and!; try done.
    simpl. rewrite length_app. simpl. lia.
  - subst st'. split; [done|apply stable_refl].
Qed.

Lemma sk_from src :
  forall st, seek_ok st ->
    (forall e, src = SrcEnum e -> (e < length (heap st))%nat) ->
    match Linqer.from src st with
    | Ok n st' => seek_ok st' /\ stable st st' /\ (n < length (heap st'))%nat
    | Throw _ st' => seek_ok st' /\ stable st st'
    | Unfinished => True
    end.
Proof.
  intros st Hok Hsrc. destruct src as [v| | | | |e];
    try (by apply (sk_new _ st Hok)).
  simpl. split; [done|]. split; [apply stable_refl|]. by apply Hsrc.
Qed.

(** An update of the object under construction, which the state [st0]
    from before the call does not have. *)
Lemma build_update st0 st n o f :
  seek_ok st -> stable st0 st -> (length (heap st0) <= n)%nat ->
  heap st !! n = Some o ->
  _src (f o) = _src o ->
  (forall g, _tryGetAt o = Some g -> _canSeek o = true ->
     exists g', _tryGetAt (f o) = Some g' /\ _canSeek (f o) = true) ->
  count_shape (f o) ->
  (forall g, _tryGetAt (f o) = Some g -> _canSeek (f o) = true ->
     quiet_get st g /\ quiet_count st (effective_count n (f o))) ->
  exists st',
    update n f st = Ok tt st' /\ seek_ok st' /\ stable st0 st' /\
    heap st' !! n = Some (f o) /\
    (forall j, j <> n -> heap st' !! j = heap st !! j).
Proof.
  intros Hok HS Hn Ho Hsrc Hmono Hshape Hq.
  exists (mkState (<[n := f o]> (heap st)) (log st)).
  split; [by apply update_runs|]. split; [by eapply seek_ok_insert|].
  split; [|split].
  - intros k ok Hk.
    assert (k < length (heap st0))%nat by (by eapply lookup_lt_Some).
    destruct (HS k ok Hk) as (ok' & Hk' & Hc). exists ok'. split; [|done].
    simpl. rewrite list_lookup_insert_ne by lia. done.
  - simpl. apply list_lookup_insert_eq. by eapply lookup_lt_Some.
  - intros j Hj. simpl. by rewrite list_lookup_insert_ne.
Qed.

(** A resolver call on an older object during a construction. *)
Lemma build_resolve st0 st n o this fuel :
  seek_ok st -> stable st0 st -> heap st !! n = Some o -> (this < n)%nat ->
  match _ensureInternalTryGetAt fuel this st with
  | Ok _ st' =>
      seek_ok st' /\ stable st0 st' /\ stable st st' /\
      heap st' !! n = Some o /\
      exists s g, heap st' !! this = Some s /\ _tryGetAt s = Some g
  | Throw _ st' => seek_ok st' /\ stable st0 st'
  | Unfinished => True
  end.
Proof.
  intros Hok HS Ho Hlt.
  pose proof (sk_ensureInternalTryGetAt fuel this st Hok) as H.
  destruct (_ensureInternalTryGetAt fuel this st) as [[] st'|err st'|];
    [| |done].
  - destruct H as (Hok' & HS' & HK & Hres). split_and!; try done.
    + by eapply stable_trans.
    + rewrite HK by lia. done.
  - destruct H as (Hok' & HS'). split; [done|]. by eapply stable_trans.
Qed.

(** [empty], [range] and [repeat]: a constant count and a lookup that
    computes its answer. *)
Lemma sk_constant src n g :
  (forall inner, src <> SrcEnum inner) -> (forall st, quiet_get st g) ->
  sk (let! result := Linqer.new src in
      do! update result (set_count (CountConst n)) in
      do! update result (set_tryGetAt g) in
      do! update result (set_canSeek true) in
      ret result)
     (fun st r st' => (r < length (heap st'))%nat).
Proof.
  intros Hsrc Hg st Hok. unfold bind at 1.
  pose proof (new_runs src st Hok) as H.
  destruct (Linqer.new src st) as [r st1|err st1|]; [| |done].
  2: { subst st1. split; [done|apply stable_refl]. }
  destruct H as (-> & Hok1 & HS1 & gen & q & ->).
  set (o1 := mkEnumerable src gen q false None None false).
  set (st1 := mkState (heap st ++ [o1]) (log st)) in *.
  assert (Ho1 : heap st1 !! length (heap st) = Some o1).
  { simpl. rewrite lookup_app_r by lia. by rewrite Nat.sub_diag. }
  assert (Hshape : forall o c, _src o = src -> _count o = Some (CountConst c) ->
            count_shape o).
  { intros o c Hs Hc c' Hc'. rewrite Hs.
    destruct src as [[]| | | | |inner]; try done;
      try (by destruct (Hsrc inner)); right; exists c; congruence. }
  destruct (build_update st st1 (length (heap st)) o1
              (set_count (CountConst n)))
    as (st2 & E2 & Hok2 & HS2 & Ho2 & _);
    try done; try (by apply (Hshape _ n)).
  unfold bind at 1. rewrite E2.
  destruct (build_update st st2 _ _ (set_tryGetAt g) Hok2 HS2 (le_n _) Ho2)
    as (st3 & E3 & Hok3 & HS3 & Ho3 & _);
    try done; try (by apply (Hshape _ n)).
  unfold bind at 1. rewrite E3.
  destruct (build_update st st3 _ _ (set_canSeek true) Hok3 HS3 (le_n _) Ho3)
    as (st4 & E4 & Hok4 & HS4 & Ho4 & _);
    try done; try (by apply (Hshape _ n));
    try (intros g' Hg' _; by exists g'); try (by intros g' [= <-] _).
  unfold bind at 1. rewrite E4. simpl. split_and!; try done.
  by eapply lookup_lt_Some.
Qed.

Lemma sk_empty : sk Linqer.empty (fun st r st' => (r < length (heap st'))%nat).
Proof. by apply sk_constant. Qed.

Lemma sk_range start count :
  sk (Linqer.range start count) (fun st r st' => (r < length (heap st'))%nat).
Proof. by apply sk_constant. Qed.

Lemma sk_repeat item count :
  sk (Linqer.repeat item count) (fun st r st' => (r < length (heap st'))%nat).
Proof. by apply sk_constant. Qed.

Lemma count_shape_genfn o g : _src o = SrcGenFn g -> count_shape o.
Proof. intros Hs c _. by rewrite Hs. Qed.

Lemma new_slot st o l :
  mkState (heap st ++ [o]) l = mkState (heap st ++ [o]) l ->
  heap (mkState (heap st ++ [o]) l) !! length (heap st) = Some o.
Proof. intros _. simpl. rewrite lookup_app_r by lia. by rewrite Nat.sub_diag. Qed.

Lemma sk_take fuel this nr st :
  seek_ok st -> (this < length (heap st))%nat ->
  match Linqer.take fuel this nr st with
  | Ok r st' => seek_ok st' /\ stable st st' /\ (r < length (heap st'))%nat
  | Throw _ st' => seek_ok st' /\ stable st st'
  | Unfinished => True
  end.
Proof.
  intros Hok Hthis. unfold Linqer.take. unfold bind at 1.
  pose proof (new_runs (SrcGenFn (GenTake this nr)) st Hok) as H.
  destruct (Linqer.new _ st) as [r st1|err st1|]; [| |done].
  2: { subst st1. split; [done|apply stable_refl]. }
  destruct H as (-> & Hok1 & HS1 & gen & q & ->).
  set (n := length (heap st)).
  match goal with
  | _ : seek_ok (mkState (_ ++ [?o]) _) |- _ => set (o1 := o) in *
  end.
  set (st1 := mkState (heap st ++ [o1]) (log st)) in *.
  assert (Ho1 : heap st1 !! n = Some o1) by (by apply new_slot).
  destruct (build_update st st1 n o1 (set_count (CountTake this nr)))
    as (st2 & E2 & Hok2 & HS2 & Ho2 & _);
    try done; try (by eapply count_shape_genfn).
  unfold bind at 1. rewrite E2. unfold bind at 1.
  pose proof (build_resolve st st2 n _ this fuel Hok2 HS2 Ho2 Hthis) as H.
  destruct (_ensureInternalTryGetAt fuel this st2) as [[] st3|err st3|];
    [|done|done].
  destruct H as (Hok3 & HS3 & _ & Ho3 & s & g & Hs & Hg).
  unfold bind at 1, get_enum at 1. rewrite Hs.
  destruct (build_update st st3 n _ (set_canSeek (_canSeek s))
              Hok3 HS3 (le_n _) Ho3)
    as (st4 & E4 & Hok4 & HS4 & Ho4 & Hrest);
    try done; try (by eapply count_shape_genfn).
  unfold bind at 1. rewrite E4. unfold bind at 1.
  assert (Hlen : (n < length (heap st4))%nat) by (by eapply lookup_lt_Some).
  destruct (_canSeek s) eqn:Hcs; [|simpl; by split_and!].
  assert (Hsk : seekable st4 this).
  { exists s, g. rewrite Hrest by lia. done. }
  destruct (build_update st st4 n _ (set_tryGetAt (GetTake this nr))
              Hok4 HS4 (le_n _) Ho4)
    as (st5 & E5 & Hok5 & HS5 & Ho5 & _);
    try done; try (by eapply count_shape_genfn);
    try (intros g' [= <-] _; by split).
  rewrite E5. simpl. split_and!; try done. by eapply lookup_lt_Some.
Qed.

Lemma sk_skip fuel this nr st :
  seek_ok st -> (this < length (heap st))%nat ->
  match Linqer.skip fuel this nr st with
  | Ok r st' => seek_ok st' /\ stable st st' /\ (r < length (heap st'))%nat
  | Throw _ st' => seek_ok st' /\ stable st st'
  | Unfinished => True
  end.
Proof.
  intros Hok Hthis. unfold Linqer.skip. unfold bind at 1.
  pose proof (new_runs (SrcGenFn (GenSkip this nr)) st Hok) as H.
  destruct (Linqer.new _ st) as [r st1|err st1|]; [| |done].
  2: { subst st1. split; [done|apply stable_refl]. }
  destruct H as (-> & Hok1 & HS1 & gen & q & ->).
  set (n := length (heap st)).
  match goal with
  | _ : seek_ok (mkState (_ ++ [?o]) _) |- _ => set (o1 := o) in *
  end.
  set (st1 := mkState (heap st ++ [o1]) (log st)) in *.
  assert (Ho1 : heap st1 !! n = Some o1) by (by apply new_slot).
  destruct (build_update st st1 n o1 (set_count (CountSkip this nr)))
    as (st2 & E2 & Hok2 & HS2 & Ho2 & _);
    try done; try (by eapply count_shape_genfn).
  unfold bind at 1. rewrite E2. unfold bind at 1.
  pose proof (build_resolve st st2 n _ this fuel Hok2 HS2 Ho2 Hthis) as H.
  destruct (_ensureInternalTryGetAt fuel this st2) as [[] st3|err st3|];
    [|done|done].
  destruct H as (Hok3 & HS3 & _ & Ho3 & s & g & Hs & Hg).
  unfold bind at 1, get_enum at 1. rewrite Hs.
  destruct (build_update st st3 n _ (set_canSeek (_canSeek s))
              Hok3 HS3 (le_n _) Ho3)
    as (st4 & E4 & Hok4 & HS4 & Ho4 & Hrest);
    try done; try (by eapply count_shape_genfn).
  unfold bind at 1. rewrite E4. unfold bind at 1.
  destruct (build_update st st4 n _ (set_tryGetAt (GetSkip this nr))
              Hok4 HS4 (le_n _) Ho4)
    as (st5 & E5 & Hok5 & HS5 & Ho5 & _);
    try done; try (by eapply count_shape_genfn).
  { intros g' [= <-] Hcs. simpl in Hcs.
    assert (Hsk : seekable st4 this).
    { exists s, g. rewrite Hrest by lia. done. }
    by split. }
  rewrite E5. simpl. split_and!; try done. by eapply lookup_lt_Some.
Qed.

Lemma build_resolve_count st0 st n o this fuel :
  seek_ok st -> stable st0 st -> heap st !! n = Some o -> (this < n)%nat ->
  match _ensureInternalCount fuel this st with
  | Ok _ st' =>
      seek_ok st' /\ stable st0 st' /\ stable st st' /\
      heap st' !! n = Some o /\
      exists s c, heap st' !! this = Some s /\ _count s = Some c
  | Throw _ st' => seek_ok st' /\ stable st0 st'
  | Unfinished => True
  end.
Proof.
  intros Hok HS Ho Hlt.
  pose proof (sk_ensureInternalCount fuel this st Hok) as H.
  destruct (_ensureInternalCount fuel this st) as [[] st'|err st'|];
    [| |done].
  - destruct H as (Hok' & HS' & HK & Hres). split_and!; try done.
    + by eapply stable_trans.
    + rewrite HK by lia. done.
  - destruct H as (Hok' & HS'). split; [done|]. by eapply stable_trans.
Qed.

Lemma sk_select fuel this selector st :
  seek_ok st -> (this < length (heap st))%nat ->
  match Linqer.select fuel this selector st with
  | Ok r st' => seek_ok st' /\ stable st st' /\ (r < length (heap st'))%nat
  | Throw _ st' => seek_ok st' /\ stable st st'
  | Unfinished => True
  end.
Proof.
  intros Hok Hthis. unfold Linqer.select. unfold bind at 1.
  pose proof (new_runs (SrcGenFn (GenSelect this selector)) st Hok) as H.
  destruct (Linqer.new _ st) as [r st1|err st1|]; [| |done].
  2: { subst st1. split; [done|apply stable_refl]. }
  destruct H as (-> & Hok1 & HS1 & gen & q & ->).
  set (n := length (heap st)).
  match goal with
  | _ : seek_ok (mkState (_ ++ [?o]) _) |- _ => set (o1 := o) in *
  end.
  set (st1 := mkState (heap st ++ [o1]) (log st)) in *.
  assert (Ho1 : heap st1 !! n = Some o1) by (by apply new_slot).
  unfold bind at 1.
  pose proof (build_resolve_count st st1 n _ this fuel Hok1 HS1 Ho1 Hthis) as H.
  destruct (_ensureInternalCount fuel this st1) as [[] st2|err st2|];
    [|done|done].
  destruct H as (Hok2 & HS2 & _ & Ho2 & s & c & Hs & Hc).
  unfold bind at 1, get_enum at 1. rewrite Hs.
  destruct (build_update st st2 n o1
              (fun o => mkEnumerable (_src o) (_generator o) (_useQuickSort o)
                          (_canSeek o) (_count s) (_tryGetAt o)
                          (_wasIterated o))
              Hok2 HS2 (le_n _) Ho2)
    as (st3 & E3 & Hok3 & HS3 & Ho3 & Hrest3);
    try done; try (by eapply count_shape_genfn).
  unfold bind at 1. rewrite E3. unfold bind at 1.
  pose proof (build_resolve st st3 n _ this fuel Hok3 HS3 Ho3 Hthis) as H.
  destruct (_ensureInternalTryGetAt fuel this st3) as [[] st4|err st4|];
    [|done|done].
  destruct H as (Hok4 & HS4 & HS34 & Ho4 & s' & g & Hs' & Hg).
  assert (Hc' : _count s' = Some c).
  { destruct (HS34 this s) as (s'' & Hs'' & _ & _ & _ & Hcnt & _).
    - rewrite Hrest3 by lia. done.
    - assert (s'' = s') as -> by congruence. by apply Hcnt. }
  unfold bind at 1, get_enum at 1. rewrite Hs'.
  destruct (build_update st st4 n _ (set_canSeek (_canSeek s'))
              Hok4 HS4 (le_n _) Ho4)
    as (st5 & E5 & Hok5 & HS5 & Ho5 & Hrest5);
    try done; try (by eapply count_shape_genfn).
  unfold bind at 1. rewrite E5. unfold bind at 1.
  destruct (build_update st st5 n _ (set_tryGetAt (GetSelect this selector))
              Hok5 HS5 (le_n _) Ho5)
    as (st6 & E6 & Hok6 & HS6 & Ho6 & _);
    try done; try (by eapply count_shape_genfn).
  { intros g' [= <-] Hcs. simpl in Hcs.
    assert (Hthis5 : heap st5 !! this = Some s')
      by (rewrite Hrest5 by lia; done).
    assert (Hsk : seekable st5 this) by (by exists s', g).
    split; [exact Hsk|]. unfold effective_count. simpl. rewrite Hc.
    destruct (Hok5 this s' Hthis5) as (_ & _ & Hq).
    destruct (Hq g Hg Hcs) as [_ Hqc]. unfold effective_count in Hqc.
    by rewrite Hc' in Hqc. }
  rewrite E6. simpl. split_and!; try done. by eapply lookup_lt_Some.
Qed.

Lemma sk_concat fuel this iterable st :
  seek_ok st -> (this < length (heap st))%nat ->
  (forall e, iterable = SrcEnum e -> (e < length (heap st))%nat) ->
  match Linqer.concat fuel this iterable st with
  | Ok r st' => seek_ok st' /\ stable st st' /\ (r < length (heap st'))%nat
  | Throw _ st' => seek_ok st' /\ stable st st'
  | Unfinished => True
  end.
Proof.
  intros Hok Hthis0 Harg. unfold Linqer.concat. unfold bind at 1.
  unfold _ensureIterable.
  destruct (_ && _); [|split; [done|apply stable_refl]].
  cbn [ret]. unfold bind at 1.
  pose proof (sk_from iterable st Hok Harg) as H.
  destruct (Linqer.from iterable st) as [other st0|err st0|]; [|done|done].
  destruct H as (Hok0 & HS0 & Hother).
  assert (Hthis : (this < length (heap st0))%nat).
  { destruct (lookup_lt_is_Some_2 (heap st) this Hthis0) as [x Hx].
    destruct (HS0 this x Hx) as (x' & Hx' & _). by eapply lookup_lt_Some. }
  cut (match
         (let! result := Linqer.new (SrcGenFn (GenConcat this iterable)) in
          do! update result (set_count (CountConcat this other)) in
          do! _ensureInternalTryGetAt fuel this in
          do! _ensureInternalTryGetAt fuel other in
          let! s := get_enum this in
          let! o := get_enum other in
          do! update result (set_canSeek (_canSeek s && _canSeek o)) in
          do! (if _canSeek s
               then update result (set_tryGetAt (GetConcat this other))
               else ret tt) in
          ret result) st0
       with
       | Ok r st' =>
           seek_ok st' /\ stable st0 st' /\ (r < length (heap st'))%nat
       | Throw _ st' => seek_ok st' /\ stable st0 st'
       | Unfinished => True
       end).
  { match goal with
    | |- match ?m with _ => _ end -> _ => destruct m as [r st'|err st'|]
    end; [| |done].
    - intros (? & ? & ?). split_and!; try done. by eapply stable_trans.
    - intros (? & ?). split; [done|]. by eapply stable_trans. }
  clear Hok HS0 Hthis0 Harg. revert Hok0 Hthis Hother.
  generalize st0. clear st st0. intros st Hok Hthis Hother.
  unfold bind at 1.
  pose proof (new_runs (SrcGenFn (GenConcat this iterable)) st Hok) as H.
  destruct (Linqer.new _ st) as [r st1|err st1|]; [| |done].
  2: { subst st1. split; [done|apply stable_refl]. }
  destruct H as (-> & Hok1 & HS1 & gen & q & ->).
  set (n := length (heap st)).
  match goal with
  | _ : seek_ok (mkState (_ ++ [?o]) _) |- _ => set (o1 := o) in *
  end.
  set (st1 := mkState (heap st ++ [o1]) (log st)) in *.
  assert (Ho1 : heap st1 !! n = Some o1) by (by apply new_slot).
  destruct (build_update st st1 n o1 (set_count (CountConcat this other)))
    as (st2 & E2 & Hok2 & HS2 & Ho2 & _);
    try done; try (by eapply count_shape_genfn).
  unfold bind at 1. rewrite E2. unfold bind at 1.
  pose proof (build_resolve st st2 n _ this fuel Hok2 HS2 Ho2 Hthis) as H.
  destruct (_ensureInternalTryGetAt fuel this st2) as [[] st3|err st3|];
    [|done|done].
  destruct H as (Hok3 & HS3 & _ & Ho3 & s3 & g & Hs3 & Hg3).
  unfold bind at 1.
  pose proof (build_resolve st st3 n _ other fuel Hok3 HS3 Ho3 Hother) as H.
  destruct (_ensureInternalTryGetAt fuel other st3) as [[] st4|err st4|];
    [|done|done].
  destruct H as (Hok4 & HS4 & HS34 & Ho4 & o & go & Ho & Hgo).
  destruct (HS34 this s3 Hs3) as (s & Hs & _ & _ & _ & _ & Hkept).
  destruct (Hkept g Hg3) as [Hg _].
  unfold bind at 1, get_enum at 1. rewrite Hs.
  unfold bind at 1, get_enum at 1. rewrite Ho.
  destruct (build_update st st4 n _ (set_canSeek (_canSeek s && _canSeek o))
              Hok4 HS4 (le_n _) Ho4)
    as (st5 & E5 & Hok5 & HS5 & Ho5 & Hrest);
    try done; try (by eapply count_shape_genfn).
  unfold bind at 1. rewrite E5. unfold bind at 1.
  assert (Hlen : (n < length (heap st5))%nat) by (by eapply lookup_lt_Some).
  destruct (_canSeek s) eqn:Hcs; [|simpl; by split_and!].
  destruct (build_update st st5 n _ (set_tryGetAt (GetConcat this other))
              Hok5 HS5 (le_n _) Ho5)
    as (st6 & E6 & Hok6 & HS6 & Ho6 & _);
    try done; try (by eapply count_shape_genfn).
  { intros g' [= <-] Hco. simpl in Hco.
    assert (seekable st5 this)
      by (exists s, g; rewrite Hrest by lia; done).
    assert (seekable st5 other)
      by (exists o, go; rewrite Hrest by lia; done).
    by split. }
  rewrite E6. simpl. split_and!; try done. by eapply lookup_lt_Some.
Qed.

Lemma sk_splice fuel this start howmany newItems st :
  seek_ok st -> (this < length (heap st))%nat ->
  match Linqer.splice fuel this start howmany newItems st with
  | Ok r st' => seek_ok st' /\ stable st st' /\ (r < length (heap st'))%nat
  | Throw _ st' => seek_ok st' /\ stable st st'
  | Unfinished => True
  end.
Proof.
  intros Hok Hthis. unfold Linqer.splice. unfold bind at 1.
  pose proof (sk_take fuel this start st Hok Hthis) as H.
  destruct (Linqer.take fuel this start st) as [t st1|err st1|]; [|done|done].
  destruct H as (Hok1 & HS1 & Ht). unfold bind at 1.
  pose proof (sk_concat fuel t (SrcArray newItems) st1 Hok1 Ht
                ltac:(done)) as H.
  destruct (Linqer.concat fuel t _ st1) as [c st2|err st2|]; [| |done].
  2: { destruct H as (? & ?). split; [done|]. by eapply stable_trans. }
  destruct H as (Hok2 & HS2 & Hc).
  assert (HS02 : stable st st2) by (by eapply stable_trans).
  assert (Hthis2 : (this < length (heap st2))%nat).
  { pose proof (stable_length _ _ HS02). lia. }
  unfold bind at 1.
  pose proof (sk_skip fuel this (start + howmany) st2 Hok2 Hthis2) as H.
  destruct (Linqer.skip fuel this _ st2) as [s st3|err st3|]; [| |done].
  2: { destruct H as (? & ?). split; [done|]. by eapply stable_trans. }
  destruct H as (Hok3 & HS3 & Hs).
  assert (Hc3 : (c < length (heap st3))%nat).
  { pose proof (stable_length _ _ HS3). lia. }
  pose proof (sk_concat fuel c (SrcEnum s) st3 Hok3 Hc3) as H.
  destruct (Linqer.concat fuel c _ st3) as [r st4|err st4|]; [| |done].
  - destruct H as (? & ? & ?); [by intros e [= <-]|].
    split_and!; try done.
    eapply stable_trans; [exact HS02|]. by eapply stable_trans.
  - destruct H as (? & ?); [by intros e [= <-]|]. split; [done|].
    eapply stable_trans; [exact HS02|]. by eapply stable_trans.
Qed.

Lemma sk_toList fuel this : skT (Linqer.toList fuel this).
Proof.
  unfold Linqer.toList.
  apply skT_bind; [apply (sk_true _ _ (sk_ensureInternalTryGetAt _ _))|].
  intros _. apply skT_bind; [apply (sk_true _ _ (sk_get_enum _))|]. intros o.
  destruct (_canSeek o); [apply (sk_true _ _ (sk_ret _))|].
  apply skT_bind; [apply sk_toArray|]. intros arr.
  apply (sk_true _ _ (sk_new _)).
Qed.

Lemma sk_ignore {A} (m : M A) st (P : A -> state -> Prop) :
  match m st with
  | Ok r st' => seek_ok st' /\ stable st st' /\ P r st'
  | Throw _ st' => seek_ok st' /\ stable st st'
  | Unfinished => True
  end ->
  match ignore m st with
  | Ok _ st' | Throw _ st' => seek_ok st' /\ stable st st'
  | Unfinished => True
  end.
Proof.
  unfold ignore, bind. destruct (m st) as [r st'|err st'|]; simpl; tauto.
Qed.

Lemma sk_exec N fuel c st :
  seek_ok st -> call_wf (length (heap st)) c = true ->
  match exec N fuel c st with
  | Ok _ st' | Throw _ st' => seek_ok st' /\ stable st st'
  | Unfinished => True
  end.
Proof.
  intros Hok Hwf.
  assert (Hany : forall A (m : M A), skT m ->
    match ignore m st with
    | Ok _ st' | Throw _ st' => seek_ok st' /\ stable st st'
    | Unfinished => True
    end).
  { intros A m Hm. apply (sk_ignore m st (fun _ _ => True)). by apply Hm. }
  destruct c; cbn [exec]; cbn [call_wf] in Hwf;
    try (apply andb_prop in Hwf as [Hwf Hwf2]);
    try apply Nat.ltb_lt in Hwf.
  - apply Hany, (sk_true _ _ (sk_new _)).
  - apply (sk_ignore _ st (fun r st' => (r < length (heap st'))%nat)).
    apply sk_from; [done|]. intros e ->. by apply Nat.ltb_lt.
  - apply Hany, (sk_true _ _ sk_empty).
  - apply Hany, (sk_true _ _ (sk_range _ _)).
  - apply Hany, (sk_true _ _ (sk_repeat _ _)).
  - apply Hany, sk_length.
  - apply (sk_ignore _ st (fun r st' => (r < length (heap st'))%nat)).
    apply sk_concat; [done|done|]. intros e ->. by apply Nat.ltb_lt.
  - apply Hany, sk_count.
  - apply Hany, sk_elementAt.
  - apply Hany, sk_elementAtOrDefault.
  - apply Hany, sk_elementAt.
  - apply Hany, sk_elementAtOrDefault.
  - apply Hany, sk_last.
  - apply Hany, sk_lastOrDefault.
  - apply (sk_ignore _ st (fun r st' => (r < length (heap st'))%nat)).
    by apply sk_select.
  - apply (sk_ignore _ st (fun r st' => (r < length (heap st'))%nat)).
    by apply sk_skip.
  - apply (sk_ignore _ st (fun r st' => (r < length (heap st'))%nat)).
    by apply sk_take.
  - apply (sk_ignore _ st (fun r st' => (r < length (heap st'))%nat)).
    by apply sk_splice.
  - apply Hany, (sk_true _ _ (sk_new _)).
  - apply Hany, sk_toArray.
  - apply Hany, sk_toList.
  - apply Hany. unfold Linqer.sumAndCount. skT_method.
  - apply Hany. unfold Linqer.sum, Linqer.sumAndCount. skT_method.
  - apply Hany. unfold Linqer.stats. skT_method.
  - apply Hany. unfold Linqer.min, Linqer.stats. skT_method.
  - apply Hany. unfold Linqer.max, Linqer.stats. skT_method.
Qed.

Lemma seek_ok_init : seek_ok init.
Proof. intros k o Hk. done. Qed.

Lemma run_seek_ok N fuel p :
  forall st st', seek_ok st -> run N fuel p st = Some st' -> seek_ok st'.
Proof.
  induction p as [|c p IH]; intros st st' Hok Hrun; simpl in Hrun.
  - by injection Hrun as <-.
  - destruct (call_wf _ c) eqn:Hwf; [|done].
    pose proof (sk_exec N fuel c st Hok Hwf) as H.
    destruct (exec N fuel c st) as [[] st1|err st1|]; [| |done];
      destruct H as [Hok1 _]; by eapply IH.
Qed.

(** *** What a seekable object runs *)

Lemma quietly_intro {A} (P : state -> Prop) (m : M A) Q :
  sk m Q -> deferred m -> quietly P m Q.
Proof.
  intros Hsk Hd st Hok _. specialize (Hsk st Hok). specialize (Hd st).
  destruct (m st) as [a st'|err st'|]; [| |done].
  - destruct Hsk as (? & ? & ?). by split_and!.
  - destruct Hsk as (? & ?). by split_and!.
Qed.

Lemma quietly_pre {A} (P P' : state -> Prop) (m : M A) Q :
  (forall st, seek_ok st -> P' st -> P st) -> quietly P m Q -> quietly P' m Q.
Proof. intros HP Hm st Hok HP'. apply Hm; [done|]. by apply HP. Qed.

Lemma quietly_post {A} (P : state -> Prop) (m : M A) Q Q' :
  (forall st a st', Q st a st' -> Q' st a st') ->
  quietly P m Q -> quietly P m Q'.
Proof.
  intros HQ Hm st Hok HP. specialize (Hm st Hok HP).
  destruct (m st) as [a st'|err st'|]; [|done|done].
  destruct Hm as (? & ? & ? & ?). split_and!; try done. by apply HQ.
Qed.

Lemma quietly_bind {A B} (P : state -> Prop) (P' : A -> state -> Prop)
    (m : M A) (k : A -> M B) Q Q' :
  quietly P m Q ->
  (forall st a st', seek_ok st -> P st -> stable st st' -> Q st a st' ->
     P' a st') ->
  (forall a, quietly (P' a) (k a) Q') ->
  quietly P (bind m k) (fun _ _ _ => True).
Proof.
  intros Hm HP Hk st Hok HPst. unfold bind. specialize (Hm st Hok HPst).
  destruct (m st) as [a st1|err st1|]; [|done|done].
  destruct Hm as (Hok1 & HS1 & HN1 & HQ).
  specialize (Hk a st1 Hok1 (HP st a st1 Hok HPst HS1 HQ)).
  destruct (k a st1) as [b st2|err st2|]; [| |done].
  - destruct Hk as (? & ? & ? & _). split_and!; try done.
    + by eapply stable_trans.
    + by eapply nothing_iterated_trans.
  - destruct Hk as (? & ? & ?). split_and!; try done.
    + by eapply stable_trans.
    + by eapply nothing_iterated_trans.
Qed.

Lemma quietly_ret {A} (P : state -> Prop) (a : A) :
  quietly P (ret a) (fun _ _ _ => True).
Proof.
  apply quietly_intro; [apply (sk_true _ _ (sk_ret a))|apply deferred_ret].
Qed.

Lemma quietly_throw {A} (P : state -> Prop) e Q : quietly P (@throw A e) Q.
Proof. apply quietly_intro; [apply sk_throw|apply deferred_throw]. Qed.

Lemma quietly_get_enum (P : state -> Prop) e :
  quietly P (get_enum e) (fun st o st' => st' = st /\ heap st !! e = Some o).
Proof. apply quietly_intro; [apply sk_get_enum|apply deferred_get_enum]. Qed.

(** The object found at a seekable address. *)
Lemma seekable_lookup st e o :
  seek_ok st -> seekable st e -> heap st !! e = Some o ->
  _canSeek o = true /\
  (forall g, _tryGetAt o = Some g -> quiet_get st g) /\
  (exists g, _tryGetAt o = Some g) /\
  quiet_count st (effective_count e o).
Proof.
  intros Hok (o' & g & Ho' & Hg & Hs) Ho.
  assert (o' = o) as -> by congruence.
  destruct (Hok e o Ho) as (_ & _ & Hq). destruct (Hq g Hg Hs) as [Q1 Q2].
  split_and!; try done; [|by exists g]. intros g' Hg'. congruence.
Qed.

Lemma quietly_count fuel :
  (forall c, quietly (fun st => quiet_count st c) (call_count fuel c)
               (fun _ _ _ => True)) /\
  (forall e, quietly (fun st => seekable st e) (count fuel e)
               (fun _ _ _ => True)).
Proof.
  induction fuel as [|fuel [IH1 IH2]]; [by split|]. split.
  - intros c. cbn [call_count]. destruct c as [n|a b|a nr|a nr|a|src|src|a].
    + apply quietly_ret.
    + eapply (quietly_bind _ (fun _ st => seekable st b)).
      * eapply quietly_pre; [|apply (IH2 a)]. by intros st _ [Ha _].
      * intros st x st' _ [_ Hb] HS _. by eapply seekable_stable.
      * intros x. eapply (quietly_bind _ (fun _ _ => True));
          [apply (IH2 b)|done|]. intros y. apply quietly_ret.
    + eapply (quietly_bind _ (fun _ _ => True));
        [apply (IH2 a)|done|]. intros x. apply quietly_ret.
    + eapply (quietly_bind _ (fun _ _ => True));
        [apply (IH2 a)|done|]. intros x. apply quietly_ret.
    + eapply (quietly_bind _
                (fun i st => forall c', _count i = Some c' ->
                                        quiet_count st c')).
      * apply quietly_get_enum.
      * intros st i st' Hok Ha _ [-> Hi] c' Hc'.
        destruct (seekable_lookup st a i Hok Ha Hi) as (_ & _ & _ & Hq).
        unfold effective_count in Hq. by rewrite Hc' in Hq.
      * intros i. destruct (_count i) as [c'|]; [|apply quietly_throw].
        eapply quietly_pre; [|apply (IH1 c')]. intros st _ H. by apply H.
    + destruct (has_length src); [apply quietly_ret|apply quietly_throw].
    + destruct (has_size src); [apply quietly_ret|apply quietly_throw].
    + by intros st _ [].
  - intros e. cbn [count].
    eapply (quietly_bind _ (fun _ st => seekable st e)).
    + apply quietly_intro;
        [apply sk_ensureInternalCount|apply deferred_ensureInternalCount].
    + intros st x st' _ He HS _. by eapply seekable_stable.
    + intros _.
      eapply (quietly_bind _
                (fun o st => forall c, _count o = Some c -> quiet_count st c)).
      * apply quietly_get_enum.
      * intros st o st' Hok He _ [-> Ho] c Hc.
        destruct (seekable_lookup st e o Hok He Ho) as (_ & _ & _ & Hq).
        unfold effective_count in Hq. by rewrite Hc in Hq.
      * intros o. destruct (_count o) as [c|]; [|apply quietly_throw].
        eapply quietly_pre; [|apply (IH1 c)]. intros st _ H. by apply H.
Qed.

Lemma quietly_tryGetAt fuel :
  (forall g i, quietly (fun st => quiet_get st g) (call_tryGetAt fuel g i)
                 (fun _ _ _ => True)) /\
  (forall e i, quietly (fun st => seekable st e) (tryGetAt fuel e i)
                 (fun _ _ _ => True)).
Proof.
  induction fuel as [|fuel [IH1 IH2]]; [by split|]. split.
  - intros g i. cbn [call_tryGetAt].
    destruct g as [|start n|item n|a b|a f|a nr|a nr|a|a|a|a].
    + apply quietly_ret.
    + destruct (_ && _); apply quietly_ret.
    + destruct (_ && _); apply quietly_ret.
    + eapply (quietly_bind _ (fun _ st => seekable st a /\ seekable st b)).
      * eapply quietly_pre; [|apply (IH2 a)]. by intros st _ [Ha _].
      * intros st x st' _ [Ha Hb] HS _. split; by eapply seekable_stable.
      * intros [v|]; [apply quietly_ret|].
        eapply (quietly_bind _ (fun _ st => seekable st b)).
        -- eapply quietly_pre; [|apply (proj2 (quietly_count fuel) a)].
           by intros st _ [Ha _].
        -- intros st x st' _ [_ Hb] HS _. by eapply seekable_stable.
        -- intros n. apply IH2.
    + eapply (quietly_bind _ (fun _ _ => True)); [apply (IH2 a)|done|].
      intros [v|]; apply quietly_ret.
    + apply IH2.
    + destruct (_ <=? _); [apply quietly_ret|apply IH2].
    + apply IH2.
    + eapply (quietly_bind _ (fun _ _ => True));
        [apply quietly_get_enum|done|]. intros o.
      destruct (_src o) as [[]| | | | |]; try apply quietly_throw.
      destruct (_ <? _); apply quietly_ret.
    + eapply (quietly_bind _ (fun _ _ => True));
        [apply quietly_get_enum|done|]. intros o.
      destruct (_src o) as [[]| | | | |]; try apply quietly_throw.
      destruct (_ && _); apply quietly_ret.
    + by intros st _ [].
  - intros e i. cbn [tryGetAt].
    eapply (quietly_bind _
              (fun o st => forall g, _tryGetAt o = Some g -> quiet_get st g)).
    + apply quietly_get_enum.
    + intros st o st' Hok He _ [-> Ho] g Hg.
      destruct (seekable_lookup st e o Hok He Ho) as (_ & Hq & _).
      by apply Hq.
    + intros o. destruct (_tryGetAt o) as [g|]; [|apply quietly_throw].
      eapply quietly_pre; [|apply (IH1 g)]. intros st _ H. by apply H.
Qed.

Lemma quietly_mapM {A B} (P : state -> Prop) (f : A -> M B) l :
  (forall st st', P st -> stable st st' -> P st') ->
  (forall x, quietly P (f x) (fun _ _ _ => True)) ->
  quietly P (mapM f l) (fun _ _ _ => True).
Proof.
  intros HP Hf. induction l as [|x l IH]; simpl; [apply quietly_ret|].
  eapply (quietly_bind _ (fun _ => P)); [apply Hf| |].
  - intros st y st' _ H HS _. by eapply HP.
  - intros y. eapply (quietly_bind _ (fun _ _ => True)); [apply IH|done|].
    intros ys. apply quietly_ret.
Qed.

(** [_ensureInternalTryGetAt] on a seekable object, then the object. *)
Lemma quietly_resolved {B} fuel this (k : Enumerable -> M B) :
  (forall o, _canSeek o = true ->
     quietly (fun st => seekable st this) (k o) (fun _ _ _ => True)) ->
  quietly (fun st => seekable st this)
    (do! _ensureInternalTryGetAt fuel this in
     let! o := get_enum this in k o)
    (fun _ _ _ => True).
Proof.
  intros Hk.
  eapply (quietly_bind _ (fun _ st => seekable st this)).
  - apply quietly_intro;
      [apply sk_ensureInternalTryGetAt|apply deferred_ensureInternalTryGetAt].
  - intros st x st' _ He HS _. by eapply seekable_stable.
  - intros _.
    eapply (quietly_bind _
              (fun o st => seekable st this /\ _canSeek o = true)).
    + apply quietly_get_enum.
    + intros st o st' Hok He _ [-> Ho]. split; [done|].
      by destruct (seekable_lookup st this o Hok He Ho) as (? & _).
    + intros o st Hok [He Hs]. by apply Hk.
Qed.

Lemma quietly_elementAt fuel this i :
  quietly (fun st => seekable st this) (Linqer.elementAt fuel this i)
    (fun _ _ _ => True).
Proof.
  unfold Linqer.elementAt.
  eapply (quietly_bind _ (fun _ st => seekable st this)).
  - apply quietly_intro;
      [apply sk_ensureInternalTryGetAt|apply deferred_ensureInternalTryGetAt].
  - intros st x st' _ He HS _. by eapply seekable_stable.
  - intros _. eapply (quietly_bind _ (fun _ _ => True));
      [apply quietly_tryGetAt|done|].
    intros [v|]; [apply quietly_ret|apply quietly_throw].
Qed.

Lemma quietly_elementAtOrDefault fuel this i :
  quietly (fun st => seekable st this) (Linqer.elementAtOrDefault fuel this i)
    (fun _ _ _ => True).
Proof.
  unfold Linqer.elementAtOrDefault.
  eapply (quietly_bind _ (fun _ st => seekable st this)).
  - apply quietly_intro;
      [apply sk_ensureInternalTryGetAt|apply deferred_ensureInternalTryGetAt].
  - intros st x st' _ He HS _. by eapply seekable_stable.
  - intros _. eapply (quietly_bind _ (fun _ _ => True));
      [apply quietly_tryGetAt|done|].
    intros [v|]; apply quietly_ret.
Qed.

Lemma quietly_length fuel this :
  quietly (fun st => seekable st this) (Linqer.length fuel this)
    (fun _ _ _ => True).
Proof.
  unfold Linqer.length. apply quietly_resolved. intros o ->.
  apply quietly_count.
Qed.

Lemma quietly_last fuel this :
  quietly (fun st => seekable st this) (Linqer.last fuel this)
    (fun _ _ _ => True).
Proof.
  unfold Linqer.last. apply quietly_resolved. intros o ->.
  eapply (quietly_bind _ (fun _ st => seekable st this)).
  - apply quietly_count.
  - intros st x st' _ He HS _. by eapply seekable_stable.
  - intros n. apply quietly_elementAt.
Qed.

Lemma quietly_lastOrDefault fuel this :
  quietly (fun st => seekable st this) (Linqer.lastOrDefault fuel this)
    (fun _ _ _ => True).
Proof.
  unfold Linqer.lastOrDefault. apply quietly_resolved. intros o ->.
  eapply (quietly_bind _ (fun _ st => seekable st this)).
  - apply quietly_count.
  - intros st x st' _ He HS _. by eapply seekable_stable.
  - intros n. apply quietly_elementAtOrDefault.
Qed.

Lemma quietly_toArray fuel this :
  quietly (fun st => seekable st this) (Linqer.toArray fuel this)
    (fun _ _ _ => True).
Proof.
  unfold Linqer.toArray. apply quietly_resolved. intros o ->.
  eapply (quietly_bind _ (fun _ st => seekable st this)).
  - apply quietly_count.
  - intros st x st' _ He HS _. by eapply seekable_stable.
  - intros n. destruct (n <? 0); [apply quietly_throw|].
    apply quietly_mapM.
    + intros st st' He HS. by eapply seekable_stable.
    + intros i. eapply (quietly_bind _ (fun _ _ => True));
        [apply quietly_tryGetAt|done|]. intros r. apply quietly_ret.
Qed.

Lemma quietly_toList fuel this :
  quietly (fun st => seekable st this) (Linqer.toList fuel this)
    (fun _ _ _ => True).
Proof.
  unfold Linqer.toList. apply quietly_resolved. intros o ->.
  apply quietly_ret.
Qed.

Lemma quietly_runs {A} (P : state -> Prop) (m : M A) Q st :
  quietly P m Q -> seek_ok st -> P st -> without_iterating st m.
Proof.
  intros Hm Hok HP. specialize (Hm st Hok HP). unfold without_iterating.
  destruct (m st) as [a st'|err st'|]; [| |done].
  - by destruct Hm as (_ & _ & ? & _).
  - by destruct Hm as (_ & _ & ?).
Qed.

(** A seekable Handle answers [count], [length], the lookups by position,
    [toArray] and [toList] without iterating anything: no iterator is
    called and no [_wasIterated] changes, whether the call returns or
    throws. *)
Theorem seekable_is_never_iterated N p fuel st this :
  run N fuel p init = Some st -> seekable st this ->
  forall fuel' index,
    without_iterating st (count fuel' this) /\
    without_iterating st (Linqer.length fuel' this) /\
    without_iterating st (Linqer.elementAt fuel' this index) /\
    without_iterating st (Linqer.elementAtOrDefault fuel' this index) /\
    without_iterating st (Linqer.first fuel' this) /\
    without_iterating st (Linqer.firstOrDefault fuel' this) /\
    without_iterating st (Linqer.last fuel' this) /\
    without_iterating st (Linqer.lastOrDefault fuel' this) /\
    without_iterating st (Linqer.toArray fuel' this) /\
    without_iterating st (Linqer.toList fuel' this).
Proof.
  intros Hrun Hsk fuel' index.
  assert (Hok : seek_ok st)
    by (eapply run_seek_ok; [apply seek_ok_init|exact Hrun]).
  split_and!;
    apply (quietly_runs (fun st => seekable st this) _ (fun _ _ _ => True));
    try done.
  - apply quietly_count.
  - apply quietly_length.
  - apply quietly_elementAt.
  - apply quietly_elementAtOrDefault.
  - apply quietly_elementAt.
  - apply quietly_elementAtOrDefault.
  - apply quietly_last.
  - apply quietly_lastOrDefault.
  - apply quietly_toArray.
  - apply quietly_toList.
Qed.

Lemma run_seek_stable N fuel p :
  forall st st', seek_ok st -> run N fuel p st = Some st' -> stable st st'.
Proof.
  induction p as [|c p IH]; intros st st' Hok Hrun; simpl in Hrun.
  - injection Hrun as <-. apply stable_refl.
  - destruct (call_wf _ c) eqn:Hwf; [|done].
    pose proof (sk_exec N fuel c st Hok Hwf) as H.
    destruct (exec N fuel c st) as [[] st1|err st1|]; [| |done];
      destruct H as [Hok1 HS1]; (eapply stable_trans; [exact HS1|]);
      by eapply IH.
Qed.

(** [length] is the test of seekability: when it returns, it has iterated
    nothing and its Handle is seekable, and stays so whatever is called
    afterwards. *)
Theorem length_tells_seekable N p fuel st this fuel1 n st1 p' fuel2 st2 :
  run N fuel p init = Some st ->
  Linqer.length fuel1 this st = Ok n st1 ->
  run N fuel2 p' st1 = Some st2 ->
  nothing_iterated st st1 /\ seekable st2 this.
Proof.
  intros Hrun Hlen Hrun'.
  assert (Hok : seek_ok st)
    by (eapply run_seek_ok; [apply seek_ok_init|exact Hrun]).
  unfold Linqer.length in Hlen. unfold bind at 1 in Hlen.
  pose proof (sk_ensureInternalTryGetAt fuel1 this st Hok) as H.
  pose proof (deferred_ensureInternalTryGetAt fuel1 this st) as HN.
  destruct (_ensureInternalTryGetAt fuel1 this st) as [[] sta|err sta|];
    [|done|done].
  destruct H as (Hoka & HSa & _ & (o & g & Ho & Hg)).
  unfold bind at 1, get_enum at 1 in Hlen. rewrite Ho in Hlen.
  destruct (_canSeek o) eqn:Hs; [|done].
  assert (Hsk : seekable sta this) by (by exists o, g).
  pose proof (proj2 (quietly_count fuel1) this sta Hoka Hsk) as H.
  rewrite Hlen in H. destruct H as (Hok1 & HS1 & HN1 & _). split.
  - by eapply nothing_iterated_trans.
  - eapply seekable_stable; [by eapply run_seek_stable|].
    by eapply seekable_stable.
Qed.

(** * Instances *)

(** The resolvers of the Handle of [Enumerable.from([1, 2, 3])]. *)
Lemma resolution_is_memoized_witness :
  run no_numbers 9%nat prog_123 init = Some st_123 /\
  (0%nat < length (heap st_123))%nat /\
  ((exists st1 o1 g,
     evals (fun f => _ensureInternalTryGetAt f 0%nat) st_123 tt st1 /\
     heap st1 !! 0%nat = Some o1 /\ _tryGetAt o1 = Some g /\
     (forall f, _ensureInternalTryGetAt (S f) 0%nat st1 = Ok tt st1) /\
     (forall p' fuel' st', run no_numbers fuel' p' st1 = Some st' ->
        exists o', heap st' !! 0%nat = Some o' /\
                   _tryGetAt o' = Some g /\ _canSeek o' = _canSeek o1 /\
                   forall f, _ensureInternalTryGetAt (S f) 0%nat st' = Ok tt st')) /\
  (exists st1 o1 c,
     evals (fun f => _ensureInternalCount f 0%nat) st_123 tt st1 /\
     heap st1 !! 0%nat = Some o1 /\ _count o1 = Some c /\
     (forall f, _ensureInternalCount (S f) 0%nat st1 = Ok tt st1) /\
     (forall p' fuel' st', run no_numbers fuel' p' st1 = Some st' ->
        exists o', heap st' !! 0%nat = Some o' /\ _count o' = Some c /\
                   forall f, _ensureInternalCount (S f) 0%nat st' = Ok tt st'))).
Proof.
  split; [vm_compute; reflexivity|].
  split; [simpl; lia|].
  apply (resolution_is_memoized no_numbers prog_123 9%nat st_123 0%nat); [vm_compute; reflexivity|simpl; lia].
Defined.

(** [take(2)] and [skip(2)] over [Enumerable.from([1, 2, 3])]. *)
Lemma take_skip_count_and_seek_witness :
  run no_numbers 9%nat prog_123 init = Some st_123 /\
  (0%nat < length (heap st_123))%nat /\
  0 <= 2 /\
  (exists cH,
    (exists st', evals (fun f => count f 0%nat) st_123 cH st') /\
    (exists t st1,
       evals (fun f => Linqer.take f 0%nat 2) st_123 t st1 /\
       (exists st2, evals (fun f => count f t) st1 (Z.min 2 cH) st2) /\
       same_seek st1 t 0%nat) /\
    (exists s st1,
       evals (fun f => Linqer.skip f 0%nat 2) st_123 s st1 /\
       (exists st2, evals (fun f => count f s) st1 (Z.max 0 (cH - 2)) st2) /\
       same_seek st1 s 0%nat)).
Proof.
  split; [vm_compute; reflexivity|].
  split; [simpl; lia|].
  split; [lia|].
  apply (take_skip_count_and_seek no_numbers prog_123 9%nat st_123 0%nat 2); [vm_compute; reflexivity|simpl; lia|lia].
Defined.


(** The aggregates of [Enumerable.from([1, 2, 3])]. *)
Lemma aggregates_over_items_witness :
  run no_numbers 9%nat prog_123 init = Some st_123 /\
  (0%nat < length (heap st_123))%nat /\
  (exists items,
    (exists st', evals (fun f => iterate f 0%nat) st_123 items st') /\
    (exists s st', evals (fun f => Linqer.sumAndCount f 0%nat) st_123 s st' /\
       Linqer.sc_count s = Z.of_nat (length items) /\
       (Exists (fun v => Linqer._toNumber v = VNaN) items ->
        Linqer.sc_sum s = VNaN) /\
       (forall zs, items = VNum <$> zs -> sum_abs zs <= max_safe ->
        Linqer.sc_sum s = VNum (fold_right Z.add 0 zs))) /\
    (exists v st', evals (fun f => Linqer.sum f 0%nat) st_123 v st' /\
       (items = [] -> v = VUndefined) /\
       (Exists (fun v => Linqer._toNumber v = VNaN) items -> v = VNaN) /\
       (forall zs, items = VNum <$> zs -> zs <> [] -> sum_abs zs <= max_safe ->
        v = VNum (fold_right Z.add 0 zs))) /\
    (forall v, truthy v = true ->
       throws (fun f => Linqer.stats no_numbers f 0%nat (ArgValue v)) st_123
         InvalidOperationArgumentError st_123 /\
       throws (fun f => Linqer.min no_numbers f 0%nat (ArgValue v)) st_123
         InvalidOperationArgumentError st_123 /\
       throws (fun f => Linqer.max no_numbers f 0%nat (ArgValue v)) st_123
         InvalidOperationArgumentError st_123) /\
    (forall comparer,
       (forall v, comparer = ArgValue v -> truthy v = false) ->
       exists s st',
         evals (fun f => Linqer.stats no_numbers f 0%nat comparer) st_123 s st' /\
         evals (fun f => Linqer.min no_numbers f 0%nat comparer) st_123
           (match items with [] => VUndefined | _ => Linqer.st_min s end) st' /\
         evals (fun f => Linqer.max no_numbers f 0%nat comparer) st_123
           (match items with [] => VUndefined | _ => Linqer.st_max s end) st' /\
         Linqer.st_count s = Z.of_nat (length items) /\
         or_item items (Linqer.st_min s) /\ or_item items (Linqer.st_max s) /\
         (items = [] -> s = Linqer.mkStats 0 VUndefined VUndefined) /\
         (items <> [] -> VUndefined ∉ items ->
          Linqer.st_min s ∈ items /\ Linqer.st_max s ∈ items /\
          forall key, orders_by (comparer_of no_numbers comparer) key items ->
            forall x, x ∈ items ->
              key (Linqer.st_min s) <= key x <= key (Linqer.st_max s)))).
Proof.
  split; [vm_compute; reflexivity|].
  split; [simpl; lia|].
  apply (aggregates_over_items no_numbers prog_123 9%nat st_123 0%nat); [vm_compute; reflexivity|simpl; lia].
Defined.




(** The number [5] is not a source; the array [[1, 2, 3]] is one. *)
Lemma construction_contract_witness :
  has_iterator (SrcPrim (VNum 5)) = false /\
  is_generator_function (SrcPrim (VNum 5)) = false /\
  (Linqer.new (SrcPrim (VNum 5)) init = Throw InvalidSourceError init /\
   Linqer.from (SrcPrim (VNum 5)) init = Throw InvalidSourceError init) /\
  Linqer.new (SrcArray arr123) init = Ok 0%nat st_123 /\
  (log st_123 = log init /\ 0%nat = length (heap init) /\
   exists o, heap st_123 = heap init ++ [o] /\ _src o = SrcArray arr123 /\
             _wasIterated o = false /\ _count o = None /\
             _tryGetAt o = None).
Proof.
  split; [reflexivity|]. split; [reflexivity|].
  split; [apply (construction_contract (SrcPrim (VNum 5)) init); reflexivity|].
  split; [vm_compute; reflexivity|].
  apply (construction_contract (SrcArray arr123) init).
  vm_compute; reflexivity.
Defined.

(** [Enumerable.range(5, 3)] after [Enumerable.from([1, 2, 3])]. *)
Lemma range_sequence_witness :
  (run no_numbers 9%nat prog_123 init = Some st_123) /\
  (0 <= 3 < max_array) /\
  (- max_safe <= 5) /\
  (5 + 3 <= max_safe) /\
  (let numbers := (fun i => VNum (5 + i)) <$> seqZ 0 3 in
  exists r st1,
    evals (fun _ => Linqer.range 5 3) st_123 r st1 /\
    (exists st2, evals (fun f => iterate f r) st1 numbers st2) /\
    (exists st2, evals (fun f => Linqer.toArray f r) st1 numbers st2) /\
    (exists st2, evals (fun f => count f r) st1 3 st2) /\
    (exists st2, evals (fun f => Linqer.length f r) st1 3 st2) /\
    (forall i, 0 <= i < 3 ->
       exists st2, evals (fun f => Linqer.elementAt f r i) st1
                     (VNum (5 + i)) st2) /\
    (forall i, i < 0 \/ 3 <= i ->
       (exists st2, throws (fun f => Linqer.elementAt f r i) st1
                      IndexOutOfRangeError st2) /\
       (exists st2, evals (fun f => Linqer.elementAtOrDefault f r i) st1
                      VUndefined st2)) /\
    (0 < 3 ->
       (exists st2, evals (fun f => Linqer.first f r) st1 (VNum 5) st2) /\
       (exists st2, evals (fun f => Linqer.last f r) st1
                      (VNum (5 + (3 - 1))) st2))).
Proof.
  split; [vm_compute; reflexivity|].
  split; [unfold max_array; lia|].
  split; [unfold max_safe; lia|].
  split; [unfold max_safe; lia|].
  apply (range_sequence no_numbers prog_123 9%nat st_123 5 3);
    [vm_compute; reflexivity
    |unfold max_array; lia
    |unfold max_safe; lia
    |unfold max_safe; lia].
Defined.

(** [Enumerable.repeat(7, 2)] after [Enumerable.from([1, 2, 3])]. *)
Lemma repeat_sequence_witness :
  (run no_numbers 9%nat prog_123 init = Some st_123) /\
  (0 <= 2 < max_array) /\
  (let copies := replicate (Z.to_nat 2) (VNum 7) in
  exists r st1,
    evals (fun _ => Linqer.repeat (VNum 7) 2) st_123 r st1 /\
    (exists st2, evals (fun f => iterate f r) st1 copies st2) /\
    (exists st2, evals (fun f => Linqer.toArray f r) st1 copies st2) /\
    (exists st2, evals (fun f => count f r) st1 2 st2) /\
    (exists st2, evals (fun f => Linqer.length f r) st1 2 st2) /\
    (forall i, 0 <= i < 2 ->
       exists st2, evals (fun f => Linqer.elementAt f r i) st1 (VNum 7) st2) /\
    (forall i, i < 0 \/ 2 <= i ->
       (exists st2, throws (fun f => Linqer.elementAt f r i) st1
                      IndexOutOfRangeError st2) /\
       (exists st2, evals (fun f => Linqer.elementAtOrDefault f r i) st1
                      VUndefined st2))).
Proof.
  split; [vm_compute; reflexivity|].
  split; [unfold max_array; lia|].
  apply (repeat_sequence no_numbers prog_123 9%nat st_123 (VNum 7) 2);
    [vm_compute; reflexivity
    |unfold max_array; lia].
Defined.

(** [Enumerable.range(5, -3)] and [Enumerable.repeat(7, -3)]. *)
Lemma negative_count_witness :
  (run no_numbers 9%nat prog_123 init = Some st_123) /\
  ((-3) < 0) /\
  ((exists r st1,
     evals (fun _ => Linqer.range 5 (-3)) st_123 r st1 /\
     (exists st2, evals (fun f => iterate f r) st1 [] st2) /\
     (exists st2, evals (fun f => count f r) st1 (-3) st2) /\
     (exists st2, evals (fun f => Linqer.length f r) st1 (-3) st2) /\
     (exists st2, throws (fun f => Linqer.toArray f r) st1 RangeError st2)) /\
  (exists r st1,
     evals (fun _ => Linqer.repeat (VNum 7) (-3)) st_123 r st1 /\
     (exists st2, evals (fun f => iterate f r) st1 [] st2) /\
     (exists st2, evals (fun f => count f r) st1 (-3) st2) /\
     (exists st2, evals (fun f => Linqer.length f r) st1 (-3) st2) /\
     (exists st2, throws (fun f => Linqer.toArray f r) st1 RangeError st2))).
Proof.
  split; [vm_compute; reflexivity|].
  split; [lia|].
  apply (negative_count no_numbers prog_123 9%nat st_123 5 (VNum 7) (-3));
    [vm_compute; reflexivity
    |lia].
Defined.

(** [Enumerable.empty()] after [Enumerable.from([1, 2, 3])]. *)
Lemma empty_sequence_witness :
  (run no_numbers 9%nat prog_123 init = Some st_123) /\
  (exists r st1,
    evals (fun _ => Linqer.empty) st_123 r st1 /\
    (exists st2, evals (fun f => iterate f r) st1 [] st2) /\
    (exists st2, evals (fun f => Linqer.toArray f r) st1 [] st2) /\
    (exists st2, evals (fun f => count f r) st1 0 st2) /\
    (exists st2, evals (fun f => Linqer.length f r) st1 0 st2) /\
    (forall i,
       (exists st2, throws (fun f => Linqer.elementAt f r i) st1
                      IndexOutOfRangeError st2) /\
       (exists st2, evals (fun f => Linqer.elementAtOrDefault f r i) st1
                      VUndefined st2)) /\
    (exists st2, throws (fun f => Linqer.first f r) st1
                   IndexOutOfRangeError st2) /\
    (exists st2, throws (fun f => Linqer.last f r) st1
                   IndexOutOfRangeError st2) /\
    (exists st2, evals (fun f => Linqer.firstOrDefault f r) st1 VUndefined st2) /\
    (exists st2, evals (fun f => Linqer.lastOrDefault f r) st1 VUndefined st2)).
Proof.
  split; [vm_compute; reflexivity|].
  apply (empty_sequence no_numbers prog_123 9%nat st_123);
    [vm_compute; reflexivity].
Defined.



(** [where] with a condition that holds of everything, over [Enumerable.from([1, 2, 3])]. *)
Lemma where_filters_witness :
  (run no_numbers 9%nat prog_123 init = Some st_123) /\
  ((0%nat < length (heap st_123))%nat) /\
  (exists items w st1 o,
    (exists st', evals (fun f => iterate f 0%nat) st_123 items st') /\
    (forall f, Linqer.where_ f 0%nat (fun _ _ : value => true) st_123 = Ok w st1) /\
    heap st1 = heap st_123 ++ [o] /\ log st1 = log st_123 /\
    let kept := where_items (fun _ _ : value => true) 0 items in
    sublist kept items /\
    (forall c : value -> bool,
       (forall v i, (fun _ _ : value => true) v i = c v) -> kept = List.filter c items) /\
    (exists st2, evals (fun f => iterate f w) st1 kept st2) /\
    (exists st2, evals (fun f => Linqer.toArray f w) st1 kept st2) /\
    (exists st2, evals (fun f => count f w) st1
                   (Z.of_nat (length kept)) st2) /\
    (exists st2, throws (fun f => Linqer.length f w) st1
                   UnsupportedEagerAccessError st2) /\
    (forall i v, 0 <= i -> kept !! Z.to_nat i = Some v ->
       exists st2, evals (fun f => Linqer.elementAt f w i) st1 v st2) /\
    (forall i, i < 0 \/ Z.of_nat (length kept) <= i ->
       exists st2, throws (fun f => Linqer.elementAt f w i) st1
                     IndexOutOfRangeError st2)).
Proof.
  split; [vm_compute; reflexivity|].
  split; [simpl; lia|].
  apply (where_filters no_numbers prog_123 9%nat st_123 0%nat (fun _ _ : value => true));
    [vm_compute; reflexivity
    |simpl; lia].
Defined.







(** The aggregates of [Enumerable.from([1, 2, 3])]. *)
Lemma aggregates_of_numbers_witness :
  ((exists st', evals (fun f => iterate f 0%nat) st_123 (VNum <$> [1; 2; 3]) st')) /\
  (sum_abs [1; 2; 3] <= max_safe) /\
  ((exists st', evals (fun f => Linqer.sumAndCount f 0%nat) st_123
     (Linqer.mkSumAndCount (VNum (fold_right Z.add 0 [1; 2; 3]))
        (Z.of_nat (length [1; 2; 3]))) st') /\
  ([1; 2; 3] <> [] ->
   (exists st', evals (fun f => Linqer.sum f 0%nat) st_123
                  (VNum (fold_right Z.add 0 [1; 2; 3])) st') /\
   exists lo hi,
     lo ∈ [1; 2; 3] /\ hi ∈ [1; 2; 3] /\ (forall z, z ∈ [1; 2; 3] -> lo <= z <= hi) /\
     (exists st', evals (fun f => Linqer.min no_numbers f 0%nat (ArgValue VUndefined)) st_123 (VNum lo) st') /\
     (exists st', evals (fun f => Linqer.max no_numbers f 0%nat (ArgValue VUndefined)) st_123 (VNum hi) st') /\
     (exists st', evals (fun f => Linqer.stats no_numbers f 0%nat (ArgValue VUndefined)) st_123
        (Linqer.mkStats (Z.of_nat (length [1; 2; 3])) (VNum lo) (VNum hi)) st'))).
Proof.
  split; [eexists; apply (evals_of_run _ 9%nat); [intros; by apply iterate_mono|vm_compute; reflexivity]|].
  split; [unfold max_safe; simpl; lia|].
  apply (aggregates_of_numbers no_numbers st_123 0%nat [1; 2; 3]);
    [eexists; apply (evals_of_run _ 9%nat); [intros; by apply iterate_mono|vm_compute; reflexivity]
    |unfold max_safe; simpl; lia].
Defined.

(** The string ["abc"] as a source. *)
Lemma string_source_witness :
  (run no_numbers 9%nat prog_123 init = Some st_123) /\
  (let len := Z.of_nat (String.length "abc"%string) in
  ("abc"%string = EmptyString ->
   Linqer.new (SrcPrim (VStr "abc"%string)) st_123 = Throw InvalidSourceError st_123 /\
   Linqer.from (SrcPrim (VStr "abc"%string)) st_123 = Throw InvalidSourceError st_123 /\
   forall f this, Linqer.concat f this (SrcPrim (VStr "abc"%string)) st_123 =
               Throw InvalidSourceError st_123) /\
  ("abc"%string <> EmptyString ->
   exists r st1,
     evals (fun _ => Linqer.from (SrcPrim (VStr "abc"%string))) st_123 r st1 /\
     (exists st2, evals (fun f => count f r) st1 len st2) /\
     (exists st2, evals (fun f => Linqer.length f r) st1 len st2) /\
     (forall i, i < len ->
        exists st2, evals (fun f => Linqer.elementAt f r i) st1
                      (VStr (charAt "abc"%string i)) st2) /\
     (forall i, len <= i ->
        (exists st2, throws (fun f => Linqer.elementAt f r i) st1
                       IndexOutOfRangeError st2) /\
        (exists st2, evals (fun f => Linqer.elementAtOrDefault f r i) st1
                       VUndefined st2)) /\
     (len < max_array ->
      exists st2, evals (fun f => Linqer.toArray f r) st1
                    ((fun k => VStr (charAt "abc"%string k)) <$> seqZ 0 len) st2))).
Proof.
  split; [vm_compute; reflexivity|].
  apply (string_source no_numbers prog_123 9%nat st_123 "abc"%string);
    [vm_compute; reflexivity].
Defined.

(** The array [[4, 5]] as a source. *)
Lemma array_source_witness :
  (run no_numbers 9%nat prog_123 init = Some st_123) /\
  (exists r st1,
    evals (fun _ => Linqer.from (SrcArray [VNum 4; VNum 5])) st_123 r st1 /\
    (exists st2, evals (fun f => iterate f r) st1 [VNum 4; VNum 5] st2) /\
    (exists st2, evals (fun f => Linqer.toArray f r) st1 [VNum 4; VNum 5] st2) /\
    (exists st2, evals (fun f => count f r) st1 (Z.of_nat (length [VNum 4; VNum 5])) st2) /\
    (exists st2, evals (fun f => Linqer.length f r) st1
                   (Z.of_nat (length [VNum 4; VNum 5])) st2) /\
    (forall k v, [VNum 4; VNum 5] !! k = Some v ->
       exists st2, evals (fun f => Linqer.elementAt f r (Z.of_nat k)) st1 v st2) /\
    (forall i, i < 0 \/ Z.of_nat (length [VNum 4; VNum 5]) <= i ->
       (exists st2, throws (fun f => Linqer.elementAt f r i) st1
                      IndexOutOfRangeError st2) /\
       (exists st2, evals (fun f => Linqer.elementAtOrDefault f r i) st1
                      VUndefined st2))).
Proof.
  split; [vm_compute; reflexivity|].
  apply (array_source no_numbers prog_123 9%nat st_123 [VNum 4; VNum 5]);
    [vm_compute; reflexivity].
Defined.

(** A [Set] of [4] and [5] as a source. *)
Lemma unseekable_sources_witness :
  (run no_numbers 9%nat prog_123 init = Some st_123) /\
  ((SrcSet [VNum 4; VNum 5]) = SrcGenFn (GenUser [VNum 4; VNum 5]) \/ (SrcSet [VNum 4; VNum 5]) = SrcSet [VNum 4; VNum 5]) /\
  (exists r st1,
    evals (fun _ => Linqer.from (SrcSet [VNum 4; VNum 5])) st_123 r st1 /\
    (exists st2, throws (fun f => Linqer.length f r) st1
                   UnsupportedEagerAccessError st2) /\
    (exists st2, evals (fun f => count f r) st1 (Z.of_nat (length [VNum 4; VNum 5])) st2) /\
    (exists st2, evals (fun f => iterate f r) st1 [VNum 4; VNum 5] st2) /\
    (exists st2, evals (fun f => Linqer.toArray f r) st1 [VNum 4; VNum 5] st2) /\
    (forall k v, [VNum 4; VNum 5] !! k = Some v ->
       exists st2, evals (fun f => Linqer.elementAt f r (Z.of_nat k)) st1 v st2) /\
    (forall i, i < 0 \/ Z.of_nat (length [VNum 4; VNum 5]) <= i ->
       exists st2, throws (fun f => Linqer.elementAt f r i) st1
                     IndexOutOfRangeError st2) /\
    ([VNum 4; VNum 5] = [] ->
       exists st2, throws (fun f => Linqer.last f r) st1
                     EmptySequenceError st2)).
Proof.
  split; [vm_compute; reflexivity|].
  split; [right; reflexivity|].
  apply (unseekable_sources no_numbers prog_123 9%nat st_123 [VNum 4; VNum 5] (SrcSet [VNum 4; VNum 5]));
    [vm_compute; reflexivity
    |right; reflexivity].
Defined.

(** [new Enumerable(Enumerable.from([1, 2, 3]))]. *)
Lemma wrapper_is_transparent_witness :
  (run no_numbers 9%nat prog_123 init = Some st_123) /\
  ((0%nat < length (heap st_123))%nat) /\
  (exists w st1,
    evals (fun _ => Linqer.new (SrcEnum 0%nat)) st_123 w st1 /\ w = length (heap st_123) /\
    (exists items,
       (exists st2, evals (fun f => iterate f 0%nat) st1 items st2) /\
       (exists st2, evals (fun f => iterate f w) st1 items st2)) /\
    (exists c,
       (exists st2, evals (fun f => count f 0%nat) st1 c st2) /\
       (exists st2, evals (fun f => count f w) st1 c st2) /\
       (((exists st2, evals (fun f => Linqer.length f 0%nat) st1 c st2) /\
         (exists st2, evals (fun f => Linqer.length f w) st1 c st2)) \/
        ((exists st2, throws (fun f => Linqer.length f 0%nat) st1
                        UnsupportedEagerAccessError st2) /\
         (exists st2, throws (fun f => Linqer.length f w) st1
                        UnsupportedEagerAccessError st2)))) /\
    (forall i,
       (exists v,
          (exists st2, evals (fun f => Linqer.elementAt f 0%nat i) st1 v st2) /\
          (exists st2, evals (fun f => Linqer.elementAt f w i) st1 v st2)) \/
       ((exists st2, throws (fun f => Linqer.elementAt f 0%nat i) st1
                       IndexOutOfRangeError st2) /\
        (exists st2, throws (fun f => Linqer.elementAt f w i) st1
                       IndexOutOfRangeError st2))) /\
    ((exists arr,
        (exists st2, evals (fun f => Linqer.toArray f 0%nat) st1 arr st2) /\
        (exists st2, evals (fun f => Linqer.toArray f w) st1 arr st2)) \/
     ((exists st2, throws (fun f => Linqer.toArray f 0%nat) st1 RangeError st2) /\
      (exists st2, throws (fun f => Linqer.toArray f w) st1 RangeError st2)))).
Proof.
  split; [vm_compute; reflexivity|].
  split; [simpl; lia|].
  apply (wrapper_is_transparent no_numbers prog_123 9%nat st_123 0%nat);
    [vm_compute; reflexivity
    |simpl; lia].
Defined.


(** The lookup at [3] in [Enumerable.from([1, 2, 3])]. *)
Lemma lookup_past_the_end_witness :
  (Forall (polite true) prog_123) /\
  (run no_numbers 9%nat prog_123 init = Some st_123) /\
  ((0%nat < length (heap st_123))%nat) /\
  (exists c,
    (exists st', evals (fun f => count f 0%nat) st_123 c st') /\
    (c <= 3 ->
     (exists st', throws (fun f => Linqer.elementAt f 0%nat 3) st_123
                    IndexOutOfRangeError st') /\
     (exists st', evals (fun f => Linqer.elementAtOrDefault f 0%nat 3) st_123
                    VUndefined st'))).
Proof.
  split; [repeat constructor|].
  split; [vm_compute; reflexivity|].
  split; [simpl; lia|].
  apply (lookup_past_the_end no_numbers prog_123 9%nat st_123 0%nat 3);
    [repeat constructor
    |vm_compute; reflexivity
    |simpl; lia].
Defined.

(** [distinct()] over [Enumerable.from([1, 2, 3])]. *)
Lemma distinct_yields_witness :
  (run no_numbers 9%nat prog_123 init = Some st_123) /\
  ((0%nat < length (heap st_123))%nat) /\
  (exists items,
    (exists st', evals (fun f => iterate f 0%nat) st_123 items st') /\
    (exists st', evals (fun f => run_distinct f 0%nat EqualityComparer_default) st_123
                   (distinct_items EqualityComparer_default items) st') /\
    sublist (distinct_items EqualityComparer_default items) items /\
    (EqualityComparer_default = EqualityComparer_default ->
       NoDup (distinct_items EqualityComparer_default items) /\
       forall x, x ∈ distinct_items EqualityComparer_default items <-> x ∈ items) /\
    (forall f l1 y l2,
       EqualityComparer_default = OtherComparer f \/ (EqualityComparer_default = EqualityComparer_exact /\ f = strict_equal) ->
       distinct_items EqualityComparer_default items = l1 ++ y :: l2 ->
       forall x, x ∈ l1 -> f y x = false) /\
    (EqualityComparer_default = EqualityComparer_exact ->
       (VNaN ∉ items ->
        distinct_items EqualityComparer_default items = distinct_items EqualityComparer_default items) /\
       (forall k, items !! k = Some VNaN ->
          exists j, distinct_items EqualityComparer_default items !! j = Some VNaN))).
Proof.
  split; [vm_compute; reflexivity|].
  split; [simpl; lia|].
  apply (distinct_yields no_numbers prog_123 9%nat st_123 0%nat EqualityComparer_default);
    [vm_compute; reflexivity
    |simpl; lia].
Defined.

(** [Enumerable.range(1, 3)] is seekable from the start. *)
Lemma seekable_is_never_iterated_witness :
  (run no_numbers 9%nat prog_range init = Some st_range) /\
  (seekable st_range 0%nat) /\
  (forall fuel' index,
    without_iterating st_range (count fuel' 0%nat) /\
    without_iterating st_range (Linqer.length fuel' 0%nat) /\
    without_iterating st_range (Linqer.elementAt fuel' 0%nat index) /\
    without_iterating st_range (Linqer.elementAtOrDefault fuel' 0%nat index) /\
    without_iterating st_range (Linqer.first fuel' 0%nat) /\
    without_iterating st_range (Linqer.firstOrDefault fuel' 0%nat) /\
    without_iterating st_range (Linqer.last fuel' 0%nat) /\
    without_iterating st_range (Linqer.lastOrDefault fuel' 0%nat) /\
    without_iterating st_range (Linqer.toArray fuel' 0%nat) /\
    without_iterating st_range (Linqer.toList fuel' 0%nat)).
Proof.
  split; [vm_compute; reflexivity|].
  split; [by eexists _, _|].
  apply (seekable_is_never_iterated no_numbers prog_range 9%nat st_range 0%nat);
    [vm_compute; reflexivity
    |by eexists _, _].
Defined.

(** [length] of [Enumerable.from([1, 2, 3])], and one more call after it. *)
Lemma length_tells_seekable_witness :
  (run no_numbers 9%nat prog_123 init = Some st_123) /\
  (Linqer.length 9%nat 0%nat st_123 = Ok 3 st_123_length) /\
  (run no_numbers 9%nat prog_123 st_123_length = Some st_123_later) /\
  (nothing_iterated st_123 st_123_length /\ seekable st_123_later 0%nat).
Proof.
  split; [vm_compute; reflexivity|].
  split; [vm_compute; reflexivity|].
  split; [vm_compute; reflexivity|].
  apply (length_tells_seekable no_numbers prog_123 9%nat st_123 0%nat 9%nat 3 st_123_length prog_123 9%nat st_123_later);
    [vm_compute; reflexivity
    |vm_compute; reflexivity
    |vm_compute; reflexivity].
Defined.
